(** * VisualRag: ingestion pipeline, line clustering and region mapping

    A shallow embedding of the algorithmic core of the backend:

    - [TextExtractor]  : backend/src/pdf/textExtractor.ts
    - [LayoutAnalyzer] : backend/src/pdf/layoutAnalyzer.ts
    - [Pipeline]       : backend/src/pipeline/ingestionPipeline.ts
                         (with types.ts and progressEmitter.ts)
    - [Search]         : backend/src/index.ts (pickRegionIdsForText,
                         semanticSearch and the semantic search route)

    Conventions of the embedding.

    - A JavaScript number is an exact rational ([Q]): rounding and
      overflow are outside the model. The two accumulators that start at
      plus or minus infinity in the layout analyzer range over [JS.num],
      rationals extended with the two infinities. The layout analyzer
      tests its numbers with [Number.isFinite]; on rationals the test
      always passes. The two extractors are therefore modelled a second
      time, in [AnyNumber], over [Number.number], where a coordinate, a
      width or a height may be NaN or infinite and the test can fail; on
      finite numbers the two models agree ([extractPages_lift],
      [analyzePages_lift]).
    - A JavaScript string is the list of its UTF-16 code units.
    - A promise that rejects, or a statement that throws, is the [Throw]
      outcome of the [Outcome] type; [await] points of the queue driver
      are the boundaries between the transitions of [Pipeline].
    - What the collaborators answer (the PDF parser, the embedding
      service, the database) is read from a record of oracles. *)

From Stdlib Require Import QArith Qabs Qminmax Lia Lqa Sorted Permutation DecimalString.
From stdpp Require Import base list strings gmap.

(** ** Outcomes of fallible computations *)

Inductive Outcome (A : Type) : Type :=
| Ok (a : A)
| Throw (message : string).
Arguments Ok {A} a.
Arguments Throw {A} message.

(** ** JavaScript strings, arrays and numbers *)

Module JS.

Definition jsstring := list N.

Definition of_string (s : string) : jsstring :=
  map Ascii.N_of_ascii (String.list_ascii_of_string s).

(** The code units removed by [String.prototype.trim]: WhiteSpace and
    LineTerminator of the language specification. *)
Definition isWhiteSpace (c : N) : bool :=
  ((9 <=? c) && (c <=? 13) || (c =? 32) || (c =? 160) || (c =? 5760)
   || (8192 <=? c) && (c <=? 8202) || (c =? 8232) || (c =? 8233)
   || (c =? 8239) || (c =? 8287) || (c =? 12288) || (c =? 65279))%N.

Fixpoint trimStart (s : jsstring) : jsstring :=
  match s with
  | [] => []
  | c :: r => if isWhiteSpace c then trimStart r else s
  end.

Definition trimEnd (s : jsstring) : jsstring := rev (trimStart (rev s)).

Definition trim (s : jsstring) : jsstring := trimEnd (trimStart s).

(** [!s] for a string: the empty string is the only falsy one. *)
Definition isEmpty (s : jsstring) : bool :=
  match s with [] => true | _ => false end.

(** [segments.join(sep)] *)
Fixpoint join (sep : jsstring) (l : list jsstring) : jsstring :=
  match l with
  | [] => []
  | [s] => s
  | s :: r => s ++ sep ++ join sep r
  end.

Definition newline : N := 10%N.

(** [Array.prototype.sort(cmp)]: a stable sort; [a] stays before [b]
    when [cmp a b <= 0]. *)
Section Sort.
Context {A : Type} (cmp : A -> A -> Q).

Fixpoint insert (a : A) (l : list A) : list A :=
  match l with
  | [] => [a]
  | b :: r => if Qle_bool (cmp a b) 0 then a :: b :: r else b :: insert a r
  end.

Fixpoint sort (l : list A) : list A :=
  match l with
  | [] => []
  | a :: r => insert a (sort r)
  end.
End Sort.

(** Numbers with the two infinities, for accumulators initialised with
    [Number.POSITIVE_INFINITY] and [Number.NEGATIVE_INFINITY]. *)
Inductive num : Type :=
| NegInf
| Fin (q : Q)
| PosInf.

(** [a < m] for a finite [a] *)
Definition ltNum (a : Q) (m : num) : bool :=
  match m with
  | NegInf => false
  | Fin q => negb (Qle_bool q a)
  | PosInf => true
  end.

(** [a > m] for a finite [a] *)
Definition gtNum (a : Q) (m : num) : bool :=
  match m with
  | NegInf => true
  | Fin q => negb (Qle_bool a q)
  | PosInf => false
  end.

Definition isFinite (m : num) : bool :=
  match m with Fin _ => true | _ => false end.

(** [v || 1] for a number [v]: zero is falsy. *)
Definition orOne (v : Q) : Q := if Qeq_bool v 0 then 1 else v.

End JS.

Import JS.

(** ** What pdfjs hands to both extractors *)

Module Pdf.

(** An entry of [textContent.items]. [str] is [None] when the entry has
    no string [str] (marked content), [transform] is [None] when the
    entry has no transform; otherwise [transform] holds elements 4 and 5
    of the matrix, six numbers in pdfjs. [width] and [height] are [None]
    when they are not numbers. *)
Record RawItem := {
  str : option jsstring;
  transform : option (Q * Q);
  width : option Q;
  height : option Q
}.

(** A page: the viewport at scale 1 and the text content. *)
Record RawPage := {
  viewportWidth : Q;
  viewportHeight : Q;
  items : list RawItem
}.

End Pdf.

(** ** textExtractor.ts *)

Module TextExtractor.

Record Item := { item_text : jsstring; item_x : Q; item_y : Q }.

(** Lines 44-61: the entries that become tokens. *)
Definition collectItem (raw : Pdf.RawItem) : option Item :=
  match Pdf.str raw, Pdf.transform raw with
  | Some value, Some (x, y) =>
      if isEmpty value then None
      else Some {| item_text := value; item_x := x; item_y := y |}
  | _, _ => None
  end.

Definition collectItems (raws : list Pdf.RawItem) : list Item :=
  omap collectItem raws.

(** Lines 62-67: the comparator handed to [sort]. *)
Definition compareItems (a b : Item) : Q :=
  if Qeq_bool (item_y a) (item_y b) then item_x a - item_x b
  else item_y b - item_y a.

(** Lines 69-88. [currentLine] is an alias of the last element of
    [lines]; the state keeps that element apart in [currentLine] and
    the lines before it in [closed]. *)
Record Cluster := {
  closed : list (list Item);
  currentLine : option (list Item);
  currentY : Q
}.

Definition initial : Cluster :=
  {| closed := []; currentLine := None; currentY := 0 |}.

Definition lines (c : Cluster) : list (list Item) :=
  closed c ++ option_list (currentLine c).

Definition step (lineThreshold : Q) (c : Cluster) (item : Item) : Cluster :=
  match currentLine c with
  | None =>
      {| closed := lines c; currentLine := Some [item]; currentY := item_y item |}
  | Some cur =>
      let dy := Qabs (item_y item - currentY c) in
      if Qle_bool dy lineThreshold then
        let cur' := cur ++ [item] in
        let n := inject_Z (Z.of_nat (length cur')) in
        {| closed := closed c;
           currentLine := Some cur';
           currentY := (currentY c * (n - 1) + item_y item) / n |}
      else
        {| closed := lines c; currentLine := Some [item]; currentY := item_y item |}
  end.

Definition clusterLines (lineThreshold : Q) (items : list Item) : list (list Item) :=
  lines (fold_left (step lineThreshold) items initial).

(** Lines 94-97 *)
Definition lineText (line : list Item) : jsstring :=
  trim (concat (map item_text line)).

(** Lines 89-102 *)
Definition segmentOf (line : list Item) : option jsstring :=
  match line with
  | [] => None
  | _ => let t := lineText line in if isEmpty t then None else Some t
  end.

Definition segments (ls : list (list Item)) : list jsstring :=
  omap segmentOf ls.

Record PageTextExtractionResult := {
  pageNumber : nat;
  width : Q;
  height : Q;
  text : jsstring
}.

Definition sortedItems (p : Pdf.RawPage) : list Item :=
  sort compareItems (collectItems (Pdf.items p)).

Definition pageLines (p : Pdf.RawPage) : list (list Item) :=
  let height := orOne (Pdf.viewportHeight p) in
  let lineThreshold := (height * (12 # 1000))%Q in
  clusterLines lineThreshold (sortedItems p).

Definition pageSegments (p : Pdf.RawPage) : list jsstring :=
  segments (pageLines p).

Definition extractPage (i : nat) (p : Pdf.RawPage) : PageTextExtractionResult :=
  {| pageNumber := i;
     width := Pdf.viewportWidth p;
     height := Pdf.viewportHeight p;
     text := join [newline] (pageSegments p) |}.

(** Lines 34-110, over the pages the parser returned; pages are
    numbered from 1. *)
Definition extractPages (pages : list Pdf.RawPage) : list PageTextExtractionResult :=
  imap (fun i p => extractPage (S i) p) pages.

End TextExtractor.

(** ** layoutAnalyzer.ts *)

Module LayoutAnalyzer.

Record Item := {
  item_text : jsstring;
  item_x : Q;
  item_y : Q;
  item_width : Q;
  item_height : Q
}.

(** Lines 28-49: the entries that become tokens; a width or height that
    is not a number counts as 0. *)
Definition collectItem (raw : Pdf.RawItem) : option Item :=
  match Pdf.str raw, Pdf.transform raw with
  | Some value, Some (x, y) =>
      if isEmpty value then None
      else Some {| item_text := value; item_x := x; item_y := y;
                   item_width := default 0%Q (Pdf.width raw);
                   item_height := default 0%Q (Pdf.height raw) |}
  | _, _ => None
  end.

Definition collectItems (raws : list Pdf.RawItem) : list Item :=
  omap collectItem raws.

(** Lines 50-55 *)
Definition compareItems (a b : Item) : Q :=
  if Qeq_bool (item_y a) (item_y b) then item_x a - item_x b
  else item_y b - item_y a.

(** Lines 56-76, with the same reading of [currentLine] as in the text
    extractor. *)
Record Cluster := {
  closed : list (list Item);
  currentLine : option (list Item);
  currentY : Q
}.

Definition initial : Cluster :=
  {| closed := []; currentLine := None; currentY := 0 |}.

Definition lines (c : Cluster) : list (list Item) :=
  closed c ++ option_list (currentLine c).

Definition step (lineThreshold : Q) (c : Cluster) (item : Item) : Cluster :=
  match currentLine c with
  | None =>
      {| closed := lines c; currentLine := Some [item]; currentY := item_y item |}
  | Some cur =>
      let dy := Qabs (item_y item - currentY c) in
      if Qle_bool dy lineThreshold then
        let cur' := cur ++ [item] in
        let n := inject_Z (Z.of_nat (length cur')) in
        {| closed := closed c;
           currentLine := Some cur';
           currentY := (currentY c * (n - 1) + item_y item) / n |}
      else
        {| closed := lines c; currentLine := Some [item]; currentY := item_y item |}
  end.

Definition clusterLines (lineThreshold : Q) (items : list Item) : list (list Item) :=
  lines (fold_left (step lineThreshold) items initial).

(** Line 82 *)
Definition lineText (line : list Item) : jsstring :=
  trim (concat (map item_text line)).

Inductive RegionType := figure | table | chart | image | other.

Record NormalizedBBox := { x0 : Q; y0 : Q; x1 : Q; y1 : Q }.

Record VisualRegion := {
  id : string;
  documentId : string;
  pageNumber : nat;
  type : RegionType;
  bbox : NormalizedBBox
}.

Record LayoutPage := {
  page_pageNumber : nat;
  page_width : Q;
  page_height : Q;
  regions : list VisualRegion
}.

(** Lines 86-99: the four running extremes of a line. *)
Record Extent := { minX : num; maxX : num; minY : num; maxY : num }.

Definition initialExtent : Extent :=
  {| minX := PosInf; maxX := NegInf; minY := PosInf; maxY := NegInf |}.

Definition grow (e : Extent) (it : Item) : Extent :=
  let ix0 := item_x it in
  let ix1 := (item_x it + item_width it)%Q in
  let iy0 := item_y it in
  let iy1 := (item_y it + item_height it)%Q in
  {| minX := if ltNum ix0 (minX e) then Fin ix0 else minX e;
     maxX := if gtNum ix1 (maxX e) then Fin ix1 else maxX e;
     minY := if ltNum iy0 (minY e) then Fin iy0 else minY e;
     maxY := if gtNum iy1 (maxY e) then Fin iy1 else maxY e |}.

Definition extent (line : list Item) : Extent :=
  fold_left grow line initialExtent.

(** Lines 103-107 *)
Definition normalize (width height : Q) (mnX mxX mnY mxY : Q) : NormalizedBBox :=
  let paddingY := (height * (4 # 1000))%Q in
  {| x0 := mnX / width;
     y0 := Qmax 0 ((mnY - paddingY) / height);
     x1 := mxX / width;
     y1 := Qmin 1 ((mxY + paddingY) / height) |}.

(** Lines 78-119: the box of one line, or [None] where the loop
    continues without a region. The tokens have rational coordinates
    here, so the extremes of a line with a token are finite and the test
    of line 100 passes; [AnyNumber.LayoutAnalyzer.lineBBox] is the same
    function on numbers that may be NaN or infinite. *)
Definition lineBBox (width height : Q) (line : list Item) : option NormalizedBBox :=
  match line with
  | [] => None
  | _ =>
      if isEmpty (lineText line) then None
      else
        match extent line with
        | {| minX := Fin mnX; maxX := Fin mxX; minY := Fin mnY; maxY := Fin mxY |} =>
            Some (normalize width height mnX mxX mnY mxY)
        | _ => None
        end
  end.

(** Lines 77-120: [uuid k] is what the [k]-th call of [randomUUID]
    returns; [n] calls were made before the loop. *)
Fixpoint buildRegions (uuid : nat -> string) (n : nat) (docId : string) (i : nat)
    (width height : Q) (ls : list (list Item)) : list VisualRegion :=
  match ls with
  | [] => []
  | line :: rest =>
      match lineBBox width height line with
      | None => buildRegions uuid n docId i width height rest
      | Some b =>
          {| id := uuid n; documentId := docId; pageNumber := i;
             type := other; bbox := b |}
            :: buildRegions uuid (S n) docId i width height rest
      end
  end.

Definition sortedItems (p : Pdf.RawPage) : list Item :=
  sort compareItems (collectItems (Pdf.items p)).

Definition pageLines (p : Pdf.RawPage) : list (list Item) :=
  let height := orOne (Pdf.viewportHeight p) in
  let lineThreshold := (height * (12 # 1000))%Q in
  clusterLines lineThreshold (sortedItems p).

Definition pageRegions (uuid : nat -> string) (n : nat) (docId : string)
    (i : nat) (p : Pdf.RawPage) : list VisualRegion :=
  let width := orOne (Pdf.viewportWidth p) in
  let height := orOne (Pdf.viewportHeight p) in
  buildRegions uuid n docId i width height (pageLines p).

(** Lines 15-127, over the pages the parser returned. *)
Fixpoint analyzePages (uuid : nat -> string) (n : nat) (docId : string)
    (i : nat) (pages : list Pdf.RawPage) : list LayoutPage :=
  match pages with
  | [] => []
  | p :: rest =>
      let rs := pageRegions uuid n docId i p in
      {| page_pageNumber := i;
         page_width := Pdf.viewportWidth p;
         page_height := Pdf.viewportHeight p;
         regions := rs |}
        :: analyzePages uuid (n + length rs) docId (S i) rest
  end.

End LayoutAnalyzer.

(** ** ingestionPipeline.ts, with types.ts and progressEmitter.ts *)

Module Pipeline.

Inductive IngestionStage :=
| queued
| extracting_text
| layout_analysis
| generating_text_embeddings
| generating_image_embeddings
| writing_database
| completed
| failed.

Inductive FileType := pdf | image | zip.

Record TextEmbedding := {
  te_pageNumber : nat;
  te_text : jsstring;
  te_embedding : list Q
}.

Record ImageEmbedding := {
  ie_regionId : string;
  ie_embedding : list Q
}.

(** [task.meta]: the four keys the handlers write; a key that was never
    written is [None]. *)
Record Meta := {
  textPages : option (list TextExtractor.PageTextExtractionResult);
  layoutPages : option (list LayoutAnalyzer.LayoutPage);
  textEmbeddings : option (list TextEmbedding);
  imageEmbeddings : option (list ImageEmbedding)
}.

Definition emptyMeta : Meta :=
  {| textPages := None; layoutPages := None;
     textEmbeddings := None; imageEmbeddings := None |}.

Record IngestionTask := {
  id : string;
  userId : string;
  fileName : string;
  fileType : FileType;
  sourcePath : string;
  createdAt : nat;
  updatedAt : nat;
  stage : IngestionStage;
  progress : Q;
  error : option string;
  meta : option Meta
}.

Record IngestionProgressEvent := {
  taskId : string;
  ev_stage : IngestionStage;
  ev_progress : Q;
  message : option string
}.

(** A task object is shared by [this.tasks], [this.queue] and the
    running [runTask]; it lives in [heap] and is named by its index. *)
Abbreviation ref := nat (only parsing).

Record State := {
  heap : list IngestionTask;
  tasks : gmap string ref;
  queue : list ref;
  running : bool;
  (** the suspended [runTask]: its task and the index of the stage whose
      handler is awaited *)
  awaiting : option (ref * nat);
  (** the events handed to the socket server, oldest first *)
  emitted : list IngestionProgressEvent;
  (** what [new Date()] returns next *)
  clock : nat;
  (** how many times [randomUUID] was called *)
  uuids : nat
}.

Definition initialState : State :=
  {| heap := []; tasks := ∅; queue := []; running := false; awaiting := None;
     emitted := []; clock := 0; uuids := 0 |}.

(** The collaborators. *)
Record World := {
  (** the [k]-th result of [randomUUID] *)
  uuid : nat -> string;
  (** reading and parsing the file in [extractTextFromPdf] *)
  pdfForText : string -> Outcome (list Pdf.RawPage);
  (** reading and parsing the file in [analyzePdfLayout] *)
  pdfForLayout : string -> Outcome (list Pdf.RawPage);
  (** whether [process.env.OPENAI_API_KEY] is set *)
  OPENAI_API_KEY : bool;
  (** [openai.embeddings.create]: rejects, or [response.data[0]?.embedding] *)
  embeddings_create : jsstring -> Outcome (option (list Q));
  (** whether [process.env.IMAGE_EMBEDDING_ENDPOINT] is set *)
  IMAGE_EMBEDDING_ENDPOINT : bool;
  (** the request of one region: rejects, answers not ok ([None]), or
      answers with [json.embedding ?? []] *)
  fetchImageEmbedding : LayoutAnalyzer.VisualRegion -> Outcome (option (list Q));
  (** the database writes of [writeDatabase], by their outcome *)
  prismaWrites : IngestionTask -> Outcome unit
}.

(** *** State and exceptions *)

Definition M (A : Type) : Type := State -> Outcome A * State.

Definition ret {A} (a : A) : M A := fun s => (Ok a, s).

Definition throw {A} (msg : string) : M A := fun s => (Throw msg, s).

Definition bind {A B} (m : M A) (k : A -> M B) : M B :=
  fun s => match m s with
           | (Ok a, s') => k a s'
           | (Throw msg, s') => (Throw msg, s')
           end.

Definition tryCatch {A} (body : M A) (handler : string -> M A) : M A :=
  fun s => match body s with
           | (Ok a, s') => (Ok a, s')
           | (Throw msg, s') => handler msg s'
           end.

Definition tryFinally {A} (body : M A) (finalizer : M unit) : M A :=
  fun s => match body s with
           | (o, s') =>
               match finalizer s' with
               | (Ok _, s'') => (o, s'')
               | (Throw msg, s'') => (Throw msg, s'')
               end
           end.

Definition liftOutcome {A} (o : Outcome A) : M A := fun s => (o, s).

Definition modify (f : State -> State) : M unit := fun s => (Ok tt, f s).

Definition gets {A} (f : State -> A) : M A := fun s => (Ok (f s), s).

Notation "'let*' x := c 'in' k" := (bind c (fun x => k))
  (at level 10, x name, c at level 100, k at level 200, only parsing).
Notation "c ;; k" := (bind c (fun _ => k))
  (at level 100, k at level 200, right associativity, only parsing).

(** *** State updates *)

Definition set_heap (h : list IngestionTask) (s : State) : State :=
  {| heap := h; tasks := tasks s; queue := queue s; running := running s;
     awaiting := awaiting s; emitted := emitted s; clock := clock s;
     uuids := uuids s |}.

Definition set_tasks (m : gmap string ref) (s : State) : State :=
  {| heap := heap s; tasks := m; queue := queue s; running := running s;
     awaiting := awaiting s; emitted := emitted s; clock := clock s;
     uuids := uuids s |}.

Definition set_queue (q : list ref) (s : State) : State :=
  {| heap := heap s; tasks := tasks s; queue := q; running := running s;
     awaiting := awaiting s; emitted := emitted s; clock := clock s;
     uuids := uuids s |}.

Definition set_running (b : bool) (s : State) : State :=
  {| heap := heap s; tasks := tasks s; queue := queue s; running := b;
     awaiting := awaiting s; emitted := emitted s; clock := clock s;
     uuids := uuids s |}.

Definition set_awaiting (a : option (ref * nat)) (s : State) : State :=
  {| heap := heap s; tasks := tasks s; queue := queue s; running := running s;
     awaiting := a; emitted := emitted s; clock := clock s;
     uuids := uuids s |}.

Definition set_emitted (l : list IngestionProgressEvent) (s : State) : State :=
  {| heap := heap s; tasks := tasks s; queue := queue s; running := running s;
     awaiting := awaiting s; emitted := l; clock := clock s;
     uuids := uuids s |}.

Definition set_clock (c : nat) (s : State) : State :=
  {| heap := heap s; tasks := tasks s; queue := queue s; running := running s;
     awaiting := awaiting s; emitted := emitted s; clock := c;
     uuids := uuids s |}.

Definition set_uuids (n : nat) (s : State) : State :=
  {| heap := heap s; tasks := tasks s; queue := queue s; running := running s;
     awaiting := awaiting s; emitted := emitted s; clock := clock s;
     uuids := n |}.

Definition set_stage (st : IngestionStage) (t : IngestionTask) : IngestionTask :=
  {| id := id t; userId := userId t; fileName := fileName t;
     fileType := fileType t; sourcePath := sourcePath t;
     createdAt := createdAt t; updatedAt := updatedAt t; stage := st;
     progress := progress t; error := error t; meta := meta t |}.

Definition set_progress (p : Q) (t : IngestionTask) : IngestionTask :=
  {| id := id t; userId := userId t; fileName := fileName t;
     fileType := fileType t; sourcePath := sourcePath t;
     createdAt := createdAt t; updatedAt := updatedAt t; stage := stage t;
     progress := p; error := error t; meta := meta t |}.

Definition set_updatedAt (d : nat) (t : IngestionTask) : IngestionTask :=
  {| id := id t; userId := userId t; fileName := fileName t;
     fileType := fileType t; sourcePath := sourcePath t;
     createdAt := createdAt t; updatedAt := d; stage := stage t;
     progress := progress t; error := error t; meta := meta t |}.

Definition set_error (e : string) (t : IngestionTask) : IngestionTask :=
  {| id := id t; userId := userId t; fileName := fileName t;
     fileType := fileType t; sourcePath := sourcePath t;
     createdAt := createdAt t; updatedAt := updatedAt t; stage := stage t;
     progress := progress t; error := Some e; meta := meta t |}.

Definition set_meta (m : Meta) (t : IngestionTask) : IngestionTask :=
  {| id := id t; userId := userId t; fileName := fileName t;
     fileType := fileType t; sourcePath := sourcePath t;
     createdAt := createdAt t; updatedAt := updatedAt t; stage := stage t;
     progress := progress t; error := error t; meta := Some m |}.

(** [{ ...(task.meta || {}), key: value }] for each of the four keys *)
Definition metaOf (t : IngestionTask) : Meta := default emptyMeta (meta t).

Definition with_textPages (v : list TextExtractor.PageTextExtractionResult) (m : Meta) : Meta :=
  {| textPages := Some v; layoutPages := layoutPages m;
     textEmbeddings := textEmbeddings m; imageEmbeddings := imageEmbeddings m |}.

Definition with_layoutPages (v : list LayoutAnalyzer.LayoutPage) (m : Meta) : Meta :=
  {| textPages := textPages m; layoutPages := Some v;
     textEmbeddings := textEmbeddings m; imageEmbeddings := imageEmbeddings m |}.

Definition with_textEmbeddings (v : list TextEmbedding) (m : Meta) : Meta :=
  {| textPages := textPages m; layoutPages := layoutPages m;
     textEmbeddings := Some v; imageEmbeddings := imageEmbeddings m |}.

Definition with_imageEmbeddings (v : list ImageEmbedding) (m : Meta) : Meta :=
  {| textPages := textPages m; layoutPages := layoutPages m;
     textEmbeddings := textEmbeddings m; imageEmbeddings := Some v |}.

(** A mutation of the task object [r]. *)
Definition mutate (r : ref) (f : IngestionTask -> IngestionTask) (s : State) : State :=
  set_heap (alter f r (heap s)) s.

(** [new Date()] *)
Definition newDate : M nat :=
  fun s => (Ok (clock s), set_clock (S (clock s)) s).

(** [randomUUID()] *)
Definition randomUUID (w : World) : M string :=
  fun s => (Ok (uuid w (uuids s)), set_uuids (S (uuids s)) s).

(** progressEmitter.ts, [emit] and [updateStage]: the event goes to the
    room of the task, nothing comes back. *)
Definition emit (tid : string) (st : IngestionStage) (p : Q) (msg : option string) : M unit :=
  modify (fun s =>
    set_emitted (emitted s ++ [{| taskId := tid; ev_stage := st; ev_progress := p; message := msg |}]) s).

Definition updateStage (tid : string) (st : IngestionStage) (p : Q) : M unit :=
  emit tid st p None.

(** Reading the task object behind [r]. A reference is only made by
    [createTask], which allocates it, so the second branch is never
    taken. *)
Definition withTask {A} (r : ref) (dflt : A) (k : IngestionTask -> M A) : M A :=
  fun s => match heap s !! r with
           | Some t => k t s
           | None => (Ok dflt, s)
           end.

(** Lines 108-114 *)
Definition updateTaskStage (r : ref) (st : IngestionStage) (p : Q) : M unit :=
  modify (mutate r (set_stage st)) ;;
  modify (mutate r (set_progress p)) ;;
  let* now := newDate in
  modify (mutate r (set_updatedAt now)) ;;
  withTask r tt (fun task =>
    modify (fun s => set_tasks (<[id task := r]> (tasks s)) s) ;;
    updateStage (id task) st p).

(** Lines 373-390 *)
Definition stageBaseProgress (st : IngestionStage) : Q :=
  match st with
  | extracting_text => 5
  | layout_analysis => 25
  | generating_text_embeddings => 45
  | generating_image_embeddings => 65
  | writing_database => 85
  | completed => 100
  | _ => 0
  end.

(** [this.tasks.set(task.id, task)] *)
Definition tasksSet (r : ref) : M unit :=
  withTask r tt (fun task => modify (fun s => set_tasks (<[id task := r]> (tasks s)) s)).

(** textExtractor.ts, lines 27-113: the file is read and parsed, then
    every page goes through the clustering. *)
Definition extractTextFromPdf (w : World) (filePath : string)
    : M (list TextExtractor.PageTextExtractionResult) :=
  let* pages := liftOutcome (pdfForText w filePath) in
  ret (TextExtractor.extractPages pages).

(** layoutAnalyzer.ts, lines 6-130 *)
Definition analyzePdfLayout (w : World) (filePath documentId : string)
    : M (list LayoutAnalyzer.LayoutPage) :=
  let* pages := liftOutcome (pdfForLayout w filePath) in
  let* n := gets uuids in
  let result := LayoutAnalyzer.analyzePages (uuid w) n documentId 1 pages in
  modify (set_uuids (n + length (concat (map LayoutAnalyzer.regions result)))) ;;
  ret result.

(** [!textPages || textPages.length === 0] and the like *)
Definition missingOrEmpty {A} (l : option (list A)) : bool :=
  match l with
  | Some (_ :: _) => false
  | _ => true
  end.

(** Lines 116-123 *)
Definition extractText (w : World) (r : ref) : M unit :=
  withTask r tt (fun task =>
    let* result := extractTextFromPdf w (sourcePath task) in
    modify (mutate r (fun t => set_meta (with_textPages result (metaOf t)) t)) ;;
    tasksSet r).

(** Lines 125-141 *)
Definition layoutAnalysis (w : World) (r : ref) : M unit :=
  withTask r tt (fun task =>
    if missingOrEmpty (textPages (metaOf task)) then ret tt
    else
      let* lps := analyzePdfLayout w (sourcePath task) (id task) in
      modify (mutate r (fun t => set_meta (with_layoutPages lps (metaOf t)) t)) ;;
      tasksSet r).

(** Lines 160-179: the loop from [index] on; [embeddings] holds what was
    pushed so far. *)
Fixpoint embedPages (w : World) (tid : string) (total : nat) (index : nat)
    (pages : list TextExtractor.PageTextExtractionResult)
    (embeddings : list TextEmbedding) : M (list TextEmbedding) :=
  match pages with
  | [] => ret embeddings
  | page :: rest =>
      let text := TextExtractor.text page in
      let input :=
        if (8000 <? Z.of_nat (length text))%Z then take (Z.to_nat 8000) text else text in
      let* response := liftOutcome (embeddings_create w input) in
      let vector := default [] response in
      let embeddings' :=
        embeddings ++ [{| te_pageNumber := TextExtractor.pageNumber page;
                          te_text := text; te_embedding := vector |}] in
      let baseProgress := stageBaseProgress generating_text_embeddings in
      let progress :=
        (baseProgress + (inject_Z (Z.of_nat (index + 1)) / inject_Z (Z.of_nat total)) * 15)%Q in
      emit tid generating_text_embeddings progress None ;;
      embedPages w tid total (S index) rest embeddings'
  end.

(** Lines 143-188; the [catch] only logs. *)
Definition generateTextEmbeddings (w : World) (r : ref) : M unit :=
  withTask r tt (fun task =>
    match textPages (metaOf task) with
    | Some ((_ :: _) as pages) =>
        if negb (OPENAI_API_KEY w) then ret tt
        else
          tryCatch
            (let* embeddings := embedPages w (id task) (length pages) 0 pages [] in
             modify (mutate r (fun t => set_meta (with_textEmbeddings embeddings (metaOf t)) t)) ;;
             tasksSet r)
            (fun _ => ret tt)
    | _ => ret tt
    end).

(** Lines 360-371 *)
Fixpoint simulateSteps (tid : string) (st : IngestionStage) (steps : nat) (i : nat) (todo : nat) : M unit :=
  match todo with
  | O => ret tt
  | S todo' =>
      let baseProgress := stageBaseProgress st in
      let progress :=
        (baseProgress + (inject_Z (Z.of_nat i) / inject_Z (Z.of_nat steps)) * 15)%Q in
      emit tid st progress None ;;
      simulateSteps tid st steps (S i) todo'
  end.

Definition simulateWork (tid : string) (st : IngestionStage) : M unit :=
  let steps := 4 in
  simulateSteps tid st steps 1 steps.

(** Lines 206-218 *)
Definition visualRegions (lps : list LayoutAnalyzer.LayoutPage) : list LayoutAnalyzer.VisualRegion :=
  List.filter
    (fun region =>
       match LayoutAnalyzer.type region with
       | LayoutAnalyzer.figure | LayoutAnalyzer.table | LayoutAnalyzer.image => true
       | _ => false
       end)
    (concat (map LayoutAnalyzer.regions lps)).

(** Lines 227-265 *)
Fixpoint embedRegions (w : World) (tid : string) (total : nat) (index : nat)
    (regions : list LayoutAnalyzer.VisualRegion)
    (imageEmbeddings : list ImageEmbedding) : M (list ImageEmbedding) :=
  match regions with
  | [] => ret imageEmbeddings
  | region :: rest =>
      let* res := liftOutcome (fetchImageEmbedding w region) in
      match res with
      | None | Some [] => embedRegions w tid total (S index) rest imageEmbeddings
      | Some embedding =>
          let imageEmbeddings' :=
            imageEmbeddings ++ [{| ie_regionId := LayoutAnalyzer.id region;
                                   ie_embedding := embedding |}] in
          let baseProgress := stageBaseProgress generating_image_embeddings in
          let progress :=
            (baseProgress + (inject_Z (Z.of_nat (index + 1)) / inject_Z (Z.of_nat total)) * 15)%Q in
          emit tid generating_image_embeddings progress None ;;
          embedRegions w tid total (S index) rest imageEmbeddings'
      end
  end.

(** Lines 190-274 *)
Definition generateImageEmbeddings (w : World) (r : ref) : M unit :=
  withTask r tt (fun task =>
    match layoutPages (metaOf task) with
    | Some ((_ :: _) as lps) =>
        if negb (IMAGE_EMBEDDING_ENDPOINT w) then
          simulateWork (id task) generating_image_embeddings
        else
          match visualRegions lps with
          | [] => ret tt
          | regions =>
              let* imageEmbeddings :=
                embedRegions w (id task) (length regions) 0 regions [] in
              match imageEmbeddings with
              | [] => ret tt
              | _ =>
                  modify (mutate r (fun t =>
                    set_meta (with_imageEmbeddings imageEmbeddings (metaOf t)) t)) ;;
                  tasksSet r
              end
          end
    | _ => ret tt
    end).

(** Lines 276-358 *)
Definition writeDatabase (w : World) (r : ref) : M unit :=
  withTask r tt (fun task =>
    if missingOrEmpty (textPages (metaOf task)) then ret tt
    else liftOutcome (prismaWrites w task)).

Abbreviation StageHandler := (World -> ref -> M unit) (only parsing).

(** Lines 88-93 *)
Definition stages : list (IngestionStage * StageHandler) :=
  [ (extracting_text, extractText);
    (layout_analysis, layoutAnalysis);
    (generating_text_embeddings, generateTextEmbeddings);
    (writing_database, writeDatabase) ].

(** Line 98: [(i / stages.length) * 100] *)
Definition stageProgress (i : nat) : Q :=
  (inject_Z (Z.of_nat i) / inject_Z (Z.of_nat (length stages))) * 100.

(** Lines 96-101 from the top of the loop at index [i], up to the
    [await] of line 99, where [runTask] is suspended, or through line
    101 when the loop is over. *)
Definition runTaskFrom (r : ref) (i : nat) : M unit :=
  match stages !! i with
  | Some (st, _) =>
      updateTaskStage r st (stageProgress i) ;;
      modify (set_awaiting (Some (r, i)))
  | None =>
      updateTaskStage r completed 100 ;;
      modify (set_awaiting None)
  end.

(** Lines 102-105; [err] is the message of what was thrown. *)
Definition runTaskCatch (r : ref) (err : string) : M unit :=
  modify (mutate r (set_error err)) ;;
  withTask r tt (fun task => updateTaskStage r failed (progress task)) ;;
  modify (set_awaiting None).

(** Lines 72-78, up to the first [await] inside [runTask]. *)
Definition runNext : M unit :=
  let* isRunning := gets running in
  if (isRunning : bool) then ret tt
  else
    let* q := gets queue in
    match q with
    | [] => ret tt
    | task :: rest =>
        modify (set_queue rest) ;;
        modify (set_running true) ;;
        runTaskFrom task 0
    end.

(** Lines 79-84 *)
Definition runNextFinally : M unit :=
  modify (set_running false) ;;
  let* q := gets queue in
  if 0 <? length q then runNext else ret tt.

(** The [await] of line 78 is over once [runTask] has returned, and
    not while it is suspended again. *)
Definition untilReturned (body : M unit) : M unit :=
  fun s =>
    match body s with
    | (o, s') =>
        match awaiting s' with
        | Some _ => (o, s')
        | None => tryFinally (liftOutcome o) runNextFinally s'
        end
    end.

(** The awaited handler settles: the rest of [runTask] runs inside its
    [try], then the rest of [runNext]. *)
Definition resume (w : World) : M unit :=
  let* a := gets awaiting in
  match a with
  | None => ret tt
  | Some (r, i) =>
      match stages !! i with
      | None => ret tt
      | Some (_, handler) =>
          untilReturned
            (tryCatch (handler w r ;; runTaskFrom r (S i)) (runTaskCatch r))
      end
  end.

Record CreateTaskParams := {
  params_userId : string;
  params_fileName : string;
  params_fileType : FileType;
  params_sourcePath : string
}.

(** Lines 67-70 *)
Definition enqueue (r : ref) : M unit :=
  modify (fun s => set_queue (queue s ++ [r]) s) ;;
  runNext.

(** Lines 35-61; the result is the task object. *)
Definition createTask (w : World) (params : CreateTaskParams) : M ref :=
  let* now := newDate in
  let* tid := randomUUID w in
  let task :=
    {| id := tid; userId := params_userId params; fileName := params_fileName params;
       fileType := params_fileType params; sourcePath := params_sourcePath params;
       createdAt := now; updatedAt := now; stage := queued; progress := 0;
       error := None; meta := None |} in
  let* r := gets (fun s => length (heap s)) in
  modify (fun s => set_heap (heap s ++ [task]) s) ;;
  tasksSet r ;;
  enqueue r ;;
  withTask r tt (fun t => emit (id t) (stage t) (progress t) (Some "queued")) ;;
  ret r.

(** Lines 63-65 *)
Definition getTask (tid : string) (s : State) : option IngestionTask :=
  r ← tasks s !! tid; heap s !! r.

(** What happens to the pipeline: an upload asks for a task, or the
    handler the driver waits for settles. A handler runs from its call
    to its settlement within one [Settle]: uploads arrive between the
    stages of the running task. *)
Inductive Action :=
| Submit (params : CreateTaskParams)
| Settle.

Definition perform (w : World) (a : Action) : M unit :=
  match a with
  | Submit params => createTask w params ;; ret tt
  | Settle => resume w
  end.

Fixpoint performAll (w : World) (acts : list Action) : M unit :=
  match acts with
  | [] => ret tt
  | a :: rest => perform w a ;; performAll w rest
  end.

(** The events of one task, oldest first. *)
Definition eventsOf (tid : string) (s : State) : list IngestionProgressEvent :=
  List.filter (fun e => bool_decide (taskId e = tid)) (emitted s).

End Pipeline.

(** ** index.ts: region mapping and semantic search *)

Module Search.

(** [String.prototype.indexOf]: the least offset at which [needle]
    occurs in [hay], or -1. *)
Fixpoint startsWith (needle hay : jsstring) : bool :=
  match needle, hay with
  | [], _ => true
  | _ :: _, [] => false
  | a :: needle', b :: hay' => (a =? b)%N && startsWith needle' hay'
  end.

Fixpoint indexOfFrom (needle hay : jsstring) (offset : Z) : Z :=
  if startsWith needle hay then offset
  else
    match hay with
    | [] => (-1)%Z
    | _ :: hay' => indexOfFrom needle hay' (offset + 1)%Z
    end.

Definition indexOf (hay needle : jsstring) : Z := indexOfFrom needle hay 0%Z.

(** [slice(start, end)] of strings and arrays, negative arguments
    counted from the end. *)
Definition relativeIndex (len k : Z) : Z :=
  if (k <? 0)%Z then Z.max (len + k) 0 else Z.min k len.

Definition slice {A} (l : list A) (start stop : Z) : list A :=
  let len := Z.of_nat (length l) in
  let from := relativeIndex len start in
  let to := relativeIndex len stop in
  take (Z.to_nat (to - from)) (drop (Z.to_nat from) l).

(** [s.split(sep)] for a separator of one code unit *)
Fixpoint split (sep : N) (s : jsstring) : list jsstring :=
  match s with
  | [] => [[]]
  | c :: r =>
      if (c =? sep)%N then [] :: split sep r
      else
        match split sep r with
        | piece :: pieces => (c :: piece) :: pieces
        | [] => [[c]]
        end
  end.

(** [arr[k]]: [None] is [undefined]. *)
Definition at_ {A} (l : list A) (k : Z) : option A :=
  if (k <? 0)%Z then None else l !! Z.to_nat k.

(** [Array.from(new Set(l))]: first occurrences, in order. *)
Fixpoint unique (seen : list nat) (l : list nat) : list nat :=
  match l with
  | [] => []
  | n :: r =>
      if bool_decide (n ∈ seen) then unique seen r
      else n :: unique (n :: seen) r
  end.

Section WithLowerCase.

(** [String.prototype.toLowerCase], which follows the Unicode case
    mappings, is left open. *)
Variable toLowerCase : jsstring -> jsstring.

(** Lines 117-153. An entry of the result is [None] where the code
    reads the array out of its bounds. *)
Definition pickRegionIdsForText (pageNumber : nat) (text query : jsstring)
    (regionsByPage : gmap nat (list string)) : list (option string) :=
  let regionIds := default [] (regionsByPage !! pageNumber) in
  if (length regionIds =? 0)%nat then []
  else
    let queryLower := toLowerCase query in
    let textLower := toLowerCase text in
    let idx := indexOf textLower queryLower in
    if (idx =? -1)%Z then
      let middleIndex := (Z.of_nat (length regionIds) / 2)%Z in
      [at_ regionIds middleIndex]
    else
      let before := slice text 0 idx in
      let lineIndex := (Z.of_nat (length (split newline before)) - 1)%Z in
      if (lineIndex <? 0)%Z then [at_ regionIds 0]
      else
        let windowLines := 1%Z in
        let startIndex := (lineIndex - windowLines)%Z in
        let endIndex := (lineIndex + windowLines)%Z in
        let startIndex := if (startIndex <? 0)%Z then 0%Z else startIndex in
        let endIndex :=
          if (Z.of_nat (length regionIds) <=? endIndex)%Z
          then (Z.of_nat (length regionIds) - 1)%Z else endIndex in
        let endIndex := if (endIndex <? startIndex)%Z then startIndex else endIndex in
        let selected := slice regionIds startIndex (endIndex + 1) in
        if (0 <? length selected)%nat then map Some selected
        else [at_ regionIds startIndex].

Record SemanticSearchResultItem := {
  documentId : string;
  pageNumber : nat;
  snippet : jsstring;
  regionIds : list (option string)
}.

Record TextPageRow := { tp_pageNumber : nat; tp_text : jsstring }.

Record RegionRow := { vr_id : string; vr_pageNumber : nat }.

Record SimilarityRow := {
  row_textPageId : string;
  row_pageNumber : nat;
  row_text : jsstring;
  row_similarity : Q
}.

(** The persistence collaborator. The stored pages may change while a
    search runs, so the literal query also takes its rank among the
    literal queries of the search: 0 for the one of line 393, 1 for
    the one made again on lines 409 or 441. *)
Record Persistence := {
  (** [prisma.textPage.findMany] with [contains], ordered by page
      number, capped by [take] *)
  textPage_findMany : nat -> string -> jsstring -> Z -> Outcome (list TextPageRow);
  (** [prisma.visualRegion.findMany] for the given pages, ordered by
      page number, then [y0] *)
  visualRegion_findMany : string -> list nat -> Outcome (list RegionRow);
  (** the similarity query of lines 421-438 *)
  queryRaw_similarity : string -> list Q -> Z -> Outcome (list SimilarityRow)
}.

(** The generation collaborator. *)
Record Generation := {
  OPENAI_API_KEY : bool;
  (** rejects, or [embeddingResponse.data[0]?.embedding] *)
  embeddings_create : jsstring -> Outcome (option (list Q))
}.

Definition bindO {A B} (o : Outcome A) (k : A -> Outcome B) : Outcome B :=
  match o with
  | Ok a => k a
  | Throw msg => Throw msg
  end.

(** The loop that fills [regionsByPage] *)
Definition groupRegions (regions : list RegionRow) : gmap nat (list string) :=
  fold_left
    (fun m r =>
       let list := default [] (m !! vr_pageNumber r) in
       <[vr_pageNumber r := list ++ [vr_id r]]> m)
    regions ∅.

Definition ellipsis : jsstring := [8230%N].

(** The snippet of a page text *)
Definition makeSnippet (text query : jsstring) : jsstring :=
  let queryLower := toLowerCase query in
  let textLower := toLowerCase text in
  let idx := indexOf textLower queryLower in
  let window := 60%Z in
  if (idx =? -1)%Z then slice text 0 (window * 2)
  else
    let len := Z.of_nat (length text) in
    let start := Z.max 0 (idx - window) in
    let stop := Z.min len (idx + Z.of_nat (length query) + window) in
    (if (0 <? start)%Z then ellipsis else [])
      ++ slice text start stop
      ++ (if (stop <? len)%Z then ellipsis else []).

(** One entry of the result, for a page number and its text *)
Definition buildResult (docId : string) (query : jsstring)
    (regionsByPage : gmap nat (list string)) (pn : nat) (text : jsstring)
    : SemanticSearchResultItem :=
  {| documentId := docId; pageNumber := pn;
     snippet := makeSnippet text query;
     regionIds := pickRegionIdsForText pn text query regionsByPage |}.

Section WithCollaborators.

Variable prisma : Persistence.
Variable openai : Generation.

(** [buildResultsFromTextPages] inside [semanticSearch] *)
Definition buildResultsFromTextPages (docId : string) (query : jsstring)
    (matches : list TextPageRow) : Outcome (list SemanticSearchResultItem) :=
  match matches with
  | [] => Ok []
  | _ =>
      let pageNumbers := unique [] (map tp_pageNumber matches) in
      bindO (visualRegion_findMany prisma docId pageNumbers) (fun regions =>
      let regionsByPage := groupRegions regions in
      Ok (map (fun m => buildResult docId query regionsByPage (tp_pageNumber m) (tp_text m))
              matches))
  end.

(** [semanticSearch] *)
Definition semanticSearch (docId : string) (query : jsstring) (limit : option Z)
    : Outcome (list SemanticSearchResultItem) :=
  let effectiveLimit := default 10%Z limit in
  bindO (textPage_findMany prisma 0 docId query effectiveLimit) (fun keywordMatches =>
  if (0 <? length keywordMatches)%nat then
    buildResultsFromTextPages docId query keywordMatches
  else if negb (OPENAI_API_KEY openai) then
    Throw "embedding_model_not_configured"
  else
    bindO (embeddings_create openai query) (fun embedding =>
    match embedding with
    | None | Some [] =>
        bindO (textPage_findMany prisma 1 docId query effectiveLimit)
              (buildResultsFromTextPages docId query)
    | Some embedding =>
        bindO (queryRaw_similarity prisma docId embedding effectiveLimit) (fun rows =>
        match rows with
        | [] =>
            bindO (textPage_findMany prisma 1 docId query effectiveLimit)
                  (buildResultsFromTextPages docId query)
        | _ =>
            let pageNumbers := unique [] (map row_pageNumber rows) in
            bindO (visualRegion_findMany prisma docId pageNumbers) (fun regions =>
            let regionsByPage := groupRegions regions in
            Ok (map (fun row =>
                       buildResult docId query regionsByPage (row_pageNumber row) (row_text row))
                    rows))
        end)
    end)).

(** What the route sends back. *)
Inductive Reply :=
| Results (documentId : string) (query : jsstring) (results : list SemanticSearchResultItem)
| ErrorResponse (message : string).

(** GET /documents/:id/search/semantic, for parameters that passed
    [schema.parse]: the [try] and [catch] of the handler. *)
Definition searchSemanticRoute (docId : string) (q : jsstring) (limit : option Z) : Reply :=
  match semanticSearch docId q limit with
  | Ok results => Results docId q results
  | Throw _ => Results docId q []
  end.

End WithCollaborators.

End WithLowerCase.

End Search.

Import Pipeline.

(** ** ingestionTest.ts: the smoke test of the pipeline *)

Module IngestionTest.

(** What the test prints before it exits. *)
Inductive Report :=
| task_not_found
| ingestion_completed
| ingestion_failed (error : option string)
| ingestion_timeout (stage : IngestionStage)
| ingestion_unexpected_error (message : string).

(** [process.exit]: 0 after ingestion_completed, 1 otherwise. *)
Definition exitCode (r : Report) : nat :=
  match r with
  | ingestion_completed => 0
  | _ => 1
  end.

(** Line 46 *)
Definition timeoutMs : Z := (10 * 60 * 1000)%Z.

(** Lines 48-64: one round of the loop, [elapsed] being
    [Date.now() - start]; [None] when the test goes to sleep. *)
Definition poll (tid : string) (elapsed : Z) (s : State) : option Report :=
  match getTask tid s with
  | None => Some task_not_found
  | Some current =>
      match stage current with
      | completed => Some ingestion_completed
      | failed => Some (ingestion_failed (error current))
      | st => if (timeoutMs <? elapsed)%Z then Some (ingestion_timeout st) else None
      end
  end.

(** Lines 47-66. A round is the time elapsed when it starts and the
    number of handlers of the pipeline that settle during the sleep that
    follows it; [None] when the rounds are over and the test still
    runs. *)
Fixpoint loop (w : World) (tid : string) (rounds : list (Z * nat)) (s : State)
    : option Report :=
  match rounds with
  | [] => None
  | (elapsed, settles) :: rest =>
      match poll tid elapsed s with
      | Some r => Some r
      | None => loop w tid rest (snd (performAll w (replicate settles Settle) s))
      end
  end.

(** Lines 39-44 *)
Definition testParams (sourcePath : string) : CreateTaskParams :=
  {| params_userId := "test-user"; params_fileName := "test.pdf";
     params_fileType := pdf; params_sourcePath := sourcePath |}.

(** Lines 33-72, on a pipeline of its own. The test hands the pipeline
    an emitter that does nothing; the events the model records are not
    read. *)
Definition main (w : World) (sourcePath : string) (rounds : list (Z * nat))
    : option Report :=
  match createTask w (testParams sourcePath) initialState with
  | (Ok r, s) =>
      match heap s !! r with
      | Some task => loop w (id task) rounds s
      | None => Some (ingestion_unexpected_error "task")
      end
  | (Throw msg, _) => Some (ingestion_unexpected_error msg)
  end.

End IngestionTest.

(** ** index.ts: the routes that read the stored document *)

Module Routes.

Import Search.

Record PageRow := { pg_pageNumber : nat; pg_width : Q; pg_height : Q }.

Record VisualRegionRow := {
  reg_id : string;
  reg_pageNumber : nat;
  reg_type : string;
  reg_x0 : Q;
  reg_y0 : Q;
  reg_x1 : Q;
  reg_y1 : Q
}.

Record BBox := { bbox_x0 : Q; bbox_y0 : Q; bbox_x1 : Q; bbox_y1 : Q }.

Record RegionReply := {
  region_id : string;
  region_pageNumber : nat;
  region_type : string;
  region_bbox : BBox
}.

Record PageReply := {
  page_pageNumber : nat;
  page_width : Q;
  page_height : Q;
  page_regions : list RegionReply
}.

Record RegionsReply := {
  regions_documentId : string;
  regions_pages : list PageReply
}.

(** What GET /documents/:id/regions reads: the pages of a document
    ordered by page number, and its regions ordered by page number,
    then [y0]. *)
Record Store := {
  page_findMany : string -> Outcome (list PageRow);
  region_findMany : string -> Outcome (list VisualRegionRow)
}.

(** Lines 786-791 *)
Definition groupRows (regions : list VisualRegionRow) : gmap nat (list VisualRegionRow) :=
  fold_left
    (fun m region =>
       let list := default [] (m !! reg_pageNumber region) in
       <[reg_pageNumber region := list ++ [region]]> m)
    regions ∅.

(** Lines 796-806 *)
Definition regionReply (r : VisualRegionRow) : RegionReply :=
  {| region_id := reg_id r;
     region_pageNumber := reg_pageNumber r;
     region_type := reg_type r;
     region_bbox := {| bbox_x0 := reg_x0 r; bbox_y0 := reg_y0 r;
                       bbox_x1 := reg_x1 r; bbox_y1 := reg_y1 r |} |}.

(** GET /documents/:id/regions, lines 775-809, for an identity that
    passed [schema.parse]. The handler catches nothing: a rejected query
    is raised to the server. *)
Definition regionsRoute (store : Store) (docId : string) : Outcome RegionsReply :=
  bindO (page_findMany store docId) (fun pages =>
  bindO (region_findMany store docId) (fun regions =>
  let regionsByPage := groupRows regions in
  let resultPages :=
    map (fun p =>
           {| page_pageNumber := pg_pageNumber p;
              page_width := pg_width p;
              page_height := pg_height p;
              page_regions :=
                map regionReply (default [] (regionsByPage !! pg_pageNumber p)) |})
        pages in
  Ok {| regions_documentId := docId; regions_pages := resultPages |})).

Section WithCollaborators.

Variable toLowerCase : jsstring -> jsstring.
Variable prisma : Persistence.

(** GET /documents/:id/search, lines 811-878, for parameters that passed
    [schema.parse]. The literal query is the first one of the request
    and takes 20 rows. The handler catches nothing. *)
Definition searchRoute (docId : string) (q : jsstring) : Outcome Reply :=
  bindO (textPage_findMany prisma 0 docId q 20) (fun matches =>
  if (length matches =? 0)%nat then Ok (Results docId q [])
  else
    let pageNumbers := unique [] (map tp_pageNumber matches) in
    bindO (visualRegion_findMany prisma docId pageNumbers) (fun regions =>
    let regionsByPage := groupRegions regions in
    let results :=
      map (fun m =>
             let text := tp_text m in
             let queryLower := toLowerCase q in
             let textLower := toLowerCase text in
             let idx := indexOf textLower queryLower in
             let window := 60%Z in
             let snippet :=
               if (idx =? -1)%Z then slice text 0 (window * 2)
               else
                 let start := Z.max 0 (idx - window) in
                 let stop :=
                   Z.min (Z.of_nat (length text)) (idx + Z.of_nat (length q) + window) in
                 (if (0 <? start)%Z then ellipsis else [])
                   ++ slice text start stop
                   ++ (if (stop <? Z.of_nat (length text))%Z then ellipsis else []) in
             let regionIds :=
               pickRegionIdsForText toLowerCase (tp_pageNumber m) text q regionsByPage in
             {| documentId := docId; pageNumber := tp_pageNumber m;
                snippet := snippet; regionIds := regionIds |})
          matches in
    Ok (Results docId q results))).

End WithCollaborators.

End Routes.

(** ** index.ts: allowed origins *)

Module Cors.

Definition star : jsstring := [42%N].

Definition comma : N := 44%N.

(** [allowed.includes(v)] *)
Definition includes (allowed : list jsstring) (v : jsstring) : bool :=
  bool_decide (v ∈ allowed).

(** Lines 180-189. [env] is [process.env.FRONTEND_ORIGIN], [None] when
    the variable is not set. *)
Definition getAllowedOrigins (env : option jsstring) : list jsstring :=
  match env with
  | None => [star]
  | Some value =>
      if isEmpty value then [star]
      else
        List.filter (fun v => (0 <? length v)%nat)
                    (map trim (Search.split comma value))
  end.

(** Lines 191-203. [origin] is [None] when the request has no Origin
    header; the result is [None] for [undefined]. *)
Definition resolveAllowedOrigin (env : option jsstring) (origin : option jsstring)
    : option jsstring :=
  let allowed := getAllowedOrigins env in
  if includes allowed star then
    match origin with
    | Some o => if isEmpty o then Some star else Some o
    | None => Some star
    end
  else
    match origin with
    | None => None
    | Some o =>
        if isEmpty o then None
        else if includes allowed o then Some o
        else None
    end.

(** [!v] for a string that may be undefined *)
Definition missing (v : option jsstring) : bool :=
  match v with
  | None => true
  | Some s => isEmpty s
  end.

(** Lines 510-521 and 531-542: what the origin function hands to its
    callback, [Throw] for an error as first argument. *)
Definition originAllowed (env : option jsstring) (origin : option jsstring) : Outcome bool :=
  if missing origin then Ok true
  else
    let resolved := resolveAllowedOrigin env origin in
    if missing resolved then Throw "Origin not allowed"
    else Ok true.

(** Line 524 *)
Definition credentials (env : option jsstring) : bool :=
  negb (includes (getAllowedOrigins env) star).

(** Lines 911-928 of GET /chat/stream: the status, and for 200 the
    value of Access-Control-Allow-Origin. *)
Inductive StreamHead :=
| Forbidden
| EventStream (allowOrigin : jsstring).

Definition chatStreamHead (env : option jsstring) (origin : option jsstring) : StreamHead :=
  let originHeader := resolveAllowedOrigin env origin in
  match originHeader with
  | None => Forbidden
  | Some o => if isEmpty o then Forbidden else EventStream o
  end.

End Cors.

(** ** index.ts: uploads in chunks *)

Module Upload.

Abbreviation bytes := (list Byte.byte).

(** [localStorage] of the browser, from storage keys to the upload
    identity they hold. *)
Abbreviation Storage := (gmap string string).

(** [Math.ceil] *)
Definition ceil (q : Q) : Z := (- ((- Qnum q) / Zpos (Qden q)))%Z.

(** Lines 162-172. Sizes, counts and indices are the integers
    [schema.parse] lets through; [createdAt] is the time in milliseconds
    that the ISO string stands for. *)
Record UploadMetadata := {
  um_id : string;
  um_fileName : string;
  um_fileSize : Z;
  um_hash : string;
  um_chunkSize : Z;
  um_totalChunks : Z;
  um_receivedChunks : list Z;
  um_tempDir : string;
  um_createdAt : Z
}.

(** The directory uploads/. Its files are kept apart by what they are:
    the metadata files chunks/<id>.json by the identity in their name,
    the chunk files <tempDir>/<index>.part by directory and index, the
    assembled files by their path, and upload-index.json as the object
    it holds (no file: the empty object, lines 224-227). A file name
    with a path separator in it could make two of these meet; such names
    are left out. *)
Record Disk := {
  metadataFiles : gmap string UploadMetadata;
  chunkFiles : gmap (string * Z) bytes;
  uploadedFiles : gmap string bytes;
  uploadIndex : gmap string string
}.

Definition emptyDisk : Disk :=
  {| metadataFiles := ∅; chunkFiles := ∅; uploadedFiles := ∅; uploadIndex := ∅ |}.

(** The server: its directory and its pipeline. *)
Record Server := { disk : Disk; pipeline : State }.

Definition initialServer : Server := {| disk := emptyDisk; pipeline := initialState |}.

Definition set_metadataFiles (m : gmap string UploadMetadata) (d : Disk) : Disk :=
  {| metadataFiles := m; chunkFiles := chunkFiles d; uploadedFiles := uploadedFiles d;
     uploadIndex := uploadIndex d |}.

Definition set_chunkFiles (c : gmap (string * Z) bytes) (d : Disk) : Disk :=
  {| metadataFiles := metadataFiles d; chunkFiles := c; uploadedFiles := uploadedFiles d;
     uploadIndex := uploadIndex d |}.

Definition set_uploadedFiles (u : gmap string bytes) (d : Disk) : Disk :=
  {| metadataFiles := metadataFiles d; chunkFiles := chunkFiles d; uploadedFiles := u;
     uploadIndex := uploadIndex d |}.

Definition set_uploadIndex (i : gmap string string) (d : Disk) : Disk :=
  {| metadataFiles := metadataFiles d; chunkFiles := chunkFiles d;
     uploadedFiles := uploadedFiles d; uploadIndex := i |}.

Definition set_received (l : list Z) (m : UploadMetadata) : UploadMetadata :=
  {| um_id := um_id m; um_fileName := um_fileName m; um_fileSize := um_fileSize m;
     um_hash := um_hash m; um_chunkSize := um_chunkSize m;
     um_totalChunks := um_totalChunks m; um_receivedChunks := l;
     um_tempDir := um_tempDir m; um_createdAt := um_createdAt m |}.

(** Lines 205-215 *)
Definition chunksRootDir : string := "uploads/chunks".

Definition tempDirOf (name : string) : string := chunksRootDir +:+ "/" +:+ name.

(** Lines 656 and 700: the path of an assembled file *)
Definition filePath (now : Z) (fileName : string) : string :=
  "uploads/" +:+ NilZero.string_of_int (Z.to_int now) +:+ "-" +:+ fileName.

(** Lines 257-264 *)
Definition saveUploadMetadata (meta : UploadMetadata) (d : Disk) : Disk :=
  set_metadataFiles (<[um_id meta := meta]> (metadataFiles d)) d.

(** [fs.rm(tempDir, { recursive: true, force: true })] *)
Definition rmDir (dir : string) (d : Disk) : Disk :=
  set_chunkFiles (filter (fun kv => fst (fst kv) <> dir) (chunkFiles d)) d.

(** [fs.unlink(metadataPath).catch(() => {})] *)
Definition unlinkMetadata (uid : string) (d : Disk) : Disk :=
  set_metadataFiles (delete uid (metadataFiles d)) d.

(** What a handler sends. *)
Inductive Reply :=
| InitFast (taskId : string)
| InitNormal (uploadId : string) (uploadedChunks : list Z) (chunkSize totalChunks : Z)
| ChunkOk
| TaskCreated (taskId : string)
| Refused (code : Z) (error : string)
| Failed (message : string).

(** [res.ok] on the client *)
Definition ok (r : Reply) : bool :=
  match r with
  | Refused _ _ | Failed _ => false
  | _ => true
  end.

(** [(request.headers["x-user-id"] as string) || "anonymous"] *)
Definition userOf (header : option string) : string :=
  match header with
  | Some u => if String.eqb u "" then "anonymous" else u
  | None => "anonymous"
  end.

Record InitBody := {
  init_fileName : string;
  init_fileSize : Z;
  init_hash : string;
  init_chunkSize : Z;
  init_existingUploadId : option string
}.

(** Lines 550-557, for a body whose numbers are integers and whose
    [existingUploadId], when present, has the format of an identity. *)
Definition initSchema (body : InitBody) : bool :=
  negb (String.eqb (init_fileName body) "")
  && (1 <=? init_fileSize body)%Z
  && negb (String.eqb (init_hash body) "")
  && (1 <=? init_chunkSize body)%Z.

Section WithCollaborators.

Variable w : World.

(** SHA-256, as the bytes of the digest. *)
Variable sha256 : bytes -> bytes.

(** [pipeline.createTask(...)] followed by the reading of [task.id] *)
Definition createTaskId (params : CreateTaskParams) (s : State) : Outcome string * State :=
  match createTask w params s with
  | (Ok r, s') =>
      (match heap s' !! r with
       | Some task => Ok (id task)
       | None => Throw "task"
       end, s')
  | (Throw msg, s') => (Throw msg, s')
  end.

(** Two lowercase hexadecimal digits for a byte: [digest("hex")] on
    the server, [toString(16).padStart(2, "0")] on the client. *)
Definition hexDigit (n : N) : Ascii.ascii :=
  default (Ascii.ascii_of_nat 48) (String.get (N.to_nat n) "0123456789abcdef").

Definition hexOfByte (b : Byte.byte) : string :=
  String (hexDigit (Byte.to_N b / 16)) (String (hexDigit (Byte.to_N b mod 16)) EmptyString).

Definition hex (digest : bytes) : string :=
  fold_right (fun b s => hexOfByte b +:+ s) EmptyString digest.

(** POST /upload/init, lines 549-604 *)
Definition uploadInit (now : Z) (userId : option string) (body : InitBody) (sv : Server)
    : Reply * Server :=
  if negb (initSchema body) then (Failed "ZodError", sv)
  else
    let index := uploadIndex (disk sv) in
    let existing :=
      match index !! init_hash body with
      | Some sourcePath => if String.eqb sourcePath "" then None else Some sourcePath
      | None => None
      end in
    match existing with
    | Some sourcePath =>
        match createTaskId {| params_userId := userOf userId;
                              params_fileName := init_fileName body;
                              params_fileType := pdf;
                              params_sourcePath := sourcePath |} (pipeline sv) with
        | (Ok tid, s') => (InitFast tid, {| disk := disk sv; pipeline := s' |})
        | (Throw msg, s') => (Failed msg, {| disk := disk sv; pipeline := s' |})
        end
    | None =>
        let metadata :=
          match init_existingUploadId body with
          | Some uploadId =>
              if String.eqb uploadId "" then None
              else metadataFiles (disk sv) !! uploadId
          | None => None
          end in
        match metadata with
        | Some meta =>
            (InitNormal (um_id meta) (um_receivedChunks meta) (um_chunkSize meta)
                        (um_totalChunks meta), sv)
        | None =>
            let totalChunks :=
              ceil (inject_Z (init_fileSize body) / inject_Z (init_chunkSize body)) in
            match randomUUID w (pipeline sv) with
            | (Ok dirName, s1) =>
                match randomUUID w s1 with
                | (Ok uploadId, s2) =>
                    let meta :=
                      {| um_id := uploadId; um_fileName := init_fileName body;
                         um_fileSize := init_fileSize body; um_hash := init_hash body;
                         um_chunkSize := init_chunkSize body; um_totalChunks := totalChunks;
                         um_receivedChunks := []; um_tempDir := tempDirOf dirName;
                         um_createdAt := now |} in
                    (InitNormal (um_id meta) (um_receivedChunks meta) (um_chunkSize meta)
                                (um_totalChunks meta),
                     {| disk := saveUploadMetadata meta (disk sv); pipeline := s2 |})
                | (Throw msg, s2) => (Failed msg, {| disk := disk sv; pipeline := s2 |})
                end
            | (Throw msg, s1) => (Failed msg, {| disk := disk sv; pipeline := s1 |})
            end
        end
    end.

(** What arrives of a request body that is streamed to a file: the
    bytes that came, and the error when the stream broke. *)
Record Payload := { received : bytes; broken : option string }.

(** [receivedChunks.sort((a, b) => a - b)] *)
Definition byIndex (a b : Z) : Q := inject_Z a - inject_Z b.

(** PUT /upload/chunk, lines 606-637, for an identity that has the
    format and an integer index. *)
Definition uploadChunk (uploadId : string) (index : Z) (payload : Payload) (sv : Server)
    : Reply * Server :=
  if (index <? 0)%Z then (Failed "ZodError", sv)
  else
    match metadataFiles (disk sv) !! uploadId with
    | None => (Refused 404 "upload_not_found", sv)
    | Some metadata =>
        if (um_totalChunks metadata <=? index)%Z then (Refused 400 "invalid_chunk_index", sv)
        else
          let chunkPath := (um_tempDir metadata, index) in
          match broken payload with
          | Some err =>
              (Failed err,
               {| disk := set_chunkFiles (delete chunkPath (chunkFiles (disk sv))) (disk sv);
                  pipeline := pipeline sv |})
          | None =>
              let written :=
                set_chunkFiles (<[chunkPath := received payload]> (chunkFiles (disk sv)))
                               (disk sv) in
              if bool_decide (index ∈ um_receivedChunks metadata) then
                (ChunkOk, {| disk := written; pipeline := pipeline sv |})
              else
                let receivedChunks := sort byIndex (um_receivedChunks metadata ++ [index]) in
                (ChunkOk,
                 {| disk := saveUploadMetadata (set_received receivedChunks metadata) written;
                    pipeline := pipeline sv |})
          end
    end.

(** [fs.appendFile] *)
Definition appendFile (path : string) (data : bytes) (d : Disk) : Disk :=
  set_uploadedFiles
    (<[path := default [] (uploadedFiles d !! path) ++ data]> (uploadedFiles d)) d.

(** Lines 658-663: the chunks are read and appended one after the
    other; the result is what the hash was fed, or the error of the
    first chunk that cannot be read, with the file as far as it got. *)
Fixpoint appendChunks (tempDir finalPath : string) (indices : list Z) (fed : bytes) (d : Disk)
    : Outcome bytes * Disk :=
  match indices with
  | [] => (Ok fed, d)
  | index :: rest =>
      match chunkFiles d !! (tempDir, index) with
      | None => (Throw "ENOENT", d)
      | Some data =>
          appendChunks tempDir finalPath rest (fed ++ data) (appendFile finalPath data d)
      end
  end.

(** The values of [index] in [for (let index = 0; index < n; index++)] *)
Definition upTo (n : Z) : list Z := map Z.of_nat (seq 0 (Z.to_nat n)).

(** POST /upload/complete, lines 639-686 *)
Definition uploadComplete (now : Z) (userId : option string) (uploadId : string) (sv : Server)
    : Reply * Server :=
  match metadataFiles (disk sv) !! uploadId with
  | None => (Refused 404 "upload_not_found", sv)
  | Some metadata =>
      if negb (Z.of_nat (length (um_receivedChunks metadata)) =? um_totalChunks metadata)%Z
      then (Refused 400 "chunks_incomplete", sv)
      else
        let finalPath := filePath now (um_fileName metadata) in
        match appendChunks (um_tempDir metadata) finalPath (upTo (um_totalChunks metadata)) []
                           (disk sv) with
        | (Throw err, d) => (Failed err, {| disk := d; pipeline := pipeline sv |})
        | (Ok fed, d) =>
            let digest := hex (sha256 fed) in
            if negb (String.eqb digest (um_hash metadata)) then
              (Refused 400 "hash_mismatch",
               {| disk := set_uploadedFiles (delete finalPath (uploadedFiles d)) d;
                  pipeline := pipeline sv |})
            else
              let d1 := set_uploadIndex (<[um_hash metadata := finalPath]> (uploadIndex d)) d in
              match createTaskId {| params_userId := userOf userId;
                                    params_fileName := um_fileName metadata;
                                    params_fileType := pdf;
                                    params_sourcePath := finalPath |} (pipeline sv) with
              | (Throw msg, s') => (Failed msg, {| disk := d1; pipeline := s' |})
              | (Ok tid, s') =>
                  (TaskCreated tid,
                   {| disk := unlinkMetadata (um_id metadata) (rmDir (um_tempDir metadata) d1);
                      pipeline := s' |})
              end
        end
  end.

(** POST /upload, lines 688-715. [file] is what [request.file()]
    gives: nothing, or the file name of the part, when it has one, and
    its stream. *)
Definition uploadWhole (now : Z) (userId : option string)
    (file : option (option string * Payload)) (sv : Server) : Reply * Server :=
  match file with
  | None => (Refused 400 "file expected", sv)
  | Some (filename, payload) =>
      let fileName :=
        match filename with
        | Some n => if String.eqb n "" then "file" else n
        | None => "file"
        end in
      let path := filePath now fileName in
      let written :=
        set_uploadedFiles (<[path := received payload]> (uploadedFiles (disk sv))) (disk sv) in
      match broken payload with
      | Some _ => (Refused 500 "upload_failed", {| disk := written; pipeline := pipeline sv |})
      | None =>
          match createTaskId {| params_userId := userOf userId;
                                params_fileName := fileName;
                                params_fileType := pdf;
                                params_sourcePath := path |} (pipeline sv) with
          | (Throw _, s') => (Refused 500 "upload_failed", {| disk := written; pipeline := s' |})
          | (Ok tid, s') => (TaskCreated tid, {| disk := written; pipeline := s' |})
          end
      end
  end.

(** What happens to the server: a request of an upload route, or the
    handler its pipeline waits for settles. *)
Inductive Request :=
| Init (now : Z) (userId : option string) (body : InitBody)
| Chunk (uploadId : string) (index : Z) (payload : Payload)
| Complete (now : Z) (userId : option string) (uploadId : string)
| Whole (now : Z) (userId : option string) (file : option (option string * Payload))
| Settled.

Definition serve (r : Request) (sv : Server) : Server :=
  match r with
  | Init now userId body => snd (uploadInit now userId body sv)
  | Chunk uploadId index payload => snd (uploadChunk uploadId index payload sv)
  | Complete now userId uploadId => snd (uploadComplete now userId uploadId sv)
  | Whole now userId file => snd (uploadWhole now userId file sv)
  | Settled => {| disk := disk sv; pipeline := snd (resume w (pipeline sv)) |}
  end.

Definition serveAll (rs : list Request) (sv : Server) : Server :=
  fold_left (fun sv r => serve r sv) rs sv.

(** *** page.tsx: the client of the chunked upload *)

Record File := { file_name : string; file_content : bytes }.

Definition file_size (file : File) : Z := Z.of_nat (length (file_content file)).

(** Lines 129-143; [subtle] tells whether the browser has
    [crypto.subtle]. *)
Definition computeFileHash (subtle : bool) (file : File) : option string :=
  if subtle then Some (hex (sha256 (file_content file))) else None.

(** Lines 145-157 *)
Definition uploadFileLegacy (now : Z) (file : File) (sv : Server) : Outcome string * Server :=
  match uploadWhole now None
          (Some (Some (file_name file), {| received := file_content file; broken := None |}))
          sv with
  | (TaskCreated tid, sv') => (Ok tid, sv')
  | (_, sv') => (Throw "upload_failed", sv')
  end.

Definition defaultChunkSize : Z := 5 * 1024 * 1024.

Definition storageKey (hash : string) : string := "visualrag_upload_" +:+ hash.

(** Lines 212-214 *)
Definition chunkOf (file : File) (chunkSize index : Z) : bytes :=
  let start := (index * chunkSize)%Z in
  let stop := Z.min (file_size file) (start + chunkSize) in
  Search.slice (file_content file) start stop.

(** Lines 208-230 *)
Fixpoint putChunks (uploadId : string) (uploadedSet : list Z) (chunkSize : Z) (file : File)
    (indices : list Z) (sv : Server) : Outcome unit * Server :=
  match indices with
  | [] => (Ok tt, sv)
  | index :: rest =>
      if bool_decide (index ∈ uploadedSet) then
        putChunks uploadId uploadedSet chunkSize file rest sv
      else
        let chunk := chunkOf file chunkSize index in
        let '(res, sv') :=
          uploadChunk uploadId index {| received := chunk; broken := None |} sv in
        if negb (ok res) then (Throw "upload_chunk_failed", sv')
        else putChunks uploadId uploadedSet chunkSize file rest sv'
  end.

(** Lines 159-247. [tInit] and [tDone] are the times at which the
    server handles the first and the last request. The requests of the
    client carry no x-user-id header. *)
Definition uploadFileWithResume (subtle : bool) (tInit tDone : Z) (file : File)
    (ls : Storage) (sv : Server) : Outcome string * (Storage * Server) :=
  match computeFileHash subtle file with
  | None =>
      let '(res, sv') := uploadFileLegacy tDone file sv in (res, (ls, sv'))
  | Some hash =>
      let existingUploadId :=
        match ls !! storageKey hash with
        | Some uploadId => if String.eqb uploadId "" then None else Some uploadId
        | None => None
        end in
      let '(initRes, sv1) :=
        uploadInit tInit None
          {| init_fileName := file_name file; init_fileSize := file_size file;
             init_hash := hash; init_chunkSize := defaultChunkSize;
             init_existingUploadId := existingUploadId |} sv in
      match initRes with
      | InitFast taskId => (Ok taskId, (ls, sv1))
      | InitNormal uploadId uploadedChunks chunkSize0 totalChunks =>
          let ls1 := <[storageKey hash := uploadId]> ls in
          let chunkSize := if (chunkSize0 =? 0)%Z then defaultChunkSize else chunkSize0 in
          match putChunks uploadId uploadedChunks chunkSize file (upTo totalChunks) sv1 with
          | (Throw err, sv2) => (Throw err, (ls1, sv2))
          | (Ok _, sv2) =>
              match uploadComplete tDone None uploadId sv2 with
              | (TaskCreated taskId, sv3) =>
                  (Ok taskId, (delete (storageKey hash) ls1, sv3))
              | (_, sv3) => (Throw "upload_complete_failed", (ls1, sv3))
              end
          end
      | _ =>
          let '(res, sv') := uploadFileLegacy tDone file sv1 in (res, (ls, sv'))
      end
  end.

End WithCollaborators.

End Upload.

(** ** HighlightOverlay.tsx, PdfViewer.tsx and pdfViewerStore.ts *)

Module Viewer.

Record NormalizedBBox := { x0 : Q; y0 : Q; x1 : Q; y1 : Q }.

Record VisualRegion := {
  id : string;
  bbox : NormalizedBBox;
  type : option string
}.

Record CanvasSize := { width : Q; height : Q }.

(** The [style] of an overlay *)
Record Box := { left : Q; top : Q; box_width : Q; box_height : Q }.

(** HighlightOverlay.tsx, lines 29-39 *)
Definition toCanvasBBox (b : NormalizedBBox) (canvasSize : CanvasSize) : Box :=
  let w := ((x1 b - x0 b) * width canvasSize)%Q in
  let h := ((y1 b - y0 b) * height canvasSize)%Q in
  {| left := (x0 b * width canvasSize)%Q;
     top := (y0 b * height canvasSize)%Q;
     box_width := w;
     box_height := h |}.

(** Lines 57-62 *)
Definition activeClass (region : VisualRegion) : string :=
  match type region with
  | Some t =>
      if String.eqb t "table" then "border-amber-400 bg-amber-400/20"
      else "border-cyan-400 bg-cyan-400/20"
  | None => "border-cyan-400 bg-cyan-400/20"
  end.

(** One [div] of the overlay: its key, its class and its style. *)
Record Overlay := { key : string; className : string; style : Box }.

(** Lines 41-79. An active identity is [None] where the array holds
    [undefined] or [null]. *)
Definition HighlightOverlay (regions : list VisualRegion) (canvasSize : CanvasSize)
    (activeRegionIds : list (option string)) : list Overlay :=
  let hasActive := (0 <? length activeRegionIds)%nat in
  let visibleRegions :=
    if hasActive
    then List.filter (fun region => bool_decide (Some (id region) ∈ activeRegionIds)) regions
    else [] in
  map (fun region =>
         {| key := id region; className := activeClass region;
            style := toCanvasBBox (bbox region) canvasSize |})
      visibleRegions.

(** pdfViewerStore.ts *)
Record VisualReference := {
  documentId : string;
  pageNumber : nat;
  regionIds : list (option string)
}.

Record PdfViewerState := {
  currentDocumentId : option string;
  currentPage : nat;
  scale : Q;
  activeReference : option VisualReference
}.

Definition initialViewerState : PdfViewerState :=
  {| currentDocumentId := None; currentPage := 1; scale := 1; activeReference := None |}.

Definition setActiveReference (reference : option VisualReference) (s : PdfViewerState)
    : PdfViewerState :=
  {| currentDocumentId := currentDocumentId s; currentPage := currentPage s;
     scale := scale s; activeReference := reference |}.

Definition setCurrentPage (page : nat) (s : PdfViewerState) : PdfViewerState :=
  {| currentDocumentId := currentDocumentId s; currentPage := page;
     scale := scale s; activeReference := activeReference s |}.

Definition setScale (scale0 : Q) (s : PdfViewerState) : PdfViewerState :=
  {| currentDocumentId := currentDocumentId s; currentPage := currentPage s;
     scale := scale0; activeReference := activeReference s |}.

Record PdfPageMetadata := { page_pageNumber : nat; page_width : Q; page_height : Q }.

(** PdfViewer.tsx, lines 58-101: for every page, in their order, its
    number and the overlays drawn on its canvas. *)
Definition PdfViewer (documentId0 : string) (pages : list PdfPageMetadata)
    (regionsByPage : gmap nat (list VisualRegion)) (s : PdfViewerState)
    : list (nat * list Overlay) :=
  map (fun page =>
         let pageRegions := default [] (regionsByPage !! page_pageNumber page) in
         let canvasSize := {| width := page_width page; height := page_height page |} in
         let activeRegionIds :=
           match activeReference s with
           | Some ref =>
               if String.eqb (documentId ref) documentId0
                  && (pageNumber ref =? page_pageNumber page)%nat
               then regionIds ref
               else []
           | None => []
           end in
         (page_pageNumber page, HighlightOverlay pageRegions canvasSize activeRegionIds))
      pages.

End Viewer.

(** ** index.ts and page.tsx: the chat stream *)

Module Chat.

Record Citation := { cite_pageNumber : nat; cite_regionIds : list (option string) }.

(** What a frame of the stream carries, lines 964, 975 and 986 of the
    server and 101-109 of the client. *)
Inductive ChatEventPayload :=
| token_event (token : jsstring)
| done_event (citations : list Citation)
| error_event (message : string).

(** [chunk.content] of the model: a string, an array of parts of which
    the first has or has not a [text], or something else. *)
Inductive Content :=
| text_content (s : jsstring)
| parts_content (parts : list (option jsstring))
| other_content.

(** Lines 956-962 *)
Definition tokenOf (content : Content) : jsstring :=
  match content with
  | text_content s => s
  | parts_content (first :: _) => default [] first
  | parts_content [] => []
  | other_content => []
  end.

(** [chatLlm.stream(prompt)]: rejects, or yields chunks and then ends or
    raises. *)
Definition Llm := jsstring -> Outcome (list Content * option string).

(** [String(n)] for a natural number *)
Definition decimal (n : nat) : jsstring := of_string (NilZero.string_of_uint (Nat.to_uint n)).

(** The assistant's instructions, line 937: the assistant answers from
    the passages of the document only, in Chinese. *)
Definition systemPrompt : jsstring :=
  [20320; 26159; 19968; 20010; 25991; 26723; 38382; 31572; 21161; 25163; 65292; 21482;
   33021; 22522; 20110; 25552; 20379; 30340; 25991; 26723; 29255; 27573; 22238; 31572;
   38382; 39064; 12290; 22914; 26524; 25991; 26723; 20013; 27809; 26377; 30456; 20851;
   20449; 24687; 65292; 35831; 26126; 30830; 35828; 26126; 26080; 27861; 20174; 25991;
   26723; 20013; 22238; 31572; 12290; 22238; 31572; 26102; 29992; 20013; 25991; 31616;
   35201; 12289; 28165; 26224; 22320; 24635; 32467; 35201; 28857; 12290]%N.

(** Line 941: no passage was found. *)
Definition noContext : jsstring :=
  [27809; 26377; 26816; 32034; 21040; 19982; 38382; 39064; 30456; 20851; 30340; 25991;
   26723; 29255; 27573; 12290]%N.

(** Lines 943, 946 and 948: the headings of the instructions, of the
    question and of the passages. *)
Definition instructionsHeading : jsstring := [31995; 32479; 25351; 20196; 65306]%N.

Definition questionHeading : jsstring := [38382; 39064; 65306]%N.

Definition passagesHeading : jsstring := [25991; 26723; 29255; 27573; 65306]%N.

(** Lines 932-950 *)
Definition promptOf (q : jsstring) (results : list Search.SemanticSearchResultItem) : jsstring :=
  let contextPieces :=
    imap (fun index r =>
            of_string "Passage " ++ decimal (index + 1) ++ of_string " (page "
              ++ decimal (Search.pageNumber r) ++ of_string "):" ++ [newline]
              ++ Search.snippet r)
         results in
  let contextText :=
    if (0 <? length contextPieces)%nat then join [newline; newline] contextPieces
    else noContext in
  join [newline]
    [instructionsHeading; systemPrompt; []; questionHeading ++ q; []; passagesHeading;
     contextText].

(** Lines 980-984, for an error that has its text in [message] *)
Definition messageOf (err : string) : string :=
  if String.eqb err "" then "unknown_error" else err.

(** The client closes the connection: [closed] is set when the model
    has yielded [closedAt] chunks, or never. *)
Definition isClosed (closedAt : option nat) (yielded : nat) : bool :=
  match closedAt with
  | Some k => (k <=? yielded)%nat
  | None => false
  end.

(** Lines 952-967: the frames written for the chunks from the [i]-th
    on, and whether the loop was left by [break]. *)
Fixpoint streamTokens (closedAt : option nat) (i : nat) (chunks : list Content)
    : list ChatEventPayload * bool :=
  match chunks with
  | [] => ([], false)
  | chunk :: rest =>
      if isClosed closedAt i then ([], true)
      else
        let token := tokenOf chunk in
        let '(frames, broke) := streamTokens closedAt (S i) rest in
        ((if isEmpty token then [] else [token_event token]) ++ frames, broke)
  end.

(** What the route writes: the status, and for 200 the frames and
    whether the response was ended. *)
Inductive Response :=
| Forbidden
| Stream (allowOrigin : jsstring) (frames : list ChatEventPayload) (ended : bool).

Definition citationOf (r : Search.SemanticSearchResultItem) : Citation :=
  {| cite_pageNumber := Search.pageNumber r; cite_regionIds := Search.regionIds r |}.

Section WithCollaborators.

Variable toLowerCase : jsstring -> jsstring.
Variable prisma : Search.Persistence.
Variable openai : Search.Generation.
Variable chatLlm : Llm.

(** GET /chat/stream, lines 900-992, for parameters that passed
    [schema.parse] *)
Definition chatStream (env origin : option jsstring) (documentId : string) (q : jsstring)
    (limit : option Z) (closedAt : option nat) : Response :=
  match Cors.chatStreamHead env origin with
  | Cors.Forbidden => Forbidden
  | Cors.EventStream originHeader =>
      let failed err := Stream originHeader [error_event (messageOf err)] true in
      match Search.semanticSearch toLowerCase prisma openai documentId q limit with
      | Throw err => failed err
      | Ok results =>
          match chatLlm (promptOf q results) with
          | Throw err => failed err
          | Ok (chunks, failure) =>
              let '(tokens, broke) := streamTokens closedAt 0 chunks in
              if broke then Stream originHeader tokens false
              else
                match failure with
                | Some err => Stream originHeader (tokens ++ [error_event (messageOf err)]) true
                | None =>
                    if isClosed closedAt (length chunks) then Stream originHeader tokens false
                    else
                      let citations := map citationOf results in
                      Stream originHeader (tokens ++ [done_event citations]) true
                end
          end
      end
  end.

End WithCollaborators.

(** *** The client *)

Inductive Role := user | assistant.

Record ChatMessage := {
  msg_id : string;
  role : Role;
  content : jsstring;
  citations : option (list Citation)
}.

(** The page: what [handleChatSubmit] and the handlers of its event
    source read and write. The open event source is kept with what its
    handlers captured: the identity of the assistant message and the
    document of the viewer. *)
Record Page := {
  chatMessages : list ChatMessage;
  chatInput : jsstring;
  chatStreaming : bool;
  chatError : option string;
  viewerDocumentId : option string;
  viewer : Viewer.PdfViewerState;
  eventSource : option (string * string)
}.

Definition set_chatMessages (l : list ChatMessage) (p : Page) : Page :=
  {| chatMessages := l; chatInput := chatInput p; chatStreaming := chatStreaming p;
     chatError := chatError p; viewerDocumentId := viewerDocumentId p; viewer := viewer p;
     eventSource := eventSource p |}.

Definition set_chatError (e : option string) (p : Page) : Page :=
  {| chatMessages := chatMessages p; chatInput := chatInput p;
     chatStreaming := chatStreaming p; chatError := e;
     viewerDocumentId := viewerDocumentId p; viewer := viewer p;
     eventSource := eventSource p |}.

Definition set_viewer (v : Viewer.PdfViewerState) (p : Page) : Page :=
  {| chatMessages := chatMessages p; chatInput := chatInput p;
     chatStreaming := chatStreaming p; chatError := chatError p;
     viewerDocumentId := viewerDocumentId p; viewer := v; eventSource := eventSource p |}.

(** [setChatStreaming(false); es.close()] *)
Definition finish (p : Page) : Page :=
  {| chatMessages := chatMessages p; chatInput := chatInput p; chatStreaming := false;
     chatError := chatError p; viewerDocumentId := viewerDocumentId p; viewer := viewer p;
     eventSource := None |}.

(** The update of the assistant message, lines 477-488: the first
    message with the identity is replaced by what [f] makes of it. *)
Definition updateAssistant (assistantId : string) (f : ChatMessage -> ChatMessage)
    (prev : list ChatMessage) : list ChatMessage :=
  match list_find (fun m => msg_id m = assistantId) prev with
  | None => prev
  | Some (index, m) => <[index := f m]> prev
  end.

Definition with_content (c : jsstring) (m : ChatMessage) : ChatMessage :=
  {| msg_id := msg_id m; role := role m; content := c; citations := citations m |}.

Definition with_citations (c : list Citation) (m : ChatMessage) : ChatMessage :=
  {| msg_id := msg_id m; role := role m; content := content m; citations := Some c |}.

(** The texts of lines 529, 530, 551 and 570: the generation failed
    (with the message, or without), the stream could not be read, the
    connection was lost. *)
Definition failedWith : jsstring := [23545; 35805; 29983; 25104; 22833; 36133; 65306]%N.

Definition failedText : jsstring :=
  [23545; 35805; 29983; 25104; 22833; 36133; 65292; 35831; 31245; 21518; 37325; 35797;
   25110; 26816; 26597; 21518; 31471; 26381; 21153; 37197; 32622; 12290]%N.

Definition unreadableText : jsstring :=
  [23545; 35805; 27969; 35299; 26512; 22833; 36133; 65292; 35831; 31245; 21518; 37325;
   35797; 12290]%N.

Definition interruptedText : jsstring :=
  [23545; 35805; 36830; 25509; 20013; 26029; 65292; 35831; 26816; 26597; 32593; 32476;
   25110; 21518; 31471; 26381; 21153; 12290]%N.

(** [s.trim().length === 0] *)
Definition blank (s : jsstring) : bool := (length (trim s) =? 0)%nat.

(** The content is replaced when nothing was shown yet. *)
Definition orIfBlank (text : jsstring) (m : ChatMessage) : ChatMessage :=
  if blank (content m) then with_content text m else m.

(** What the event source delivers: a message with its data, [None]
    when the data is not a payload, or an error of the connection. *)
Inductive EsEvent :=
| es_message (data : option ChatEventPayload)
| es_error.

(** Lines 473-577, the handlers [onmessage] and [onerror] of the event
    source whose handlers captured [assistantId] and [documentId] *)
Definition handle (assistantId documentId : string) (e : EsEvent) (p : Page) : Page :=
  match e with
  | es_message None =>
      finish (set_chatMessages (updateAssistant assistantId (orIfBlank unreadableText)
                                                (chatMessages p)) p)
  | es_message (Some (token_event token)) =>
      if isEmpty token then p
      else
        set_chatMessages
          (updateAssistant assistantId (fun m => with_content (content m ++ token) m)
                           (chatMessages p)) p
  | es_message (Some (done_event cites)) =>
      let p1 :=
        match cites with
        | first :: _ =>
            set_viewer
              (Viewer.setActiveReference
                 (Some {| Viewer.documentId := documentId;
                          Viewer.pageNumber := cite_pageNumber first;
                          Viewer.regionIds := cite_regionIds first |})
                 (viewer p)) p
        | [] => p
        end in
      let p2 :=
        match cites with
        | _ :: _ =>
            set_chatMessages (updateAssistant assistantId (with_citations cites)
                                              (chatMessages p1)) p1
        | [] => p1
        end in
      finish p2
  | es_message (Some (error_event message)) =>
      let shown := of_string message in
      let text := if blank shown then failedText else failedWith ++ shown in
      let p1 :=
        set_chatMessages (updateAssistant assistantId (orIfBlank text) (chatMessages p)) p in
      let p2 := if blank shown then p1 else set_chatError (Some message) p1 in
      finish p2
  | es_error =>
      finish (set_chatMessages (updateAssistant assistantId (orIfBlank interruptedText)
                                                (chatMessages p)) p)
  end.

(** The events reach the handlers as long as the event source is open. *)
Definition deliver (e : EsEvent) (p : Page) : Page :=
  match eventSource p with
  | Some (assistantId, documentId) => handle assistantId documentId e p
  | None => p
  end.

Definition deliverAll (es : list EsEvent) (p : Page) : Page :=
  fold_left (fun p e => deliver e p) es p.

(** [`${Date.now()}-user`] and [`${Date.now()}-assistant`] *)
Definition stamp (now : Z) (suffix : string) : string :=
  NilZero.string_of_int (Z.to_int now) +:+ suffix.

(** Lines 449-472: the page after the submission, and the question sent
    to the server when an event source is opened. [now1] and [now2] are
    the two readings of the clock. *)
Definition handleChatSubmit (now1 now2 : Z) (p : Page) : Page * option jsstring :=
  match viewerDocumentId p with
  | None => (p, None)
  | Some documentId =>
      if String.eqb documentId "" then (p, None)
      else
        let p0 := set_chatError None p in
        let q := trim (chatInput p) in
        if isEmpty q then (p0, None)
        else if chatStreaming p then (p0, None)
        else
          let userMessage :=
            {| msg_id := stamp now1 "-user"; role := user; content := q; citations := None |} in
          let assistantId := stamp now2 "-assistant" in
          let assistantMessage :=
            {| msg_id := assistantId; role := assistant; content := []; citations := None |} in
          ({| chatMessages := chatMessages p ++ [userMessage; assistantMessage];
              chatInput := [];
              chatStreaming := true;
              chatError := None;
              viewerDocumentId := viewerDocumentId p;
              viewer := viewer p;
              eventSource := Some (assistantId, documentId) |},
           Some q)
  end.

End Chat.

(** ** Numbers that need not be finite *)

Module Number.

(** A JavaScript number: a finite value, NaN or one of the two
    infinities. A finite value is an exact rational: the arithmetic on
    finite values neither rounds nor overflows, as in the rest of the
    development. The sign of zero is not kept (no division of the two
    extractors has a zero divisor). *)
Inductive number : Type :=
| NaN
| NegInfinity
| Finite (q : Q)
| Infinity.

(** [Number.isFinite] *)
Definition isFinite (a : number) : bool :=
  match a with Finite _ => true | _ => false end.

Definition negative (q : Q) : bool := negb (Qle_bool 0 q).

Definition signed (neg : bool) : number := if neg then NegInfinity else Infinity.

(** [a + b] *)
Definition add (a b : number) : number :=
  match a, b with
  | NaN, _ | _, NaN => NaN
  | Finite x, Finite y => Finite (x + y)
  | Infinity, NegInfinity | NegInfinity, Infinity => NaN
  | Infinity, _ | _, Infinity => Infinity
  | NegInfinity, _ | _, NegInfinity => NegInfinity
  end.

(** [a - b] *)
Definition sub (a b : number) : number :=
  match a, b with
  | NaN, _ | _, NaN => NaN
  | Finite x, Finite y => Finite (x - y)
  | Infinity, Infinity | NegInfinity, NegInfinity => NaN
  | Infinity, _ | _, NegInfinity => Infinity
  | NegInfinity, _ | _, Infinity => NegInfinity
  end.

(** [a * b] *)
Definition mul (a b : number) : number :=
  match a, b with
  | NaN, _ | _, NaN => NaN
  | Finite x, Finite y => Finite (x * y)
  | Finite x, Infinity | Infinity, Finite x =>
      if Qeq_bool x 0 then NaN else signed (negative x)
  | Finite x, NegInfinity | NegInfinity, Finite x =>
      if Qeq_bool x 0 then NaN else signed (negb (negative x))
  | Infinity, Infinity | NegInfinity, NegInfinity => Infinity
  | Infinity, NegInfinity | NegInfinity, Infinity => NegInfinity
  end.

(** [a / b] *)
Definition div (a b : number) : number :=
  match a, b with
  | NaN, _ | _, NaN => NaN
  | Finite x, Finite y =>
      if Qeq_bool y 0 then (if Qeq_bool x 0 then NaN else signed (negative x))
      else Finite (x / y)
  | Finite _, _ => Finite 0
  | Infinity, Finite y => signed (negative y)
  | NegInfinity, Finite y => signed (negb (negative y))
  | _, _ => NaN
  end.

(** [Math.abs] *)
Definition abs (a : number) : number :=
  match a with
  | NaN => NaN
  | Finite x => Finite (Qabs x)
  | _ => Infinity
  end.

(** [a < b], [a <= b] and [a > b]: false when one of the two is NaN. *)
Definition lt (a b : number) : bool :=
  match a, b with
  | NaN, _ | _, NaN => false
  | Finite x, Finite y => negb (Qle_bool y x)
  | _, NegInfinity | Infinity, _ => false
  | NegInfinity, _ | _, Infinity => true
  end.

Definition le (a b : number) : bool :=
  match a, b with
  | NaN, _ | _, NaN => false
  | Finite x, Finite y => Qle_bool x y
  | NegInfinity, _ | _, Infinity => true
  | _, NegInfinity | Infinity, _ => false
  end.

Definition gt (a b : number) : bool := lt b a.

(** [a === b] *)
Definition strictEq (a b : number) : bool :=
  match a, b with
  | Finite x, Finite y => Qeq_bool x y
  | Infinity, Infinity | NegInfinity, NegInfinity => true
  | _, _ => false
  end.

(** [Math.max(a, b)] and [Math.min(a, b)] *)
Definition max (a b : number) : number :=
  match a, b with
  | NaN, _ | _, NaN => NaN
  | Finite x, Finite y => Finite (Qmax x y)
  | Infinity, _ | _, Infinity => Infinity
  | NegInfinity, c | c, NegInfinity => c
  end.

Definition min (a b : number) : number :=
  match a, b with
  | NaN, _ | _, NaN => NaN
  | Finite x, Finite y => Finite (Qmin x y)
  | NegInfinity, _ | _, NegInfinity => NegInfinity
  | Infinity, c | c, Infinity => c
  end.

(** [v || 1]: zero and NaN are falsy. *)
Definition orOne (v : number) : number :=
  match v with
  | NaN => Finite 1
  | Finite x => if Qeq_bool x 0 then Finite 1 else v
  | _ => v
  end.

(** What [sort] makes of the value its comparator returns: NaN counts
    as 0. *)
Definition order (v : number) : Q :=
  match v with
  | NaN => 0
  | NegInfinity => -1
  | Finite x => x
  | Infinity => 1
  end.

End Number.

(** ** The two extractors on numbers that need not be finite

    [textExtractor.ts] and [layoutAnalyzer.ts] once more, with every
    number of the text content and of the viewport a [Number.number]: a
    coordinate, a width or a height may be NaN or infinite. This is the
    reading in which the test of [Number.isFinite] in the layout analyzer
    can fail. *)

Module AnyNumber.

Import Number.

Module Pdf.

(** An entry of [textContent.items], as in [Pdf.RawItem]. *)
Record RawItem := {
  str : option jsstring;
  transform : option (number * number);
  width : option number;
  height : option number
}.

Record RawPage := {
  viewportWidth : number;
  viewportHeight : number;
  items : list RawItem
}.

End Pdf.

Module TextExtractor.

Record Item := { item_text : jsstring; item_x : number; item_y : number }.

(** Lines 44-61 *)
Definition collectItem (raw : Pdf.RawItem) : option Item :=
  match Pdf.str raw, Pdf.transform raw with
  | Some value, Some (x, y) =>
      if isEmpty value then None
      else Some {| item_text := value; item_x := x; item_y := y |}
  | _, _ => None
  end.

Definition collectItems (raws : list Pdf.RawItem) : list Item :=
  omap collectItem raws.

(** Lines 62-67 *)
Definition compareItems (a b : Item) : number :=
  if strictEq (item_y a) (item_y b) then sub (item_x a) (item_x b)
  else sub (item_y b) (item_y a).

(** Lines 69-88 *)
Record Cluster := {
  closed : list (list Item);
  currentLine : option (list Item);
  currentY : number
}.

Definition initial : Cluster :=
  {| closed := []; currentLine := None; currentY := Finite 0 |}.

Definition lines (c : Cluster) : list (list Item) :=
  closed c ++ option_list (currentLine c).

Definition step (lineThreshold : number) (c : Cluster) (item : Item) : Cluster :=
  match currentLine c with
  | None =>
      {| closed := lines c; currentLine := Some [item]; currentY := item_y item |}
  | Some cur =>
      let dy := abs (sub (item_y item) (currentY c)) in
      if le dy lineThreshold then
        let cur' := cur ++ [item] in
        let n := Finite (inject_Z (Z.of_nat (length cur'))) in
        {| closed := closed c;
           currentLine := Some cur';
           currentY := div (add (mul (currentY c) (sub n (Finite 1))) (item_y item)) n |}
      else
        {| closed := lines c; currentLine := Some [item]; currentY := item_y item |}
  end.

Definition clusterLines (lineThreshold : number) (items : list Item) : list (list Item) :=
  lines (fold_left (step lineThreshold) items initial).

(** Lines 94-97 *)
Definition lineText (line : list Item) : jsstring :=
  trim (concat (map item_text line)).

(** Lines 89-102 *)
Definition segmentOf (line : list Item) : option jsstring :=
  match line with
  | [] => None
  | _ => let t := lineText line in if isEmpty t then None else Some t
  end.

Definition segments (ls : list (list Item)) : list jsstring :=
  omap segmentOf ls.

Record PageTextExtractionResult := {
  pageNumber : nat;
  width : number;
  height : number;
  text : jsstring
}.

Definition sortedItems (p : Pdf.RawPage) : list Item :=
  sort (fun a b => order (compareItems a b)) (collectItems (Pdf.items p)).

Definition pageLines (p : Pdf.RawPage) : list (list Item) :=
  let height := orOne (Pdf.viewportHeight p) in
  let lineThreshold := mul height (Finite (12 # 1000)) in
  clusterLines lineThreshold (sortedItems p).

Definition pageSegments (p : Pdf.RawPage) : list jsstring :=
  segments (pageLines p).

Definition extractPage (i : nat) (p : Pdf.RawPage) : PageTextExtractionResult :=
  {| pageNumber := i;
     width := Pdf.viewportWidth p;
     height := Pdf.viewportHeight p;
     text := join [newline] (pageSegments p) |}.

(** Lines 34-110 *)
Definition extractPages (pages : list Pdf.RawPage) : list PageTextExtractionResult :=
  imap (fun i p => extractPage (S i) p) pages.

End TextExtractor.

Module LayoutAnalyzer.

Record Item := {
  item_text : jsstring;
  item_x : number;
  item_y : number;
  item_width : number;
  item_height : number
}.

(** Lines 28-49: a width or height that is not a number counts as 0;
    NaN and the infinities are numbers. *)
Definition collectItem (raw : Pdf.RawItem) : option Item :=
  match Pdf.str raw, Pdf.transform raw with
  | Some value, Some (x, y) =>
      if isEmpty value then None
      else Some {| item_text := value; item_x := x; item_y := y;
                   item_width := default (Finite 0) (Pdf.width raw);
                   item_height := default (Finite 0) (Pdf.height raw) |}
  | _, _ => None
  end.

Definition collectItems (raws : list Pdf.RawItem) : list Item :=
  omap collectItem raws.

(** Lines 50-55 *)
Definition compareItems (a b : Item) : number :=
  if strictEq (item_y a) (item_y b) then sub (item_x a) (item_x b)
  else sub (item_y b) (item_y a).

(** Lines 56-76 *)
Record Cluster := {
  closed : list (list Item);
  currentLine : option (list Item);
  currentY : number
}.

Definition initial : Cluster :=
  {| closed := []; currentLine := None; currentY := Finite 0 |}.

Definition lines (c : Cluster) : list (list Item) :=
  closed c ++ option_list (currentLine c).

Definition step (lineThreshold : number) (c : Cluster) (item : Item) : Cluster :=
  match currentLine c with
  | None =>
      {| closed := lines c; currentLine := Some [item]; currentY := item_y item |}
  | Some cur =>
      let dy := abs (sub (item_y item) (currentY c)) in
      if le dy lineThreshold then
        let cur' := cur ++ [item] in
        let n := Finite (inject_Z (Z.of_nat (length cur'))) in
        {| closed := closed c;
           currentLine := Some cur';
           currentY := div (add (mul (currentY c) (sub n (Finite 1))) (item_y item)) n |}
      else
        {| closed := lines c; currentLine := Some [item]; currentY := item_y item |}
  end.

Definition clusterLines (lineThreshold : number) (items : list Item) : list (list Item) :=
  lines (fold_left (step lineThreshold) items initial).

(** Line 82 *)
Definition lineText (line : list Item) : jsstring :=
  trim (concat (map item_text line)).

Record NormalizedBBox := { x0 : number; y0 : number; x1 : number; y1 : number }.

Record VisualRegion := {
  id : string;
  documentId : string;
  pageNumber : nat;
  type : LayoutAnalyzer.RegionType;
  bbox : NormalizedBBox
}.

Record LayoutPage := {
  page_pageNumber : nat;
  page_width : number;
  page_height : number;
  regions : list VisualRegion
}.

(** Lines 86-99: the four running extremes of a line. A comparison with
    NaN is false, so a NaN never becomes an extreme. *)
Record Extent := { minX : number; maxX : number; minY : number; maxY : number }.

Definition initialExtent : Extent :=
  {| minX := Infinity; maxX := NegInfinity; minY := Infinity; maxY := NegInfinity |}.

Definition grow (e : Extent) (it : Item) : Extent :=
  let ix0 := item_x it in
  let ix1 := add (item_x it) (item_width it) in
  let iy0 := item_y it in
  let iy1 := add (item_y it) (item_height it) in
  {| minX := if lt ix0 (minX e) then ix0 else minX e;
     maxX := if gt ix1 (maxX e) then ix1 else maxX e;
     minY := if lt iy0 (minY e) then iy0 else minY e;
     maxY := if gt iy1 (maxY e) then iy1 else maxY e |}.

Definition extent (line : list Item) : Extent :=
  fold_left grow line initialExtent.

(** Lines 103-107 *)
Definition normalize (width height : number) (e : Extent) : NormalizedBBox :=
  let paddingY := mul height (Finite (4 # 1000)) in
  {| x0 := div (minX e) width;
     y0 := max (Finite 0) (div (sub (minY e) paddingY) height);
     x1 := div (maxX e) width;
     y1 := min (Finite 1) (div (add (maxY e) paddingY) height) |}.

(** Line 100 *)
Definition allFinite (e : Extent) : bool :=
  isFinite (minX e) && isFinite (maxX e) && isFinite (minY e) && isFinite (maxY e).

(** Lines 78-119: the box of one line, or [None] where the loop
    continues without a region. *)
Definition lineBBox (width height : number) (line : list Item) : option NormalizedBBox :=
  match line with
  | [] => None
  | _ =>
      if isEmpty (lineText line) then None
      else
        let e := extent line in
        if allFinite e then Some (normalize width height e) else None
  end.

(** Lines 77-120 *)
Fixpoint buildRegions (uuid : nat -> string) (n : nat) (docId : string) (i : nat)
    (width height : number) (ls : list (list Item)) : list VisualRegion :=
  match ls with
  | [] => []
  | line :: rest =>
      match lineBBox width height line with
      | None => buildRegions uuid n docId i width height rest
      | Some b =>
          {| id := uuid n; documentId := docId; pageNumber := i;
             type := LayoutAnalyzer.other; bbox := b |}
            :: buildRegions uuid (S n) docId i width height rest
      end
  end.

Definition sortedItems (p : Pdf.RawPage) : list Item :=
  sort (fun a b => order (compareItems a b)) (collectItems (Pdf.items p)).

Definition pageLines (p : Pdf.RawPage) : list (list Item) :=
  let height := orOne (Pdf.viewportHeight p) in
  let lineThreshold := mul height (Finite (12 # 1000)) in
  clusterLines lineThreshold (sortedItems p).

Definition pageRegions (uuid : nat -> string) (n : nat) (docId : string)
    (i : nat) (p : Pdf.RawPage) : list VisualRegion :=
  let width := orOne (Pdf.viewportWidth p) in
  let height := orOne (Pdf.viewportHeight p) in
  buildRegions uuid n docId i width height (pageLines p).

(** Lines 15-127 *)
Fixpoint analyzePages (uuid : nat -> string) (n : nat) (docId : string)
    (i : nat) (pages : list Pdf.RawPage) : list LayoutPage :=
  match pages with
  | [] => []
  | p :: rest =>
      let rs := pageRegions uuid n docId i p in
      {| page_pageNumber := i;
         page_width := Pdf.viewportWidth p;
         page_height := Pdf.viewportHeight p;
         regions := rs |}
        :: analyzePages uuid (n + length rs) docId (S i) rest
  end.

End LayoutAnalyzer.

End AnyNumber.

(** ** index.ts: the handler of the semantic search route *)

Module SemanticRoute.

(** The parameters of the route after [schema.parse]: the identity of
    the document, the query and the optional limit. *)
Record Params := { id : string; q : jsstring; limit : option Z }.

Section WithCollaborators.

(** What a request carries, and [schema.parse] on it (lines 881-890): the
    parameters, or the error that zod throws. *)
Variable Request : Type.
Variable parse : Request -> Outcome Params.

Variable toLowerCase : jsstring -> jsstring.
Variable prisma : Search.Persistence.
Variable openai : Search.Generation.

(** GET /documents/:id/search/semantic, lines 880-898. [schema.parse]
    stands before the [try]: what it throws is left to the server, as
    is every [Throw] of the handler. *)
Definition handler (request : Request) : Outcome Search.Reply :=
  Search.bindO (parse request) (fun params =>
  Ok (Search.searchSemanticRoute toLowerCase prisma openai (id params) (q params) (limit params))).

End WithCollaborators.

End SemanticRoute.

(** * The statements: vocabulary

    The definitions below are not part of the program. They name what the
    theorems speak about: what a line keeps of its tokens, when a box is
    inside the unit square, which states the driver can reach. *)

(** ** Text and reading order *)

(** The code units of [s] that [trim] never removes. *)
Definition nonWhiteSpace (s : jsstring) : jsstring :=
  List.filter (fun c => negb (isWhiteSpace c)) s.

(** [sort cmp] leaves [a] before [b]. *)
Definition before {A : Type} (cmp : A -> A -> Q) (a b : A) : Prop :=
  Qle_bool (cmp a b) 0 = true.


(** ** The two extractors side by side *)

(** A token of the layout analyzer without its width and height: the
    token the text extractor makes of the same entry. *)
Definition forget (it : LayoutAnalyzer.Item) : TextExtractor.Item :=
  {| TextExtractor.item_text := LayoutAnalyzer.item_text it;
     TextExtractor.item_x := LayoutAnalyzer.item_x it;
     TextExtractor.item_y := LayoutAnalyzer.item_y it |}.

Definition forgetCluster (c : LayoutAnalyzer.Cluster) : TextExtractor.Cluster :=
  {| TextExtractor.closed := map (map forget) (LayoutAnalyzer.closed c);
     TextExtractor.currentLine := option_map (map forget) (LayoutAnalyzer.currentLine c);
     TextExtractor.currentY := LayoutAnalyzer.currentY c |}.

(** The four extremes passed the [Number.isFinite] tests of line 100. *)
Definition finiteExtent (e : LayoutAnalyzer.Extent) : Prop :=
  isFinite (LayoutAnalyzer.minX e) = true /\ isFinite (LayoutAnalyzer.maxX e) = true
  /\ isFinite (LayoutAnalyzer.minY e) = true /\ isFinite (LayoutAnalyzer.maxY e) = true.

(** ** Bounding boxes *)

(** The token lies inside a page of [W] by [H]. *)
Definition insidePage (W H : Q) (it : LayoutAnalyzer.Item) : Prop :=
  (0 <= LayoutAnalyzer.item_x it /\ 0 <= LayoutAnalyzer.item_width it
   /\ LayoutAnalyzer.item_x it + LayoutAnalyzer.item_width it <= W
   /\ 0 <= LayoutAnalyzer.item_y it /\ 0 <= LayoutAnalyzer.item_height it
   /\ LayoutAnalyzer.item_y it + LayoutAnalyzer.item_height it <= H)%Q.

(** 0 <= x0 <= x1 <= 1 and 0 <= y0 <= y1 <= 1 *)
Definition boundedBox (b : LayoutAnalyzer.NormalizedBBox) : Prop :=
  (0 <= LayoutAnalyzer.x0 b /\ LayoutAnalyzer.x0 b <= LayoutAnalyzer.x1 b
   /\ LayoutAnalyzer.x1 b <= 1
   /\ 0 <= LayoutAnalyzer.y0 b /\ LayoutAnalyzer.y0 b <= LayoutAnalyzer.y1 b
   /\ LayoutAnalyzer.y1 b <= 1)%Q.

Definition extentWithin (W H : Q) (e : LayoutAnalyzer.Extent) : Prop :=
  exists a b c d,
    e = {| LayoutAnalyzer.minX := Fin a; LayoutAnalyzer.maxX := Fin b;
           LayoutAnalyzer.minY := Fin c; LayoutAnalyzer.maxY := Fin d |}
    /\ (0 <= a /\ a <= b /\ b <= W /\ 0 <= c /\ c <= d /\ d <= H)%Q.

(** ** Region mapping *)

(** The number of newline characters of [text] before [offset]. *)
Definition newlinesBefore (text : jsstring) (offset : Z) : nat :=
  length (List.filter (fun c => (c =? newline)%N) (take (Z.to_nat offset) text)).

(** The entries of [l] at the indices [lo], [lo + 1], ..., [hi]. *)
Definition between {A} (lo hi : nat) (l : list A) : list A :=
  omap (fun k => l !! k) (seq lo (S hi - lo)).

(** A newline on its own. *)
Definition lineFeed : jsstring := [newline].

(** ** Semantic search *)

(** The literal matches of a search: what its first literal query
    returned. *)
Definition literalMatches (prisma : Search.Persistence) (docId : string) (q : jsstring)
    (limit : option Z) : Outcome (list Search.TextPageRow) :=
  Search.textPage_findMany prisma 0 docId q (default 10%Z limit).

(** The results the literal matches [matches] give with the regions
    [regions] of their pages. *)
Definition literalResults (toLowerCase : jsstring -> jsstring) (docId : string) (q : jsstring)
    (matches : list Search.TextPageRow) (regions : list Search.RegionRow)
    : list Search.SemanticSearchResultItem :=
  map (fun m => Search.buildResult toLowerCase docId q (Search.groupRegions regions)
                  (Search.tp_pageNumber m) (Search.tp_text m))
      matches.

(** ** The pipeline *)

Ltac unfold_monad :=
  unfold tasksSet, updateStage, emit, withTask, newDate, randomUUID, gets, modify,
    liftOutcome, tryCatch, tryFinally, bind, ret, throw, mutate in *.

(** What [updateTaskStage] does to the task object. *)
Definition entered (st : IngestionStage) (p : Q) (now : nat) (t : IngestionTask) : IngestionTask :=
  set_updatedAt now (set_progress p (set_stage st t)).

(** What the [catch] of [runTask] does to the task object. *)
Definition caught (err : string) (now : nat) (t : IngestionTask) : IngestionTask :=
  entered failed (progress t) now (set_error err t).

(** What entering the first stage does to the task object. *)
Definition startedAt (now : nat) : IngestionTask -> IngestionTask :=
  entered extracting_text (stageProgress 0) now.

(** The object [createTask] makes. *)
Definition newTask (w : World) (params : CreateTaskParams) (s : State) : IngestionTask :=
  {| id := uuid w (uuids s); userId := params_userId params;
     fileName := params_fileName params; fileType := params_fileType params;
     sourcePath := params_sourcePath params; createdAt := clock s; updatedAt := clock s;
     stage := queued; progress := 0; error := None; meta := None |}.

(** The state when [enqueue] has pushed the task and calls [runNext]. *)
Definition pushed (w : World) (params : CreateTaskParams) (s : State) : State :=
  {| heap := heap s ++ [newTask w params s];
     tasks := <[uuid w (uuids s) := length (heap s)]> (tasks s);
     queue := queue s ++ [length (heap s)];
     running := running s; awaiting := awaiting s; emitted := emitted s;
     clock := S (clock s); uuids := S (uuids s) |}.

(** [m] never throws. *)
Definition total {A} (m : M A) : Prop := forall s, exists a, fst (m s) = Ok a.

(** Every field of a task but [meta]. *)
Definition core (t : IngestionTask) :=
  (id t, userId t, fileName t, fileType t, sourcePath t,
   createdAt t, updatedAt t, stage t, progress t, error t).

Definition keepsCore (f : IngestionTask -> IngestionTask) : Prop :=
  forall t, core (f t) = core t.

(** [m] leaves the queue, the flags of the driver and the clock alone, and
    of the task objects it changes only [meta] of the object [r]. *)
Definition frames {A} (r : nat) (m : M A) : Prop :=
  forall s,
    queue (snd (m s)) = queue s
    /\ running (snd (m s)) = running s
    /\ awaiting (snd (m s)) = awaiting s
    /\ clock (snd (m s)) = clock s
    /\ exists f, keepsCore f /\ heap (snd (m s)) = alter f r (heap s).

Definition terminal (st : IngestionStage) : Prop := st = completed \/ st = failed.

(** The shape of the states the driver reaches: [running] is set exactly
    while a [runTask] is suspended; an idle driver has an empty queue; the
    suspended task is in the stage whose handler is awaited and is not in
    the queue; the queued tasks are distinct and still in stage queued;
    every other task is completed or failed. *)
Record Inv (s : State) : Prop := {
  inv_running : running s = match awaiting s with Some _ => true | None => false end;
  inv_idle : awaiting s = None -> queue s = [];
  inv_busy : forall r i, awaiting s = Some (r, i) ->
    (r ∉ queue s)
    /\ exists t st (h : StageHandler),
         heap s !! r = Some t /\ stages !! i = Some (st, h) /\ stage t = st;
  inv_nodup : NoDup (queue s);
  inv_queued : forall r, r ∈ queue s -> exists t, heap s !! r = Some t /\ stage t = queued;
  inv_done : forall r t, heap s !! r = Some t -> r ∉ queue s ->
    (forall i, awaiting s <> Some (r, i)) -> terminal (stage t)
}.

(** How the running task leaves a settlement: in its next stage, or
    returned (completed, or failed with the message thrown). The function
    is what the settlement does to the task object after the handler did
    [f] to it; the flag tells whether [runTask] returned. *)
Inductive Settlement (w : World) (s : State) (r i : nat) (h : StageHandler)
    (f : IngestionTask -> IngestionTask) : (IngestionTask -> IngestionTask) -> bool -> Prop :=
| settle_next s1 st' (h' : StageHandler) :
    h w r s = (Ok tt, s1) -> stages !! S i = Some (st', h') ->
    Settlement w s r i h f (entered st' (stageProgress (S i)) (clock s) ∘ f) false
| settle_completed s1 :
    h w r s = (Ok tt, s1) -> stages !! S i = None ->
    Settlement w s r i h f (entered completed 100 (clock s) ∘ f) true
| settle_failed s1 msg :
    h w r s = (Throw msg, s1) ->
    Settlement w s r i h f (caught msg (clock s) ∘ f) true.

(** Nothing the handlers of a task at [path] ask of the collaborators can
    fail: the file is read and parsed for both extractors, and the
    database accepts the writes. (A rejected embedding request does not
    count: [generateTextEmbeddings] catches it.) *)
Definition Healthy (w : World) (path : string) : Prop :=
  (exists pages, pdfForText w path = Ok pages)
  /\ (exists pages, pdfForLayout w path = Ok pages)
  /\ (forall t, sourcePath t = path -> prismaWrites w t = Ok tt).

(** A task whose handlers cannot fail is not failed; a task whose text
    cannot be extracted has not gone past its first stage, and is failed
    only with the message of the extraction. *)
Definition fateOk (w : World) (t : IngestionTask) : Prop :=
  (Healthy w (sourcePath t) -> stage t <> failed)
  /\ (forall msg, pdfForText w (sourcePath t) = Throw msg ->
        stage t = queued \/ stage t = extracting_text
        \/ (stage t = failed /\ error t = Some msg)).

Definition Fate (w : World) (s : State) : Prop :=
  forall k t, heap s !! k = Some t -> fateOk w t.

(** The stored progress of the task the driver waits for is the entry
    progress of its stage, and a task in the queue is still at 0. *)
Definition Paced (s : State) : Prop :=
  (forall r i t, awaiting s = Some (r, i) -> heap s !! r = Some t ->
     progress t = stageProgress i)
  /\ (forall r t, r ∈ queue s -> heap s !! r = Some t -> progress t = 0%Q).

(** Every task of [s] is in [s'], under the same reference and
    identity, with a stored progress that is not lower. *)
Definition advances (s s' : State) : Prop :=
  forall r t, heap s !! r = Some t ->
    exists t', heap s' !! r = Some t' /\ id t' = id t /\ (progress t <= progress t')%Q.

(** The report of the [k]-th embedded page out of [total]. *)
Definition pageReport (tid : string) (total k : nat) : IngestionProgressEvent :=
  {| taskId := tid; ev_stage := generating_text_embeddings;
     ev_progress := (45 + (inject_Z (Z.of_nat k) / inject_Z (Z.of_nat total)) * 15)%Q;
     message := None |}.

(** The settlements still needed to work off the queue. *)
Definition work (s : State) : nat :=
  match awaiting s with
  | None => 0
  | Some (_, i) => (length stages - i) + length stages * length (queue s)
  end.

(** The uploads of a schedule, in order. *)
Definition submissions (acts : list Action) : list CreateTaskParams :=
  omap (fun a => match a with Submit params => Some params | Settle => None end) acts.

(** ** Sample inputs *)

Definition token (s : string) (x y w h : Q) : Pdf.RawItem :=
  {| Pdf.str := Some (of_string s); Pdf.transform := Some (x, y);
     Pdf.width := Some w; Pdf.height := Some h |}.

(** A page of 100 by 100 with three tokens on two lines. *)
Definition samplePage : Pdf.RawPage :=
  {| Pdf.viewportWidth := 100; Pdf.viewportHeight := 100;
     Pdf.items := [token "world" 40 80 20 10; token "Hello " 10 80 25 10;
                   token "bye" 10 50 15 10] |}.

(** The same page size with one token that starts left of the page. *)
Definition marginPage : Pdf.RawPage :=
  {| Pdf.viewportWidth := 100; Pdf.viewportHeight := 100;
     Pdf.items := [token "a" (-10) 50 5 10] |}.

Definition sampleUuid (n : nat) : string :=
  String (Ascii.ascii_of_nat (97 + n)) EmptyString.

(** A world in which every file has [pages] pages, the file b.pdf cannot be
    parsed for its text, and both embedding services are configured and
    answer. *)
Definition sampleWorld (pages : nat) : World :=
  {| uuid := sampleUuid;
     pdfForText := fun path =>
       if String.eqb path "b.pdf" then Throw "bad pdf" else Ok (replicate pages samplePage);
     pdfForLayout := fun _ => Ok (replicate pages samplePage);
     OPENAI_API_KEY := true;
     embeddings_create := fun _ => Ok (Some [1%Q]);
     IMAGE_EMBEDDING_ENDPOINT := true;
     fetchImageEmbedding := fun _ => Ok (Some [1%Q]);
     prismaWrites := fun _ => Ok tt |}.

Definition upload (path : string) : CreateTaskParams :=
  {| params_userId := "user"; params_fileName := path; params_fileType := pdf;
     params_sourcePath := path |}.

(** One upload into an idle pipeline, and the four settlements of its
    stages. *)
Definition oneUploadRun (pages : nat) : State :=
  snd (performAll (sampleWorld pages)
         [Submit (upload "a.pdf"); Settle; Settle; Settle; Settle] initialState).

Definition stageAndProgress (e : IngestionProgressEvent) : IngestionStage * Q :=
  (ev_stage e, Qred (ev_progress e)).

Definition stageNames : list IngestionStage := map fst stages.

(** The text of three lines ab, cd, ef. *)
Definition threeLines : jsstring :=
  of_string "ab" ++ [newline] ++ of_string "cd" ++ [newline] ++ of_string "ef".

(** A store without pages and a generation backend that rejects. *)
Definition emptyStore : Search.Persistence :=
  {| Search.textPage_findMany := fun _ _ _ _ => Ok [];
     Search.visualRegion_findMany := fun _ _ => Ok [];
     Search.queryRaw_similarity := fun _ _ _ => Ok [] |}.

Definition failingGeneration : Search.Generation :=
  {| Search.OPENAI_API_KEY := true;
     Search.embeddings_create := fun _ => Throw "connection refused" |}.

(** The queue holds the tasks submitted after the running one, in the
    order of their submission: the references from [k] on, where [k]
    follows the reference of the running task. *)
Definition Fifo (s : State) : Prop :=
  exists k, queue s = seq k (length (heap s) - k) /\ k <= length (heap s)
    /\ match awaiting s with
       | Some (r, _) => S r = k
       | None => k = length (heap s)
       end.

(** The stage is one whose handler [runTask] awaits. *)
Definition inProgress (st : IngestionStage) : Prop :=
  exists i (h : StageHandler), stages !! i = Some (st, h).

(** The stages in the order [runTask] goes through them. *)
Definition stageOrder : list IngestionStage :=
  queued :: map fst stages ++ [completed].

(** What can become of a stage in one transition of the pipeline: it
    stays, moves to the next stage of the order, or a stage in progress
    ends as failed. *)
Definition stageStep (a b : IngestionStage) : Prop :=
  a = b
  \/ (exists k, stageOrder !! k = Some a /\ stageOrder !! S k = Some b)
  \/ (b = failed /\ inProgress a).

(** Every key that is set in [m] is set in [m'], to the same value. *)
Definition metaExtends (m m' : Meta) : Prop :=
  (forall v, textPages m = Some v -> textPages m' = Some v)
  /\ (forall v, layoutPages m = Some v -> layoutPages m' = Some v)
  /\ (forall v, textEmbeddings m = Some v -> textEmbeddings m' = Some v)
  /\ (forall v, imageEmbeddings m = Some v -> imageEmbeddings m' = Some v).

(** The embeddings are those of the pages [tp], page by page. *)
Definition embeddingsOf (tp : list TextExtractor.PageTextExtractionResult)
    (te : list TextEmbedding) : Prop :=
  map te_pageNumber te = map TextExtractor.pageNumber tp
  /\ map te_text te = map TextExtractor.text tp.

(** What a task holds comes from its file: the text pages are the
    extraction of what the parser returns for the file, the layout pages
    its analysis under the identity of the task, the text embeddings are
    those of the text pages; image embeddings are never set. *)
Definition Sound (w : World) (t : IngestionTask) : Prop :=
  (forall tp, textPages (metaOf t) = Some tp ->
     exists raw, pdfForText w (sourcePath t) = Ok raw
                 /\ tp = TextExtractor.extractPages raw)
  /\ (forall lp, layoutPages (metaOf t) = Some lp ->
        exists raw n, pdfForLayout w (sourcePath t) = Ok raw
                      /\ lp = LayoutAnalyzer.analyzePages (uuid w) n (id t) 1 raw)
  /\ (forall te, textEmbeddings (metaOf t) = Some te ->
        exists tp, textPages (metaOf t) = Some tp /\ embeddingsOf tp te)
  /\ imageEmbeddings (metaOf t) = None.

(** Which keys of [meta] are set, by the stage of the task. *)
Definition metaAt (st : IngestionStage) (m : option Meta) : Prop :=
  let mm := default emptyMeta m in
  match st with
  | queued | extracting_text => m = None
  | layout_analysis =>
      textPages mm <> None /\ layoutPages mm = None /\ textEmbeddings mm = None
  | generating_text_embeddings =>
      textPages mm <> None
      /\ (missingOrEmpty (textPages mm) = false -> layoutPages mm <> None)
      /\ textEmbeddings mm = None
  | writing_database | completed =>
      textPages mm <> None
      /\ (missingOrEmpty (textPages mm) = false -> layoutPages mm <> None)
  | generating_image_embeddings | failed => True
  end.

Definition Kept (w : World) (s : State) : Prop :=
  forall r t, heap s !! r = Some t -> Sound w t /\ metaAt (stage t) (meta t).

(** [this.tasks] is the index of the task objects by their identity:
    every identity was drawn from [randomUUID], every task is found under
    its identity, and what is found under an identity is a task with this
    identity. *)
Definition Indexed (w : World) (s : State) : Prop :=
  (forall r t, heap s !! r = Some t -> exists k, k < uuids s /\ id t = uuid w k)
  /\ (forall r t, heap s !! r = Some t -> tasks s !! id t = Some r)
  /\ (forall tid r, tasks s !! tid = Some r -> exists t, heap s !! r = Some t /\ id t = tid).

Definition keepsIndex {A} (w : World) (m : M A) : Prop :=
  forall s, Indexed w s -> Indexed w (snd (m s)).

(** An identity generator that never repeats itself. *)
Fixpoint tally (n : nat) : string :=
  match n with
  | O => EmptyString
  | S k => String (Ascii.ascii_of_nat 117) (tally k)
  end.

(** The sample world with this generator. *)
Definition tallyWorld : World :=
  {| uuid := tally;
     pdfForText := pdfForText (sampleWorld 1);
     pdfForLayout := pdfForLayout (sampleWorld 1);
     OPENAI_API_KEY := true;
     embeddings_create := embeddings_create (sampleWorld 1);
     IMAGE_EMBEDDING_ENDPOINT := true;
     fetchImageEmbedding := fetchImageEmbedding (sampleWorld 1);
     prismaWrites := prismaWrites (sampleWorld 1) |}.

(** The report of the [k]-th simulated step of a stage. *)
Definition simulatedReport (tid : string) (st : IngestionStage) (k : nat)
    : IngestionProgressEvent :=
  {| taskId := tid; ev_stage := st;
     ev_progress := (stageBaseProgress st + (inject_Z (Z.of_nat k) / inject_Z 4) * 15)%Q;
     message := None |}.

(** A world whose embedding service is down. *)
Definition offlineWorld : World :=
  {| uuid := sampleUuid;
     pdfForText := fun _ => Ok [samplePage];
     pdfForLayout := fun _ => Ok [samplePage];
     OPENAI_API_KEY := true;
     embeddings_create := fun _ => Throw "connection refused";
     IMAGE_EMBEDDING_ENDPOINT := false;
     fetchImageEmbedding := fun _ => Throw "connection refused";
     prismaWrites := fun _ => Ok tt |}.

(** A world whose parser finds no page, and where everything else fails. *)
Definition blankWorld : World :=
  {| uuid := sampleUuid;
     pdfForText := fun _ => Ok [];
     pdfForLayout := fun _ => Throw "unreadable";
     OPENAI_API_KEY := true;
     embeddings_create := fun _ => Throw "connection refused";
     IMAGE_EMBEDDING_ENDPOINT := true;
     fetchImageEmbedding := fun _ => Throw "connection refused";
     prismaWrites := fun _ => Throw "database down" |}.

(** The pipeline of the smoke test when [n] handlers have settled. *)
Abbreviation afterSettles w params n :=
  (snd (performAll w (Submit params :: replicate n Settle) initialState)) (only parsing).

(** ** Search results *)

(** The rows of [rows] on page [pn], in their order. *)
Definition onPage {A} (key : A -> nat) (pn : nat) (rows : list A) : list A :=
  filter (fun r => key r = pn) rows.

(** A store with one page of three lines and the regions of two pages. *)
Definition sampleStore : Search.Persistence :=
  {| Search.textPage_findMany := fun _ _ _ _ =>
       Ok [ {| Search.tp_pageNumber := 1; Search.tp_text := threeLines |} ];
     Search.visualRegion_findMany := fun _ _ =>
       Ok [ {| Search.vr_id := "r0"; Search.vr_pageNumber := 1 |};
            {| Search.vr_id := "r1"; Search.vr_pageNumber := 1 |};
            {| Search.vr_id := "s0"; Search.vr_pageNumber := 2 |};
            {| Search.vr_id := "r2"; Search.vr_pageNumber := 1 |} ];
     Search.queryRaw_similarity := fun _ _ _ => Ok [] |}.

(** A store whose literal query is rejected. *)
Definition brokenStore : Search.Persistence :=
  {| Search.textPage_findMany := fun _ _ _ _ => Throw "database down";
     Search.visualRegion_findMany := fun _ _ => Ok [];
     Search.queryRaw_similarity := fun _ _ _ => Ok [] |}.

(** ** Allowed origins *)

(** The entries of FRONTEND_ORIGIN: the pieces between commas, without
    the white space around them. *)
Definition configuredOrigins (value : jsstring) : list jsstring :=
  map trim (Search.split Cors.comma value).

(** ** Text pages and layout pages *)

(** No token of the page has a newline in its text. *)
Definition singleLineTokens (p : Pdf.RawPage) : Prop :=
  Forall (fun it => newline ∉ TextExtractor.item_text it)
         (TextExtractor.collectItems (Pdf.items p)).



(** ** Uploads *)

(** What the server keeps about an upload in progress, stored under
    [uid]: the chunk count is the one of its sizes, and the received
    indices are below it, in increasing order, each once. *)
Definition MetaOk (uid : string) (m : Upload.UploadMetadata) : Prop :=
  Upload.um_id m = uid
  /\ (1 <= Upload.um_fileSize m)%Z /\ (1 <= Upload.um_chunkSize m)%Z
  /\ Upload.um_totalChunks m
     = Upload.ceil (inject_Z (Upload.um_fileSize m) / inject_Z (Upload.um_chunkSize m))
  /\ StronglySorted Z.lt (Upload.um_receivedChunks m)
  /\ Forall (fun i => (0 <= i < Upload.um_totalChunks m)%Z) (Upload.um_receivedChunks m).

Definition DiskOk (d : Upload.Disk) : Prop :=
  forall uid m, Upload.metadataFiles d !! uid = Some m -> MetaOk uid m.

(** A digest function for the examples: the bytes themselves. *)
Definition plainDigest (b : Upload.bytes) : Upload.bytes := b.

Definition sampleFile : Upload.File :=
  {| Upload.file_name := "a.pdf"; Upload.file_content := [Byte.x25; Byte.x50; Byte.x44] |}.

(** ** The viewer *)

(** The box lies in the unit square. *)
Definition inUnitSquare (b : Viewer.NormalizedBBox) : Prop :=
  (0 <= Viewer.x0 b /\ Viewer.x0 b <= Viewer.x1 b /\ Viewer.x1 b <= 1
   /\ 0 <= Viewer.y0 b /\ Viewer.y0 b <= Viewer.y1 b /\ Viewer.y1 b <= 1)%Q.

(** The overlay lies on a canvas of [W] by [H]. *)
Definition onCanvas (W H : Q) (o : Viewer.Box) : Prop :=
  (0 <= Viewer.left o /\ 0 <= Viewer.box_width o
   /\ Viewer.left o + Viewer.box_width o <= W
   /\ 0 <= Viewer.top o /\ 0 <= Viewer.box_height o
   /\ Viewer.top o + Viewer.box_height o <= H)%Q.

(** ** The chat *)

(** The events that reach the page when the frames of a response are
    delivered in order. *)
Definition received (frames : list Chat.ChatEventPayload) : list Chat.EsEvent :=
  map (fun f => Chat.es_message (Some f)) frames.

(** The text the model streamed. *)
Definition textOf (chunks : list Chat.Content) : jsstring :=
  concat (map Chat.tokenOf chunks).

(** The question as the page shows it. *)
Definition questionOf (now1 : Z) (p : Chat.Page) : Chat.ChatMessage :=
  {| Chat.msg_id := Chat.stamp now1 "-user"; Chat.role := Chat.user;
     Chat.content := trim (Chat.chatInput p); Chat.citations := None |}.

(** The reference to the first of the results. *)
Definition firstReference (documentId : string) (results : list Search.SemanticSearchResultItem)
    (v : Viewer.PdfViewerState) : Viewer.PdfViewerState :=
  match results with
  | [] => v
  | r :: _ =>
      Viewer.setActiveReference
        (Some {| Viewer.documentId := documentId;
                 Viewer.pageNumber := Search.pageNumber r;
                 Viewer.regionIds := Search.regionIds r |}) v
  end.

(** A model that answers in three chunks, of which the last has no
    text. *)
Definition sampleLlm : Chat.Llm :=
  fun _ => Ok ([Chat.text_content (of_string "It "); Chat.parts_content [Some (of_string "works.")];
                Chat.other_content], None).

(** A page with a document in the viewer and a question typed. *)
Definition samplePageState : Chat.Page :=
  {| Chat.chatMessages := [];
     Chat.chatInput := of_string " cd ";
     Chat.chatStreaming := false;
     Chat.chatError := None;
     Chat.viewerDocumentId := Some "doc";
     Chat.viewer := Viewer.initialViewerState;
     Chat.eventSource := None |}.

(** ** Numbers that need not be finite *)

(** A token of the layout analyzer without its width and height, on
    numbers that need not be finite. *)
Definition forgetSize (it : AnyNumber.LayoutAnalyzer.Item) : AnyNumber.TextExtractor.Item :=
  {| AnyNumber.TextExtractor.item_text := AnyNumber.LayoutAnalyzer.item_text it;
     AnyNumber.TextExtractor.item_x := AnyNumber.LayoutAnalyzer.item_x it;
     AnyNumber.TextExtractor.item_y := AnyNumber.LayoutAnalyzer.item_y it |}.

Definition forgetSizes (c : AnyNumber.LayoutAnalyzer.Cluster) : AnyNumber.TextExtractor.Cluster :=
  {| AnyNumber.TextExtractor.closed := map (map forgetSize) (AnyNumber.LayoutAnalyzer.closed c);
     AnyNumber.TextExtractor.currentLine :=
       option_map (map forgetSize) (AnyNumber.LayoutAnalyzer.currentLine c);
     AnyNumber.TextExtractor.currentY := AnyNumber.LayoutAnalyzer.currentY c |}.

(** The four numbers the layout analyzer reads off a token are finite:
    x, x + width, y and y + height. *)
Definition finiteToken (it : AnyNumber.LayoutAnalyzer.Item) : Prop :=
  Number.isFinite (AnyNumber.LayoutAnalyzer.item_x it) = true
  /\ Number.isFinite (Number.add (AnyNumber.LayoutAnalyzer.item_x it)
                                 (AnyNumber.LayoutAnalyzer.item_width it)) = true
  /\ Number.isFinite (AnyNumber.LayoutAnalyzer.item_y it) = true
  /\ Number.isFinite (Number.add (AnyNumber.LayoutAnalyzer.item_y it)
                                 (AnyNumber.LayoutAnalyzer.item_height it)) = true.

(** Every token of the page is finite in this sense. *)
Definition finiteTokens (p : AnyNumber.Pdf.RawPage) : Prop :=
  Forall finiteToken (AnyNumber.LayoutAnalyzer.collectItems (AnyNumber.Pdf.items p)).

(** An extreme that was reached by a token. *)
Definition reached (e : AnyNumber.LayoutAnalyzer.Extent) : Prop :=
  AnyNumber.LayoutAnalyzer.allFinite e = true.

(** A page of 100 by 100 with one token whose width is NaN. *)
Definition nanPage : AnyNumber.Pdf.RawPage :=
  {| AnyNumber.Pdf.viewportWidth := Number.Finite 100;
     AnyNumber.Pdf.viewportHeight := Number.Finite 100;
     AnyNumber.Pdf.items :=
       [ {| AnyNumber.Pdf.str := Some (of_string "a");
            AnyNumber.Pdf.transform := Some (Number.Finite 10, Number.Finite 50);
            AnyNumber.Pdf.width := Some Number.NaN;
            AnyNumber.Pdf.height := Some (Number.Finite 10) |} ] |}.

(** A page whose viewport has NaN for its width, with two tokens, of
    which one has no width. *)
Definition unsizedPage : AnyNumber.Pdf.RawPage :=
  {| AnyNumber.Pdf.viewportWidth := Number.NaN;
     AnyNumber.Pdf.viewportHeight := Number.Finite 100;
     AnyNumber.Pdf.items :=
       [ {| AnyNumber.Pdf.str := Some (of_string "a");
            AnyNumber.Pdf.transform := Some (Number.Finite 10, Number.Finite 50);
            AnyNumber.Pdf.width := Some (Number.Finite 5);
            AnyNumber.Pdf.height := Some (Number.Finite 10) |};
         {| AnyNumber.Pdf.str := Some (of_string "b");
            AnyNumber.Pdf.transform := Some (Number.Finite 10, Number.Finite 20);
            AnyNumber.Pdf.width := None;
            AnyNumber.Pdf.height := Some (Number.Finite 10) |} ] |}.

(** ** Rational numbers among the numbers *)


















(** A page of 100 by 100 with one token above the page. *)
Definition abovePage : Pdf.RawPage :=
  {| Pdf.viewportWidth := 100; Pdf.viewportHeight := 100;
     Pdf.items := [token "a" 10 150 5 10] |}.

(** [String.prototype.toLowerCase] on texts whose only cased letter is
    the dotted capital I (U+0130): it becomes an i and a combining dot
    (U+0069, U+0307), two code units for one. *)
Definition lowerDotted (s : jsstring) : jsstring :=
  concat (map (fun c => if (c =? 304)%N then [105; 775]%N else [c]) s).

(** Four lines, of which the first is two dotted capital I and an x. *)
Definition dottedText : jsstring :=
  [304; 304]%N ++ of_string "x" ++ lineFeed ++ of_string "b" ++ lineFeed
    ++ of_string "c" ++ lineFeed ++ of_string "d".

(** Four lines, of which the last is q. *)
Definition fourLines : jsstring :=
  of_string "a" ++ lineFeed ++ of_string "b" ++ lineFeed ++ of_string "c" ++ lineFeed
    ++ of_string "q".

(** A generation backend without a key. *)
Definition noKeyGeneration : Search.Generation :=
  {| Search.OPENAI_API_KEY := false;
     Search.embeddings_create := fun _ => Ok None |}.

(** A store with one page that matches, whose query for the regions is
    rejected. *)
Definition regionlessStore : Search.Persistence :=
  {| Search.textPage_findMany := fun _ _ _ _ =>
       Ok [ {| Search.tp_pageNumber := 1; Search.tp_text := threeLines |} ];
     Search.visualRegion_findMany := fun _ _ => Throw "database down";
     Search.queryRaw_similarity := fun _ _ _ => Ok [] |}.

(** A request that carries its parameters as the schema wants them. *)
Definition parsed (request : SemanticRoute.Params) : Outcome SemanticRoute.Params :=
  Ok request.

(** The rows of two pages and the regions of three, as the database
    orders them: by page number, then by [y0]. *)
Definition twoPageStore : Routes.Store :=
  {| Routes.page_findMany := fun _ =>
       Ok [ {| Routes.pg_pageNumber := 1; Routes.pg_width := 612; Routes.pg_height := 792 |};
            {| Routes.pg_pageNumber := 2; Routes.pg_width := 612; Routes.pg_height := 792 |} ];
     Routes.region_findMany := fun _ =>
       Ok [ {| Routes.reg_id := "a"; Routes.reg_pageNumber := 1; Routes.reg_type := "other";
               Routes.reg_x0 := 1 # 10; Routes.reg_y0 := 1 # 10;
               Routes.reg_x1 := 9 # 10; Routes.reg_y1 := 2 # 10 |};
            {| Routes.reg_id := "b"; Routes.reg_pageNumber := 1; Routes.reg_type := "other";
               Routes.reg_x0 := 1 # 10; Routes.reg_y0 := 5 # 10;
               Routes.reg_x1 := 9 # 10; Routes.reg_y1 := 6 # 10 |};
            {| Routes.reg_id := "c"; Routes.reg_pageNumber := 2; Routes.reg_type := "other";
               Routes.reg_x0 := 1 # 10; Routes.reg_y0 := 3 # 10;
               Routes.reg_x1 := 9 # 10; Routes.reg_y1 := 4 # 10 |};
            {| Routes.reg_id := "d"; Routes.reg_pageNumber := 3; Routes.reg_type := "other";
               Routes.reg_x0 := 1 # 10; Routes.reg_y0 := 1 # 10;
               Routes.reg_x1 := 9 # 10; Routes.reg_y1 := 2 # 10 |} ] |}.

(** * Lines of text (textExtractor.ts) *)

(** ** White space at the ends of a line *)

Lemma trimStart_split (s : jsstring) :
  exists ws, s = ws ++ trimStart s /\ forallb isWhiteSpace ws = true.
Proof.
  induction s as [|c r IH]; simpl.
  - exists []. auto.
  - destruct (isWhiteSpace c) eqn:E.
    + destruct IH as (ws & Heq & Hws). exists (c :: ws). simpl.
      rewrite E, Hws. split; [congruence | reflexivity].
    + exists []. auto.
Qed.

Lemma nonWhiteSpace_app (a b : jsstring) :
  nonWhiteSpace (a ++ b) = nonWhiteSpace a ++ nonWhiteSpace b.
Proof. apply List.filter_app. Qed.





Lemma forallb_rev (ws : jsstring) :
  forallb isWhiteSpace ws = true -> forallb isWhiteSpace (rev ws) = true.
Proof.
  rewrite !forallb_forall. intros H c Hc. apply H. now apply in_rev.
Qed.

Lemma trim_split (s : jsstring) :
  exists ws1 ws2, s = ws1 ++ trim s ++ ws2
    /\ forallb isWhiteSpace ws1 = true /\ forallb isWhiteSpace ws2 = true.
Proof.
  destruct (trimStart_split s) as (ws1 & H1 & Hws1).
  destruct (trimStart_split (rev (trimStart s))) as (ws2 & H2 & Hws2).
  exists ws1, (rev ws2). split; [|split; [assumption | now apply forallb_rev]].
  unfold trim, trimEnd. rewrite <- rev_app_distr, <- H2, rev_involutive. exact H1.
Qed.

Lemma trim_sublist (s : jsstring) : sublist (trim s) s.
Proof.
  destruct (trim_split s) as (ws1 & ws2 & Heq & _).
  rewrite Heq at 2. apply sublist_inserts_l, sublist_inserts_r. reflexivity.
Qed.

(** ** Sorting *)

Section SortFacts.
Context {A : Type} (cmp : A -> A -> Q).

Lemma insert_Permutation (a : A) (l : list A) : Permutation (insert cmp a l) (a :: l).
Proof.
  induction l as [|b r IH]; simpl; [reflexivity|].
  destruct (Qle_bool (cmp a b) 0); [reflexivity|].
  rewrite IH. apply perm_swap.
Qed.

Lemma sort_Permutation (l : list A) : Permutation (sort cmp l) l.
Proof.
  induction l as [|a r IH]; simpl; [reflexivity|].
  rewrite insert_Permutation. now constructor.
Qed.


Hypothesis before_total : forall a b, before cmp a b \/ before cmp b a.
Hypothesis before_trans : forall a b c, before cmp a b -> before cmp b c -> before cmp a c.

Lemma insert_sorted (a : A) (l : list A) :
  StronglySorted (before cmp) l -> StronglySorted (before cmp) (insert cmp a l).
Proof.
  induction 1 as [|b r Hr IH Hb]; simpl.
  - repeat constructor.
  - destruct (Qle_bool (cmp a b) 0) eqn:E.
    + constructor; [now constructor|].
      constructor; [exact E|].
      eapply Forall_impl; [exact Hb|]. intros c Hc. eapply before_trans; eauto.
    + constructor; [exact IH|].
      eapply Permutation_Forall; [symmetry; apply insert_Permutation|].
      constructor; [|exact Hb].
      destruct (before_total a b) as [H|H]; [unfold before in H; congruence | exact H].
Qed.

Lemma sort_sorted (l : list A) : StronglySorted (before cmp) (sort cmp l).
Proof.
  induction l as [|a r IH]; simpl; [constructor | now apply insert_sorted].
Qed.
End SortFacts.

Lemma sort_map {A B : Type} (f : A -> B) (cmpA : A -> A -> Q) (cmpB : B -> B -> Q) :
  (forall a b, cmpB (f a) (f b) = cmpA a b) ->
  forall l, sort cmpB (map f l) = map f (sort cmpA l).
Proof.
  intros Hcmp. 
  assert (Hins : forall a l, insert cmpB (f a) (map f l) = map f (insert cmpA a l)).
  { intros a l. induction l as [|b r IH]; simpl; [reflexivity|].
    rewrite Hcmp. destruct (Qle_bool (cmpA a b) 0); simpl; [reflexivity | now rewrite IH]. }
  induction l as [|a r IH]; simpl; [reflexivity|].
  now rewrite IH, Hins.
Qed.

(** ** Reading order *)





(** ** Clustering keeps the tokens and their order *)

Lemma TE_step_concat thr c item :
  concat (TextExtractor.lines (TextExtractor.step thr c item))
  = concat (TextExtractor.lines c) ++ [item].
Proof.
  unfold TextExtractor.step, TextExtractor.lines.
  destruct (TextExtractor.currentLine c) as [cur|] eqn:E; simpl.
  - destruct (Qle_bool _ thr); simpl.
    + rewrite !concat_app. simpl. rewrite !app_nil_r. now rewrite app_assoc.
    + rewrite !concat_app. simpl. rewrite !app_nil_r. reflexivity.
  - rewrite !concat_app. simpl. rewrite !app_nil_r. reflexivity.
Qed.


Lemma TE_fold_concat thr items c :
  concat (TextExtractor.lines (fold_left (TextExtractor.step thr) items c))
  = concat (TextExtractor.lines c) ++ items.
Proof.
  revert c. induction items as [|it r IH]; intros c; simpl.
  - now rewrite app_nil_r.
  - rewrite IH, TE_step_concat, <- app_assoc. reflexivity.
Qed.


Lemma clusterLines_concat thr items :
  concat (TextExtractor.clusterLines thr items) = items.
Proof. unfold TextExtractor.clusterLines. now rewrite TE_fold_concat. Qed.




(** ** What a line keeps of its tokens *)



Lemma nonWhiteSpace_concat (l : list jsstring) :
  nonWhiteSpace (concat l) = concat (map nonWhiteSpace l).
Proof.
  induction l as [|s r IH]; simpl; [reflexivity|].
  now rewrite nonWhiteSpace_app, IH.
Qed.




Example sample_segments :
  TextExtractor.pageSegments samplePage = [of_string "Hello world"; of_string "bye"].
Proof. vm_compute. reflexivity. Qed.

(** * The two extractors cluster the same lines *)

Lemma omap_cons_eq {A B} (f : A -> option B) (a : A) (l : list A) :
  omap f (a :: l) = match f a with Some b => b :: omap f l | None => omap f l end.
Proof. reflexivity. Qed.

Lemma collectItems_forget (raws : list Pdf.RawItem) :
  TextExtractor.collectItems raws = map forget (LayoutAnalyzer.collectItems raws).
Proof.
  unfold TextExtractor.collectItems, LayoutAnalyzer.collectItems.
  induction raws as [|raw r IH]; [reflexivity|].
  rewrite !omap_cons_eq, IH.
  unfold TextExtractor.collectItem, LayoutAnalyzer.collectItem.
  destruct (Pdf.str raw) as [value|]; [|reflexivity].
  destruct (Pdf.transform raw) as [[x y]|]; [|reflexivity].
  destruct (isEmpty value); reflexivity.
Qed.

Lemma compareItems_forget (a b : LayoutAnalyzer.Item) :
  TextExtractor.compareItems (forget a) (forget b) = LayoutAnalyzer.compareItems a b.
Proof. reflexivity. Qed.

Lemma lines_forget (c : LayoutAnalyzer.Cluster) :
  TextExtractor.lines (forgetCluster c) = map (map forget) (LayoutAnalyzer.lines c).
Proof.
  unfold TextExtractor.lines, LayoutAnalyzer.lines. simpl.
  rewrite map_app. destruct (LayoutAnalyzer.currentLine c); reflexivity.
Qed.

Lemma step_forget thr (c : LayoutAnalyzer.Cluster) (it : LayoutAnalyzer.Item) :
  TextExtractor.step thr (forgetCluster c) (forget it)
  = forgetCluster (LayoutAnalyzer.step thr c it).
Proof.
  unfold TextExtractor.step, LayoutAnalyzer.step.
  rewrite lines_forget.
  destruct c as [cl [cur|] cy]; simpl; [|reflexivity].
  destruct (Qle_bool _ thr); [|reflexivity].
  unfold forgetCluster; simpl.
  rewrite map_app, !length_app, length_map. reflexivity.
Qed.

Lemma fold_forget thr (items : list LayoutAnalyzer.Item) (c : LayoutAnalyzer.Cluster) :
  fold_left (TextExtractor.step thr) (map forget items) (forgetCluster c)
  = forgetCluster (fold_left (LayoutAnalyzer.step thr) items c).
Proof.
  revert c. induction items as [|it r IH]; intros c; simpl; [reflexivity|].
  now rewrite step_forget, IH.
Qed.

Lemma pageLines_forget (p : Pdf.RawPage) :
  TextExtractor.pageLines p = map (map forget) (LayoutAnalyzer.pageLines p).
Proof.
  unfold TextExtractor.pageLines, LayoutAnalyzer.pageLines,
    TextExtractor.clusterLines, LayoutAnalyzer.clusterLines,
    TextExtractor.sortedItems, LayoutAnalyzer.sortedItems.
  rewrite collectItems_forget.
  rewrite (sort_map forget LayoutAnalyzer.compareItems TextExtractor.compareItems
             compareItems_forget).
  change TextExtractor.initial with (forgetCluster LayoutAnalyzer.initial).
  now rewrite fold_forget, lines_forget.
Qed.

Lemma lineText_forget (line : list LayoutAnalyzer.Item) :
  TextExtractor.lineText (map forget line) = LayoutAnalyzer.lineText line.
Proof.
  unfold TextExtractor.lineText, LayoutAnalyzer.lineText.
  now rewrite map_map.
Qed.

Lemma grow_finite (e : LayoutAnalyzer.Extent) (it : LayoutAnalyzer.Item) :
  e = LayoutAnalyzer.initialExtent \/ finiteExtent e ->
  finiteExtent (LayoutAnalyzer.grow e it).
Proof.
  intros [->|(H1 & H2 & H3 & H4)]; [repeat split|].
  destruct e as [[| |] [| |] [| |] [| |]]; simpl in *; try discriminate.
  unfold LayoutAnalyzer.grow, finiteExtent; simpl.
  repeat match goal with |- context [if ?b then _ else _] => destruct b end;
    repeat split.
Qed.

Lemma extent_finite (line : list LayoutAnalyzer.Item) :
  line <> [] -> finiteExtent (LayoutAnalyzer.extent line).
Proof.
  unfold LayoutAnalyzer.extent.
  assert (H : forall l e, finiteExtent e ->
            finiteExtent (fold_left LayoutAnalyzer.grow l e)).
  { induction l as [|it r IH]; intros e He; simpl; [exact He|].
    apply IH, grow_finite. now right. }
  destruct line as [|it r]; [congruence|]. intros _. simpl.
  apply H, grow_finite. now left.
Qed.

Lemma lineBBox_segmentOf (width height : Q) (line : list LayoutAnalyzer.Item) :
  is_Some (LayoutAnalyzer.lineBBox width height line)
  <-> is_Some (TextExtractor.segmentOf (map forget line)).
Proof.
  unfold LayoutAnalyzer.lineBBox, TextExtractor.segmentOf.
  destruct line as [|it r]; [simpl; split; intros [? ?]; discriminate|].
  change (map forget (it :: r)) with (forget it :: map forget r).
  cbv zeta. change (forget it :: map forget r) with (map forget (it :: r)).
  rewrite lineText_forget.
  destruct (isEmpty (LayoutAnalyzer.lineText (it :: r))).
  - split; intros [? ?]; discriminate.
  - destruct (extent_finite (it :: r)) as (H1 & H2 & H3 & H4); [discriminate|].
    destruct (LayoutAnalyzer.extent (it :: r)) as [[| |] [| |] [| |] [| |]];
      simpl in *; try discriminate.
    split; intros _; eexists; reflexivity.
Qed.

Lemma buildRegions_length uuid n docId i width height ls :
  length (LayoutAnalyzer.buildRegions uuid n docId i width height ls)
  = length (omap (LayoutAnalyzer.lineBBox width height) ls).
Proof.
  revert n. induction ls as [|l r IH]; intros n; csimpl; [reflexivity|].
  destruct (LayoutAnalyzer.lineBBox width height l); csimpl; now rewrite IH.
Qed.

(** On rational numbers, where every coordinate is finite: for one page
    (the same entries of the text content and the same viewport), the
    number of non-empty lines of the text extractor is the number of
    regions of the layout analyzer. *)
Theorem line_count_equals_region_count
    (uuid : nat -> string) (n : nat) (docId : string) (i : nat) (p : Pdf.RawPage) :
  length (TextExtractor.pageSegments p)
  = length (LayoutAnalyzer.pageRegions uuid n docId i p).
Proof.
  unfold TextExtractor.pageSegments, LayoutAnalyzer.pageRegions, TextExtractor.segments.
  rewrite buildRegions_length, pageLines_forget.
  generalize (LayoutAnalyzer.pageLines p) as ls.
  induction ls as [|l r IH]; [reflexivity|].
  change (map (map forget) (l :: r)) with (map forget l :: map (map forget) r).
  rewrite !omap_cons_eq.
  pose proof (lineBBox_segmentOf (orOne (Pdf.viewportWidth p)) (orOne (Pdf.viewportHeight p)) l)
    as [H1 H2].
  destruct (LayoutAnalyzer.lineBBox _ _ l) as [b|], (TextExtractor.segmentOf (map forget l)) as [t|];
    simpl.
  - now rewrite IH.
  - destruct H1; [eauto | discriminate].
  - destruct H2; [eauto | discriminate].
  - exact IH.
Qed.

(** * Bounding boxes (layoutAnalyzer.ts) *)

Lemma Qle_bool_false (a b : Q) : Qle_bool a b = false -> (b < a)%Q.
Proof.
  intros H. apply Qnot_le_lt. intros Hle. apply Qle_bool_iff in Hle. congruence.
Qed.

Lemma grow_initial_within W H it :
  insidePage W H it -> extentWithin W H (LayoutAnalyzer.grow LayoutAnalyzer.initialExtent it).
Proof.
  intros (H1 & H2 & H3 & H4 & H5 & H6).
  unfold LayoutAnalyzer.grow; simpl. do 4 eexists. split; [reflexivity|].
  repeat split; lra.
Qed.

Lemma grow_within W H e it :
  insidePage W H it -> extentWithin W H e -> extentWithin W H (LayoutAnalyzer.grow e it).
Proof.
  intros (H1 & H2 & H3 & H4 & H5 & H6) (a & b & c & d & -> & Hb).
  unfold LayoutAnalyzer.grow; simpl.
  destruct (Qle_bool a _) eqn:E1, (Qle_bool _ b) eqn:E2,
           (Qle_bool c _) eqn:E3, (Qle_bool _ d) eqn:E4; simpl;
    try apply Qle_bool_iff in E1; try apply Qle_bool_false in E1;
    try apply Qle_bool_iff in E2; try apply Qle_bool_false in E2;
    try apply Qle_bool_iff in E3; try apply Qle_bool_false in E3;
    try apply Qle_bool_iff in E4; try apply Qle_bool_false in E4;
    do 4 eexists; (split; [reflexivity|]); repeat split; lra.
Qed.

Lemma extent_within W H (line : list LayoutAnalyzer.Item) :
  line <> [] -> Forall (insidePage W H) line ->
  extentWithin W H (LayoutAnalyzer.extent line).
Proof.
  unfold LayoutAnalyzer.extent.
  assert (Hfold : forall l e, Forall (insidePage W H) l -> extentWithin W H e ->
            extentWithin W H (fold_left LayoutAnalyzer.grow l e)).
  { induction l as [|it r IH]; intros e Hl He; simpl; [exact He|].
    apply Forall_cons in Hl as [Hit Hr]. apply IH; [exact Hr|]. now apply grow_within. }
  destruct line as [|it r]; [congruence|]. intros _ Hl.
  apply Forall_cons in Hl as [Hit Hr]. simpl.
  apply Hfold; [exact Hr|]. now apply grow_initial_within.
Qed.

Lemma normalize_bounded (W H a b c d : Q) :
  (0 < W)%Q -> (0 < H)%Q ->
  (0 <= a /\ a <= b /\ b <= W /\ 0 <= c /\ c <= d /\ d <= H)%Q ->
  boundedBox (LayoutAnalyzer.normalize W H a b c d).
Proof.
  intros HW HH (Ha & Hab & Hb & Hc & Hcd & Hd).
  unfold boundedBox, LayoutAnalyzer.normalize; simpl.
  assert (HiW : (0 <= / W)%Q) by (apply Qinv_le_0_compat; lra).
  assert (HiH : (0 <= / H)%Q) by (apply Qinv_le_0_compat; lra).
  assert (Hlo : ((c - H * (4 # 1000)) / H <= 1)%Q)
    by (apply Qle_shift_div_r; [exact HH | lra]).
  assert (Hhi : (0 <= (d + H * (4 # 1000)) / H)%Q)
    by (apply Qle_shift_div_l; [exact HH | lra]).
  assert (Hmid : ((c - H * (4 # 1000)) / H <= (d + H * (4 # 1000)) / H)%Q)
    by (unfold Qdiv; apply Qmult_le_compat_r; [lra | exact HiH]).
  repeat split.
  - apply Qle_shift_div_l; [exact HW | lra].
  - unfold Qdiv. apply Qmult_le_compat_r; [exact Hab | exact HiW].
  - apply Qle_shift_div_r; [exact HW | lra].
  - apply Q.le_max_l.
  - apply Q.max_lub; apply Q.min_glb; lra.
  - apply Q.le_min_l.
Qed.

Lemma buildRegions_In uuid n docId i W H ls r :
  In r (LayoutAnalyzer.buildRegions uuid n docId i W H ls) ->
  exists line, In line ls /\ LayoutAnalyzer.lineBBox W H line = Some (LayoutAnalyzer.bbox r).
Proof.
  revert n. induction ls as [|l rest IH]; intros n; simpl; [contradiction|].
  destruct (LayoutAnalyzer.lineBBox W H l) as [b|] eqn:E.
  - intros [<-|Hin].
    + exists l. simpl. auto.
    + destruct (IH _ Hin) as (line & Hl & Hb). exists line. auto.
  - intros Hin. destruct (IH _ Hin) as (line & Hl & Hb). exists line. auto.
Qed.

Lemma LA_step_Forall (P : LayoutAnalyzer.Item -> Prop) thr c it :
  P it -> Forall (Forall P) (LayoutAnalyzer.lines c) ->
  Forall (Forall P) (LayoutAnalyzer.lines (LayoutAnalyzer.step thr c it)).
Proof.
  intros Hit. unfold LayoutAnalyzer.step, LayoutAnalyzer.lines.
  destruct (LayoutAnalyzer.currentLine c) as [cur|]; simpl.
  - rewrite Forall_app, Forall_singleton. intros [Hc Hcur].
    destruct (Qle_bool _ thr); simpl; rewrite !Forall_app, !Forall_singleton.
    + split; [exact Hc|]. apply Forall_app. split; [exact Hcur | now constructor].
    + repeat split; auto.
  - rewrite app_nil_r. intros Hc. rewrite Forall_app, Forall_singleton.
    split; [exact Hc | now constructor].
Qed.

Lemma LA_clusterLines_Forall (P : LayoutAnalyzer.Item -> Prop) thr items :
  Forall P items -> Forall (Forall P) (LayoutAnalyzer.clusterLines thr items).
Proof.
  unfold LayoutAnalyzer.clusterLines.
  assert (H : forall l c, Forall P l -> Forall (Forall P) (LayoutAnalyzer.lines c) ->
            Forall (Forall P) (LayoutAnalyzer.lines (fold_left (LayoutAnalyzer.step thr) l c))).
  { induction l as [|it r IH]; intros c Hl Hc; simpl; [exact Hc|].
    apply Forall_cons in Hl as [Hit Hr]. apply IH; [exact Hr|]. now apply LA_step_Forall. }
  intros Hitems. apply H; [exact Hitems | constructor].
Qed.

Lemma orOne_pos (v : Q) : (0 <= v)%Q -> (0 < orOne v)%Q.
Proof.
  intros Hv. unfold orOne. destruct (Qeq_bool v 0) eqn:E; [reflexivity|].
  apply Qeq_bool_neq in E. apply Qle_lteq in Hv as [Hv|Hv]; [exact Hv|].
  exfalso. apply E. symmetry. exact Hv.
Qed.

(** Inside the page the boxes are bounded. On a page whose width and
    height are not negative and whose tokens lie inside the page
    (0 <= x, 0 <= width,
    x + width <= page width, and the same vertically), every region of the
    layout analyzer has a box with 0 <= x0 <= x1 <= 1 and
    0 <= y0 <= y1 <= 1, after the vertical padding by page height * 0.004
    and the two clamps of the code (y0 from below, y1 from above). *)
Theorem region_bbox_bounded_inside_page
    (uuid : nat -> string) (n : nat) (docId : string) (i : nat) (p : Pdf.RawPage)
    (r : LayoutAnalyzer.VisualRegion) :
  (0 <= Pdf.viewportWidth p)%Q ->
  (0 <= Pdf.viewportHeight p)%Q ->
  Forall (insidePage (orOne (Pdf.viewportWidth p)) (orOne (Pdf.viewportHeight p)))
         (LayoutAnalyzer.collectItems (Pdf.items p)) ->
  In r (LayoutAnalyzer.pageRegions uuid n docId i p) ->
  boundedBox (LayoutAnalyzer.bbox r).
Proof.
  intros HW HH Hitems Hin.
  apply buildRegions_In in Hin as (line & Hline & Hbox).
  assert (Hl : Forall (insidePage (orOne (Pdf.viewportWidth p)) (orOne (Pdf.viewportHeight p))) line).
  { assert (Hsorted : Forall (insidePage (orOne (Pdf.viewportWidth p)) (orOne (Pdf.viewportHeight p)))
                          (LayoutAnalyzer.sortedItems p)).
    { eapply Permutation_Forall; [|exact Hitems]. symmetry. apply sort_Permutation. }
    apply (LA_clusterLines_Forall _ (orOne (Pdf.viewportHeight p) * (12 # 1000))%Q) in Hsorted.
    rewrite Forall_forall in Hsorted. apply Hsorted, list_elem_of_In, Hline. }
  unfold LayoutAnalyzer.lineBBox in Hbox.
  destruct line as [|it rest]; [discriminate|].
  destruct (isEmpty _); [discriminate|].
  destruct (extent_within _ _ (it :: rest) ltac:(discriminate) Hl)
    as (a & b & c & d & He & Hb).
  rewrite He in Hbox. injection Hbox as <-.
  apply normalize_bounded; auto using orOne_pos.
Qed.

Lemma region_bbox_bounded_witness :
  Forall (fun r => boundedBox (LayoutAnalyzer.bbox r))
         (LayoutAnalyzer.pageRegions sampleUuid 0 "doc" 1 samplePage).
Proof.
  apply Forall_forall. intros r Hr.
  apply (region_bbox_bounded_inside_page sampleUuid 0 "doc" 1 samplePage r).
  - vm_compute. discriminate.
  - vm_compute. discriminate.
  - vm_compute. repeat (constructor; [repeat split; discriminate|]). constructor.
  - apply list_elem_of_In. exact Hr.
Defined.

(** C5. The boxes of the layout analyzer are not kept inside the unit
    square. x0 and x1 are divided by the page width and never clamped: a
    token that starts 10 left of a page of 100 by 100 gives a region with
    x0 = -1/10. y0 is clamped from below only and y1 from above only: a
    token 150 up the same page gives a region with y0 = 1496/1000 and
    y1 = 1, so y0 > 1 and y0 > y1. Neither box is bounded. *)
Theorem region_bbox_is_not_clamped :
  (exists r,
      LayoutAnalyzer.pageRegions sampleUuid 0 "doc" 1 marginPage = [r]
      /\ (LayoutAnalyzer.x0 (LayoutAnalyzer.bbox r) == - (1 # 10))%Q
      /\ ~ boundedBox (LayoutAnalyzer.bbox r))
  /\ (exists r,
         LayoutAnalyzer.pageRegions sampleUuid 0 "doc" 1 abovePage = [r]
         /\ (LayoutAnalyzer.y0 (LayoutAnalyzer.bbox r) == 1496 # 1000)%Q
         /\ (LayoutAnalyzer.y1 (LayoutAnalyzer.bbox r) == 1)%Q
         /\ ~ boundedBox (LayoutAnalyzer.bbox r)).
Proof.
  split.
  - destruct (LayoutAnalyzer.pageRegions sampleUuid 0 "doc" 1 marginPage) as [|r [|? ?]] eqn:E;
      try (vm_compute in E; discriminate).
    exists r. split; [reflexivity|].
    vm_compute in E. injection E as <-. split; [reflexivity|].
    intros (H0 & _). vm_compute in H0. exact (H0 eq_refl).
  - destruct (LayoutAnalyzer.pageRegions sampleUuid 0 "doc" 1 abovePage) as [|r [|? ?]] eqn:E;
      try (vm_compute in E; discriminate).
    exists r. split; [reflexivity|].
    vm_compute in E. injection E as <-. split; [reflexivity|]. split; [reflexivity|].
    intros (_ & _ & _ & _ & H0 & _). vm_compute in H0. exact (H0 eq_refl).
Qed.

(** * Region mapping (index.ts) *)

Lemma indexOfFrom_range (needle hay : jsstring) (k : Z) :
  Search.indexOfFrom needle hay k = (-1)%Z
  \/ (k <= Search.indexOfFrom needle hay k <= k + Z.of_nat (length hay))%Z.
Proof.
  revert k. induction hay as [|c r IH]; intros k; simpl.
  - destruct (Search.startsWith needle []); [right; lia | left; reflexivity].
  - destruct (Search.startsWith needle (c :: r)); [right; lia|].
    destruct (IH (k + 1)%Z) as [H|H]; [left; exact H | right; lia].
Qed.

Lemma indexOf_range (hay needle : jsstring) :
  Search.indexOf hay needle <> (-1)%Z ->
  (0 <= Search.indexOf hay needle <= Z.of_nat (length hay))%Z.
Proof.
  unfold Search.indexOf. intros H.
  destruct (indexOfFrom_range needle hay 0) as [E|E]; [contradiction | lia].
Qed.

(** [indexOf] finds the first occurrence. *)
Lemma indexOfFrom_first (needle hay : jsstring) (k : Z) (j : nat) :
  Search.startsWith needle (drop j hay) = true ->
  (forall j', j' < j -> Search.startsWith needle (drop j' hay) = false) ->
  j <= length hay ->
  Search.indexOfFrom needle hay k = (k + Z.of_nat j)%Z.
Proof.
  revert k hay. induction j as [|j IH]; intros k hay Hj Hmin Hlen.
  - rewrite drop_0 in Hj. destruct hay; simpl in *; rewrite Hj; lia.
  - destruct hay as [|c r]; [simpl in Hlen; lia|].
    assert (H0 := Hmin 0 ltac:(lia)). rewrite drop_0 in H0.
    simpl. simpl in H0. rewrite H0.
    rewrite (IH (k + 1)%Z r); [lia | exact Hj | | simpl in Hlen; lia].
    intros j' Hj'. apply (Hmin (S j')). lia.
Qed.

Lemma indexOfFrom_absent (needle hay : jsstring) (k : Z) :
  Search.indexOfFrom needle hay k = (-1)%Z -> (0 <= k)%Z ->
  forall j, j <= length hay -> Search.startsWith needle (drop j hay) = false.
Proof.
  revert k. induction hay as [|c r IH]; intros k H Hk j Hj; simpl in H.
  - destruct (Search.startsWith needle []) eqn:E; [lia|].
    simpl in Hj. replace j with 0 by lia. exact E.
  - destruct (Search.startsWith needle (c :: r)) eqn:E; [lia|].
    destruct j as [|j]; [exact E|]. simpl. simpl in Hj.
    apply (IH (k + 1)%Z); [exact H | lia | lia].
Qed.

Lemma split_length (s : jsstring) :
  length (Search.split newline s)
  = S (length (List.filter (fun c => (c =? newline)%N) s)).
Proof.
  induction s as [|c r IH]; simpl; [reflexivity|].
  destruct (c =? newline)%N; simpl; [now rewrite IH|].
  destruct (Search.split newline r); simpl in *; [discriminate | exact IH].
Qed.

Lemma slice_prefix {A} (l : list A) (k : Z) :
  (0 <= k)%Z -> Search.slice l 0 k = take (Z.to_nat k) l.
Proof.
  intros Hk. unfold Search.slice, Search.relativeIndex.
  change (0 <? 0)%Z with false. cbv iota.
  destruct (k <? 0)%Z eqn:E; [lia|]. clear E.
  rewrite (Z.min_l 0) by lia. rewrite Z.sub_0_r, drop_0.
  destruct (Z.le_ge_cases k (Z.of_nat (length l))) as [H|H].
  - now rewrite Z.min_l.
  - rewrite Z.min_r, Nat2Z.id by lia. rewrite !take_ge; [reflexivity | lia | lia].
Qed.

Lemma slice_inside {A} (l : list A) (a b : nat) :
  a <= b -> b <= length l ->
  Search.slice l (Z.of_nat a) (Z.of_nat b) = take (b - a) (drop a l).
Proof.
  intros Hab Hb. unfold Search.slice, Search.relativeIndex.
  destruct (Z.of_nat a <? 0)%Z eqn:Ea; [lia|].
  destruct (Z.of_nat b <? 0)%Z eqn:Eb; [lia|].
  rewrite !Z.min_l by lia. rewrite <- Nat2Z.inj_sub, !Nat2Z.id by lia. reflexivity.
Qed.

Lemma between_take_drop {A} (l : list A) (lo hi : nat) :
  lo <= hi -> hi < length l -> between lo hi l = take (S hi - lo) (drop lo l).
Proof.
  unfold between. intros Hlo Hhi.
  assert (H : forall n lo, lo + n <= length l ->
            omap (fun k => l !! k) (seq lo n) = take n (drop lo l)).
  { induction n as [|n IH]; intros lo' Hn; [now rewrite take_0|].
    destruct (lookup_lt_is_Some_2 l lo' ltac:(lia)) as [x Hx].
    rewrite (drop_S _ _ _ Hx). cbn [seq]. rewrite omap_cons_eq, Hx.
    cbn [take]. f_equal. apply IH. lia. }
  apply H. lia.
Qed.

Lemma slice_beyond {A} (l : list A) (a b : Z) :
  (Z.of_nat (length l) <= a)%Z -> Search.slice l a b = [].
Proof.
  intros Ha. unfold Search.slice, Search.relativeIndex.
  destruct (a <? 0)%Z eqn:Ea; [lia|].
  rewrite (Z.min_r a) by lia. rewrite Nat2Z.id.
  rewrite drop_all. apply take_nil.
Qed.

Lemma at_beyond {A} (l : list A) (k : Z) :
  (Z.of_nat (length l) <= k)%Z -> Search.at_ l k = None.
Proof.
  intros Hk. unfold Search.at_. destruct (k <? 0)%Z eqn:E; [reflexivity|].
  apply lookup_ge_None. lia.
Qed.

Example region_mapping_examples :
  Search.pickRegionIdsForText (fun s => s) 1 threeLines (of_string "ef")
    {[ 1 := ["r0"; "r1"; "r2"; "r3"; "r4"] ]} = [Some "r1"; Some "r2"; Some "r3"]
  /\ Search.pickRegionIdsForText (fun s => s) 1 threeLines (of_string "zz")
       {[ 1 := ["r0"; "r1"; "r2"; "r3"; "r4"] ]} = [Some "r2"]
  /\ Search.pickRegionIdsForText (fun s => s) 1 threeLines (of_string "ab")
       {[ 1 := ["r0"; "r1"; "r2"; "r3"; "r4"] ]} = [Some "r0"; Some "r1"].
Proof. repeat split; vm_compute; reflexivity. Qed.

(** The window of region mapping on a page with N >= 1 regions. When
    the lower-cased query does not occur in the lower-cased page text,
    the mapping returns the single region at index floor(N / 2). When it
    first occurs there at the offset idx, L is the number of newlines
    among the first idx code units of the text as stored, and L <= N, the
    mapping returns the regions at the indices max(0, L - 1), ...,
    min(N - 1, L + 1), in order. *)
Theorem region_mapping_window
    (toLowerCase : jsstring -> jsstring) (pn : nat) (text query : jsstring) (m : gmap nat (list string)) (ids : list string) :
  m !! pn = Some ids ->
  1 <= length ids ->
  let N := length ids in
  let idx := Search.indexOf (toLowerCase text) (toLowerCase query) in
  let picked := Search.pickRegionIdsForText toLowerCase pn text query m in
  (idx = (-1)%Z ->
     exists rid, ids !! (N / 2) = Some rid /\ picked = [Some rid])
  /\ (idx <> (-1)%Z ->
      let L := newlinesBefore text idx in
      L <= N ->
      picked = map Some (between (Nat.max 0 (L - 1)) (Nat.min (N - 1) (L + 1)) ids)).
Proof.
  intros Hm HN N idx picked. unfold picked, Search.pickRegionIdsForText.
  rewrite Hm. simpl default. fold N. fold idx.
  destruct (N =? 0) eqn:E0; [apply Nat.eqb_eq in E0; lia|]. clear E0.
  split.
  - intros ->. simpl.
    assert (Hlt : N / 2 < N) by (apply Nat.div_lt; lia).
    destruct (lookup_lt_is_Some_2 ids (N / 2) Hlt) as [rid Hrid].
    exists rid. split; [exact Hrid|].
    unfold Search.at_.
    replace (Z.of_nat N / 2)%Z with (Z.of_nat (N / 2)) by (now rewrite Nat2Z.inj_div).
    destruct (Z.of_nat (N / 2) <? 0)%Z eqn:E; [lia|].
    now rewrite Nat2Z.id, Hrid.
  - intros Hidx. cbv zeta. set (L := newlinesBefore text idx). intros HL.
    destruct (idx =? -1)%Z eqn:E1; [apply Z.eqb_eq in E1; contradiction|]. clear E1.
    assert (Hrange := indexOf_range _ _ Hidx). fold idx in Hrange.
    rewrite slice_prefix by lia. rewrite split_length.
    fold (newlinesBefore text idx). fold L.
    replace (Z.of_nat (S L) - 1)%Z with (Z.of_nat L) by lia.
    destruct (Z.of_nat L <? 0)%Z eqn:E2; [lia|]. clear E2.
    set (lo := Nat.max 0 (L - 1)). set (hi := Nat.min (N - 1) (L + 1)).
    assert (Hlo : (if (Z.of_nat L - 1 <? 0)%Z then 0%Z else (Z.of_nat L - 1)%Z) = Z.of_nat lo).
    { destruct (Z.of_nat L - 1 <? 0)%Z eqn:E; unfold lo; lia. }
    rewrite Hlo.
    assert (Hhi : (if (Z.of_nat N <=? Z.of_nat L + 1)%Z then (Z.of_nat N - 1)%Z
                   else (Z.of_nat L + 1)%Z) = Z.of_nat hi).
    { destruct (Z.of_nat N <=? Z.of_nat L + 1)%Z eqn:E; unfold hi; lia. }
    rewrite Hhi.
    assert (Hle : lo <= hi) by (unfold lo, hi; lia).
    assert (Hin : hi < N) by (unfold hi; lia).
    destruct (Z.of_nat hi <? Z.of_nat lo)%Z eqn:E3; [lia|]. clear E3.
    replace (Z.of_nat hi + 1)%Z with (Z.of_nat (S hi)) by lia.
    rewrite slice_inside by (fold N; lia).
    rewrite <- between_take_drop by (fold N; lia).
    rewrite between_take_drop by (fold N; lia).
    rewrite length_take, length_drop. fold N.
    destruct (0 <? Nat.min (S hi - lo) (N - lo)) eqn:E4; [reflexivity|].
    apply Nat.ltb_ge in E4. lia.
Qed.

Lemma region_mapping_window_witness :
  Search.pickRegionIdsForText (fun s => s) 1 threeLines (of_string "ef")
    {[ 1 := ["r0"; "r1"; "r2"] ]}
  = map Some (between 1 2 ["r0"; "r1"; "r2"]).
Proof.
  refine (proj2 (region_mapping_window (fun s => s) 1 threeLines (of_string "ef")
                   {[ 1 := ["r0"; "r1"; "r2"] ]} ["r0"; "r1"; "r2"] _ _) _ _).
  - reflexivity.
  - simpl. lia.
  - vm_compute. discriminate.
  - vm_compute. lia.
Defined.

(** C6. Region mapping does not return the window of the claim in two
    cases. With one region and a match on the fourth line of the text
    (three newlines before it), the window max(0, L - 1) ...
    min(N - 1, L + 1) is empty and the mapping returns one entry, read
    past the end of the region list. And the offset of the match is found
    in the lower-cased text but the newlines are counted in the text as
    stored: when lower-casing lengthens the text before the match (two
    dotted capital I, then x, on the first of four lines, four regions),
    the match on line 0 is taken for a match on line 1 and the mapping
    returns the regions 0, 1, 2 where the window of line 0 is 0, 1. *)
Theorem region_mapping_misses_the_window :
  (let query := of_string "q" in
   let ids := ["r0"] in
   let L := newlinesBefore fourLines (Search.indexOf fourLines query) in
   let window := between (Nat.max 0 (L - 1)) (Nat.min (length ids - 1) (L + 1)) ids in
   let picked := Search.pickRegionIdsForText (fun s => s) 1 fourLines query {[ 1 := ids ]} in
   L = 3 /\ window = [] /\ picked = [None])
  /\ (let query := of_string "x" in
      let ids := ["r0"; "r1"; "r2"; "r3"] in
      let L := newlinesBefore dottedText (Search.indexOf dottedText query) in
      let window := between (Nat.max 0 (L - 1)) (Nat.min (length ids - 1) (L + 1)) ids in
      let picked := Search.pickRegionIdsForText lowerDotted 1 dottedText query {[ 1 := ids ]} in
      L = 0 /\ window = ["r0"; "r1"]
      /\ Search.indexOf (lowerDotted dottedText) (lowerDotted query) = 4%Z
      /\ picked = [Some "r0"; Some "r1"; Some "r2"]).
Proof. cbv zeta. repeat split; vm_compute; reflexivity. Qed.

(** X1. When more newlines precede the match than the page has regions
    (L > N), the mapping returns a single entry, read past the end of the
    region list. *)
Theorem region_mapping_beyond_last_region
    (toLowerCase : jsstring -> jsstring) (pn : nat) (text query : jsstring)
    (m : gmap nat (list string)) (ids : list string) :
  m !! pn = Some ids ->
  1 <= length ids ->
  let idx := Search.indexOf (toLowerCase text) (toLowerCase query) in
  idx <> (-1)%Z ->
  length ids < newlinesBefore text idx ->
  Search.pickRegionIdsForText toLowerCase pn text query m = [None].
Proof.
  intros Hm HN idx Hidx HL. unfold Search.pickRegionIdsForText.
  rewrite Hm. simpl default. fold idx. set (N := length ids) in *.
  destruct (N =? 0) eqn:E0; [apply Nat.eqb_eq in E0; lia|]. clear E0.
  destruct (idx =? -1)%Z eqn:E1; [apply Z.eqb_eq in E1; contradiction|]. clear E1.
  assert (Hrange := indexOf_range _ _ Hidx). fold idx in Hrange.
  rewrite slice_prefix by lia. rewrite split_length.
  fold (newlinesBefore text idx). set (L := newlinesBefore text idx) in *.
  replace (Z.of_nat (S L) - 1)%Z with (Z.of_nat L) by lia.
  destruct (Z.of_nat L <? 0)%Z eqn:E2; [lia|]. clear E2.
  cbv zeta.
  destruct (Z.of_nat L - 1 <? 0)%Z eqn:E3; [lia|].
  destruct (Z.of_nat N <=? Z.of_nat L + 1)%Z eqn:E4; [|lia].
  destruct (Z.of_nat N - 1 <? Z.of_nat L - 1)%Z eqn:E5; [|lia].
  rewrite slice_beyond by (fold N; lia). cbn [length Nat.ltb Nat.leb].
  now rewrite at_beyond by (fold N; lia).
Qed.

Lemma region_mapping_beyond_witness :
  Search.pickRegionIdsForText (fun s => s) 1
    (lineFeed ++ lineFeed ++ of_string "q") (of_string "q") {[ 1 := ["r0"] ]} = [None].
Proof.
  apply (region_mapping_beyond_last_region (fun s => s) 1 _ _ _ ["r0"]);
    [reflexivity | simpl; lia | vm_compute; discriminate | vm_compute; lia].
Defined.

(** * Semantic search (index.ts) *)

Lemma buildResults_of_matches (toLowerCase : jsstring -> jsstring) (prisma : Search.Persistence)
    (docId : string) (q : jsstring) (matches : list Search.TextPageRow) :
  matches <> [] ->
  Search.buildResultsFromTextPages toLowerCase prisma docId q matches
  = Search.bindO
      (Search.visualRegion_findMany prisma docId
         (Search.unique [] (map Search.tp_pageNumber matches)))
      (fun regions => Ok (literalResults toLowerCase docId q matches regions)).
Proof. destruct matches as [|m0 rest]; [congruence | reflexivity]. Qed.

(** C7, amended. The semantic search route, on a request whose
    parameters pass its schema, never answers with an error: it sends the
    results of [semanticSearch], and the empty list when [semanticSearch]
    throws; a request whose parameters do not pass is rejected with the
    error of the schema. [semanticSearch] itself does surface errors to
    its caller. When the literal query finds at least one page, it
    returns the results built from these literal matches if the query for
    their regions succeeds, and throws if that query is rejected.
    When the literal query finds nothing, it throws if no key is
    configured or the embedding request is rejected, and when the request
    returns no vector it returns the results of the literal query, made
    again. When the literal query is rejected, it throws. *)
Theorem semantic_route_degrades_to_a_list
    (Request : Type) (parse : Request -> Outcome SemanticRoute.Params)
    (toLowerCase : jsstring -> jsstring) (prisma : Search.Persistence)
    (openai : Search.Generation) (request : Request) (params : SemanticRoute.Params) :
  parse request = Ok params ->
  let docId := SemanticRoute.id params in
  let q := SemanticRoute.q params in
  let limit := SemanticRoute.limit params in
  let found := Search.semanticSearch toLowerCase prisma openai docId q limit in
  SemanticRoute.handler Request parse toLowerCase prisma openai request
  = Ok (Search.Results docId q (match found with Ok results => results | Throw _ => [] end))
  /\ (forall request' msg,
        parse request' = Throw msg ->
        SemanticRoute.handler Request parse toLowerCase prisma openai request' = Throw msg)
  /\ (forall matches,
        literalMatches prisma docId q limit = Ok matches ->
        matches <> [] ->
        (forall regions,
            Search.visualRegion_findMany prisma docId
              (Search.unique [] (map Search.tp_pageNumber matches)) = Ok regions ->
            found = Ok (literalResults toLowerCase docId q matches regions))
        /\ (forall msg,
               Search.visualRegion_findMany prisma docId
                 (Search.unique [] (map Search.tp_pageNumber matches)) = Throw msg ->
               found = Throw msg))
  /\ (literalMatches prisma docId q limit = Ok [] ->
      (Search.OPENAI_API_KEY openai = false ->
       found = Throw "embedding_model_not_configured")
      /\ (Search.OPENAI_API_KEY openai = true ->
          forall msg, Search.embeddings_create openai q = Throw msg -> found = Throw msg)
      /\ (Search.OPENAI_API_KEY openai = true ->
          Search.embeddings_create openai q = Ok None
            \/ Search.embeddings_create openai q = Ok (Some []) ->
          forall again,
            Search.textPage_findMany prisma 1 docId q (default 10%Z limit) = Ok again ->
            (again = [] -> found = Ok [])
            /\ (again <> [] ->
                forall regions,
                  Search.visualRegion_findMany prisma docId
                    (Search.unique [] (map Search.tp_pageNumber again)) = Ok regions ->
                  found = Ok (literalResults toLowerCase docId q again regions))))
  /\ (forall msg, literalMatches prisma docId q limit = Throw msg -> found = Throw msg).
Proof.
  intros Hparse docId q limit found.
  split; [|split; [|split; [|split]]].
  - unfold SemanticRoute.handler. rewrite Hparse. cbn [Search.bindO].
    unfold Search.searchSemanticRoute. fold docId q limit found.
    destruct found; reflexivity.
  - intros request' msg H. unfold SemanticRoute.handler. now rewrite H.
  - intros matches Hm Hne.
    assert (Hfound : found
                     = Search.bindO
                         (Search.visualRegion_findMany prisma docId
                            (Search.unique [] (map Search.tp_pageNumber matches)))
                         (fun regions => Ok (literalResults toLowerCase docId q matches regions))).
    { unfold found, Search.semanticSearch. unfold literalMatches in Hm. rewrite Hm.
      cbn [Search.bindO]. destruct matches as [|m0 rest]; [congruence|].
      cbn [length Nat.ltb Nat.leb]. now apply buildResults_of_matches. }
    split.
    + intros regions Hr. now rewrite Hfound, Hr.
    + intros msg Hr. now rewrite Hfound, Hr.
  - intros Hm. unfold literalMatches in Hm. split; [|split].
    + intros Hkey. unfold found, Search.semanticSearch. rewrite Hm, Hkey. reflexivity.
    + intros Hkey msg He. unfold found, Search.semanticSearch.
      rewrite Hm, Hkey. cbn -[Search.buildResultsFromTextPages]. now rewrite He.
    + intros Hkey Hnone again Hagain.
      assert (Hfound : found = Search.buildResultsFromTextPages toLowerCase prisma docId q again).
      { unfold found, Search.semanticSearch. rewrite Hm, Hkey.
        cbn -[Search.buildResultsFromTextPages].
        destruct Hnone as [He|He]; rewrite He; cbn -[Search.buildResultsFromTextPages];
          rewrite Hagain; reflexivity. }
      split.
      * intros ->. exact Hfound.
      * intros Hne regions Hr. rewrite Hfound, buildResults_of_matches by exact Hne.
        now rewrite Hr.
  - intros msg Hm. unfold literalMatches in Hm.
    unfold found, Search.semanticSearch. now rewrite Hm.
Qed.

Lemma semantic_route_degrades_witness :
  SemanticRoute.handler SemanticRoute.Params parsed (fun s => s) sampleStore failingGeneration
    {| SemanticRoute.id := "doc"; SemanticRoute.q := of_string "cd";
       SemanticRoute.limit := None |}
  = Ok (Search.Results "doc" (of_string "cd")
          [ {| Search.documentId := "doc"; Search.pageNumber := 1;
               Search.snippet := threeLines;
               Search.regionIds := [Some "r0"; Some "r1"; Some "r2"] |} ]).
Proof.
  destruct (semantic_route_degrades_to_a_list SemanticRoute.Params parsed (fun s => s)
              sampleStore failingGeneration
              {| SemanticRoute.id := "doc"; SemanticRoute.q := of_string "cd";
                 SemanticRoute.limit := None |}
              {| SemanticRoute.id := "doc"; SemanticRoute.q := of_string "cd";
                 SemanticRoute.limit := None |} eq_refl)
    as (Hreply & _ & Hliteral & _).
  rewrite Hreply.
  destruct (Hliteral [ {| Search.tp_pageNumber := 1; Search.tp_text := threeLines |} ]
              eq_refl ltac:(discriminate)) as (Hfound & _).
  cbn [SemanticRoute.id SemanticRoute.q SemanticRoute.limit] in *.
  rewrite (Hfound _ eq_refl). vm_compute. reflexivity.
Defined.

(** C7 as it is stated fails: [semanticSearch] surfaces errors to its
    caller. Without a literal match it throws when the embedding request
    is rejected and when no key is configured, and the chat stream, which
    calls it, sends the error on; with a literal match whose regions
    cannot be read it throws as well, and the semantic route then sends
    the empty list, not the literal match. *)
Lemma semantic_search_surfaces_errors :
  Search.semanticSearch (fun s => s) emptyStore failingGeneration "doc" (of_string "q") None
  = Throw "connection refused"
  /\ Search.semanticSearch (fun s => s) emptyStore noKeyGeneration "doc" (of_string "q") None
     = Throw "embedding_model_not_configured"
  /\ Chat.chatStream (fun s => s) emptyStore failingGeneration sampleLlm None
       (Some (of_string "http://localhost:3000")) "doc" (of_string "q") None None
     = Chat.Stream (of_string "http://localhost:3000")
                   [Chat.error_event "connection refused"] true
  /\ literalMatches regionlessStore "doc" (of_string "cd") None
     = Ok [ {| Search.tp_pageNumber := 1; Search.tp_text := threeLines |} ]
  /\ Search.semanticSearch (fun s => s) regionlessStore failingGeneration "doc"
       (of_string "cd") None
     = Throw "database down"
  /\ Search.searchSemanticRoute (fun s => s) regionlessStore failingGeneration "doc"
       (of_string "cd") None
     = Search.Results "doc" (of_string "cd") [].
Proof. repeat split; vm_compute; reflexivity. Qed.

(** * The ingestion pipeline (ingestionPipeline.ts) *)

(** ** updateTaskStage *)

Lemma updateTaskStage_ok r st p s : fst (updateTaskStage r st p s) = Ok tt.
Proof.
  unfold updateTaskStage. unfold_monad. simpl.
  destruct (alter _ r _ !! r); reflexivity.
Qed.

Lemma updateTaskStage_heap r st p s :
  heap (snd (updateTaskStage r st p s)) = alter (entered st p (clock s)) r (heap s).
Proof.
  unfold updateTaskStage. unfold_monad. simpl.
  destruct (alter _ r _ !! r); simpl; rewrite !list_alter_alter_eq; reflexivity.
Qed.

Lemma updateTaskStage_queue r st p s : queue (snd (updateTaskStage r st p s)) = queue s.
Proof.
  unfold updateTaskStage. unfold_monad. simpl. destruct (alter _ r _ !! r); reflexivity.
Qed.

Lemma updateTaskStage_running r st p s : running (snd (updateTaskStage r st p s)) = running s.
Proof.
  unfold updateTaskStage. unfold_monad. simpl. destruct (alter _ r _ !! r); reflexivity.
Qed.

Lemma updateTaskStage_awaiting r st p s : awaiting (snd (updateTaskStage r st p s)) = awaiting s.
Proof.
  unfold updateTaskStage. unfold_monad. simpl. destruct (alter _ r _ !! r); reflexivity.
Qed.

Lemma updateTaskStage_emitted r st p s t :
  heap s !! r = Some t ->
  emitted (snd (updateTaskStage r st p s))
  = emitted s ++ [{| taskId := id t; ev_stage := st; ev_progress := p; message := None |}].
Proof.
  intros Ht. unfold updateTaskStage. unfold_monad. simpl.
  rewrite !list_lookup_alter_eq, Ht. reflexivity.
Qed.

(** ** Computations that do not throw *)

Lemma total_ret {A} (a : A) : total (ret a).
Proof. intros s. now exists a. Qed.

Lemma total_modify (f : State -> State) : total (modify f).
Proof. intros s. now exists tt. Qed.

Lemma total_gets {A} (f : State -> A) : total (gets f).
Proof. intros s. now exists (f s). Qed.

Lemma total_bind {A B} (m : M A) (k : A -> M B) :
  total m -> (forall a, total (k a)) -> total (bind m k).
Proof.
  intros Hm Hk s. unfold bind. destruct (Hm s) as [a Ha].
  destruct (m s) as [[a'|msg] s']; simpl in Ha; [|discriminate].
  apply Hk.
Qed.

Lemma total_withTask {A} (r : nat) (dflt : A) (k : IngestionTask -> M A) :
  (forall t, total (k t)) -> total (withTask r dflt k).
Proof.
  intros Hk s. unfold withTask. destruct (heap s !! r); [apply Hk | now exists dflt].
Qed.

Lemma total_tryCatch {A} (body : M A) (handler : string -> M A) :
  (forall msg, total (handler msg)) -> total (tryCatch body handler).
Proof.
  intros Hh s. unfold tryCatch. destruct (body s) as [[a|msg] s']; [now exists a | apply Hh].
Qed.

Lemma total_tryFinally {A} (body : M A) (finalizer : M unit) :
  total body -> total finalizer -> total (tryFinally body finalizer).
Proof.
  intros Hb Hf s. unfold tryFinally. destruct (Hb s) as [a Ha].
  destruct (body s) as [o s']; simpl in Ha; subst o.
  destruct (Hf s') as [u Hu]. destruct (finalizer s') as [[u'|msg] s'']; simpl in Hu;
    [now exists a | discriminate].
Qed.

Lemma total_if {A} (b : bool) (m1 m2 : M A) : total m1 -> total m2 -> total (if b then m1 else m2).
Proof. destruct b; auto. Qed.


Create HintDb total discriminated.

#[local] Hint Resolve total_ret total_modify total_gets total_bind total_withTask
  total_tryCatch total_tryFinally total_if : total.

Lemma total_newDate : total newDate.
Proof. intros s. now exists (clock s). Qed.

Lemma total_randomUUID w : total (randomUUID w).
Proof. intros s. now exists (uuid w (uuids s)). Qed.


#[local] Hint Resolve total_newDate total_randomUUID : total.

Lemma total_emit tid st p msg : total (emit tid st p msg).
Proof. unfold emit. auto with total. Qed.


#[local] Hint Resolve total_emit : total.

Lemma total_updateTaskStage r st p : total (updateTaskStage r st p).
Proof. unfold updateTaskStage, updateStage. auto 10 with total. Qed.


#[local] Hint Resolve total_updateTaskStage : total.

Lemma total_runTaskFrom r i : total (runTaskFrom r i).
Proof.
  unfold runTaskFrom. destruct (stages !! i) as [[st h]|]; auto with total.
Qed.

Lemma total_runTaskCatch r err : total (runTaskCatch r err).
Proof. unfold runTaskCatch. auto 10 with total. Qed.


#[local] Hint Resolve total_runTaskFrom total_runTaskCatch : total.

Lemma total_runNext : total runNext.
Proof.
  unfold runNext. apply total_bind; [auto with total|]. intros [|]; [auto with total|].
  apply total_bind; [auto with total|]. intros [|task rest]; auto 10 with total.
Qed.


#[local] Hint Resolve total_runNext : total.

Lemma total_runNextFinally : total runNextFinally.
Proof.
  unfold runNextFinally. apply total_bind; [auto with total|]. intros _.
  apply total_bind; [auto with total|]. intros q. auto with total.
Qed.


#[local] Hint Resolve total_runNextFinally : total.

Lemma total_untilReturned (body : M unit) : total body -> total (untilReturned body).
Proof.
  intros Hb s. unfold untilReturned. destruct (Hb s) as [a Ha].
  destruct (body s) as [o s']; simpl in Ha; subst o.
  destruct (awaiting s'); [now exists a|].
  apply (total_tryFinally (liftOutcome (Ok a)) runNextFinally); auto with total.
  intros s0. now exists a.
Qed.

Lemma total_resume w : total (resume w).
Proof.
  unfold resume. apply total_bind; [auto with total|]. intros [[r i]|]; [|auto with total].
  destruct (stages !! i) as [[st h]|]; [|auto with total].
  apply total_untilReturned, total_tryCatch. auto with total.
Qed.

Lemma total_enqueue r : total (enqueue r).
Proof. unfold enqueue. auto with total. Qed.

Lemma total_createTask w params : total (createTask w params).
Proof.
  unfold createTask, tasksSet.
  repeat (apply total_bind; [auto using total_enqueue with total | intros ?]).
  auto with total.
Qed.

Lemma total_perform w a : total (perform w a).
Proof.
  destruct a; simpl; [|apply total_resume].
  apply total_bind; [apply total_createTask | auto with total].
Qed.

Lemma performAll_never_throws w acts s : fst (performAll w acts s) = Ok tt.
Proof.
  revert s. induction acts as [|a rest IH]; intros s; simpl; [reflexivity|].
  unfold bind. destruct (total_perform w a s) as [u Hu].
  destruct (perform w a s) as [[[]|msg] s']; simpl in Hu; [apply IH | discriminate].
Qed.

(** ** What a stage handler leaves alone *)

Lemma keepsCore_id : keepsCore (fun t => t).
Proof. intros t. reflexivity. Qed.

Lemma keepsCore_compose f g : keepsCore f -> keepsCore g -> keepsCore (f ∘ g).
Proof. intros Hf Hg t. unfold compose. now rewrite Hf, Hg. Qed.

Lemma frames_same {A} (r : nat) (m : M A) :
  (forall s, queue (snd (m s)) = queue s /\ running (snd (m s)) = running s
             /\ awaiting (snd (m s)) = awaiting s /\ clock (snd (m s)) = clock s
             /\ heap (snd (m s)) = heap s) ->
  frames r m.
Proof.
  intros H s. destruct (H s) as (H1 & H2 & H3 & H4 & H5). repeat split; try assumption.
  exists (fun t => t). split; [apply keepsCore_id|].
  rewrite H5. symmetry. now apply list_alter_id.
Qed.

Lemma frames_ret {A} r (a : A) : frames r (ret a).
Proof. apply frames_same. intros s. repeat split. Qed.

Lemma frames_liftOutcome {A} r (o : Outcome A) : frames r (liftOutcome o).
Proof. apply frames_same. intros s. repeat split. Qed.

Lemma frames_gets {A} r (f : State -> A) : frames r (gets f).
Proof. apply frames_same. intros s. repeat split. Qed.

Lemma frames_emit r tid st p msg : frames r (emit tid st p msg).
Proof. apply frames_same. intros s. repeat split. Qed.

Lemma frames_set_uuids r n : frames r (modify (set_uuids n)).
Proof. apply frames_same. intros s. repeat split. Qed.

Lemma frames_set_tasks r (g : State -> gmap string nat) :
  frames r (modify (fun s => set_tasks (g s) s)).
Proof. apply frames_same. intros s. repeat split. Qed.

Lemma frames_mutate r f : keepsCore f -> frames r (modify (mutate r f)).
Proof. intros Hf s. repeat split. exists f. split; [exact Hf | reflexivity]. Qed.

Lemma frames_bind {A B} r (m : M A) (k : A -> M B) :
  frames r m -> (forall a, frames r (k a)) -> frames r (bind m k).
Proof.
  intros Hm Hk s. unfold bind. specialize (Hm s).
  destruct (m s) as [[a|msg] s1]; simpl in Hm; [|exact Hm].
  destruct Hm as (H1 & H2 & H3 & H4 & f & Hf & H5).
  destruct (Hk a s1) as (K1 & K2 & K3 & K4 & g & Hg & K5).
  repeat split; try congruence.
  exists (g ∘ f). split; [now apply keepsCore_compose|].
  now rewrite K5, H5, list_alter_alter_eq.
Qed.

Lemma frames_tryCatch {A} r (body : M A) (handler : string -> M A) :
  frames r body -> (forall msg, frames r (handler msg)) -> frames r (tryCatch body handler).
Proof.
  intros Hb Hh s. unfold tryCatch. specialize (Hb s).
  destruct (body s) as [[a|msg] s1]; simpl in Hb; [exact Hb|].
  destruct Hb as (H1 & H2 & H3 & H4 & f & Hf & H5).
  destruct (Hh msg s1) as (K1 & K2 & K3 & K4 & g & Hg & K5).
  repeat split; try congruence.
  exists (g ∘ f). split; [now apply keepsCore_compose|].
  now rewrite K5, H5, list_alter_alter_eq.
Qed.

Lemma frames_withTask {A} r r' (dflt : A) (k : IngestionTask -> M A) :
  (forall t, frames r (k t)) -> frames r (withTask r' dflt k).
Proof.
  intros Hk s. unfold withTask. destruct (heap s !! r'); [apply Hk|].
  apply (frames_ret r dflt s).
Qed.

Lemma frames_if {A} r (b : bool) (m1 m2 : M A) :
  frames r m1 -> frames r m2 -> frames r (if b then m1 else m2).
Proof. destruct b; auto. Qed.


Create HintDb frames discriminated.

#[local] Hint Resolve frames_ret frames_liftOutcome frames_gets frames_emit frames_set_uuids
  frames_set_tasks frames_bind frames_tryCatch frames_withTask frames_if : frames.

Lemma frames_tasksSet r r' : frames r (tasksSet r').
Proof. unfold tasksSet. auto with frames. Qed.

Lemma keepsCore_set_meta (g : IngestionTask -> Meta) : keepsCore (fun t => set_meta (g t) t).
Proof. intros t. reflexivity. Qed.


#[local] Hint Resolve frames_tasksSet : frames.

Lemma frames_set_meta r (g : IngestionTask -> Meta) :
  frames r (modify (mutate r (fun t => set_meta (g t) t))).
Proof. apply frames_mutate, keepsCore_set_meta. Qed.


#[local] Hint Resolve frames_set_meta : frames.

Lemma frames_embedPages w r tid total index pages acc :
  frames r (embedPages w tid total index pages acc).
Proof.
  revert index acc. induction pages as [|page rest IH]; intros index acc; simpl;
    auto 10 with frames.
Qed.


#[local] Hint Resolve frames_embedPages : frames.

Lemma frames_extractText w r : frames r (extractText w r).
Proof.
  unfold extractText, extractTextFromPdf.
  apply frames_withTask. intros t.
  repeat (apply frames_bind; [auto with frames | intros ?]); auto with frames.
Qed.

Lemma frames_layoutAnalysis w r : frames r (layoutAnalysis w r).
Proof.
  unfold layoutAnalysis, analyzePdfLayout.
  apply frames_withTask. intros t. apply frames_if; [auto with frames|].
  repeat (apply frames_bind; [auto with frames | intros ?]); auto with frames.
Qed.

Lemma frames_generateTextEmbeddings w r : frames r (generateTextEmbeddings w r).
Proof.
  unfold generateTextEmbeddings.
  apply frames_withTask. intros t.
  destruct (textPages (metaOf t)) as [[|page pages]|]; auto 10 with frames.
Qed.

Lemma frames_writeDatabase w r : frames r (writeDatabase w r).
Proof. unfold writeDatabase. auto with frames. Qed.

Lemma stage_cases (i : nat) (st : IngestionStage) (h : StageHandler) :
  stages !! i = Some (st, h) ->
  (i = 0 /\ st = extracting_text /\ h = extractText)
  \/ (i = 1 /\ st = layout_analysis /\ h = layoutAnalysis)
  \/ (i = 2 /\ st = generating_text_embeddings /\ h = generateTextEmbeddings)
  \/ (i = 3 /\ st = writing_database /\ h = writeDatabase).
Proof.
  destruct i as [|[|[|[|i]]]]; simpl; intros H; try discriminate;
    injection H as <- <-; auto 10.
Qed.

Lemma frames_stage_handler w r i st (h : StageHandler) :
  stages !! i = Some (st, h) -> frames r (h w r).
Proof.
  intros H. destruct (stage_cases _ _ _ H) as [(_ & _ & ->)|[(_ & _ & ->)|[(_ & _ & ->)|(_ & _ & ->)]]];
    auto using frames_extractText, frames_layoutAnalysis, frames_generateTextEmbeddings,
      frames_writeDatabase.
Qed.

(** ** The pieces of the driver, by their effect *)

Lemma total_run (m : M unit) : total m -> forall s, m s = (Ok tt, snd (m s)).
Proof.
  intros Hm s. destruct (Hm s) as [[] Ha]. destruct (m s) as [o s']; simpl in *. now subst.
Qed.

Lemma runTaskFrom_stage r i st (h : StageHandler) s :
  stages !! i = Some (st, h) ->
  let s' := snd (runTaskFrom r i s) in
  heap s' = alter (entered st (stageProgress i) (clock s)) r (heap s)
  /\ queue s' = queue s /\ running s' = running s /\ awaiting s' = Some (r, i).
Proof.
  intros Hi.
  assert (E : runTaskFrom r i s
              = (Ok tt, set_awaiting (Some (r, i)) (snd (updateTaskStage r st (stageProgress i) s)))).
  { unfold runTaskFrom. rewrite Hi. unfold bind.
    now rewrite (total_run _ (total_updateTaskStage r st (stageProgress i)) s). }
  rewrite E. cbn -[updateTaskStage].
  rewrite updateTaskStage_heap, updateTaskStage_queue, updateTaskStage_running. auto.
Qed.

Lemma runTaskFrom_completed r i s :
  stages !! i = None ->
  let s' := snd (runTaskFrom r i s) in
  heap s' = alter (entered completed 100 (clock s)) r (heap s)
  /\ queue s' = queue s /\ running s' = running s /\ awaiting s' = None.
Proof.
  intros Hi.
  assert (E : runTaskFrom r i s
              = (Ok tt, set_awaiting None (snd (updateTaskStage r completed 100 s)))).
  { unfold runTaskFrom. rewrite Hi. unfold bind.
    now rewrite (total_run _ (total_updateTaskStage r completed 100) s). }
  rewrite E. cbn -[updateTaskStage].
  rewrite updateTaskStage_heap, updateTaskStage_queue, updateTaskStage_running. auto.
Qed.

Lemma alter_absent {A} (f : A -> A) (r : nat) (h : list A) :
  h !! r = None -> alter f r h = h.
Proof.
  revert r. induction h as [|a h IH]; intros [|r] H; try reflexivity.
  - discriminate.
  - cbn. f_equal. apply IH. exact H.
Qed.

Lemma runTaskCatch_effect r err s :
  let s' := snd (runTaskCatch r err s) in
  heap s' = alter (caught err (clock s)) r (heap s)
  /\ queue s' = queue s /\ running s' = running s /\ awaiting s' = None.
Proof.
  unfold runTaskCatch, bind, modify, withTask, mutate. cbn -[updateTaskStage].
  rewrite list_lookup_alter_eq. destruct (heap s !! r) as [t|] eqn:Ht; cbn -[updateTaskStage].
  - rewrite (total_run _ (total_updateTaskStage r failed (progress t))). cbn -[updateTaskStage].
    rewrite updateTaskStage_heap, updateTaskStage_queue, updateTaskStage_running.
    cbn -[updateTaskStage].
    repeat split. rewrite list_alter_alter_eq.
    apply list_alter_ext; [|reflexivity]. intros t' Ht'. unfold compose, caught.
    rewrite Ht in Ht'. injection Ht' as <-. reflexivity.
  - repeat split. now rewrite !alter_absent.
Qed.

Lemma runNext_eq s :
  snd (runNext s)
  = if running s then s
    else match queue s with
         | [] => s
         | r :: q => snd (runTaskFrom r 0 (set_running true (set_queue q s)))
         end.
Proof.
  unfold runNext, bind, gets, modify, ret. cbn -[runTaskFrom].
  destruct (running s); [reflexivity|]. destruct (queue s); reflexivity.
Qed.

Lemma runNextFinally_eq s :
  snd (runNextFinally s)
  = match queue s with
    | [] => set_running false s
    | r :: q => snd (runTaskFrom r 0 (set_running true (set_queue q (set_running false s))))
    end.
Proof.
  unfold runNextFinally, bind, gets, modify, ret. cbn -[runNext].
  destruct (queue s) as [|r q] eqn:Hq; cbn -[runNext]; [reflexivity|].
  rewrite runNext_eq. cbn -[runTaskFrom]. now rewrite Hq.
Qed.

Lemma resume_eq w s r i st (h : StageHandler) :
  awaiting s = Some (r, i) ->
  stages !! i = Some (st, h) ->
  snd (resume w s)
  = match h w r s with
    | (Ok _, s1) =>
        let s2 := snd (runTaskFrom r (S i) s1) in
        match awaiting s2 with
        | Some _ => s2
        | None => snd (runNextFinally s2)
        end
    | (Throw msg, s1) => snd (runNextFinally (snd (runTaskCatch r msg s1)))
    end.
Proof.
  intros Ha Hi. unfold resume. unfold bind at 1. unfold gets. cbv beta iota.
  rewrite Ha. cbv beta iota. rewrite Hi.
  unfold untilReturned, tryCatch, bind.
  destruct (h w r s) as [[[]|msg] s1].
  - rewrite (total_run _ (total_runTaskFrom r (S i)) s1). cbv zeta. cbn [fst snd].
    destruct (awaiting (snd (runTaskFrom r (S i) s1))); [reflexivity|].
    unfold tryFinally, liftOutcome.
    now rewrite (total_run _ total_runNextFinally).
  - rewrite (total_run _ (total_runTaskCatch r msg) s1). cbn [fst snd].
    destruct (runTaskCatch_effect r msg s1) as (_ & _ & _ & Hnone). rewrite Hnone.
    unfold tryFinally, liftOutcome.
    now rewrite (total_run _ total_runNextFinally).
Qed.

(** ** The shape of the reachable states *)

Lemma Inv_initial : Inv initialState.
Proof.
  split; simpl; try easy. constructor.
Qed.

(** A task was taken off the queue and entered its first stage. *)
Lemma Inv_started (s0 : State) (r : nat) (q : list nat) (s' : State) :
  NoDup (r :: q) ->
  (forall k, k ∈ r :: q -> exists t, heap s0 !! k = Some t /\ stage t = queued) ->
  (forall k t, heap s0 !! k = Some t -> k ∉ r :: q -> terminal (stage t)) ->
  heap s' = alter (entered extracting_text (stageProgress 0) (clock s0)) r (heap s0) ->
  queue s' = q -> running s' = true -> awaiting s' = Some (r, 0) ->
  Inv s'.
Proof.
  intros Hnd Hq Hdone Hheap Hqueue Hrun Haw.
  apply NoDup_cons in Hnd as [Hr Hnd].
  split.
  - now rewrite Hrun, Haw.
  - rewrite Haw. discriminate.
  - intros r0 i0. rewrite Haw. intros [= <- <-]. rewrite Hqueue. split; [exact Hr|].
    destruct (Hq r) as (t & Ht & _); [left|].
    exists (entered extracting_text (stageProgress 0) (clock s0) t), extracting_text, extractText.
    rewrite Hheap, list_lookup_alter_eq, Ht. auto.
  - now rewrite Hqueue.
  - intros k Hk. rewrite Hqueue in Hk.
    destruct (Hq k) as (t & Ht & Hst); [now right|].
    exists t. rewrite Hheap, list_lookup_alter_ne; [auto|].
    intros ->. contradiction.
  - intros k t Ht Hk Hnot. rewrite Hqueue in Hk.
    assert (Hkr : k <> r) by (intros ->; apply (Hnot 0); exact Haw).
    rewrite Hheap, list_lookup_alter_ne in Ht by congruence.
    apply (Hdone k t Ht). intros Hin. apply elem_of_cons in Hin as [?|?]; contradiction.
Qed.

(** The driver looks at the queue after a task returned. *)
Lemma Inv_finish (s2 : State) :
  awaiting s2 = None ->
  NoDup (queue s2) ->
  (forall k, k ∈ queue s2 -> exists t, heap s2 !! k = Some t /\ stage t = queued) ->
  (forall k t, heap s2 !! k = Some t -> k ∉ queue s2 -> terminal (stage t)) ->
  Inv (snd (runNextFinally s2)).
Proof.
  intros Haw Hnd Hq Hdone. rewrite runNextFinally_eq.
  destruct (queue s2) as [|r q] eqn:E.
  - split; simpl; rewrite ?Haw, ?E; try easy.
    intros k t Ht _ _. apply (Hdone k t Ht). intros Hin. inversion Hin.
  - destruct (runTaskFrom_stage r 0 extracting_text extractText
                (set_running true (set_queue q (set_running false s2))) eq_refl)
      as (H1 & H2 & H3 & H4).
    eapply (Inv_started s2 r q); eauto.
Qed.

(** The running task returned: it is completed or failed. *)
Lemma Inv_returned (s s2 : State) (r i : nat) (F : IngestionTask -> IngestionTask) :
  Inv s -> awaiting s = Some (r, i) ->
  heap s2 = alter F r (heap s) -> (forall t, terminal (stage (F t))) ->
  queue s2 = queue s -> awaiting s2 = None ->
  Inv (snd (runNextFinally s2)).
Proof.
  intros HI Haw Hheap HF Hqueue Hnone.
  destruct (inv_busy s HI r i Haw) as (Hr & t & st & h & Ht & Hi & Hst).
  apply Inv_finish; [exact Hnone | rewrite Hqueue; apply HI | |].
  - intros k Hk. rewrite Hqueue in Hk.
    destruct (inv_queued s HI k Hk) as (tk & Htk & Hstk). exists tk.
    rewrite Hheap, list_lookup_alter_ne; [auto|]. intros ->. contradiction.
  - intros k tk Htk Hk. rewrite Hqueue in Hk. rewrite Hheap in Htk.
    destruct (decide (k = r)) as [->|Hne].
    + rewrite list_lookup_alter_eq, Ht in Htk. injection Htk as <-. apply HF.
    + rewrite list_lookup_alter_ne in Htk by congruence.
      apply (inv_done s HI k tk Htk Hk). intros i0. rewrite Haw. congruence.
Qed.

Lemma Inv_resume w s : Inv s -> Inv (snd (resume w s)).
Proof.
  intros HI. destruct (awaiting s) as [[r i]|] eqn:Haw.
  2:{ unfold resume, bind, gets. cbv beta iota. now rewrite Haw. }
  destruct (inv_busy s HI r i Haw) as (Hr & t & st & h & Ht & Hi & Hst).
  rewrite (resume_eq w s r i st h Haw Hi).
  destruct (frames_stage_handler w r i st h Hi s) as (F1 & F2 & F3 & F4 & f & Hf & F5).
  destruct (h w r s) as [[[]|msg] s1]; cbn [snd] in *.
  - destruct (stages !! S i) as [[st' h']|] eqn:Hnext.
    + destruct (runTaskFrom_stage r (S i) st' h' s1 Hnext) as (H1 & H2 & H3 & H4).
      cbv zeta. rewrite H4.
      split.
      * rewrite H3, H4, F2, (inv_running s HI), Haw. reflexivity.
      * rewrite H4. discriminate.
      * intros r0 i0. rewrite H4. intros [= <- <-]. rewrite H2, F1. split; [exact Hr|].
        eexists _, st', h'. rewrite H1, F5, !list_lookup_alter_eq, Ht. simpl. auto.
      * rewrite H2, F1. apply HI.
      * intros k Hk. rewrite H2, F1 in Hk.
        destruct (inv_queued s HI k Hk) as (tk & Htk & Hstk). exists tk.
        rewrite H1, F5, !list_lookup_alter_ne; [auto | |]; intros ->; contradiction.
      * intros k tk Htk Hk Hnot. rewrite H2, F1 in Hk.
        assert (Hkr : k <> r) by (intros ->; apply (Hnot (S i)); exact H4).
        rewrite H1, F5, !list_lookup_alter_ne in Htk by congruence.
        apply (inv_done s HI k tk Htk Hk). intros i0. rewrite Haw. congruence.
    + destruct (runTaskFrom_completed r (S i) s1 Hnext) as (H1 & H2 & H3 & H4).
      cbv zeta. rewrite H4.
      apply (Inv_returned s _ r i (entered completed 100 (clock s1) ∘ f)); auto.
      * now rewrite H1, F5, list_alter_alter_eq.
      * intros t0. now left.
      * congruence.
  - destruct (runTaskCatch_effect r msg s1) as (H1 & H2 & H3 & H4).
    apply (Inv_returned s _ r i (caught msg (clock s1) ∘ f)); auto.
    + now rewrite H1, F5, list_alter_alter_eq.
    + intros t0. now right.
    + congruence.
Qed.

Lemma createTask_eq w params s :
  fst (createTask w params s) = Ok (length (heap s))
  /\ let s' := snd (createTask w params s) in
     let sn := snd (runNext (pushed w params s)) in
     heap s' = heap sn /\ queue s' = queue sn /\ running s' = running sn
     /\ awaiting s' = awaiting sn.
Proof.
  unfold createTask, enqueue, tasksSet, withTask, emit, bind, gets, modify, newDate,
    randomUUID, ret, mutate.
  cbn -[runNext]. rewrite lookup_app_r, Nat.sub_diag by lia. cbn -[runNext].
  fold (newTask w params s).
  rewrite (total_run _ total_runNext).
  match goal with |- context [runNext ?x] =>
    change x with (pushed w params s) end.
  cbn -[runNext pushed].
  destruct (heap (snd (runNext (pushed w params s))) !! length (heap s));
    cbn -[runNext pushed]; auto.
Qed.

Lemma Inv_createTask w params s : Inv s -> Inv (snd (createTask w params s)).
Proof.
  intros HI. destruct (createTask_eq w params s) as (_ & Hh & Hq & Hr & Ha).
  set (s' := snd (createTask w params s)) in *.
  set (r := length (heap s)).
  assert (Hfresh : r ∉ queue s).
  { intros Hin. destruct (inv_queued s HI r Hin) as (t & Ht & _).
    apply lookup_lt_Some in Ht. unfold r in Ht. lia. }
  assert (Hold : forall k t, heap s !! k = Some t -> (heap s ++ [newTask w params s]) !! k = Some t).
  { intros k t Ht. now apply lookup_app_l_Some. }
  assert (Hnew : (heap s ++ [newTask w params s]) !! r = Some (newTask w params s)).
  { unfold r. rewrite lookup_app_r, Nat.sub_diag by lia. reflexivity. }
  rewrite runNext_eq in Hh, Hq, Hr, Ha. cbn [pushed running queue] in Hh, Hq, Hr, Ha.
  destruct (running s) eqn:Hrun.
  - (* busy: the task waits in the queue *)
    cbn [pushed heap queue running awaiting] in Hh, Hq, Hr, Ha.
    pose proof (inv_running s HI) as Hrun'. rewrite Hrun in Hrun'.
    destruct (awaiting s) as [[r0 i0]|] eqn:Haw; [|discriminate].
    destruct (inv_busy s HI r0 i0 Haw) as (Hr0 & t0 & st & h & Ht0 & Hi & Hst).
    split.
    + now rewrite Hr, Ha.
    + rewrite Ha. discriminate.
    + intros r1 i1. rewrite Ha. intros [= <- <-]. rewrite Hq, Hh. split.
      * rewrite elem_of_app, list_elem_of_singleton. intros [?| ->]; [contradiction|].
        apply lookup_lt_Some in Ht0. unfold r in Ht0. lia.
      * exists t0, st, h. auto.
    + rewrite Hq. apply NoDup_app. split; [apply HI|]. split.
      * intros k Hk. rewrite list_elem_of_singleton. intros ->. contradiction.
      * apply NoDup_singleton.
    + intros k. rewrite Hq, Hh, elem_of_app, list_elem_of_singleton. intros [Hk| ->].
      * destruct (inv_queued s HI k Hk) as (t & Ht & Hstq). exists t. auto.
      * exists (newTask w params s). auto.
    + intros k t. rewrite Hq, Hh, Ha, elem_of_app, list_elem_of_singleton.
      intros Ht Hk Hnot.
      assert (Hkr : k <> r) by tauto.
      rewrite lookup_app_l in Ht.
      2:{ apply lookup_lt_Some in Ht. rewrite length_app in Ht. simpl in Ht. unfold r in Hkr. lia. }
      apply (inv_done s HI k t Ht); [tauto | rewrite Haw; exact Hnot].
  - (* idle: the task starts at once *)
    pose proof (inv_running s HI) as Hrun'. rewrite Hrun in Hrun'.
    destruct (awaiting s) as [[r0 i0]|] eqn:Haw; [discriminate|].
    rewrite (inv_idle s HI Haw) in *. cbn [app] in Hh, Hq, Hr, Ha.
    destruct (runTaskFrom_stage r 0 extracting_text extractText
                (set_running true (set_queue [] (pushed w params s))) eq_refl)
      as (H1 & H2 & H3 & H4).
    fold r in Hh, Hq, Hr, Ha.
    apply (Inv_started (pushed w params s) r []).
    + apply NoDup_singleton.
    + intros k Hk. apply list_elem_of_singleton in Hk as ->.
      exists (newTask w params s). cbn [pushed heap]. auto.
    + intros k t Ht Hk. cbn [pushed heap] in Ht.
      rewrite list_elem_of_singleton in Hk.
      rewrite lookup_app_l in Ht.
      2:{ apply lookup_lt_Some in Ht. rewrite length_app in Ht. simpl in Ht. unfold r in Hk. lia. }
      apply (inv_done s HI k t Ht);
        [rewrite (inv_idle s HI Haw); intros Hin; inversion Hin | rewrite Haw; discriminate].
    + rewrite Hh. exact H1.
    + rewrite Hq. exact H2.
    + rewrite Hr. exact H3.
    + rewrite Ha. exact H4.
Qed.

Lemma Inv_performAll w acts s : Inv s -> Inv (snd (performAll w acts s)).
Proof.
  revert s. induction acts as [|a rest IH]; intros s HI; [exact HI|].
  cbn [performAll]. unfold bind.
  destruct (total_perform w a s) as [u Hu].
  destruct (perform w a s) as [[[]|msg] s1] eqn:E; cbn [fst] in Hu; [|discriminate].
  apply IH. replace s1 with (snd (perform w a s)) by now rewrite E.
  destruct a as [params|]; cbn [perform].
  - unfold bind. destruct (total_createTask w params s) as [r0 Hr0].
    destruct (createTask w params s) as [[r1|msg] s2] eqn:E2; cbn [fst] in Hr0; [|discriminate].
    cbn [ret snd]. replace s2 with (snd (createTask w params s)) by now rewrite E2.
    now apply Inv_createTask.
  - now apply Inv_resume.
Qed.

(** ** One settlement, case by case *)

Lemma runNextFinally_effect (s2 : State) :
  let s' := snd (runNextFinally s2) in
  (queue s2 = [] /\ heap s' = heap s2 /\ queue s' = [] /\ running s' = false
   /\ awaiting s' = awaiting s2)
  \/ (exists r' q, queue s2 = r' :: q
        /\ heap s' = alter (startedAt (clock s2)) r' (heap s2)
        /\ queue s' = q /\ running s' = true /\ awaiting s' = Some (r', 0)).
Proof.
  cbv zeta. rewrite runNextFinally_eq. destruct (queue s2) as [|r' q] eqn:E.
  - left. cbn. auto.
  - right. exists r', q.
    destruct (runTaskFrom_stage r' 0 extracting_text extractText
                (set_running true (set_queue q (set_running false s2))) eq_refl)
      as (H1 & H2 & H3 & H4).
    auto.
Qed.

Lemma resume_cases w s r i st (h : StageHandler) :
  awaiting s = Some (r, i) ->
  stages !! i = Some (st, h) ->
  let s' := snd (resume w s) in
  exists f F returned,
    keepsCore f /\ Settlement w s r i h f F returned
    /\ if returned
       then (queue s = [] /\ heap s' = alter F r (heap s) /\ queue s' = []
             /\ running s' = false /\ awaiting s' = None)
            \/ (exists r' q c, queue s = r' :: q
                  /\ heap s' = alter (startedAt c) r' (alter F r (heap s))
                  /\ queue s' = q /\ running s' = true /\ awaiting s' = Some (r', 0))
       else heap s' = alter F r (heap s) /\ queue s' = queue s
            /\ running s' = running s /\ awaiting s' = Some (r, S i).
Proof.
  intros Haw Hi. cbv zeta. rewrite (resume_eq w s r i st h Haw Hi).
  destruct (frames_stage_handler w r i st h Hi s) as (F1 & F2 & F3 & F4 & f & Hf & F5).
  exists f.
  assert (Hfin : forall s2 F, heap s2 = alter F r (heap s) -> queue s2 = queue s ->
            awaiting s2 = None ->
            (queue s = [] /\ heap (snd (runNextFinally s2)) = alter F r (heap s)
             /\ queue (snd (runNextFinally s2)) = []
             /\ running (snd (runNextFinally s2)) = false
             /\ awaiting (snd (runNextFinally s2)) = None)
            \/ (exists r' q c, queue s = r' :: q
                  /\ heap (snd (runNextFinally s2)) = alter (startedAt c) r' (alter F r (heap s))
                  /\ queue (snd (runNextFinally s2)) = q
                  /\ running (snd (runNextFinally s2)) = true
                  /\ awaiting (snd (runNextFinally s2)) = Some (r', 0))).
  { intros s2 F Hh Hq Hn.
    destruct (runNextFinally_effect s2) as [(E & G1 & G2 & G3 & G4)|(r' & q & E & G1 & G2 & G3 & G4)].
    - left. rewrite <- Hq, <- Hh, <- Hn. auto.
    - right. exists r', q, (clock s2). rewrite <- Hq, <- Hh. auto. }
  destruct (h w r s) as [[[]|msg] s1] eqn:Eh; cbn [snd] in *.
  - destruct (stages !! S i) as [[st' h']|] eqn:Hnext.
    + destruct (runTaskFrom_stage r (S i) st' h' s1 Hnext) as (H1 & H2 & H3 & H4).
      exists (entered st' (stageProgress (S i)) (clock s) ∘ f), false.
      split; [exact Hf|]. split; [now apply (settle_next w s r i h f s1 st' h')|].
      cbv zeta. rewrite H4. rewrite H1, H2, H3, F5, F1, F2, F4, list_alter_alter_eq. auto.
    + destruct (runTaskFrom_completed r (S i) s1 Hnext) as (H1 & H2 & H3 & H4).
      exists (entered completed 100 (clock s) ∘ f), true.
      split; [exact Hf|]. split; [now apply (settle_completed w s r i h f s1)|].
      cbv zeta. rewrite H4. apply Hfin; [|congruence | exact H4].
      now rewrite H1, F5, F4, list_alter_alter_eq.
  - destruct (runTaskCatch_effect r msg s1) as (H1 & H2 & H3 & H4).
    exists (caught msg (clock s) ∘ f), true.
    split; [exact Hf|]. split; [now apply (settle_failed w s r i h f s1 msg)|].
    apply Hfin; [|congruence | exact H4].
    now rewrite H1, F5, F4, list_alter_alter_eq.
Qed.

(** ** When a handler raises *)

Lemma extractText_raises w r s t msg :
  heap s !! r = Some t ->
  pdfForText w (sourcePath t) = Throw msg ->
  extractText w r s = (Throw msg, s).
Proof.
  intros Ht Hp. unfold extractText, withTask, extractTextFromPdf, bind, liftOutcome.
  now rewrite Ht, Hp.
Qed.

Lemma total_generateTextEmbeddings w r : total (generateTextEmbeddings w r).
Proof.
  unfold generateTextEmbeddings. apply total_withTask. intros t.
  destruct (textPages (metaOf t)) as [[|page pages]|]; auto with total.
Qed.

Lemma healthy_handler_returns w r s t i st (h : StageHandler) :
  heap s !! r = Some t ->
  Healthy w (sourcePath t) ->
  stages !! i = Some (st, h) ->
  fst (h w r s) = Ok tt.
Proof.
  intros Ht ((pt & Hpt) & (pl & Hpl) & Hdb) Hi.
  destruct (stage_cases _ _ _ Hi) as [(_ & _ & ->)|[(_ & _ & ->)|[(_ & _ & ->)|(_ & _ & ->)]]].
  - unfold extractText, withTask, extractTextFromPdf, bind, liftOutcome, tasksSet, withTask,
      modify, ret, mutate.
    rewrite Ht, Hpt. cbn. destruct (alter _ _ _ !! r); reflexivity.
  - unfold layoutAnalysis, withTask, analyzePdfLayout, bind, liftOutcome, tasksSet, withTask,
      modify, ret, gets, mutate.
    rewrite Ht. destruct (missingOrEmpty _); [reflexivity|].
    rewrite Hpl. cbn. destruct (alter _ _ _ !! r); reflexivity.
  - destruct (total_generateTextEmbeddings w r s) as [[] H]. exact H.
  - unfold writeDatabase, withTask, liftOutcome, ret.
    rewrite Ht. destruct (missingOrEmpty _); [reflexivity|].
    now rewrite Hdb.
Qed.

(** ** What becomes of a task *)

Lemma fateOk_startedAt w c t : fateOk w (startedAt c t).
Proof. split; [discriminate | auto]. Qed.

Lemma keepsCore_sourcePath f t : keepsCore f -> sourcePath (f t) = sourcePath t.
Proof. intros Hf. specialize (Hf t). unfold core in Hf. congruence. Qed.

Lemma resume_idle w s : awaiting s = None -> resume w s = (Ok tt, s).
Proof. intros H. unfold resume, bind, gets. cbv beta iota. now rewrite H. Qed.

Lemma fateOk_settled w s r i st (h : StageHandler) t f F returned :
  heap s !! r = Some t -> stages !! i = Some (st, h) -> stage t = st ->
  keepsCore f -> Settlement w s r i h f F returned ->
  fateOk w t -> fateOk w (F t).
Proof.
  intros Ht Hi Hst Hf HS [Hgood Hbad].
  assert (Hfirst : forall msg, pdfForText w (sourcePath t) = Throw msg ->
            h w r s = (Throw msg, s)).
  { intros msg Hmsg. destruct (Hbad msg Hmsg) as [Hq|[Hq|[Hq _]]];
      destruct (stage_cases _ _ _ Hi) as [(_ & E & ->)|[(_ & E & _)|[(_ & E & _)|(_ & E & _)]]];
      try congruence.
    now apply (extractText_raises w r s t). }
  destruct HS as [s1 st' h' Hh Hnext|s1 Hh Hnext|s1 msg Hh]; unfold compose; split.
  - intros _. cbn. destruct (stage_cases _ _ _ Hnext) as [(_ & -> & _)|[(_ & -> & _)|[(_ & -> & _)|(_ & -> & _)]]];
      discriminate.
  - intros msg. cbn [entered set_updatedAt set_progress set_stage sourcePath].
    rewrite (keepsCore_sourcePath f t Hf). intros Hmsg.
    rewrite (Hfirst msg Hmsg) in Hh. discriminate.
  - discriminate.
  - intros msg. cbn [entered set_updatedAt set_progress set_stage sourcePath].
    rewrite (keepsCore_sourcePath f t Hf). intros Hmsg.
    rewrite (Hfirst msg Hmsg) in Hh. discriminate.
  - cbn [caught entered set_updatedAt set_progress set_stage set_error sourcePath].
    rewrite (keepsCore_sourcePath f t Hf). intros Hh'.
    pose proof (healthy_handler_returns w r s t i st h Ht Hh' Hi) as Hok.
    rewrite Hh in Hok. discriminate.
  - intros msg'. cbn [caught entered set_updatedAt set_progress set_stage set_error sourcePath].
    rewrite (keepsCore_sourcePath f t Hf). intros Hmsg.
    rewrite (Hfirst msg' Hmsg) in Hh. injection Hh as <- _.
    right. right. split; reflexivity.
Qed.

Lemma Fate_resume w s : Inv s -> Fate w s -> Fate w (snd (resume w s)).
Proof.
  intros HI HF. destruct (awaiting s) as [[r i]|] eqn:Haw.
  2:{ now rewrite resume_idle. }
  destruct (inv_busy s HI r i Haw) as (Hr & t & st & h & Ht & Hi & Hst).
  destruct (resume_cases w s r i st h Haw Hi) as (f & F & returned & Hf & HS & Hshape).
  assert (HFt : fateOk w (F t)).
  { eapply fateOk_settled; eauto. }
  assert (Hmid : forall k tk, alter F r (heap s) !! k = Some tk -> fateOk w tk).
  { intros k tk. destruct (decide (k = r)) as [->|Hne].
    - rewrite list_lookup_alter_eq, Ht. intros [= <-]. exact HFt.
    - rewrite list_lookup_alter_ne by congruence. apply HF. }
  assert (Hstart : forall c r' k tk,
            alter (startedAt c) r' (alter F r (heap s)) !! k = Some tk -> fateOk w tk).
  { intros c r' k tk. destruct (decide (k = r')) as [->|Hne].
    - rewrite list_lookup_alter_eq.
      destruct (alter F r (heap s) !! r'); [|discriminate].
      intros [= <-]. apply fateOk_startedAt.
    - rewrite list_lookup_alter_ne by congruence. apply Hmid. }
  intros k tk. destruct returned.
  - destruct Hshape as [(_ & Hh & _)|(r' & q & c & _ & Hh & _)]; rewrite Hh; eauto.
  - destruct Hshape as (Hh & _). rewrite Hh. apply Hmid.
Qed.

Lemma Fate_createTask w params s : Fate w s -> Fate w (snd (createTask w params s)).
Proof.
  intros HF. destruct (createTask_eq w params s) as (_ & Hh & _).
  cbv zeta in Hh. rewrite runNext_eq in Hh.
  assert (Hpushed : forall k tk, heap (pushed w params s) !! k = Some tk -> fateOk w tk).
  { intros k tk. cbn [pushed heap]. rewrite lookup_app_Some.
    intros [Hk|[_ Hk]]; [now apply (HF k)|].
    destruct (k - length (heap s)) as [|n]; [|discriminate].
    injection Hk as <-. split; [discriminate | auto]. }
  intros k tk. rewrite Hh.
  destruct (running (pushed w params s)); [apply Hpushed|].
  destruct (queue (pushed w params s)) as [|r q]; [apply Hpushed|].
  destruct (runTaskFrom_stage r 0 extracting_text extractText
              (set_running true (set_queue q (pushed w params s))) eq_refl) as (H1 & _).
  rewrite H1. cbn [set_running set_queue heap].
  destruct (decide (k = r)) as [->|Hne].
  - rewrite list_lookup_alter_eq.
    destruct (heap (pushed w params s) !! r); [|discriminate].
    intros [= <-]. apply fateOk_startedAt.
  - rewrite list_lookup_alter_ne by congruence. apply Hpushed.
Qed.

Lemma Fate_initial w : Fate w initialState.
Proof. intros k t H. discriminate. Qed.

Lemma perform_snd w a s :
  snd (perform w a s)
  = match a with
    | Submit params => snd (createTask w params s)
    | Settle => snd (resume w s)
    end.
Proof.
  destruct a as [params|]; [|reflexivity]. cbn [perform]. unfold bind.
  destruct (total_createTask w params s) as [r0 Hr0].
  destruct (createTask w params s) as [[r1|msg] s2]; cbn [fst] in Hr0; [reflexivity | discriminate].
Qed.

Lemma performAll_cons w a rest s :
  snd (performAll w (a :: rest) s) = snd (performAll w rest (snd (perform w a s))).
Proof.
  cbn [performAll]. unfold bind. destruct (total_perform w a s) as [u Hu].
  destruct (perform w a s) as [[[]|msg] s1]; cbn [fst] in Hu; [reflexivity | discriminate].
Qed.

Lemma performAll_app w acts1 acts2 s :
  snd (performAll w (acts1 ++ acts2) s)
  = snd (performAll w acts2 (snd (performAll w acts1 s))).
Proof.
  revert s. induction acts1 as [|a rest IH]; intros s; [reflexivity|].
  cbn [app]. now rewrite !performAll_cons, IH.
Qed.

Lemma Fate_performAll w acts s :
  Inv s -> Fate w s -> Fate w (snd (performAll w acts s)).
Proof.
  revert s. induction acts as [|a rest IH]; intros s HI HF; [exact HF|].
  rewrite performAll_cons, perform_snd. destruct a as [params|].
  - apply IH; [now apply Inv_createTask | now apply Fate_createTask].
  - apply IH; [now apply Inv_resume | now apply Fate_resume].
Qed.

(** ** The driver gets through the queue *)

Lemma resume_work w s :
  Inv s -> awaiting s <> None -> work (snd (resume w s)) < work s.
Proof.
  intros HI Hbusy. destruct (awaiting s) as [[r i]|] eqn:Haw; [|congruence].
  destruct (inv_busy s HI r i Haw) as (Hr & t & st & h & Ht & Hi & Hst).
  pose proof (lookup_lt_Some _ _ _ Hi) as Hlt.
  destruct (resume_cases w s r i st h Haw Hi) as (f & F & returned & Hf & HS & Hshape).
  unfold work at 2. rewrite Haw. unfold work.
  destruct returned.
  - destruct Hshape as [(Hq & _ & Hq' & _ & Ha')|(r' & q & c & Hq & _ & Hq' & _ & Ha')];
      rewrite Ha'.
    + lia.
    + rewrite Hq, Hq'. cbn [length]. lia.
  - destruct Hshape as (_ & Hq' & _ & Ha'). rewrite Ha', Hq'. lia.
Qed.

Lemma settles_reach_idle w n s :
  Inv s -> work s <= n -> awaiting (snd (performAll w (replicate n Settle) s)) = None.
Proof.
  revert s. induction n as [|n IH]; intros s HI Hw.
  - cbn. unfold work in Hw. destruct (awaiting s) as [[r i]|] eqn:Haw; [|reflexivity].
    destruct (inv_busy s HI r i Haw) as (_ & t & st & h & _ & Hi & _).
    apply lookup_lt_Some in Hi. lia.
  - cbn [replicate]. rewrite performAll_cons, perform_snd.
    destruct (awaiting s) as [[r i]|] eqn:Haw.
    + apply IH; [now apply Inv_resume|].
      assert (H := resume_work w s HI). rewrite Haw in H. specialize (H ltac:(discriminate)). lia.
    + rewrite resume_idle by exact Haw. cbn [snd]. apply IH; [exact HI|].
      unfold work. rewrite Haw. lia.
Qed.

Lemma distinct_refs_bounded (l : list nat) (n : nat) :
  NoDup l -> (forall k, k ∈ l -> k < n) -> length l <= n.
Proof.
  intros Hnd Hlt. transitivity (length (seq 0 n)); [|now rewrite length_seq].
  apply submseteq_length, NoDup_submseteq; [exact Hnd|].
  intros k Hk. apply elem_of_seq. specialize (Hlt k Hk). lia.
Qed.

Lemma work_bounded s : Inv s -> work s <= length stages * length (heap s).
Proof.
  intros HI. unfold work. destruct (awaiting s) as [[r i]|] eqn:Haw; [|lia].
  destruct (inv_busy s HI r i Haw) as (Hr & t & st & h & Ht & Hi & Hst).
  assert (Hlen : length (r :: queue s) <= length (heap s)).
  { apply distinct_refs_bounded.
    - apply NoDup_cons. split; [exact Hr | apply HI].
    - intros k Hk. apply elem_of_cons in Hk as [->|Hk].
      + now apply lookup_lt_Some in Ht.
      + destruct (inv_queued s HI k Hk) as (tk & Htk & _). now apply lookup_lt_Some in Htk. }
  cbn [length] in Hlen. nia.
Qed.

(** ** The tasks, in the order of their submission *)

Lemma map_sourcePath_alter (F : IngestionTask -> IngestionTask) (r : nat) (l : list IngestionTask) :
  (forall t, sourcePath (F t) = sourcePath t) ->
  map sourcePath (alter F r l) = map sourcePath l.
Proof.
  intros HF. revert r. induction l as [|t l IH]; intros [|r]; cbn; try reflexivity.
  - now rewrite HF.
  - f_equal. apply IH.
Qed.

Lemma Settlement_sourcePath w s r i (h : StageHandler) f F returned :
  keepsCore f -> Settlement w s r i h f F returned ->
  forall t, sourcePath (F t) = sourcePath t.
Proof.
  intros Hf HS t. destruct HS; unfold compose; cbn; apply keepsCore_sourcePath, Hf.
Qed.

Lemma paths_resume w s :
  map sourcePath (heap (snd (resume w s))) = map sourcePath (heap s).
Proof.
  destruct (awaiting s) as [[r i]|] eqn:Haw; [|now rewrite resume_idle].
  destruct (stages !! i) as [[st h]|] eqn:Hi.
  2:{ unfold resume, bind, gets. cbv beta iota. now rewrite Haw, Hi. }
  destruct (resume_cases w s r i st h Haw Hi) as (f & F & returned & Hf & HS & Hshape).
  pose proof (Settlement_sourcePath w s r i h f F returned Hf HS) as HF.
  destruct returned.
  - destruct Hshape as [(_ & Hh & _)|(r' & q & c & _ & Hh & _)]; rewrite Hh.
    + now apply map_sourcePath_alter.
    + rewrite map_sourcePath_alter by reflexivity. now apply map_sourcePath_alter.
  - destruct Hshape as (Hh & _). rewrite Hh. now apply map_sourcePath_alter.
Qed.

Lemma paths_createTask w params s :
  map sourcePath (heap (snd (createTask w params s)))
  = map sourcePath (heap s) ++ [params_sourcePath params].
Proof.
  destruct (createTask_eq w params s) as (_ & Hh & _). cbv zeta in Hh. rewrite Hh.
  rewrite runNext_eq.
  assert (Hp : map sourcePath (heap (pushed w params s))
               = map sourcePath (heap s) ++ [params_sourcePath params]).
  { cbn [pushed heap]. now rewrite map_app. }
  destruct (running (pushed w params s)); [exact Hp|].
  destruct (queue (pushed w params s)) as [|r q]; [exact Hp|].
  destruct (runTaskFrom_stage r 0 extracting_text extractText
              (set_running true (set_queue q (pushed w params s))) eq_refl) as (H1 & _).
  rewrite H1. cbn [set_running set_queue heap].
  now rewrite map_sourcePath_alter.
Qed.

Lemma paths_performAll w acts s :
  map sourcePath (heap (snd (performAll w acts s)))
  = map sourcePath (heap s) ++ map params_sourcePath (submissions acts).
Proof.
  revert s. induction acts as [|a rest IH]; intros s.
  - cbn. now rewrite app_nil_r.
  - rewrite performAll_cons, perform_snd, IH. unfold submissions.
    rewrite omap_cons_eq. destruct a as [params|].
    + rewrite paths_createTask, <- app_assoc. reflexivity.
    + now rewrite paths_resume.
Qed.

(** ** Failure isolation and the failure transition *)

Lemma resume_failed_task w s r i st (h : StageHandler) msg s1 :
  Inv s -> awaiting s = Some (r, i) -> stages !! i = Some (st, h) ->
  h w r s = (Throw msg, s1) ->
  exists t1, heap s1 !! r = Some t1
    /\ heap (snd (resume w s)) !! r = Some (caught msg (clock s1) t1).
Proof.
  intros HI Haw Hi Hh.
  destruct (inv_busy s HI r i Haw) as (Hr & t & st0 & h0 & Ht & _ & _).
  destruct (frames_stage_handler w r i st h Hi s) as (F1 & _ & _ & _ & f & Hf & F5).
  rewrite Hh in F1, F5. cbn [snd] in F1, F5.
  exists (f t). split; [now rewrite F5, list_lookup_alter_eq, Ht|].
  rewrite (resume_eq w s r i st h Haw Hi), Hh.
  destruct (runTaskCatch_effect r msg s1) as (H1 & H2 & _).
  assert (Hmid : heap (snd (runTaskCatch r msg s1)) !! r = Some (caught msg (clock s1) (f t))).
  { now rewrite H1, F5, !list_lookup_alter_eq, Ht. }
  destruct (runNextFinally_effect (snd (runTaskCatch r msg s1)))
    as [(_ & G1 & _)|(r' & q & E & G1 & _)]; rewrite G1; [exact Hmid|].
  rewrite list_lookup_alter_ne; [exact Hmid|].
  intros ->. apply Hr. rewrite <- F1, <- H2, E. now left.
Qed.

Lemma resume_starts_next w s r i st (h : StageHandler) :
  Inv s -> awaiting s = Some (r, i) -> stages !! i = Some (st, h) ->
  (exists msg, fst (h w r s) = Throw msg) \/ stages !! S i = None ->
  let s' := snd (resume w s) in
  match queue s with
  | [] => awaiting s' = None /\ running s' = false
  | next :: rest =>
      awaiting s' = Some (next, 0) /\ queue s' = rest /\ running s' = true
      /\ exists t, heap s' !! next = Some t /\ stage t = extracting_text
  end.
Proof.
  intros HI Haw Hi Hret. cbv zeta.
  destruct (resume_cases w s r i st h Haw Hi) as (f & F & returned & Hf & HS & Hshape).
  assert (returned = true) as ->.
  { destruct HS as [s1 st' h' Hh Hnext| |]; try reflexivity.
    destruct Hret as [[msg Hm]|Hn]; [rewrite Hh in Hm; discriminate | congruence]. }
  destruct Hshape as [(Hq & _ & _ & Hr' & Ha')|(r' & q & c & Hq & Hh' & Hq' & Hr' & Ha')];
    rewrite Hq; [auto|].
  repeat split; try assumption.
  destruct (inv_queued s HI r') as (tq & Htq & _); [rewrite Hq; now left|].
  assert (Hne : r' <> r).
  { intros ->. destruct (inv_busy s HI r i Haw) as (Hr & _). apply Hr. rewrite Hq. now left. }
  exists (startedAt c tq). split; [|reflexivity].
  now rewrite Hh', list_lookup_alter_eq, list_lookup_alter_ne, Htq by congruence.
Qed.

Lemma Inv_reachable w acts : Inv (snd (performAll w acts initialState)).
Proof. apply Inv_performAll, Inv_initial. Qed.

(** C1. Failure isolation. (1) The driver never raises, whatever the
    handlers and the collaborators do. (2) In every reachable state, when
    the awaited stage handler raises, the settlement leaves its task failed
    with the message raised as its error; and whenever the running task
    returns, by an exception or after its last stage, the driver starts
    the next queued task, or goes idle when the queue is empty. (3) For
    three uploads A, B, C submitted in this order and interleaved with
    settlements in any way, where the text of B cannot be extracted and
    nothing can fail for A and C: once the queue is worked off, A and C are
    completed and B is failed with the message raised, which is not
    empty. *)
Theorem failure_isolation (w : World) :
  (forall acts s, fst (performAll w acts s) = Ok tt)
  /\ (forall acts r i st (h : StageHandler),
        let s := snd (performAll w acts initialState) in
        let s' := snd (resume w s) in
        awaiting s = Some (r, i) -> stages !! i = Some (st, h) ->
        (forall msg, fst (h w r s) = Throw msg ->
           exists t', heap s' !! r = Some t' /\ stage t' = failed /\ error t' = Some msg)
        /\ ((exists msg, fst (h w r s) = Throw msg) \/ stages !! S i = None ->
            match queue s with
            | [] => awaiting s' = None /\ running s' = false
            | next :: rest =>
                awaiting s' = Some (next, 0) /\ queue s' = rest /\ running s' = true
                /\ exists t, heap s' !! next = Some t /\ stage t = extracting_text
            end))
  /\ (forall acts pA pB pC msg n,
        submissions acts = [pA; pB; pC] ->
        Healthy w (params_sourcePath pA) ->
        pdfForText w (params_sourcePath pB) = Throw msg ->
        msg <> "" ->
        Healthy w (params_sourcePath pC) ->
        12 <= n ->
        let s := snd (performAll w (acts ++ replicate n Settle) initialState) in
        exists tA tB tC e,
          heap s = [tA; tB; tC]
          /\ sourcePath tA = params_sourcePath pA /\ stage tA = completed
          /\ sourcePath tB = params_sourcePath pB /\ stage tB = failed
          /\ error tB = Some e /\ e = msg /\ e <> ""
          /\ sourcePath tC = params_sourcePath pC /\ stage tC = completed
          /\ queue s = [] /\ awaiting s = None).
Proof.
  split; [intros acts s; apply performAll_never_throws|]. split.
  - intros acts r i st h s s' Haw Hi.
    pose proof (Inv_reachable w acts) as HI. fold s in HI. split.
    + intros msg Hm. destruct (h w r s) as [o s1] eqn:Hh. cbn [fst] in Hm. subst o.
      destruct (resume_failed_task w s r i st h msg s1 HI Haw Hi Hh) as (t1 & _ & Ht').
      exists (caught msg (clock s1) t1). auto.
    + intros Hret. now apply (resume_starts_next w s r i st h).
  - intros acts pA pB pC msg n Hsub HA HB Hmsg HC Hn s.
    set (s0 := snd (performAll w acts initialState)).
    assert (Hs : s = snd (performAll w (replicate n Settle) s0))
      by (unfold s, s0; apply performAll_app).
    pose proof (Inv_reachable w acts) as HI0. fold s0 in HI0.
    pose proof (Inv_reachable w (acts ++ replicate n Settle)) as HI. fold s in HI.
    pose proof (Fate_performAll w (acts ++ replicate n Settle) initialState
                  Inv_initial (Fate_initial w)) as HF. fold s in HF.
    pose proof (paths_performAll w acts initialState) as Hp0. fold s0 in Hp0.
    rewrite Hsub in Hp0. cbn in Hp0.
    assert (Hidle : awaiting s = None).
    { rewrite Hs. apply settles_reach_idle; [exact HI0|].
      etransitivity; [apply work_bounded, HI0|].
      rewrite <- (length_map sourcePath), Hp0. cbn. lia. }
    pose proof (paths_performAll w (acts ++ replicate n Settle) initialState) as Hp.
    fold s in Hp. unfold submissions in Hp. rewrite omap_app in Hp.
    fold (submissions acts) in Hp. rewrite Hsub in Hp.
    replace (omap _ (replicate n Settle)) with (@nil CreateTaskParams) in Hp
      by (clear; induction n; [reflexivity | assumption]).
    cbn in Hp.
    destruct (heap s) as [|tA [|tB [|tC [|tD rest]]]] eqn:Hheap; try discriminate.
    injection Hp as HpA HpB HpC.
    pose proof (inv_idle s HI Hidle) as Hq.
    assert (Hterm : forall k t, heap s !! k = Some t -> terminal (stage t)).
    { intros k t Ht. apply (inv_done s HI k t Ht).
      - rewrite Hq. intros Hin. inversion Hin.
      - rewrite Hidle. discriminate. }
    unfold Fate in HF. rewrite Hheap in Hterm, HF.
    destruct (HF 0 tA eq_refl) as [HgA _]. destruct (Hterm 0 tA eq_refl) as [HtA|HtA].
    2:{ exfalso. apply HgA; [now rewrite HpA | exact HtA]. }
    destruct (HF 2 tC eq_refl) as [HgC _]. destruct (Hterm 2 tC eq_refl) as [HtC|HtC].
    2:{ exfalso. apply HgC; [now rewrite HpC | exact HtC]. }
    destruct (HF 1 tB eq_refl) as [_ HbB]. rewrite HpB in HbB.
    destruct (HbB msg HB) as [HtB|[HtB|[HtB HeB]]];
      [destruct (Hterm 1 tB eq_refl); congruence
      |destruct (Hterm 1 tB eq_refl); congruence|].
    exists tA, tB, tC, msg. repeat split; auto.
Qed.

Lemma healthy_sample (pages : nat) (path : string) :
  String.eqb path "b.pdf" = false -> Healthy (sampleWorld pages) path.
Proof.
  intros H. repeat split.
  - eexists. cbn. rewrite H. reflexivity.
  - eexists. reflexivity.
Qed.

Lemma failure_isolation_witness :
  let s := snd (performAll (sampleWorld 1)
                  ([Submit (upload "a.pdf"); Submit (upload "b.pdf"); Submit (upload "c.pdf")]
                   ++ replicate 12 Settle) initialState) in
  exists tA tB tC e,
    heap s = [tA; tB; tC]
    /\ sourcePath tA = "a.pdf" /\ stage tA = completed
    /\ sourcePath tB = "b.pdf" /\ stage tB = failed
    /\ error tB = Some e /\ e = "bad pdf" /\ e <> ""
    /\ sourcePath tC = "c.pdf" /\ stage tC = completed
    /\ queue s = [] /\ awaiting s = None.
Proof.
  apply (proj2 (proj2 (failure_isolation (sampleWorld 1)))
           [Submit (upload "a.pdf"); Submit (upload "b.pdf"); Submit (upload "c.pdf")]
           (upload "a.pdf") (upload "b.pdf") (upload "c.pdf") "bad pdf" 12).
  - reflexivity.
  - apply healthy_sample. reflexivity.
  - reflexivity.
  - discriminate.
  - apply healthy_sample. reflexivity.
  - lia.
Defined.

(** C10. In every reachable state, when the awaited stage handler raises,
    the task is failed with the message raised, its progress is the one it
    had when the exception was raised, and its identity, owner, file name,
    file type, source path, creation date and metadata are unchanged: only
    stage, error and updatedAt change. *)
Theorem failure_keeps_progress (w : World) (acts : list Action) (r i : nat)
    (st : IngestionStage) (h : StageHandler) (msg : string) (s1 : State) (t1 : IngestionTask) :
  let s := snd (performAll w acts initialState) in
  awaiting s = Some (r, i) ->
  stages !! i = Some (st, h) ->
  h w r s = (Throw msg, s1) ->
  heap s1 !! r = Some t1 ->
  exists t',
    heap (snd (resume w s)) !! r = Some t'
    /\ stage t' = failed /\ error t' = Some msg
    /\ progress t' = progress t1
    /\ id t' = id t1 /\ userId t' = userId t1 /\ fileName t' = fileName t1
    /\ fileType t' = fileType t1 /\ sourcePath t' = sourcePath t1
    /\ createdAt t' = createdAt t1 /\ meta t' = meta t1.
Proof.
  intros s Haw Hi Hh Ht1.
  pose proof (Inv_reachable w acts) as HI. fold s in HI.
  destruct (resume_failed_task w s r i st h msg s1 HI Haw Hi Hh) as (t & Ht & Ht').
  rewrite Ht1 in Ht. injection Ht as <-.
  exists (caught msg (clock s1) t1). repeat split. exact Ht'.
Qed.

Lemma failure_keeps_progress_witness :
  let w := sampleWorld 1 in
  let s := snd (performAll w [Submit (upload "b.pdf")] initialState) in
  exists t1 t',
    heap s !! 0 = Some t1
    /\ heap (snd (resume w s)) !! 0 = Some t'
    /\ stage t' = failed /\ error t' = Some "bad pdf"
    /\ progress t' = progress t1
    /\ id t' = id t1 /\ userId t' = userId t1 /\ fileName t' = fileName t1
    /\ fileType t' = fileType t1 /\ sourcePath t' = sourcePath t1
    /\ createdAt t' = createdAt t1 /\ meta t' = meta t1.
Proof.
  cbv zeta.
  set (w := sampleWorld 1).
  set (s := snd (performAll w [Submit (upload "b.pdf")] initialState)).
  destruct (heap s !! 0) as [t1|] eqn:Ht1; [|vm_compute in Ht1; discriminate].
  assert (Haw : awaiting s = Some (0, 0)) by (vm_compute; reflexivity).
  assert (Hh : extractText w 0 s = (Throw "bad pdf", s)) by (vm_compute; reflexivity).
  destruct (failure_keeps_progress w [Submit (upload "b.pdf")] 0 0 extracting_text
              extractText "bad pdf" s t1 Haw eq_refl Hh Ht1) as (t' & H).
  exists t1, t'. split; [reflexivity | exact H].
Defined.

(** ** Stored progress *)

Lemma stageProgress_S (i : nat) : (stageProgress i <= stageProgress (S i))%Q.
Proof.
  unfold stageProgress. apply Qmult_le_compat_r; [|discriminate].
  apply Qmult_le_compat_r; [|discriminate].
  rewrite <- Zle_Qle. lia.
Qed.

Lemma stageProgress_le_100 (i : nat) : i < length stages -> (stageProgress i <= 100)%Q.
Proof.
  intros Hi. cbn in Hi.
  do 4 (destruct i as [|i]; [discriminate|]). lia.
Qed.

Lemma keepsCore_progress f t : keepsCore f -> progress (f t) = progress t.
Proof. intros Hf. specialize (Hf t). unfold core in Hf. congruence. Qed.

Lemma keepsCore_id_field f t : keepsCore f -> id (f t) = id t.
Proof. intros Hf. specialize (Hf t). unfold core in Hf. congruence. Qed.

Lemma Settlement_progress w s r i st (h : StageHandler) f F returned t :
  keepsCore f -> stages !! i = Some (st, h) ->
  Settlement w s r i h f F returned ->
  progress t = stageProgress i ->
  id (F t) = id t
  /\ (progress t <= progress (F t))%Q
  /\ (returned = false -> progress (F t) = stageProgress (S i)).
Proof.
  intros Hf Hi HS Hp.
  destruct HS as [s1 st' h' _ _|s1 _ _|s1 msg _]; unfold compose, entered, caught; cbn.
  - rewrite (keepsCore_id_field f t Hf), Hp. repeat split; auto. apply stageProgress_S.
  - rewrite (keepsCore_id_field f t Hf), Hp. repeat split; [|discriminate].
    apply stageProgress_le_100. now apply lookup_lt_Some in Hi.
  - rewrite (keepsCore_id_field f t Hf), (keepsCore_progress f t Hf).
    repeat split; [apply Qle_refl | discriminate].
Qed.

Lemma advances_refl s : advances s s.
Proof. intros r t Ht. exists t. repeat split; [exact Ht | apply Qle_refl]. Qed.

Lemma advances_trans s1 s2 s3 : advances s1 s2 -> advances s2 s3 -> advances s1 s3.
Proof.
  intros H12 H23 r t Ht. destruct (H12 r t Ht) as (t2 & Ht2 & Hid2 & Hle2).
  destruct (H23 r t2 Ht2) as (t3 & Ht3 & Hid3 & Hle3).
  exists t3. repeat split; [exact Ht3 | congruence | eapply Qle_trans; eauto].
Qed.

Lemma Paced_initial : Paced initialState.
Proof. split; [intros r i t H; discriminate | intros r t H; inversion H]. Qed.

Lemma resume_paced w s :
  Inv s -> Paced s -> Paced (snd (resume w s)) /\ advances s (snd (resume w s)).
Proof.
  intros HI [HPa HPq]. destruct (awaiting s) as [[r i]|] eqn:Haw.
  2:{ rewrite resume_idle by exact Haw. cbn [snd]. split; [|apply advances_refl].
      split; [intros r i t H; congruence | exact HPq]. }
  destruct (inv_busy s HI r i Haw) as (Hr & t & st & h & Ht & Hi & Hst).
  destruct (resume_cases w s r i st h Haw Hi) as (f & F & returned & Hf & HS & Hshape).
  destruct (Settlement_progress w s r i st h f F returned t Hf Hi HS (HPa r i t eq_refl Ht))
    as (HFid & HFle & HFnext).
  assert (Hmid : forall k tk, heap s !! k = Some tk ->
            exists tk', alter F r (heap s) !! k = Some tk' /\ id tk' = id tk
                        /\ (progress tk <= progress tk')%Q
                        /\ (k <> r -> tk' = tk)).
  { intros k tk Hk. destruct (decide (k = r)) as [->|Hne].
    - rewrite Ht in Hk. injection Hk as <-. exists (F t).
      rewrite list_lookup_alter_eq, Ht. repeat split; auto. congruence.
    - exists tk. rewrite list_lookup_alter_ne by congruence.
      repeat split; auto. apply Qle_refl. }
  destruct returned.
  - destruct Hshape as [(Hq & Hh & Hq' & _ & Ha')|(r' & q & c & Hq & Hh & Hq' & _ & Ha')].
    + split.
      * split; [intros k j tk; rewrite Ha'; discriminate|].
        intros k tk Hin. rewrite Hq' in Hin. inversion Hin.
      * intros k tk Hk. destruct (Hmid k tk Hk) as (tk' & H1 & H2 & H3 & _).
        exists tk'. rewrite Hh. auto.
    + assert (Hr'q : r' ∈ queue s) by (rewrite Hq; left).
      assert (Hne : r' <> r) by (intros ->; contradiction).
      destruct (inv_queued s HI r' Hr'q) as (t' & Ht' & _).
      pose proof (HPq r' t' Hr'q Ht') as Hp0.
      pose proof (inv_nodup s HI) as Hnd. rewrite Hq in Hnd.
      apply NoDup_cons in Hnd as [Hnotin Hnd].
      split.
      * split.
        -- intros k j tk. rewrite Ha'. intros [= <- <-]. rewrite Hh.
           rewrite list_lookup_alter_eq, list_lookup_alter_ne, Ht' by congruence.
           intros [= <-]. reflexivity.
        -- intros k tk Hin. rewrite Hq' in Hin. rewrite Hh.
           assert (k <> r') by (intros ->; contradiction).
           assert (k ∈ queue s) by (rewrite Hq; now right).
           assert (k <> r) by (intros ->; contradiction).
           rewrite !list_lookup_alter_ne by congruence. now apply HPq.
      * intros k tk Hk. rewrite Hh. destruct (decide (k = r')) as [->|Hk'].
        -- rewrite Ht' in Hk. injection Hk as <-.
           exists (startedAt c t'). rewrite list_lookup_alter_eq, list_lookup_alter_ne, Ht' by congruence.
           repeat split. unfold startedAt, entered. cbn. rewrite Hp0. discriminate.
        -- rewrite list_lookup_alter_ne by congruence.
           destruct (Hmid k tk Hk) as (tk' & H1 & H2 & H3 & _). eauto.
  - destruct Hshape as (Hh & Hq' & _ & Ha'). split.
    + split.
      * intros k j tk. rewrite Ha'. intros [= <- <-]. rewrite Hh, list_lookup_alter_eq, Ht.
        intros [= <-]. now apply HFnext.
      * intros k tk Hin. rewrite Hq' in Hin. rewrite Hh.
        assert (k <> r) by (intros ->; contradiction).
        rewrite list_lookup_alter_ne by congruence. now apply HPq.
    + intros k tk Hk. rewrite Hh. destruct (Hmid k tk Hk) as (tk' & H1 & H2 & H3 & _). eauto.
Qed.

Lemma createTask_paced w params s :
  Inv s -> Paced s ->
  Paced (snd (createTask w params s)) /\ advances s (snd (createTask w params s)).
Proof.
  intros HI [HPa HPq]. destruct (createTask_eq w params s) as (_ & Hh & Hq & _ & Ha).
  set (s' := snd (createTask w params s)) in *.
  set (r := length (heap s)).
  assert (Hold : forall k t, heap s !! k = Some t -> (heap s ++ [newTask w params s]) !! k = Some t).
  { intros k t Ht. now apply lookup_app_l_Some. }
  assert (Hnew : (heap s ++ [newTask w params s]) !! r = Some (newTask w params s)).
  { unfold r. rewrite lookup_app_r, Nat.sub_diag by lia. reflexivity. }
  assert (Hlt : forall k t, heap s !! k = Some t -> k <> r).
  { intros k t Ht. apply lookup_lt_Some in Ht. unfold r. lia. }
  rewrite runNext_eq in Hh, Hq, Ha. cbn [pushed running queue] in Hh, Hq, Ha.
  pose proof (inv_running s HI) as Hrun.
  destruct (running s).
  - cbn [pushed heap queue running awaiting] in Hh, Hq, Ha.
    destruct (awaiting s) as [[r0 i0]|] eqn:Haw; [|discriminate].
    destruct (inv_busy s HI r0 i0 Haw) as (Hr0 & t0 & st & h & Ht0 & Hi & Hst).
    split.
    + split.
      * intros k j tk. rewrite Ha, Hh. intros [= <- <-].
        rewrite (Hold _ _ Ht0). intros [= <-]. now apply (HPa r0 i0).
      * intros k tk. rewrite Hq, Hh, elem_of_app, list_elem_of_singleton. intros [Hk| ->].
        -- destruct (inv_queued s HI k Hk) as (t & Ht & _). rewrite (Hold _ _ Ht).
           intros [= <-]. now apply (HPq k).
        -- pose proof Hnew as Hnew'. unfold r in Hnew'. rewrite Hnew'.
           intros [= <-]. reflexivity.
    + intros k tk Hk. exists tk. rewrite Hh, (Hold _ _ Hk).
      repeat split. apply Qle_refl.
  - destruct (awaiting s) as [[r0 i0]|] eqn:Haw; [discriminate|].
    rewrite (inv_idle s HI Haw) in *. cbn [app] in Hh, Hq, Ha.
    destruct (runTaskFrom_stage r 0 extracting_text extractText
                (set_running true (set_queue [] (pushed w params s))) eq_refl)
      as (H1 & H2 & _ & H4).
    fold r in Hh, Hq, Ha. rewrite H1 in Hh. rewrite H2 in Hq. rewrite H4 in Ha.
    cbn [set_running set_queue pushed heap queue clock] in Hh, Hq.
    split.
    + split.
      * intros k j tk. rewrite Ha, Hh. intros [= <- <-].
        rewrite list_lookup_alter_eq, Hnew. intros [= <-]. reflexivity.
      * intros k tk. rewrite Hq. intros Hin. inversion Hin.
    + intros k tk Hk. exists tk. rewrite Hh.
      pose proof (Hlt k tk Hk) as Hkr.
      rewrite list_lookup_alter_ne by congruence.
      rewrite (Hold _ _ Hk). repeat split. apply Qle_refl.
Qed.

Lemma perform_paced w a s :
  Inv s -> Paced s -> Paced (snd (perform w a s)) /\ advances s (snd (perform w a s)).
Proof.
  intros HI HP. rewrite perform_snd. destruct a as [params|];
    [now apply createTask_paced | now apply resume_paced].
Qed.

Lemma Paced_performAll w acts s : Inv s -> Paced s -> Paced (snd (performAll w acts s)).
Proof.
  revert s. induction acts as [|a rest IH]; intros s HI HP; [exact HP|].
  rewrite performAll_cons. apply IH.
  - rewrite perform_snd. destruct a; [now apply Inv_createTask | now apply Inv_resume].
  - now apply perform_paced.
Qed.

Lemma advances_performAll w acts s :
  Inv s -> Paced s -> advances s (snd (performAll w acts s)).
Proof.
  revert s. induction acts as [|a rest IH]; intros s HI HP; [apply advances_refl|].
  rewrite performAll_cons.
  destruct (perform_paced w a s HI HP) as [HP' Hadv].
  eapply advances_trans; [exact Hadv|]. apply IH; [|exact HP'].
  rewrite perform_snd. destruct a; [now apply Inv_createTask | now apply Inv_resume].
Qed.

(** X2, the stored half of C2. Whatever happens to the pipeline next, a
    task is still there afterwards, with the same identity and a stored
    progress that is not lower. *)
Theorem stored_progress_never_decreases (w : World) (acts more : list Action)
    (r : nat) (t : IngestionTask) :
  heap (snd (performAll w acts initialState)) !! r = Some t ->
  exists t',
    heap (snd (performAll w (acts ++ more) initialState)) !! r = Some t'
    /\ id t' = id t
    /\ (progress t <= progress t')%Q.
Proof.
  intros Ht. rewrite performAll_app.
  apply (advances_performAll w more (snd (performAll w acts initialState)));
    [apply Inv_performAll, Inv_initial | apply Paced_performAll;
       [apply Inv_initial | apply Paced_initial] | exact Ht].
Qed.

Lemma stored_progress_witness :
  exists t t',
    heap (snd (performAll (sampleWorld 1) [Submit (upload "a.pdf"); Settle] initialState)) !! 0
    = Some t
    /\ heap (snd (performAll (sampleWorld 1)
                    ([Submit (upload "a.pdf"); Settle] ++ [Settle; Settle; Settle])
                    initialState)) !! 0 = Some t'
    /\ id t' = id t /\ (progress t <= progress t')%Q
    /\ (progress t == 25)%Q /\ (progress t' == 100)%Q.
Proof.
  assert (H0 : exists t,
    heap (snd (performAll (sampleWorld 1) [Submit (upload "a.pdf"); Settle] initialState)) !! 0
    = Some t /\ Qred (progress t) = 25%Q).
  { vm_compute. eexists. split; reflexivity. }
  destruct H0 as (t & Ht & Hp).
  destruct (stored_progress_never_decreases (sampleWorld 1)
              [Submit (upload "a.pdf"); Settle] [Settle; Settle; Settle] 0 t Ht)
    as (t' & Ht' & Hid & Hle).
  exists t, t'. repeat split; try assumption.
  - rewrite <- (Qred_correct (progress t)), Hp. reflexivity.
  - assert (H1 : exists t'',
      heap (snd (performAll (sampleWorld 1)
                    ([Submit (upload "a.pdf"); Settle] ++ [Settle; Settle; Settle])
                    initialState)) !! 0 = Some t'' /\ Qred (progress t'') = 100%Q).
    { vm_compute. eexists. split; reflexivity. }
    destruct H1 as (t'' & Ht'' & Hp''). rewrite Ht' in Ht''. injection Ht'' as <-.
    rewrite <- (Qred_correct (progress t')), Hp''. reflexivity.
Defined.

(** ** Stages and progress reports *)

Example sample_run_events :
  map stageAndProgress (eventsOf (sampleUuid 0) (oneUploadRun 1))
  = [ (extracting_text, 0%Q); (extracting_text, 0%Q); (layout_analysis, 25%Q);
      (generating_text_embeddings, 50%Q); (generating_text_embeddings, 60%Q);
      (writing_database, 75%Q); (completed, 100%Q) ].
Proof. vm_compute. reflexivity. Qed.

(** C3, at a failing input. One upload with layout regions, an image
    embedding endpoint being configured, runs to completed without any
    event for generating_image_embeddings: the stage list of [runTask] has
    four entries, and the handler [generateImageEmbeddings] is not among
    them. *)
Theorem image_embedding_stage_is_never_entered :
  let w := sampleWorld 1 in
  let s := oneUploadRun 1 in
  IMAGE_EMBEDDING_ENDPOINT w = true
  /\ (exists t lps, heap s !! 0 = Some t /\ stage t = completed
        /\ layoutPages (metaOf t) = Some lps
        /\ length (concat (map LayoutAnalyzer.regions lps)) = 2)
  /\ map ev_stage (emitted s)
     = [extracting_text; extracting_text; layout_analysis; generating_text_embeddings;
        generating_text_embeddings; writing_database; completed]
  /\ stageNames = [extracting_text; layout_analysis; generating_text_embeddings; writing_database].
Proof.
  cbv zeta. split; [reflexivity|]. split; [|split; vm_compute; reflexivity].
  vm_compute. eexists _, _. repeat split.
Qed.

(** X3. In no reachable state is a task in the stage
    generating_image_embeddings. *)
Theorem no_task_in_image_embedding_stage (w : World) (acts : list Action) :
  Forall (fun t => stage t <> generating_image_embeddings)
         (heap (snd (performAll w acts initialState))).
Proof.
  pose proof (Inv_performAll w acts initialState Inv_initial) as HI.
  set (s := snd (performAll w acts initialState)) in *.
  apply Forall_lookup. intros k t Ht.
  destruct (decide (k ∈ queue s)) as [Hq|Hq].
  - destruct (inv_queued s HI k Hq) as (t' & Ht' & Hst). rewrite Ht in Ht'.
    injection Ht' as <-. rewrite Hst. discriminate.
  - destruct (awaiting s) as [[r i]|] eqn:Haw.
    + destruct (decide (k = r)) as [->|Hne].
      * destruct (inv_busy s HI r i Haw) as (_ & t' & st & h & Ht' & Hi & Hst).
        rewrite Ht in Ht'. injection Ht' as <-. rewrite Hst.
        destruct (stage_cases i st h Hi) as [(_ & -> & _)|[(_ & -> & _)|[(_ & -> & _)|(_ & -> & _)]]]; discriminate.
      * destruct (inv_done s HI k t Ht Hq) as [E|E]; [rewrite Haw; congruence | |];
          rewrite E; discriminate.
    + destruct (inv_done s HI k t Ht Hq) as [E|E]; [rewrite Haw; discriminate | |];
        rewrite E; discriminate.
Qed.

(** C4, at a failing input. The progress reported on entry to the four
    stages is (i / 4) * 100, that is 0, 25, 50 and 75, where
    [stageBaseProgress] gives 5, 25, 45 and 85; the events of one upload of
    one page show it. *)
Theorem stage_entry_progress_is_not_the_baseline :
  map (fun i => Qred (stageProgress i)) [0; 1; 2; 3] = [0; 25; 50; 75]%Q
  /\ map stageBaseProgress [extracting_text; layout_analysis; generating_text_embeddings;
                            writing_database]
     = [5; 25; 45; 85]%Q
  /\ map stageAndProgress (eventsOf (sampleUuid 0) (oneUploadRun 1))
     = [ (extracting_text, 0%Q); (extracting_text, 0%Q); (layout_analysis, 25%Q);
         (generating_text_embeddings, 50%Q); (generating_text_embeddings, 60%Q);
         (writing_database, 75%Q); (completed, 100%Q) ].
Proof. repeat split; vm_compute; reflexivity. Qed.

Lemma embedPages_emitted w tid total index pages acc s :
  (forall input, exists v, embeddings_create w input = Ok v) ->
  emitted (snd (embedPages w tid total index pages acc s))
  = emitted s ++ map (pageReport tid total) (seq (S index) (length pages)).
Proof.
  intros Hok. revert index acc s.
  induction pages as [|page rest IH]; intros index acc s.
  - cbn. now rewrite app_nil_r.
  - cbn [embedPages length seq map]. cbv zeta.
    match goal with |- context [embeddings_create w ?i] =>
      destruct (Hok i) as [v Hv]; rewrite Hv end.
    unfold bind at 1. unfold liftOutcome at 1. cbv beta iota.
    unfold bind at 1. unfold emit at 1, modify at 1. cbv beta iota.
    rewrite IH. cbn [emitted set_emitted]. rewrite <- app_assoc. cbn [app].
    replace (index + 1) with (S index) by lia. reflexivity.
Qed.

Lemma embedPages_total w tid total index pages acc s :
  (forall input, exists v, embeddings_create w input = Ok v) ->
  exists embeddings, fst (embedPages w tid total index pages acc s) = Ok embeddings.
Proof.
  intros Hok. revert index acc s.
  induction pages as [|page rest IH]; intros index acc s.
  - cbn. eauto.
  - cbn [embedPages]. cbv zeta.
    match goal with |- context [embeddings_create w ?i] =>
      destruct (Hok i) as [v Hv]; rewrite Hv end.
    unfold bind at 1. unfold liftOutcome at 1. cbv beta iota.
    unfold bind at 1. unfold emit at 1, modify at 1. cbv beta iota.
    apply IH.
Qed.

(** X4, the sub-item half of C4. When the embedding requests succeed,
    the handler of generating_text_embeddings reports, for a task of
    [total] pages, 45 + (completed / total) * 15 after each page, for
    completed = 1, ..., total, in this order, and nothing else. *)
Theorem text_embedding_reports (w : World) (r : nat) (s : State) (t : IngestionTask)
    (pages : list TextExtractor.PageTextExtractionResult) :
  heap s !! r = Some t ->
  textPages (metaOf t) = Some pages ->
  OPENAI_API_KEY w = true ->
  (forall input, exists v, embeddings_create w input = Ok v) ->
  emitted (snd (generateTextEmbeddings w r s))
  = emitted s ++ map (pageReport (id t) (length pages)) (seq 1 (length pages)).
Proof.
  intros Ht Hpages Hkey Hok. unfold generateTextEmbeddings, withTask.
  rewrite Ht, Hpages. destruct pages as [|page rest]; [cbn; now rewrite app_nil_r|].
  rewrite Hkey. cbn [negb]. unfold tryCatch. unfold bind at 1.
  destruct (embedPages_total w (id t) (length (page :: rest)) 0 (page :: rest) [] s Hok)
    as [embeddings He].
  pose proof (embedPages_emitted w (id t) (length (page :: rest)) 0 (page :: rest) [] s Hok)
    as Hem.
  destruct (embedPages w (id t) (length (page :: rest)) 0 (page :: rest) [] s)
    as [[e|msg] s1]; cbn [fst snd] in He, Hem; [|discriminate].
  unfold tasksSet, withTask, bind, modify, mutate, ret.
  cbn [fst snd heap set_heap emitted].
  destruct (alter _ r (heap s1) !! r); cbn; exact Hem.
Qed.

Lemma text_embedding_reports_witness :
  let s := snd (performAll (sampleWorld 2) [Submit (upload "a.pdf"); Settle; Settle] initialState) in
  map (fun e => Qred (ev_progress e))
      (drop (length (emitted s)) (emitted (snd (generateTextEmbeddings (sampleWorld 2) 0 s))))
  = [(105 # 2)%Q; 60%Q].
Proof.
  cbv zeta.
  assert (H : exists t pages,
    heap (snd (performAll (sampleWorld 2) [Submit (upload "a.pdf"); Settle; Settle] initialState)) !! 0
    = Some t /\ textPages (metaOf t) = Some pages /\ length pages = 2).
  { vm_compute. eexists _, _. repeat split. }
  destruct H as (t & pages & Ht & Hp & Hlen).
  rewrite (text_embedding_reports (sampleWorld 2) 0 _ t pages Ht Hp eq_refl
             (fun input => ex_intro _ (Some [1%Q]) eq_refl)).
  rewrite drop_app_length, Hlen. reflexivity.
Defined.

(** C2, at a failing input. One upload of four pages with the embedding
    service configured: the stage generating_text_embeddings is entered
    with progress 50, and the next event of the task, for the first
    embedded page, reports 48.75. *)
Theorem progress_event_drops_in_text_embeddings :
  let s := oneUploadRun 4 in
  exists k e1 e2,
    eventsOf (sampleUuid 0) s !! k = Some e1
    /\ eventsOf (sampleUuid 0) s !! S k = Some e2
    /\ ev_stage e1 = generating_text_embeddings
    /\ ev_stage e2 = generating_text_embeddings
    /\ (ev_progress e1 == 50)%Q
    /\ (ev_progress e2 == 195 # 4)%Q
    /\ (ev_progress e2 < ev_progress e1)%Q.
Proof.
  cbv zeta. exists 3. 
  assert (E : exists e1 e2, eventsOf (sampleUuid 0) (oneUploadRun 4) !! 3 = Some e1
     /\ eventsOf (sampleUuid 0) (oneUploadRun 4) !! 4 = Some e2
     /\ stageAndProgress e1 = (generating_text_embeddings, 50%Q)
     /\ stageAndProgress e2 = (generating_text_embeddings, (195 # 4)%Q)).
  { vm_compute. eexists _, _. repeat split. }
  destruct E as (e1 & e2 & H1 & H2 & H3 & H4). exists e1, e2.
  unfold stageAndProgress in H3, H4. injection H3 as S1 P1. injection H4 as S2 P2.
  assert (Q1 : (ev_progress e1 == 50)%Q) by (rewrite <- (Qred_correct (ev_progress e1)), P1; reflexivity).
  assert (Q2 : (ev_progress e2 == 195 # 4)%Q) by (rewrite <- (Qred_correct (ev_progress e2)), P2; reflexivity).
  repeat split; try assumption. rewrite Q1, Q2. reflexivity.
Qed.

(** ** Task by task *)

Lemma resume_cases_heap w s r i st (h : StageHandler) :
  awaiting s = Some (r, i) ->
  stages !! i = Some (st, h) ->
  let s' := snd (resume w s) in
  exists f F returned,
    keepsCore f /\ heap (snd (h w r s)) = alter f r (heap s)
    /\ Settlement w s r i h f F returned
    /\ if returned
       then (queue s = [] /\ heap s' = alter F r (heap s) /\ queue s' = []
             /\ running s' = false /\ awaiting s' = None)
            \/ (exists r' q c, queue s = r' :: q
                  /\ heap s' = alter (startedAt c) r' (alter F r (heap s))
                  /\ queue s' = q /\ running s' = true /\ awaiting s' = Some (r', 0))
       else heap s' = alter F r (heap s) /\ queue s' = queue s
            /\ running s' = running s /\ awaiting s' = Some (r, S i).
Proof.
  intros Haw Hi. cbv zeta. rewrite (resume_eq w s r i st h Haw Hi).
  destruct (frames_stage_handler w r i st h Hi s) as (F1 & F2 & F3 & F4 & f & Hf & F5).
  exists f.
  assert (Hfin : forall s2 F, heap s2 = alter F r (heap s) -> queue s2 = queue s ->
            awaiting s2 = None ->
            (queue s = [] /\ heap (snd (runNextFinally s2)) = alter F r (heap s)
             /\ queue (snd (runNextFinally s2)) = []
             /\ running (snd (runNextFinally s2)) = false
             /\ awaiting (snd (runNextFinally s2)) = None)
            \/ (exists r' q c, queue s = r' :: q
                  /\ heap (snd (runNextFinally s2)) = alter (startedAt c) r' (alter F r (heap s))
                  /\ queue (snd (runNextFinally s2)) = q
                  /\ running (snd (runNextFinally s2)) = true
                  /\ awaiting (snd (runNextFinally s2)) = Some (r', 0))).
  { intros s2 F Hh Hq Hn.
    destruct (runNextFinally_effect s2) as [(E & G1 & G2 & G3 & G4)|(r' & q & E & G1 & G2 & G3 & G4)].
    - left. rewrite <- Hq, <- Hh, <- Hn. auto.
    - right. exists r', q, (clock s2). rewrite <- Hq, <- Hh. auto. }
  destruct (h w r s) as [[[]|msg] s1] eqn:Eh; cbn [snd] in *.
  - destruct (stages !! S i) as [[st' h']|] eqn:Hnext.
    + destruct (runTaskFrom_stage r (S i) st' h' s1 Hnext) as (H1 & H2 & H3 & H4).
      exists (entered st' (stageProgress (S i)) (clock s) ∘ f), false.
      split; [exact Hf|]. split; [exact F5|].
      split; [now apply (settle_next w s r i h f s1 st' h')|].
      cbv zeta. rewrite H4. rewrite H1, H2, H3, F5, F1, F2, F4, list_alter_alter_eq. auto.
    + destruct (runTaskFrom_completed r (S i) s1 Hnext) as (H1 & H2 & H3 & H4).
      exists (entered completed 100 (clock s) ∘ f), true.
      split; [exact Hf|]. split; [exact F5|].
      split; [now apply (settle_completed w s r i h f s1)|].
      cbv zeta. rewrite H4. apply Hfin; [|congruence | exact H4].
      now rewrite H1, F5, F4, list_alter_alter_eq.
  - destruct (runTaskCatch_effect r msg s1) as (H1 & H2 & H3 & H4).
    exists (caught msg (clock s) ∘ f), true.
    split; [exact Hf|]. split; [exact F5|].
    split; [now apply (settle_failed w s r i h f s1 msg)|].
    apply Hfin; [|congruence | exact H4].
    now rewrite H1, F5, F4, list_alter_alter_eq.
Qed.

(** What a settlement does to one task: nothing; or it is the running
    task, and goes through its handler and the rest of [runTask]; or it is
    the head of the queue, and is started. *)
Lemma resume_task_cases w s k tk :
  Inv s -> heap s !! k = Some tk ->
  exists tk', heap (snd (resume w s)) !! k = Some tk'
    /\ (tk' = tk
        \/ (exists i st (h : StageHandler) f F returned,
              awaiting s = Some (k, i) /\ stages !! i = Some (st, h) /\ stage tk = st
              /\ keepsCore f /\ heap (snd (h w k s)) !! k = Some (f tk)
              /\ Settlement w s k i h f F returned /\ tk' = F tk)
        \/ (exists q c, queue s = k :: q /\ stage tk = queued /\ awaiting s <> None
              /\ tk' = startedAt c tk)).
Proof.
  intros HI Hk. destruct (awaiting s) as [[r i]|] eqn:Haw.
  2:{ rewrite resume_idle by exact Haw. exists tk. auto. }
  destruct (inv_busy s HI r i Haw) as (Hr & t & st & h & Ht & Hi & Hst).
  destruct (resume_cases_heap w s r i st h Haw Hi)
    as (f & F & returned & Hf & Hheap & HS & Hshape).
  assert (Hmid : exists tk', alter F r (heap s) !! k = Some tk'
            /\ ((k <> r /\ tk' = tk)
                \/ (k = r /\ tk' = F tk /\ heap (snd (h w k s)) !! k = Some (f tk)))).
  { destruct (decide (k = r)) as [->|Hne].
    - rewrite Ht in Hk. injection Hk as <-. exists (F t).
      rewrite list_lookup_alter_eq, Ht. split; [reflexivity|]. right.
      rewrite Hheap, list_lookup_alter_eq, Ht. auto.
    - exists tk. rewrite list_lookup_alter_ne by congruence. auto. }
  destruct Hmid as (tm & Hm & Hcase).
  assert (Hrun : k = r -> tm = F tk ->
            heap (snd (h w k s)) !! k = Some (f tk) ->
            exists i0 st0 (h0 : StageHandler) f0 F0 returned0,
              Some (r, i) = Some (k, i0) /\ stages !! i0 = Some (st0, h0) /\ stage tk = st0
              /\ keepsCore f0 /\ heap (snd (h0 w k s)) !! k = Some (f0 tk)
              /\ Settlement w s k i0 h0 f0 F0 returned0 /\ tm = F0 tk).
  { intros -> -> Hf'. rewrite Ht in Hk. injection Hk as <-.
    exists i, st, h, f, F, returned. repeat split; auto. }
  destruct returned.
  - destruct Hshape as [(Hq & Hh & _)|(r' & q & c & Hq & Hh & _)]; rewrite Hh.
    + exists tm. split; [exact Hm|].
      destruct Hcase as [[_ ->]|(E1 & E2 & E3)]; [now left | right; left; now apply Hrun].
    + assert (Hr'q : r' ∈ queue s) by (rewrite Hq; left).
      assert (Hne : r' <> r) by (intros ->; contradiction).
      destruct (decide (k = r')) as [->|Hk'].
      * destruct Hcase as [[_ ->]|(E1 & _)]; [|congruence].
        exists (startedAt c tk). rewrite list_lookup_alter_eq, Hm. split; [reflexivity|].
        right; right. exists q, c. repeat split; auto.
        destruct (inv_queued s HI r' Hr'q) as (t' & Ht' & Hst').
        rewrite Hk in Ht'. now injection Ht' as <-.
      * exists tm. rewrite list_lookup_alter_ne by congruence. split; [exact Hm|].
        destruct Hcase as [[_ ->]|(E1 & E2 & E3)]; [now left | right; left; now apply Hrun].
  - destruct Hshape as (Hh & _). rewrite Hh. exists tm. split; [exact Hm|].
    destruct Hcase as [[_ ->]|(E1 & E2 & E3)]; [now left | right; left; now apply Hrun].
Qed.

(** What an upload does to the tasks there are: nothing. The new task
    comes last, queued, or started at once when the driver is idle. *)
Lemma createTask_task_cases w params s :
  Inv s ->
  let s' := snd (createTask w params s) in
  (exists tn, heap s' = heap s ++ [tn]
     /\ ((running s = true /\ tn = newTask w params s /\ queue s' = queue s ++ [length (heap s)]
          /\ awaiting s' = awaiting s)
         \/ (running s = false /\ awaiting s = None /\ queue s = []
             /\ tn = startedAt (S (clock s)) (newTask w params s)
             /\ queue s' = [] /\ awaiting s' = Some (length (heap s), 0)))).
Proof.
  intros HI. cbv zeta.
  destruct (createTask_eq w params s) as (_ & Hh & Hq & _ & Ha).
  rewrite runNext_eq in Hh, Hq, Ha. cbn [pushed running queue] in Hh, Hq, Ha.
  pose proof (inv_running s HI) as Hrun.
  destruct (running s).
  - cbn [pushed heap queue running awaiting] in Hh, Hq, Ha.
    exists (newTask w params s). split; [exact Hh|]. left. auto.
  - destruct (awaiting s) as [[r0 i0]|] eqn:Haw; [discriminate|].
    rewrite (inv_idle s HI Haw) in *. cbn [app] in Hh, Hq, Ha.
    destruct (runTaskFrom_stage (length (heap s)) 0 extracting_text extractText
                (set_running true (set_queue [] (pushed w params s))) eq_refl)
      as (H1 & H2 & _ & H4).
    rewrite H1 in Hh. rewrite H2 in Hq. rewrite H4 in Ha.
    cbn [set_running set_queue pushed heap queue clock] in Hh, Hq.
    exists (startedAt (S (clock s)) (newTask w params s)). split.
    + rewrite Hh.
      change (entered extracting_text (stageProgress 0) (S (clock s)))
        with (startedAt (S (clock s))).
      replace (length (heap s)) with (length (heap s) + 0) by lia.
      now rewrite alter_app_r.
    + right. repeat split; auto.
Qed.

(** ** One task at a time, in the order of submission *)

Lemma Fifo_initial : Fifo initialState.
Proof. exists 0. cbn. auto. Qed.

Lemma Fifo_createTask w params s : Inv s -> Fifo s -> Fifo (snd (createTask w params s)).
Proof.
  intros HI (k & Hq & Hk & Ha).
  destruct (createTask_task_cases w params s HI) as (tn & Hh & Hcase).
  destruct Hcase as [(Hr1 & _ & Hq' & Ha')|(_ & Haw & Hq0 & _ & Hq' & Ha')].
  - exists k. rewrite Hh, Hq', Ha', length_app, Hq. cbn [length].
    split; [|split; [lia|]].
    + replace (length (heap s) + 1 - k) with (S (length (heap s) - k)) by lia.
      rewrite seq_S. f_equal. f_equal. lia.
    + pose proof (inv_running s HI) as Hrun.
      destruct (awaiting s) as [[r i]|]; [exact Ha|]. congruence.
  - exists (S (length (heap s))). rewrite Hh, Hq', Ha', length_app. cbn [length].
    split; [|split; [lia | reflexivity]].
    replace (length (heap s) + 1 - S (length (heap s))) with 0 by lia. reflexivity.
Qed.

Lemma Fifo_resume w s : Inv s -> Fifo s -> Fifo (snd (resume w s)).
Proof.
  intros HI (k & Hq & Hk & Ha). destruct (awaiting s) as [[r i]|] eqn:Haw.
  2:{ rewrite resume_idle by exact Haw. cbn [snd]. exists k. rewrite Haw. auto. }
  destruct (inv_busy s HI r i Haw) as (Hr & t & st & h & Ht & Hi & Hst).
  destruct (resume_cases w s r i st h Haw Hi) as (f & F & returned & Hf & HS & Hshape).
  destruct returned.
  - destruct Hshape as [(Hq0 & Hh & Hq' & _ & Ha')|(r' & q & c & Hq0 & Hh & Hq' & _ & Ha')].
    + exists (length (heap s)). rewrite Hh, Hq', Ha', length_alter, Nat.sub_diag. auto.
    + rewrite Hq0 in Hq.
      destruct (length (heap s) - k) as [|n] eqn:En; [discriminate|].
      cbn [seq] in Hq. injection Hq as -> ->.
      exists (S k). rewrite Hh, Hq', Ha', !length_alter.
      repeat split; [|lia]. f_equal. lia.
  - destruct Hshape as (Hh & Hq' & _ & Ha').
    exists k. rewrite Hh, Hq', Ha', length_alter. auto.
Qed.

Lemma Fifo_performAll w acts s : Inv s -> Fifo s -> Fifo (snd (performAll w acts s)).
Proof.
  revert s. induction acts as [|a rest IH]; intros s HI HF; [exact HF|].
  rewrite performAll_cons, perform_snd. destruct a as [params|].
  - apply IH; [now apply Inv_createTask | now apply Fifo_createTask].
  - apply IH; [now apply Inv_resume | now apply Fifo_resume].
Qed.

(** X5. At every moment the tasks are, in the order of their submission:
    the finished ones (completed or failed), then at most one task in
    progress, then the queued ones, which are the queue in this order.
    Without a task in progress nothing is queued. *)
Theorem tasks_run_one_at_a_time_in_order (w : World) (acts : list Action) :
  let s := snd (performAll w acts initialState) in
  exists finished current waiting,
    heap s = finished ++ current ++ waiting
    /\ Forall (fun t => terminal (stage t)) finished
    /\ Forall (fun t => inProgress (stage t)) current
    /\ Forall (fun t => stage t = queued) waiting
    /\ length current <= 1
    /\ (current = [] -> waiting = [])
    /\ queue s = seq (length finished + length current) (length waiting).
Proof.
  intros s.
  pose proof (Inv_performAll w acts initialState Inv_initial) as HI. fold s in HI.
  destruct (Fifo_performAll w acts initialState Inv_initial Fifo_initial) as (k & Hq & Hk & Ha).
  fold s in Hq, Hk, Ha.
  destruct (awaiting s) as [[r i]|] eqn:Haw.
  - destruct (inv_busy s HI r i Haw) as (Hr & t & st & h & Ht & Hi & Hst). subst k.
    exists (take r (heap s)), [t], (drop (S r) (heap s)).
    pose proof (lookup_lt_Some _ _ _ Ht) as Hlt.
    split; [|split; [|split; [|split; [|split; [|split]]]]].
    + rewrite <- (take_drop r (heap s)) at 1. f_equal.
      now rewrite (drop_S _ _ _ Ht).
    + apply Forall_lookup. intros j tj Hj. apply lookup_take_Some in Hj as [Hj Hjr].
      apply (inv_done s HI j tj Hj).
      * rewrite Hq, elem_of_seq. lia.
      * rewrite Haw. intros i0 [= <- _]. lia.
    + constructor; [|constructor]. exists i, h. now rewrite Hst.
    + apply Forall_lookup. intros j tj Hj. rewrite lookup_drop in Hj.
      destruct (inv_queued s HI (S r + j)) as (t' & Ht' & Hst').
      { rewrite Hq, elem_of_seq. apply lookup_lt_Some in Hj. lia. }
      rewrite Hj in Ht'. now injection Ht' as <-.
    + cbn. lia.
    + discriminate.
    + rewrite Hq, length_take, length_drop. cbn [length]. f_equal; lia.
  - subst k. exists (heap s), [], [].
    split; [now rewrite !app_nil_r|]. split.
    + apply Forall_lookup. intros j tj Hj. apply (inv_done s HI j tj Hj).
      * rewrite (inv_idle s HI Haw). intros Hin. inversion Hin.
      * rewrite Haw. discriminate.
    + repeat split; auto. rewrite Hq, Nat.sub_diag. reflexivity.
Qed.

(** ** Every task ends *)

(** X6. However uploads and settlements are interleaved, once as many
    settlements have followed as the uploaded tasks have stages (four
    each), the driver is idle, the queue is empty and every task is
    completed or failed. *)
Theorem every_task_ends (w : World) (acts : list Action) (n : nat) :
  length stages * length (submissions acts) <= n ->
  let s := snd (performAll w (acts ++ replicate n Settle) initialState) in
  length (heap s) = length (submissions acts)
  /\ awaiting s = None /\ running s = false /\ queue s = []
  /\ Forall (fun t => terminal (stage t)) (heap s).
Proof.
  intros Hn s.
  set (s0 := snd (performAll w acts initialState)).
  assert (Hs : s = snd (performAll w (replicate n Settle) s0))
    by (unfold s, s0; apply performAll_app).
  pose proof (Inv_performAll w acts initialState Inv_initial) as HI0. fold s0 in HI0.
  pose proof (Inv_performAll w (acts ++ replicate n Settle) initialState Inv_initial) as HI.
  fold s in HI.
  assert (Hlen0 : length (heap s0) = length (submissions acts)).
  { rewrite <- (length_map sourcePath). unfold s0. rewrite paths_performAll.
    cbn. now rewrite length_map. }
  assert (Hlen : length (heap s) = length (submissions acts)).
  { rewrite <- (length_map sourcePath). unfold s. rewrite paths_performAll.
    cbn. rewrite length_map. unfold submissions. rewrite omap_app, length_app.
    replace (omap _ (replicate n Settle)) with (@nil CreateTaskParams)
      by (clear; induction n; [reflexivity | assumption]).
    cbn. lia. }
  assert (Hidle : awaiting s = None).
  { rewrite Hs. apply settles_reach_idle; [exact HI0|].
    etransitivity; [apply work_bounded, HI0|]. rewrite Hlen0. exact Hn. }
  pose proof (inv_idle s HI Hidle) as Hq.
  split; [exact Hlen|]. split; [exact Hidle|]. split.
  { rewrite (inv_running s HI), Hidle. reflexivity. }
  split; [exact Hq|].
  apply Forall_lookup. intros k t Ht. apply (inv_done s HI k t Ht).
  - rewrite Hq. intros Hin. inversion Hin.
  - rewrite Hidle. discriminate.
Qed.

Lemma every_task_ends_witness :
  let s := snd (performAll (sampleWorld 1)
                  ([Submit (upload "a.pdf"); Settle; Submit (upload "b.pdf")]
                   ++ replicate 8 Settle) initialState) in
  length (heap s) = 2
  /\ awaiting s = None /\ running s = false /\ queue s = []
  /\ Forall (fun t => terminal (stage t)) (heap s).
Proof.
  apply (every_task_ends (sampleWorld 1)
           [Submit (upload "a.pdf"); Settle; Submit (upload "b.pdf")] 8).
  cbn. lia.
Defined.

(** ** The order of the stages *)

Lemma stageOrder_next i st (h : StageHandler) :
  stages !! i = Some (st, h) ->
  stageOrder !! S i = Some st
  /\ match stages !! S i with
     | Some (st', _) => stageOrder !! S (S i) = Some st'
     | None => stageOrder !! S (S i) = Some completed
     end.
Proof.
  intros Hi.
  destruct (stage_cases i st h Hi) as [(-> & -> & _)|[(-> & -> & _)|[(-> & -> & _)|(-> & -> & _)]]];
    split; reflexivity.
Qed.

Lemma inProgress_not_terminal st : inProgress st -> ~ terminal st.
Proof.
  intros (i & h & Hi) Ht.
  destruct (stage_cases i st h Hi) as [(_ & -> & _)|[(_ & -> & _)|[(_ & -> & _)|(_ & -> & _)]]];
    destruct Ht; discriminate.
Qed.

Lemma Settlement_stage w s r i st (h : StageHandler) f F returned t :
  stages !! i = Some (st, h) -> stage t = st -> keepsCore f ->
  Settlement w s r i h f F returned ->
  stageStep (stage t) (stage (F t)).
Proof.
  intros Hi Hst Hf HS.
  assert (Hft : stage (f t) = stage t) by (specialize (Hf t); unfold core in Hf; congruence).
  destruct (stageOrder_next i st h Hi) as [H1 H2].
  destruct HS as [s1 st' h' _ Hn|s1 _ Hn|s1 msg _]; unfold compose, entered, caught; cbn.
  - right; left. exists (S i). rewrite Hst, H1. rewrite Hn in H2. auto.
  - right; left. exists (S i). rewrite Hst, H1. rewrite Hn in H2. auto.
  - right; right. split; [reflexivity|]. exists i, h. now rewrite Hst.
Qed.

(** X7. In one transition of the pipeline (an upload or a settlement) the
    stage of a task stays as it is, or moves to the next stage of the
    order queued, extracting_text, layout_analysis,
    generating_text_embeddings, writing_database, completed, or goes from
    a stage in progress to failed. A completed or failed task is never
    touched again: the task object stays as it is. *)
Theorem stages_follow_the_order (w : World) (acts : list Action) (a : Action)
    (r : nat) (t : IngestionTask) :
  let s := snd (performAll w acts initialState) in
  let s' := snd (perform w a s) in
  heap s !! r = Some t ->
  exists t',
    heap s' !! r = Some t'
    /\ stageStep (stage t) (stage t')
    /\ (terminal (stage t) -> t' = t).
Proof.
  intros s s' Ht.
  pose proof (Inv_performAll w acts initialState Inv_initial) as HI. fold s in HI.
  unfold s'. rewrite perform_snd. destruct a as [params|].
  - destruct (createTask_task_cases w params s HI) as (tn & Hh & _).
    exists t. rewrite Hh, (lookup_app_l_Some _ _ _ _ Ht). repeat split. now left.
  - destruct (resume_task_cases w s r t HI Ht) as (t' & Ht' & Hcase).
    exists t'. split; [exact Ht'|].
    destruct Hcase as [->|[(i & st & h & f & F & returned & Haw & Hi & Hst & Hf & _ & HS & ->)
                          |(q & c & Hq & Hst & _ & ->)]].
    + split; [now left | reflexivity].
    + split; [eapply Settlement_stage; eauto|].
      intros Hterm. exfalso. apply (inProgress_not_terminal (stage t)); [|exact Hterm].
      exists i, h. now rewrite Hst.
    + split.
      * right; left. exists 0. rewrite Hst. split; reflexivity.
      * rewrite Hst. intros [E|E]; discriminate.
Qed.

Lemma stages_follow_the_order_witness :
  let s := snd (performAll (sampleWorld 1) [Submit (upload "a.pdf"); Settle] initialState) in
  exists t t',
    heap s !! 0 = Some t
    /\ heap (snd (perform (sampleWorld 1) Settle s)) !! 0 = Some t'
    /\ stage t = layout_analysis
    /\ stageStep (stage t) (stage t')
    /\ (terminal (stage t) -> t' = t).
Proof.
  cbv zeta.
  destruct (heap (snd (performAll (sampleWorld 1) [Submit (upload "a.pdf"); Settle] initialState)) !! 0)
    as [t|] eqn:Ht; [|vm_compute in Ht; discriminate].
  destruct (stages_follow_the_order (sampleWorld 1) [Submit (upload "a.pdf"); Settle] Settle 0 t Ht)
    as (t' & Ht' & Hstep & Hterm).
  exists t, t'. repeat split; try assumption.
  vm_compute in Ht. injection Ht as <-. reflexivity.
Defined.

(** ** What the handlers write *)

Lemma tasksSet_heap r s : heap (snd (tasksSet r s)) = heap s.
Proof. unfold tasksSet, withTask, modify. destruct (heap s !! r); reflexivity. Qed.

Lemma tasksSet_ok r s : fst (tasksSet r s) = Ok tt.
Proof. unfold tasksSet, withTask, modify. destruct (heap s !! r); reflexivity. Qed.

Lemma write_meta r (g : IngestionTask -> Meta) s t :
  heap s !! r = Some t ->
  let m := modify (mutate r (fun t => set_meta (g t) t)) ;; tasksSet r in
  fst (m s) = Ok tt /\ heap (snd (m s)) !! r = Some (set_meta (g t) t).
Proof.
  intros Ht m. unfold m, bind, modify. cbv beta iota.
  rewrite tasksSet_ok, tasksSet_heap. split; [reflexivity|].
  unfold mutate. cbn [heap set_heap]. now rewrite list_lookup_alter_eq, Ht.
Qed.

Lemma extractText_task w r s t :
  heap s !! r = Some t ->
  match pdfForText w (sourcePath t) with
  | Ok raw =>
      fst (extractText w r s) = Ok tt
      /\ heap (snd (extractText w r s)) !! r
         = Some (set_meta (with_textPages (TextExtractor.extractPages raw) (metaOf t)) t)
  | Throw msg => extractText w r s = (Throw msg, s)
  end.
Proof.
  intros Ht. destruct (pdfForText w (sourcePath t)) as [raw|msg] eqn:Hp.
  - unfold extractText, withTask. rewrite Ht.
    unfold extractTextFromPdf. unfold bind at 1 2. unfold liftOutcome at 1. rewrite Hp.
    unfold ret at 1. cbv beta iota.
    apply (write_meta r (fun t => with_textPages (TextExtractor.extractPages raw) (metaOf t)) s t Ht).
  - exact (extractText_raises w r s t msg Ht Hp).
Qed.

Lemma layoutAnalysis_task w r s t :
  heap s !! r = Some t ->
  if missingOrEmpty (textPages (metaOf t)) then layoutAnalysis w r s = (Ok tt, s)
  else
    match pdfForLayout w (sourcePath t) with
    | Ok raw =>
        fst (layoutAnalysis w r s) = Ok tt
        /\ heap (snd (layoutAnalysis w r s)) !! r
           = Some (set_meta
                     (with_layoutPages
                        (LayoutAnalyzer.analyzePages (uuid w) (uuids s) (id t) 1 raw)
                        (metaOf t)) t)
    | Throw msg => layoutAnalysis w r s = (Throw msg, s)
    end.
Proof.
  intros Ht. unfold layoutAnalysis, withTask. rewrite Ht.
  destruct (missingOrEmpty (textPages (metaOf t))); [reflexivity|].
  unfold analyzePdfLayout. unfold bind at 1 2. unfold liftOutcome at 1.
  destruct (pdfForLayout w (sourcePath t)) as [raw|msg]; [|reflexivity].
  cbv beta iota. unfold bind at 1. unfold gets at 1. cbv beta iota.
  unfold bind at 1. unfold modify at 1. cbv beta iota. unfold ret at 1. cbv beta iota.
  set (lps := LayoutAnalyzer.analyzePages (uuid w) (uuids s) (id t) 1 raw).
  set (s1 := set_uuids _ s).
  apply (write_meta r (fun t => with_layoutPages lps (metaOf t)) s1 t). exact Ht.
Qed.

Lemma embedPages_run w tid total index pages acc s :
  heap (snd (embedPages w tid total index pages acc s)) = heap s
  /\ forall e, fst (embedPages w tid total index pages acc s) = Ok e ->
       exists e', e = acc ++ e' /\ embeddingsOf pages e'.
Proof.
  revert index acc s. induction pages as [|page rest IH]; intros index acc s.
  - cbn. split; [reflexivity|]. intros e [= <-]. exists []. rewrite app_nil_r. now split.
  - cbn [embedPages]. cbv zeta. unfold bind at 1. unfold liftOutcome at 1.
    destruct (embeddings_create w _) as [v|msg]; [|split; [reflexivity | discriminate]].
    cbv beta iota. unfold bind at 1. unfold emit at 1, modify at 1. cbv beta iota.
    match goal with |- context [embedPages w tid total (S index) rest ?a ?s1] =>
      destruct (IH (S index) a s1) as [Hh He] end.
    split; [rewrite Hh; reflexivity|].
    intros e Hfst. destruct (He e Hfst) as (e' & -> & Hp & Ht).
    eexists (_ :: e'). rewrite <- app_assoc. split; [reflexivity|].
    split; cbn; f_equal; assumption.
Qed.

Lemma bind_ok {A B} (m : M A) (k : A -> M B) s a s1 :
  m s = (Ok a, s1) -> bind m k s = k a s1.
Proof. intros H. unfold bind. now rewrite H. Qed.

Lemma bind_throw {A B} (m : M A) (k : A -> M B) s msg s1 :
  m s = (Throw msg, s1) -> bind m k s = (Throw msg, s1).
Proof. intros H. unfold bind. now rewrite H. Qed.

Lemma tryCatch_ok {A} (body : M A) (handler : string -> M A) s a s1 :
  body s = (Ok a, s1) -> tryCatch body handler s = (Ok a, s1).
Proof. intros H. unfold tryCatch. now rewrite H. Qed.

Lemma tryCatch_throw {A} (body : M A) (handler : string -> M A) s msg s1 :
  body s = (Throw msg, s1) -> tryCatch body handler s = handler msg s1.
Proof. intros H. unfold tryCatch. now rewrite H. Qed.

Lemma generateTextEmbeddings_task w r s t :
  heap s !! r = Some t ->
  fst (generateTextEmbeddings w r s) = Ok tt
  /\ (heap (snd (generateTextEmbeddings w r s)) !! r = Some t
      \/ exists tp te,
           textPages (metaOf t) = Some tp /\ embeddingsOf tp te
           /\ heap (snd (generateTextEmbeddings w r s)) !! r
              = Some (set_meta (with_textEmbeddings te (metaOf t)) t)).
Proof.
  intros Ht. unfold generateTextEmbeddings, withTask. rewrite Ht.
  destruct (textPages (metaOf t)) as [[|page rest]|] eqn:Htp; [now auto | | now auto].
  destruct (OPENAI_API_KEY w); cbn [negb]; [|now auto].
  destruct (embedPages_run w (id t) (length (page :: rest)) 0 (page :: rest) [] s) as [Hh He].
  destruct (embedPages w (id t) (length (page :: rest)) 0 (page :: rest) [] s)
    as [[e|msg] s1] eqn:E0; cbn [fst snd] in Hh, He.
  - assert (Ht1 : heap s1 !! r = Some t) by now rewrite Hh.
    destruct (write_meta r (fun t => with_textEmbeddings e (metaOf t)) s1 t Ht1) as [W1 W2].
    cbv zeta in W1, W2.
    destruct ((modify (mutate r (fun t0 => set_meta (with_textEmbeddings e (metaOf t0)) t0));;
               tasksSet r) s1) as [[[]|msg] s2] eqn:E; cbn [fst snd] in W1, W2; [|discriminate].
    erewrite tryCatch_ok; [|erewrite bind_ok; [exact E | exact E0]].
    split; [reflexivity|]. right. exists (page :: rest), e.
    destruct (He e eq_refl) as (e' & -> & Hemb). auto.
  - erewrite tryCatch_throw; [|erewrite bind_throw; [reflexivity | exact E0]].
    split; [reflexivity|]. left. cbn [ret snd]. now rewrite Hh.
Qed.

Lemma writeDatabase_heap w r s : heap (snd (writeDatabase w r s)) = heap s.
Proof.
  unfold writeDatabase, withTask. destruct (heap s !! r); [|reflexivity].
  destruct (missingOrEmpty _); reflexivity.
Qed.

(** ** What a task holds *)

Lemma metaExtends_refl m : metaExtends m m.
Proof. repeat split; auto. Qed.

Lemma metaExtends_empty m : metaExtends emptyMeta m.
Proof. repeat split; intros v H; discriminate. Qed.

(** The handler of a stage, on a task that holds what its stage says:
    what the task holds afterwards. *)
Lemma handler_task w r s t i st (h : StageHandler) :
  heap s !! r = Some t -> stages !! i = Some (st, h) -> stage t = st ->
  Sound w t -> metaAt st (meta t) ->
  exists t1,
    heap (snd (h w r s)) !! r = Some t1
    /\ metaExtends (metaOf t) (metaOf t1)
    /\ Sound w t1
    /\ (fst (h w r s) = Ok tt ->
        forall st', stageOrder !! S (S i) = Some st' -> metaAt st' (meta t1)).
Proof.
  intros Ht Hi Hst HS HM.
  destruct (stage_cases _ _ _ Hi) as [(-> & -> & ->)|[(-> & -> & ->)|[(-> & -> & ->)|(-> & -> & ->)]]].
  - (* extracting_text *)
    cbn in HM. pose proof (extractText_task w r s t Ht) as H.
    destruct (pdfForText w (sourcePath t)) as [raw|msg] eqn:Hp.
    + destruct H as [H1 H2]. eexists. split; [exact H2|].
      assert (Hm : metaOf t = emptyMeta) by (unfold metaOf; now rewrite HM).
      rewrite Hm. split; [apply metaExtends_empty|]. split.
      * unfold Sound, metaOf. cbn.
        split; [|split; [|split]]; try (intros v [=]); try reflexivity.
        exists raw. now split.
      * intros _ st' [= <-]. cbn. repeat split. discriminate.
    + rewrite H. cbn [fst snd]. exists t. split; [exact Ht|].
      split; [apply metaExtends_refl|]. split; [exact HS | discriminate].
  - (* layout_analysis *)
    cbn in HM. destruct HM as (M1 & M2 & M3).
    fold (metaOf t) in M1, M2, M3.
    pose proof (layoutAnalysis_task w r s t Ht) as H.
    destruct (missingOrEmpty (textPages (metaOf t))) eqn:Hme.
    + rewrite H. cbn [fst snd]. exists t. split; [exact Ht|].
      split; [apply metaExtends_refl|]. split; [exact HS|].
      intros _ st' [= <-]. cbn. fold (metaOf t). rewrite Hme. repeat split; auto; try discriminate.
    + destruct (pdfForLayout w (sourcePath t)) as [raw|msg] eqn:Hp.
      * destruct H as [H1 H2]. eexists. split; [exact H2|]. split.
        { unfold metaOf at 2. cbn. repeat split; auto. intros v Hv. congruence. }
        split.
        { destruct HS as (S1 & S2 & S3 & S4).
          unfold Sound, metaOf. cbn. fold (metaOf t).
          split; [exact S1|]. split; [|split; [exact S3 | exact S4]].
          intros lp [= <-]. exists raw, (uuids s). now split. }
        intros _ st' [= <-]. cbn. fold (metaOf t). repeat split; auto; try discriminate.
      * rewrite H. cbn [fst snd]. exists t. split; [exact Ht|].
        split; [apply metaExtends_refl|]. split; [exact HS | discriminate].
  - (* generating_text_embeddings *)
    cbn in HM. destruct HM as (M1 & M2 & M3).
    fold (metaOf t) in M1, M2, M3.
    destruct (generateTextEmbeddings_task w r s t Ht) as [H1 [H2|(tp & te & Htp & Hemb & H2)]].
    + exists t. split; [exact H2|]. split; [apply metaExtends_refl|]. split; [exact HS|].
      intros _ st' [= <-]. cbn. fold (metaOf t). auto.
    + eexists. split; [exact H2|]. split.
      { unfold metaOf at 2. cbn. repeat split; auto. intros v Hv. congruence. }
      split.
      { destruct HS as (S1 & S2 & S3 & S4).
        unfold Sound, metaOf. cbn. fold (metaOf t).
        split; [exact S1|]. split; [exact S2|]. split; [|exact S4].
        intros te' [= <-]. exists tp. now split. }
      intros _ st' [= <-]. cbn. fold (metaOf t). auto.
  - (* writing_database *)
    cbn in HM. exists t. rewrite writeDatabase_heap. split; [exact Ht|].
    split; [apply metaExtends_refl|]. split; [exact HS|].
    intros _ st' [= <-]. exact HM.
Qed.

Lemma Sound_same w t t' :
  meta t' = meta t -> sourcePath t' = sourcePath t -> id t' = id t ->
  Sound w t -> Sound w t'.
Proof.
  intros Hm Hp Hid. unfold Sound, metaOf. now rewrite Hm, Hp, Hid.
Qed.

Lemma Kept_initial w : Kept w initialState.
Proof. intros r t H. discriminate. Qed.

Lemma Sound_newTask w params s : Sound w (newTask w params s).
Proof. unfold Sound, metaOf. cbn. repeat split; intros v [=]. Qed.

Lemma Kept_createTask w params s :
  Inv s -> Kept w s -> Kept w (snd (createTask w params s)).
Proof.
  intros HI HK r t. destruct (createTask_task_cases w params s HI) as (tn & Hh & Hcase).
  rewrite Hh, lookup_app_Some. intros [Hr|[_ Hr]]; [now apply (HK r)|].
  destruct (r - length (heap s)) as [|n]; [|discriminate]. injection Hr as <-.
  destruct Hcase as [(_ & -> & _)|(_ & _ & _ & -> & _)].
  - split; [apply Sound_newTask | reflexivity].
  - split; [|reflexivity].
    apply (Sound_same w (newTask w params s)); auto using Sound_newTask.
Qed.

Lemma settled_task_kept w s k i st (h : StageHandler) f F returned tk :
  heap s !! k = Some tk -> stages !! i = Some (st, h) -> stage tk = st ->
  heap (snd (h w k s)) !! k = Some (f tk) ->
  Settlement w s k i h f F returned ->
  Sound w tk -> metaAt st (meta tk) ->
  metaExtends (metaOf tk) (metaOf (F tk))
  /\ Sound w (F tk) /\ metaAt (stage (F tk)) (meta (F tk)).
Proof.
  intros Hk Hi Hst Hf HS Hsound Hat.
  destruct (handler_task w k s tk i st h Hk Hi Hst Hsound Hat) as (t1 & H1 & Hext & Hs1 & Hnext).
  rewrite Hf in H1. injection H1 as <-.
  destruct (stageOrder_next i st h Hi) as [_ Hord].
  destruct HS as [s1 st' h' Hok Hn|s1 Hok Hn|s1 msg _]; unfold compose.
  - rewrite Hn in Hord. split; [exact Hext|]. split.
    + now apply (Sound_same w (f tk)).
    + apply Hnext; [now rewrite Hok | exact Hord].
  - rewrite Hn in Hord. split; [exact Hext|]. split.
    + now apply (Sound_same w (f tk)).
    + apply Hnext; [now rewrite Hok | exact Hord].
  - split; [exact Hext|]. split; [now apply (Sound_same w (f tk)) | exact I].
Qed.

Lemma resume_kept w s :
  Inv s -> Kept w s ->
  forall k tk, heap s !! k = Some tk ->
    exists tk', heap (snd (resume w s)) !! k = Some tk'
      /\ metaExtends (metaOf tk) (metaOf tk')
      /\ Sound w tk' /\ metaAt (stage tk') (meta tk').
Proof.
  intros HI HK k tk Hk. destruct (HK k tk Hk) as [Hsound Hat].
  destruct (resume_task_cases w s k tk HI Hk) as (tk' & Hk' & Hcase).
  exists tk'. split; [exact Hk'|].
  destruct Hcase as [->|[(i & st & h & f & F & returned & Haw & Hi & Hst & Hf & Hheap & HS & ->)
                        |(q & c & Hq & Hst & _ & ->)]].
  - split; [apply metaExtends_refl | now split].
  - rewrite Hst in Hat.
    exact (settled_task_kept w s k i st h f F returned tk Hk Hi Hst Hheap HS Hsound Hat).
  - split; [apply metaExtends_refl|]. split.
    + now apply (Sound_same w tk).
    + rewrite Hst in Hat. exact Hat.
Qed.

Lemma Kept_resume w s : Inv s -> Kept w s -> Kept w (snd (resume w s)).
Proof.
  intros HI HK k tk' Hk'.
  destruct (heap s !! k) as [tk|] eqn:Hk.
  - destruct (resume_kept w s HI HK k tk Hk) as (t2 & H2 & _ & Hs & Hm).
    rewrite Hk' in H2. injection H2 as <-. now split.
  - exfalso. apply lookup_ge_None in Hk. apply lookup_lt_Some in Hk'.
    assert (length (heap (snd (resume w s))) = length (heap s)).
    { rewrite <- (length_map sourcePath), paths_resume, length_map. reflexivity. }
    lia.
Qed.

Lemma Kept_performAll w acts s : Inv s -> Kept w s -> Kept w (snd (performAll w acts s)).
Proof.
  revert s. induction acts as [|a rest IH]; intros s HI HK; [exact HK|].
  rewrite performAll_cons, perform_snd. destruct a as [params|].
  - apply IH; [now apply Inv_createTask | now apply Kept_createTask].
  - apply IH; [now apply Inv_resume | now apply Kept_resume].
Qed.

(** X8. The metadata of a task is only added to: in one transition of the
    pipeline every key of [meta] that is set keeps its value. *)
Theorem meta_is_only_added_to (w : World) (acts : list Action) (a : Action)
    (r : nat) (t : IngestionTask) :
  let s := snd (performAll w acts initialState) in
  let s' := snd (perform w a s) in
  heap s !! r = Some t ->
  exists t', heap s' !! r = Some t' /\ metaExtends (metaOf t) (metaOf t').
Proof.
  intros s s' Ht.
  pose proof (Inv_performAll w acts initialState Inv_initial) as HI. fold s in HI.
  pose proof (Kept_performAll w acts initialState Inv_initial (Kept_initial w)) as HK.
  fold s in HK.
  unfold s'. rewrite perform_snd. destruct a as [params|].
  - destruct (createTask_task_cases w params s HI) as (tn & Hh & _).
    exists t. rewrite Hh, (lookup_app_l_Some _ _ _ _ Ht). split; [reflexivity|].
    apply metaExtends_refl.
  - destruct (resume_kept w s HI HK r t Ht) as (t' & Ht' & Hext & _). eauto.
Qed.

Lemma meta_is_only_added_to_witness :
  let s := snd (performAll (sampleWorld 1) [Submit (upload "a.pdf"); Settle] initialState) in
  exists t t' tp,
    heap s !! 0 = Some t
    /\ heap (snd (perform (sampleWorld 1) Settle s)) !! 0 = Some t'
    /\ textPages (metaOf t) = Some tp
    /\ textPages (metaOf t') = Some tp.
Proof.
  cbv zeta.
  destruct (heap (snd (performAll (sampleWorld 1) [Submit (upload "a.pdf"); Settle] initialState)) !! 0)
    as [t|] eqn:Ht; [|vm_compute in Ht; discriminate].
  destruct (meta_is_only_added_to (sampleWorld 1) [Submit (upload "a.pdf"); Settle] Settle 0 t Ht)
    as (t' & Ht' & Hext).
  destruct (textPages (metaOf t)) as [tp|] eqn:Htp.
  - exists t, t', tp. repeat split; try assumption. now apply Hext.
  - exfalso. vm_compute in Ht. injection Ht as <-. discriminate Htp.
Defined.

Lemma extractPages_length raw : length (TextExtractor.extractPages raw) = length raw.
Proof. unfold TextExtractor.extractPages. apply length_imap. Qed.

(** X9. A completed task holds the document: its text pages are the
    extraction of what the parser returned for its file, one per page;
    when the file has a page, its layout pages are the analysis of the
    file under the identity of the task; its text embeddings, when set,
    are those of the text pages, page by page; image embeddings are not
    set. *)
Theorem completed_task_holds_the_document (w : World) (acts : list Action)
    (r : nat) (t : IngestionTask) :
  heap (snd (performAll w acts initialState)) !! r = Some t ->
  stage t = completed ->
  exists raw,
    pdfForText w (sourcePath t) = Ok raw
    /\ textPages (metaOf t) = Some (TextExtractor.extractPages raw)
    /\ (raw <> [] ->
        exists lraw n,
          pdfForLayout w (sourcePath t) = Ok lraw
          /\ layoutPages (metaOf t)
             = Some (LayoutAnalyzer.analyzePages (uuid w) n (id t) 1 lraw))
    /\ (forall te, textEmbeddings (metaOf t) = Some te ->
          embeddingsOf (TextExtractor.extractPages raw) te)
    /\ imageEmbeddings (metaOf t) = None.
Proof.
  intros Ht Hst.
  destruct (Kept_performAll w acts initialState Inv_initial (Kept_initial w) r t Ht)
    as [(S1 & S2 & S3 & S4) Hat].
  rewrite Hst in Hat. cbn in Hat. fold (metaOf t) in Hat. destruct Hat as [M1 M2].
  destruct (textPages (metaOf t)) as [tp|] eqn:Htp; [|contradiction].
  destruct (S1 tp eq_refl) as (raw & Hraw & ->).
  exists raw. split; [exact Hraw|]. split; [reflexivity|]. split; [|split; [|exact S4]].
  - intros Hne.
    assert (Hme : missingOrEmpty (Some (TextExtractor.extractPages raw)) = false).
    { pose proof (extractPages_length raw) as Hlen.
      destruct (TextExtractor.extractPages raw); [|reflexivity].
      destruct raw; [contradiction | discriminate]. }
    specialize (M2 Hme).
    destruct (layoutPages (metaOf t)) as [lp|] eqn:Hlp; [|contradiction].
    destruct (S2 lp eq_refl) as (lraw & n & Hl & ->). eauto.
  - intros te Hte. destruct (S3 te Hte) as (tp & Htp' & Hemb). now injection Htp' as <-.
Qed.

Lemma completed_task_holds_the_document_witness :
  let s := snd (performAll (sampleWorld 1)
                  [Submit (upload "a.pdf"); Settle; Settle; Settle; Settle] initialState) in
  exists t raw,
    heap s !! 0 = Some t
    /\ pdfForText (sampleWorld 1) (sourcePath t) = Ok raw
    /\ textPages (metaOf t) = Some (TextExtractor.extractPages raw).
Proof.
  cbv zeta.
  destruct (heap (snd (performAll (sampleWorld 1)
                         [Submit (upload "a.pdf"); Settle; Settle; Settle; Settle]
                         initialState)) !! 0) as [t|] eqn:Ht;
    [|vm_compute in Ht; discriminate].
  assert (Hst : stage t = completed).
  { vm_compute in Ht. injection Ht as <-. reflexivity. }
  destruct (completed_task_holds_the_document (sampleWorld 1)
              [Submit (upload "a.pdf"); Settle; Settle; Settle; Settle] 0 t Ht Hst)
    as (raw & H1 & H2 & _).
  exists t, raw. auto.
Defined.

(** ** The index of the tasks *)

Lemma keepsIndex_same {A} w (m : M A) :
  (forall s, heap (snd (m s)) = heap s /\ tasks (snd (m s)) = tasks s
             /\ uuids s <= uuids (snd (m s))) ->
  keepsIndex w m.
Proof.
  intros H s (I1 & I2 & I3). destruct (H s) as (Hh & Ht & Hu).
  unfold Indexed. rewrite Hh, Ht. split; [|now split].
  intros r t Hr. destruct (I1 r t Hr) as (k & Hk & Hid). exists k. split; [lia | exact Hid].
Qed.

Lemma keepsIndex_ret {A} w (a : A) : keepsIndex w (ret a).
Proof. apply keepsIndex_same. intros s. cbn. auto. Qed.

Lemma keepsIndex_liftOutcome {A} w (o : Outcome A) : keepsIndex w (liftOutcome o).
Proof. apply keepsIndex_same. intros s. cbn. auto. Qed.

Lemma keepsIndex_gets {A} w (f : State -> A) : keepsIndex w (gets f).
Proof. apply keepsIndex_same. intros s. cbn. auto. Qed.

Lemma keepsIndex_emit w tid st p msg : keepsIndex w (emit tid st p msg).
Proof. apply keepsIndex_same. intros s. cbn. auto. Qed.

Lemma keepsIndex_newDate w : keepsIndex w newDate.
Proof. apply keepsIndex_same. intros s. cbn. auto. Qed.

Lemma keepsIndex_set_queue w (g : State -> list nat) :
  keepsIndex w (modify (fun s => set_queue (g s) s)).
Proof. apply keepsIndex_same. intros s. cbn. auto. Qed.

Lemma keepsIndex_set_running w b : keepsIndex w (modify (set_running b)).
Proof. apply keepsIndex_same. intros s. cbn. auto. Qed.

Lemma keepsIndex_set_awaiting w a : keepsIndex w (modify (set_awaiting a)).
Proof. apply keepsIndex_same. intros s. cbn. auto. Qed.

Lemma keepsIndex_bind {A B} w (m : M A) (k : A -> M B) :
  keepsIndex w m -> (forall a, keepsIndex w (k a)) -> keepsIndex w (bind m k).
Proof.
  intros Hm Hk s HI. unfold bind. specialize (Hm s HI).
  destruct (m s) as [[a|msg] s1]; cbn [snd] in *; [now apply Hk | exact Hm].
Qed.

Lemma keepsIndex_tryCatch {A} w (body : M A) (handler : string -> M A) :
  keepsIndex w body -> (forall msg, keepsIndex w (handler msg)) ->
  keepsIndex w (tryCatch body handler).
Proof.
  intros Hb Hh s HI. unfold tryCatch. specialize (Hb s HI).
  destruct (body s) as [[a|msg] s1]; cbn [snd] in *; [exact Hb | now apply Hh].
Qed.

Lemma keepsIndex_tryFinally {A} w (body : M A) (finalizer : M unit) :
  keepsIndex w body -> keepsIndex w finalizer -> keepsIndex w (tryFinally body finalizer).
Proof.
  intros Hb Hf s HI. unfold tryFinally. specialize (Hb s HI).
  destruct (body s) as [o s1]; cbn [snd] in *. specialize (Hf s1 Hb).
  destruct (finalizer s1) as [[u|msg] s2]; exact Hf.
Qed.

Lemma keepsIndex_withTask {A} w r (dflt : A) (k : IngestionTask -> M A) :
  (forall t s, heap s !! r = Some t -> Indexed w s -> Indexed w (snd (k t s))) ->
  keepsIndex w (withTask r dflt k).
Proof.
  intros Hk s HI. unfold withTask. destruct (heap s !! r) as [t|] eqn:Ht; [now apply Hk | exact HI].
Qed.

Lemma keepsIndex_if {A} w (b : bool) (m1 m2 : M A) :
  keepsIndex w m1 -> keepsIndex w m2 -> keepsIndex w (if b then m1 else m2).
Proof. destruct b; auto. Qed.

Lemma keepsIndex_mutate w r f :
  (forall t, id (f t) = id t) -> keepsIndex w (modify (mutate r f)).
Proof.
  intros Hf s (I1 & I2 & I3). unfold Indexed, modify, mutate.
  cbn [snd heap tasks uuids set_heap].
  assert (Hlook : forall k t', alter f r (heap s) !! k = Some t' ->
            exists t, heap s !! k = Some t /\ id t' = id t).
  { intros k t'. destruct (decide (k = r)) as [->|Hne].
    - rewrite list_lookup_alter_eq. destruct (heap s !! r) as [t|]; [|discriminate].
      intros [= <-]. eauto.
    - rewrite list_lookup_alter_ne by congruence. eauto. }
  split; [|split].
  - intros k t' Hk. destruct (Hlook k t' Hk) as (t & Ht & ->). eauto.
  - intros k t' Hk. destruct (Hlook k t' Hk) as (t & Ht & ->). eauto.
  - intros tid k Hk. destruct (I3 tid k Hk) as (t & Ht & Hid).
    destruct (decide (k = r)) as [->|Hne].
    + exists (f t). rewrite list_lookup_alter_eq, Ht. split; [reflexivity|]. now rewrite Hf.
    + exists t. now rewrite list_lookup_alter_ne by congruence.
Qed.

(** [this.tasks.set(task.id, task)] for a task that is in the index
    already changes nothing. *)
Lemma Indexed_set w s r t :
  heap s !! r = Some t -> Indexed w s ->
  Indexed w (set_tasks (<[id t := r]> (tasks s)) s).
Proof.
  intros Ht (I1 & I2 & I3). rewrite (insert_id (tasks s) (id t) r (I2 r t Ht)).
  split; [|split]; assumption.
Qed.

Lemma keepsIndex_tasksSet w r : keepsIndex w (tasksSet r).
Proof.
  unfold tasksSet. apply keepsIndex_withTask. intros t s Ht HI. now apply Indexed_set.
Qed.

Lemma keepsIndex_updateTaskStage w r st p : keepsIndex w (updateTaskStage r st p).
Proof.
  unfold updateTaskStage.
  apply keepsIndex_bind; [now apply keepsIndex_mutate|]. intros _.
  apply keepsIndex_bind; [now apply keepsIndex_mutate|]. intros _.
  apply keepsIndex_bind; [apply keepsIndex_newDate|]. intros now.
  apply keepsIndex_bind; [now apply keepsIndex_mutate|]. intros _.
  apply keepsIndex_withTask. intros t s Ht HI.
  unfold bind, modify, updateStage, emit. cbn. now apply Indexed_set.
Qed.

Lemma keepsIndex_set_meta w r (g : IngestionTask -> Meta) :
  keepsIndex w (modify (mutate r (fun t => set_meta (g t) t))).
Proof. now apply keepsIndex_mutate. Qed.

Lemma keepsIndex_embedPages w tid total index pages acc :
  keepsIndex w (embedPages w tid total index pages acc).
Proof.
  revert index acc. induction pages as [|page rest IH]; intros index acc; cbn [embedPages].
  - apply keepsIndex_ret.
  - cbv zeta. apply keepsIndex_bind; [apply keepsIndex_liftOutcome|]. intros v.
    apply keepsIndex_bind; [apply keepsIndex_emit | intros _; apply IH].
Qed.

Lemma keepsIndex_stage_handler w r i st (h : StageHandler) :
  stages !! i = Some (st, h) -> keepsIndex w (h w r).
Proof.
  intros Hi.
  destruct (stage_cases _ _ _ Hi) as [(_ & _ & ->)|[(_ & _ & ->)|[(_ & _ & ->)|(_ & _ & ->)]]].
  - unfold extractText, extractTextFromPdf. apply keepsIndex_withTask. intros t s _. revert s.
    change (keepsIndex w
              (let* result := (let* pages := liftOutcome (pdfForText w (sourcePath t)) in
                               ret (TextExtractor.extractPages pages)) in
               modify (mutate r (fun t0 => set_meta (with_textPages result (metaOf t0)) t0)) ;;
               tasksSet r)).
    apply keepsIndex_bind.
    + apply keepsIndex_bind; [apply keepsIndex_liftOutcome | intros; apply keepsIndex_ret].
    + intros res. apply keepsIndex_bind; [apply keepsIndex_set_meta | intros; apply keepsIndex_tasksSet].
  - unfold layoutAnalysis, analyzePdfLayout. apply keepsIndex_withTask. intros t s _. revert s.
    change (keepsIndex w
              (if missingOrEmpty (textPages (metaOf t)) then ret tt
               else
                 let* lps :=
                   (let* pages := liftOutcome (pdfForLayout w (sourcePath t)) in
                    let* n := gets uuids in
                    let result := LayoutAnalyzer.analyzePages (uuid w) n (id t) 1 pages in
                    modify (set_uuids (n + length (concat (map LayoutAnalyzer.regions result)))) ;;
                    ret result) in
                 modify (mutate r (fun t0 => set_meta (with_layoutPages lps (metaOf t0)) t0)) ;;
                 tasksSet r)).
    apply keepsIndex_if; [apply keepsIndex_ret|].
    apply keepsIndex_bind.
    + apply keepsIndex_bind; [apply keepsIndex_liftOutcome|]. intros pages.
      apply keepsIndex_same. intros s. cbn. repeat split. lia.
    + intros res. apply keepsIndex_bind; [apply keepsIndex_set_meta | intros; apply keepsIndex_tasksSet].
  - unfold generateTextEmbeddings. apply keepsIndex_withTask. intros t s _. revert s.
    change (keepsIndex w
              (match textPages (metaOf t) with
               | Some ((_ :: _) as pages) =>
                   if negb (OPENAI_API_KEY w) then ret tt
                   else
                     tryCatch
                       (let* embeddings := embedPages w (id t) (length pages) 0 pages [] in
                        modify (mutate r (fun t0 =>
                                  set_meta (with_textEmbeddings embeddings (metaOf t0)) t0)) ;;
                        tasksSet r)
                       (fun _ => ret tt)
               | _ => ret tt
               end)).
    destruct (textPages (metaOf t)) as [[|page rest]|]; try apply keepsIndex_ret.
    apply keepsIndex_if; [apply keepsIndex_ret|].
    apply keepsIndex_tryCatch; [|intros; apply keepsIndex_ret].
    apply keepsIndex_bind; [apply keepsIndex_embedPages|]. intros e.
    apply keepsIndex_bind; [apply keepsIndex_set_meta | intros; apply keepsIndex_tasksSet].
  - unfold writeDatabase. apply keepsIndex_withTask. intros t s _. revert s.
    change (keepsIndex w (if missingOrEmpty (textPages (metaOf t)) then ret tt
                          else liftOutcome (prismaWrites w t))).
    apply keepsIndex_if; [apply keepsIndex_ret | apply keepsIndex_liftOutcome].
Qed.

Lemma keepsIndex_runTaskFrom w r i : keepsIndex w (runTaskFrom r i).
Proof.
  unfold runTaskFrom. destruct (stages !! i) as [[st h]|];
    (apply keepsIndex_bind; [apply keepsIndex_updateTaskStage | intros; apply keepsIndex_set_awaiting]).
Qed.

Lemma keepsIndex_runTaskCatch w r err : keepsIndex w (runTaskCatch r err).
Proof.
  unfold runTaskCatch.
  apply keepsIndex_bind; [now apply keepsIndex_mutate|]. intros _.
  apply keepsIndex_bind; [|intros; apply keepsIndex_set_awaiting].
  apply keepsIndex_withTask. intros t s _. apply keepsIndex_updateTaskStage.
Qed.

Lemma keepsIndex_runNext w : keepsIndex w runNext.
Proof.
  unfold runNext. apply keepsIndex_bind; [apply keepsIndex_gets|]. intros [|]; [apply keepsIndex_ret|].
  apply keepsIndex_bind; [apply keepsIndex_gets|]. intros [|task rest]; [apply keepsIndex_ret|].
  apply keepsIndex_bind; [apply (keepsIndex_set_queue w (fun _ => rest))|]. intros _.
  apply keepsIndex_bind; [apply keepsIndex_set_running | intros; apply keepsIndex_runTaskFrom].
Qed.

Lemma keepsIndex_runNextFinally w : keepsIndex w runNextFinally.
Proof.
  unfold runNextFinally. apply keepsIndex_bind; [apply keepsIndex_set_running|]. intros _.
  apply keepsIndex_bind; [apply keepsIndex_gets|]. intros q.
  apply keepsIndex_if; [apply keepsIndex_runNext | apply keepsIndex_ret].
Qed.

Lemma keepsIndex_resume w : keepsIndex w (resume w).
Proof.
  unfold resume. apply keepsIndex_bind; [apply keepsIndex_gets|].
  intros [[r i]|]; [|apply keepsIndex_ret].
  destruct (stages !! i) as [[st h]|] eqn:Hi; [|apply keepsIndex_ret].
  intros s HI. unfold untilReturned.
  assert (Hbody : keepsIndex w (tryCatch (h w r ;; runTaskFrom r (S i)) (runTaskCatch r))).
  { apply keepsIndex_tryCatch; [|intros; apply keepsIndex_runTaskCatch].
    apply keepsIndex_bind; [now apply (keepsIndex_stage_handler w r i st) |
                            intros; apply keepsIndex_runTaskFrom]. }
  specialize (Hbody s HI).
  destruct (tryCatch (h w r ;; runTaskFrom r (S i)) (runTaskCatch r) s) as [o s1].
  cbn [snd] in Hbody. destruct (awaiting s1); [exact Hbody|].
  apply (keepsIndex_tryFinally w (liftOutcome o) runNextFinally);
    [apply keepsIndex_liftOutcome | apply keepsIndex_runNextFinally | exact Hbody].
Qed.

Lemma tally_inj : Inj (=) (=) tally.
Proof.
  intros a. induction a as [|a IH]; intros [|b] H; cbn in H; try discriminate; [reflexivity|].
  injection H as H. f_equal. now apply IH.
Qed.

Lemma Indexed_pushed w params s :
  Inj (=) (=) (uuid w) -> Indexed w s -> Indexed w (pushed w params s).
Proof.
  intros Hinj (I1 & I2 & I3).
  assert (Hfresh : tasks s !! uuid w (uuids s) = None).
  { destruct (tasks s !! uuid w (uuids s)) as [r|] eqn:E; [|reflexivity].
    destruct (I3 _ _ E) as (t & Ht & Hid). destruct (I1 _ _ Ht) as (k & Hk & Hid').
    rewrite Hid' in Hid. apply Hinj in Hid. lia. }
  unfold Indexed, pushed. cbn [heap tasks uuids].
  split; [|split].
  - intros r t. rewrite lookup_app_Some. intros [Hr|[_ Hr]].
    + destruct (I1 r t Hr) as (k & Hk & Hid). exists k. split; [lia | exact Hid].
    + destruct (r - length (heap s)) as [|n]; [|discriminate]. injection Hr as <-.
      exists (uuids s). split; [lia | reflexivity].
  - intros r t. rewrite lookup_app_Some. intros [Hr|[Hge Hr]].
    + rewrite lookup_insert_ne; [now apply I2|].
      intros E. destruct (I1 r t Hr) as (k & Hk & Hid). rewrite Hid in E.
      apply Hinj in E. lia.
    + destruct (r - length (heap s)) as [|n] eqn:En; [|discriminate]. injection Hr as <-.
      cbn [newTask id]. rewrite lookup_insert_eq. f_equal. lia.
  - intros tid r. destruct (decide (tid = uuid w (uuids s))) as [->|Hne].
    + rewrite lookup_insert_eq. intros [= <-]. exists (newTask w params s).
      rewrite lookup_app_r, Nat.sub_diag by lia. split; reflexivity.
    + rewrite lookup_insert_ne by congruence. intros Hr.
      destruct (I3 tid r Hr) as (t & Ht & Hid). exists t.
      split; [now apply lookup_app_l_Some | exact Hid].
Qed.

Lemma createTask_state w params s :
  exists e, snd (createTask w params s)
            = set_emitted e (snd (runNext (pushed w params s))).
Proof.
  unfold createTask, enqueue, tasksSet, withTask, emit, bind, gets, modify, newDate,
    randomUUID, ret, mutate.
  cbn -[runNext]. rewrite lookup_app_r, Nat.sub_diag by lia. cbn -[runNext].
  fold (newTask w params s).
  rewrite (total_run _ total_runNext).
  match goal with |- context [runNext ?x] =>
    change x with (pushed w params s) end.
  cbn -[runNext pushed].
  destruct (heap (snd (runNext (pushed w params s))) !! length (heap s));
    cbn -[runNext pushed]; eexists.
  - reflexivity.
  - instantiate (1 := emitted (snd (runNext (pushed w params s)))).
    destruct (snd (runNext (pushed w params s))). reflexivity.
Qed.

Lemma Indexed_createTask w params s :
  Inj (=) (=) (uuid w) -> Indexed w s -> Indexed w (snd (createTask w params s)).
Proof.
  intros Hinj HI. destruct (createTask_state w params s) as (e & ->).
  pose proof (keepsIndex_runNext w (pushed w params s) (Indexed_pushed w params s Hinj HI)) as H.
  exact H.
Qed.

Lemma Indexed_performAll w acts s :
  Inj (=) (=) (uuid w) -> Indexed w s -> Indexed w (snd (performAll w acts s)).
Proof.
  intros Hinj. revert s. induction acts as [|a rest IH]; intros s HI; [exact HI|].
  rewrite performAll_cons, perform_snd. destruct a as [params|]; apply IH.
  - now apply Indexed_createTask.
  - now apply keepsIndex_resume.
Qed.

Lemma Indexed_initial w : Indexed w initialState.
Proof. split; [|split]; intros ? ? H; discriminate. Qed.

(** X10. With an identity generator that never repeats itself, [getTask]
    and [createTask] agree in every state the pipeline reaches: every task
    is found under its identity; what is found under an identity is a
    task with this identity; and the task a new upload creates has an
    identity under which nothing was found before, and is found under it
    afterwards. *)
Theorem getTask_finds_the_task (w : World) (acts : list Action) :
  Inj (=) (=) (uuid w) ->
  let s := snd (performAll w acts initialState) in
  (forall r t, heap s !! r = Some t -> getTask (id t) s = Some t)
  /\ (forall tid t, getTask tid s = Some t -> id t = tid /\ t ∈ heap s)
  /\ (forall params,
        let s' := snd (createTask w params s) in
        exists r t,
          fst (createTask w params s) = Ok r
          /\ heap s' !! r = Some t
          /\ getTask (id t) s = None
          /\ getTask (id t) s' = Some t).
Proof.
  intros Hinj s.
  pose proof (Indexed_performAll w acts initialState Hinj (Indexed_initial w)) as HI.
  fold s in HI.
  assert (Hfind : forall s0, Indexed w s0 ->
            forall r t, heap s0 !! r = Some t -> getTask (id t) s0 = Some t).
  { intros s0 (_ & I2 & _) r t Ht. unfold getTask. rewrite (I2 r t Ht). cbn. exact Ht. }
  split; [exact (Hfind s HI)|]. split.
  - destruct HI as (_ & _ & I3). intros tid t. unfold getTask.
    destruct (tasks s !! tid) as [r|] eqn:E; cbn; [|discriminate].
    intros Ht. destruct (I3 tid r E) as (t' & Ht' & Hid).
    rewrite Ht in Ht'. injection Ht' as <-. split; [exact Hid|].
    eapply list_elem_of_lookup_2; eauto.
  - intros params s'.
    pose proof (Inv_performAll w acts initialState Inv_initial) as HInv. fold s in HInv.
    destruct (createTask_eq w params s) as (Hfst & _).
    destruct (createTask_task_cases w params s HInv) as (tn & Hh & Hcase).
    fold s' in Hh.
    exists (length (heap s)), tn. split; [exact Hfst|].
    assert (Hr : heap s' !! length (heap s) = Some tn).
    { rewrite Hh, lookup_app_r, Nat.sub_diag by lia. reflexivity. }
    split; [exact Hr|].
    assert (Hid : id tn = uuid w (uuids s)).
    { destruct Hcase as [(_ & -> & _)|(_ & _ & _ & -> & _)]; reflexivity. }
    split.
    + destruct HI as (I1 & _ & I3). unfold getTask.
      destruct (tasks s !! id tn) as [r|] eqn:E; [|reflexivity]. exfalso.
      destruct (I3 _ _ E) as (t & Ht & Hid'). destruct (I1 _ _ Ht) as (k & Hk & Hid'').
      rewrite Hid, Hid'' in Hid'. apply Hinj in Hid'. lia.
    + exact (Hfind s' (Indexed_createTask w params s Hinj HI) (length (heap s)) tn Hr).
Qed.

Lemma getTask_finds_the_task_witness :
  let s := snd (performAll tallyWorld [Submit (upload "a.pdf"); Submit (upload "b.pdf"); Settle]
                  initialState) in
  exists t, heap s !! 1 = Some t /\ getTask (id t) s = Some t.
Proof.
  cbv zeta.
  destruct (heap (snd (performAll tallyWorld
                         [Submit (upload "a.pdf"); Submit (upload "b.pdf"); Settle]
                         initialState)) !! 1) as [t|] eqn:Ht;
    [|vm_compute in Ht; discriminate].
  exists t. split; [reflexivity|].
  exact (proj1 (getTask_finds_the_task tallyWorld
                  [Submit (upload "a.pdf"); Submit (upload "b.pdf"); Settle] tally_inj) 1 t Ht).
Defined.

(** ** Embeddings *)

(** X11. With the embedding service down (every request is rejected), the
    handler of generating_text_embeddings returns normally and changes
    nothing: no event, no metadata. *)
Theorem embedding_failure_is_swallowed (w : World) (r : nat) (s : State) :
  (forall input, exists msg, embeddings_create w input = Throw msg) ->
  generateTextEmbeddings w r s = (Ok tt, s).
Proof.
  intros Hdown. unfold generateTextEmbeddings, withTask.
  destruct (heap s !! r) as [t|]; [|reflexivity].
  destruct (textPages (metaOf t)) as [[|page rest]|]; try reflexivity.
  destruct (OPENAI_API_KEY w); cbn [negb]; [|reflexivity].
  assert (E : exists msg,
            embedPages w (id t) (length (page :: rest)) 0 (page :: rest) [] s = (Throw msg, s)).
  { cbn [embedPages]. cbv zeta.
    match goal with |- context [embeddings_create w ?i] =>
      destruct (Hdown i) as [msg Hmsg]; rewrite Hmsg end.
    exists msg. reflexivity. }
  destruct E as [msg E].
  rewrite (tryCatch_throw _ _ s msg s); [reflexivity|]. now apply bind_throw.
Qed.

Lemma embedding_failure_is_swallowed_witness :
  let s := snd (performAll offlineWorld [Submit (upload "a.pdf"); Settle; Settle] initialState) in
  (exists t, heap s !! 0 = Some t /\ stage t = generating_text_embeddings)
  /\ generateTextEmbeddings offlineWorld 0 s = (Ok tt, s).
Proof.
  cbv zeta. split.
  - vm_compute. eexists. split; reflexivity.
  - apply (embedding_failure_is_swallowed offlineWorld 0).
    intros input. eexists. reflexivity.
Defined.

Lemma buildRegions_other uuid n docId i width height ls :
  Forall (fun r => LayoutAnalyzer.type r = LayoutAnalyzer.other
                   /\ LayoutAnalyzer.pageNumber r = i
                   /\ LayoutAnalyzer.documentId r = docId)
         (LayoutAnalyzer.buildRegions uuid n docId i width height ls).
Proof.
  revert n. induction ls as [|line rest IH]; intros n; cbn [LayoutAnalyzer.buildRegions].
  - constructor.
  - destruct (LayoutAnalyzer.lineBBox width height line); [|apply IH].
    constructor; [now cbn | apply IH].
Qed.

Lemma analyzePages_other uuid n docId i pages :
  Forall (fun r => LayoutAnalyzer.type r = LayoutAnalyzer.other)
         (concat (map LayoutAnalyzer.regions (LayoutAnalyzer.analyzePages uuid n docId i pages))).
Proof.
  revert n i. induction pages as [|p rest IH]; intros n i; cbn [LayoutAnalyzer.analyzePages].
  - constructor.
  - cbv zeta. cbn [map concat LayoutAnalyzer.regions]. apply Forall_app. split; [|apply IH].
    unfold LayoutAnalyzer.pageRegions.
    eapply Forall_impl; [apply buildRegions_other|]. now intros r (H & _).
Qed.

Lemma visualRegions_analyzePages uuid n docId i pages :
  visualRegions (LayoutAnalyzer.analyzePages uuid n docId i pages) = [].
Proof.
  unfold visualRegions.
  pose proof (analyzePages_other uuid n docId i pages) as H.
  induction (concat (map LayoutAnalyzer.regions (LayoutAnalyzer.analyzePages uuid n docId i pages)))
    as [|r l IH]; [reflexivity|].
  cbn [List.filter]. apply Forall_cons in H as [Hr Hl]. rewrite Hr. now apply IH.
Qed.

(** X12. [generateImageEmbeddings] has nothing to embed in a task of the
    pipeline: the layout analyzer emits regions of type other only, and
    the handler keeps the types figure, table and image. With an endpoint
    configured it makes no request, emits no event and changes nothing,
    whatever state the pipeline is in and whatever task it is called
    on. *)
Theorem image_embedding_has_nothing_to_embed (w : World) (acts : list Action) (r : nat) :
  IMAGE_EMBEDDING_ENDPOINT w = true ->
  let s := snd (performAll w acts initialState) in
  generateImageEmbeddings w r s = (Ok tt, s).
Proof.
  intros Hend s. unfold generateImageEmbeddings, withTask.
  destruct (heap s !! r) as [t|] eqn:Ht; [|reflexivity].
  destruct (Kept_performAll w acts initialState Inv_initial (Kept_initial w) r t Ht)
    as [(_ & S2 & _) _].
  destruct (layoutPages (metaOf t)) as [lp|] eqn:Hlp; [|reflexivity].
  destruct (S2 lp eq_refl) as (raw & n & _ & ->).
  destruct (LayoutAnalyzer.analyzePages (uuid w) n (id t) 1 raw) as [|l0 ls] eqn:E; [reflexivity|].
  rewrite Hend. cbn [negb]. rewrite <- E, visualRegions_analyzePages. reflexivity.
Qed.

Lemma image_embedding_has_nothing_to_embed_witness :
  let s := snd (performAll (sampleWorld 1) [Submit (upload "a.pdf"); Settle; Settle; Settle]
                  initialState) in
  (exists t lp, heap s !! 0 = Some t /\ layoutPages (metaOf t) = Some lp
                /\ length (concat (map LayoutAnalyzer.regions lp)) = 2)
  /\ generateImageEmbeddings (sampleWorld 1) 0 s = (Ok tt, s).
Proof.
  cbv zeta. split.
  - vm_compute. eexists _, _. repeat split.
  - apply (image_embedding_has_nothing_to_embed (sampleWorld 1)
             [Submit (upload "a.pdf"); Settle; Settle; Settle] 0).
    reflexivity.
Defined.

Lemma simulateSteps_run tid st steps i todo s :
  simulateSteps tid st steps i todo s
  = (Ok tt,
     set_emitted
       (emitted s ++ map (fun k => {| taskId := tid; ev_stage := st;
                                      ev_progress := (stageBaseProgress st
                                        + (inject_Z (Z.of_nat k) / inject_Z (Z.of_nat steps)) * 15)%Q;
                                      message := None |})
                         (seq i todo)) s).
Proof.
  revert i s. induction todo as [|todo IH]; intros i s; cbn [simulateSteps seq map].
  - rewrite app_nil_r. destruct s; reflexivity.
  - cbv zeta. unfold bind at 1. unfold emit at 1, modify at 1. cbv beta iota.
    rewrite IH. cbn [emitted set_emitted]. rewrite <- app_assoc. reflexivity.
Qed.

(** X13. Without an image embedding endpoint, [generateImageEmbeddings]
    on a task with layout pages only simulates the work: it reports
    65 + (k / 4) * 15 for k = 1, 2, 3, 4 under the stage
    generating_image_embeddings, and changes nothing else. *)
Theorem image_embedding_is_simulated (w : World) (r : nat) (s : State) (t : IngestionTask)
    (lp : list LayoutAnalyzer.LayoutPage) :
  heap s !! r = Some t ->
  layoutPages (metaOf t) = Some lp -> lp <> [] ->
  IMAGE_EMBEDDING_ENDPOINT w = false ->
  generateImageEmbeddings w r s
  = (Ok tt,
     set_emitted
       (emitted s ++ map (simulatedReport (id t) generating_image_embeddings) [1; 2; 3; 4]) s).
Proof.
  intros Ht Hlp Hne Hend. unfold generateImageEmbeddings, withTask. rewrite Ht, Hlp.
  destruct lp as [|l0 ls]; [contradiction|]. rewrite Hend. cbn [negb].
  unfold simulateWork. cbv zeta. rewrite simulateSteps_run. reflexivity.
Qed.

Lemma image_embedding_is_simulated_witness :
  let s := snd (performAll offlineWorld [Submit (upload "a.pdf"); Settle; Settle; Settle]
                  initialState) in
  map stageAndProgress
      (drop (length (emitted s)) (emitted (snd (generateImageEmbeddings offlineWorld 0 s))))
  = [ (generating_image_embeddings, (275 # 4)%Q); (generating_image_embeddings, (145 # 2)%Q);
      (generating_image_embeddings, (305 # 4)%Q); (generating_image_embeddings, 80%Q) ].
Proof.
  cbv zeta.
  assert (H : exists t lp,
    heap (snd (performAll offlineWorld [Submit (upload "a.pdf"); Settle; Settle; Settle]
                 initialState)) !! 0 = Some t
    /\ layoutPages (metaOf t) = Some lp /\ lp <> []).
  { vm_compute. eexists _, _. repeat split. discriminate. }
  destruct H as (t & lp & Ht & Hlp & Hne).
  rewrite (image_embedding_is_simulated offlineWorld 0 _ t lp Ht Hlp Hne eq_refl).
  cbn [snd emitted set_emitted]. rewrite drop_app_length. reflexivity.
Defined.

(** ** A file without pages *)

Lemma blank_handler_returns w r s t i st (h : StageHandler) :
  heap s !! r = Some t -> stages !! i = Some (st, h) -> stage t = st ->
  Sound w t -> metaAt st (meta t) ->
  pdfForText w (sourcePath t) = Ok [] ->
  fst (h w r s) = Ok tt.
Proof.
  intros Ht Hi Hst (S1 & _) Hat Hblank.
  assert (Hempty : st <> extracting_text -> metaAt st (meta t) -> st <> failed ->
            missingOrEmpty (textPages (metaOf t)) = true).
  { intros _ _ _. destruct (textPages (metaOf t)) as [tp|] eqn:Htp; [|reflexivity].
    destruct (S1 tp eq_refl) as (raw & Hraw & ->). rewrite Hblank in Hraw.
    injection Hraw as <-. reflexivity. }
  destruct (stage_cases _ _ _ Hi) as [(-> & -> & ->)|[(-> & -> & ->)|[(-> & -> & ->)|(-> & -> & ->)]]].
  - pose proof (extractText_task w r s t Ht) as H. rewrite Hblank in H. apply H.
  - pose proof (layoutAnalysis_task w r s t Ht) as H.
    rewrite Hempty in H by (auto; discriminate). now rewrite H.
  - apply (generateTextEmbeddings_task w r s t Ht).
  - unfold writeDatabase, withTask. rewrite Ht.
    rewrite Hempty by (auto; discriminate). reflexivity.
Qed.

(** X14. A file in which the parser finds no page never fails its task,
    whatever the layout parser, the embedding service and the database
    do: in every state the pipeline reaches, the task is not failed. *)
Theorem blank_file_never_fails (w : World) (acts : list Action) :
  Forall (fun t => pdfForText w (sourcePath t) = Ok [] -> stage t <> failed)
         (heap (snd (performAll w acts initialState))).
Proof.
  induction acts as [|a acts IH] using rev_ind; [constructor|].
  rewrite performAll_app. set (s := snd (performAll w acts initialState)) in *.
  pose proof (Inv_performAll w acts initialState Inv_initial) as HI. fold s in HI.
  pose proof (Kept_performAll w acts initialState Inv_initial (Kept_initial w)) as HK.
  fold s in HK.
  replace (snd (performAll w [a] s)) with (snd (perform w a s))
    by (now rewrite performAll_cons).
  rewrite perform_snd.
  rewrite Forall_lookup in IH. apply Forall_lookup. destruct a as [params|].
  - destruct (createTask_task_cases w params s HI) as (tn & Hh & Hcase).
    intros k t. rewrite Hh, lookup_app_Some. intros [Hk|[_ Hk]]; [now apply (IH k)|].
    destruct (k - length (heap s)) as [|n]; [|discriminate]. injection Hk as <-.
    destruct Hcase as [(_ & -> & _)|(_ & _ & _ & -> & _)]; discriminate.
  - intros k t' Hk'. destruct (heap s !! k) as [t|] eqn:Hk.
    2:{ exfalso. apply lookup_ge_None in Hk. apply lookup_lt_Some in Hk'.
        assert (length (heap (snd (resume w s))) = length (heap s)).
        { rewrite <- (length_map sourcePath), paths_resume, length_map. reflexivity. }
        lia. }
    destruct (resume_task_cases w s k t HI Hk) as (t2 & H2 & Hcase).
    rewrite Hk' in H2. injection H2 as <-.
    destruct (HK k t Hk) as [Hsound Hat].
    destruct Hcase as [->|[(i & st & h & f & F & returned & Haw & Hi & Hst & Hf & Hheap & HS & ->)
                          |(q & c & Hq & Hst & _ & ->)]].
    + now apply (IH k).
    + intros Hblank.
      assert (Hpath : forall g, keepsCore g -> sourcePath (g t) = sourcePath t)
        by (intros g Hg; specialize (Hg t); unfold core in Hg; congruence).
      assert (Hpath' : pdfForText w (sourcePath t) = Ok []).
      { destruct HS; unfold compose, entered, caught in Hblank; cbn in Hblank;
          now rewrite (Hpath f Hf) in Hblank. }
      rewrite Hst in Hat.
      pose proof (blank_handler_returns w k s t i st h Hk Hi Hst Hsound Hat Hpath') as Hok.
      destruct HS as [s1 st' h' _ Hn|s1 _ _|s1 msg Hthrow]; unfold compose, entered, caught; cbn.
      * destruct (stage_cases _ _ _ Hn) as [(_ & -> & _)|[(_ & -> & _)|[(_ & -> & _)|(_ & -> & _)]]];
          discriminate.
      * discriminate.
      * rewrite Hthrow in Hok. discriminate.
    + discriminate.
Qed.

Lemma blank_file_completes :
  let s := snd (performAll blankWorld [Submit (upload "a.pdf"); Settle; Settle; Settle; Settle]
                  initialState) in
  exists t, heap s = [t] /\ stage t = completed /\ textPages (metaOf t) = Some [].
Proof. vm_compute. eexists. repeat split. Qed.

(** ** The smoke test *)

Lemma map_id_alter (F : IngestionTask -> IngestionTask) (r : nat) (l : list IngestionTask) :
  (forall t, id (F t) = id t) -> map id (alter F r l) = map id l.
Proof.
  intros HF. revert r. induction l as [|t l IH]; intros [|r]; cbn; try reflexivity.
  - now rewrite HF.
  - f_equal. apply IH.
Qed.

Lemma ids_resume w s : map id (heap (snd (resume w s))) = map id (heap s).
Proof.
  destruct (awaiting s) as [[r i]|] eqn:Haw; [|now rewrite resume_idle].
  destruct (stages !! i) as [[st h]|] eqn:Hi.
  2:{ unfold resume, bind, gets. cbv beta iota. now rewrite Haw, Hi. }
  destruct (resume_cases w s r i st h Haw Hi) as (f & F & returned & Hf & HS & Hshape).
  assert (HF : forall t, id (F t) = id t).
  { intros t. destruct HS; unfold compose; cbn; apply keepsCore_id_field, Hf. }
  destruct returned.
  - destruct Hshape as [(_ & Hh & _)|(r' & q & c & _ & Hh & _)]; rewrite Hh.
    + now apply map_id_alter.
    + rewrite map_id_alter by reflexivity. now apply map_id_alter.
  - destruct Hshape as (Hh & _). rewrite Hh. now apply map_id_alter.
Qed.

Lemma performAll_snoc w acts a s :
  snd (performAll w (acts ++ [a]) s) = snd (perform w a (snd (performAll w acts s))).
Proof.
  rewrite performAll_app. generalize (snd (performAll w acts s)). intros s'.
  now rewrite performAll_cons.
Qed.

Lemma performAll_one w a s : snd (performAll w [a] s) = snd (perform w a s).
Proof. now rewrite performAll_cons. Qed.

Lemma afterSettles_0 w params :
  afterSettles w params 0 = snd (createTask w params initialState).
Proof. cbn [replicate]. now rewrite performAll_one, perform_snd. Qed.

Lemma afterSettles_S w params n :
  afterSettles w params (S n) = snd (resume w (afterSettles w params n)).
Proof.
  rewrite replicate_S_end, app_comm_cons.
  rewrite performAll_snoc, perform_snd. reflexivity.
Qed.

Lemma afterSettles_add w params n m :
  snd (performAll w (replicate m Settle) (afterSettles w params n))
  = afterSettles w params (n + m).
Proof.
  rewrite <- performAll_app. cbn [app].
  now rewrite <- replicate_add.
Qed.

Lemma Indexed_first w params : Indexed w (afterSettles w params 0).
Proof.
  rewrite afterSettles_0. destruct (createTask_state w params initialState) as (e & ->).
  apply (keepsIndex_runNext w (pushed w params initialState)).
  unfold Indexed, pushed. cbn.
  split; [|split].
  - intros [|r] t [= <-]. exists 0. split; [lia | reflexivity].
  - intros [|r] t [= <-]. cbn. now rewrite lookup_insert_eq.
  - intros tid r. destruct (decide (tid = uuid w 0)) as [->|Hne].
    + rewrite lookup_insert_eq. intros [= <-]. eexists. split; reflexivity.
    + rewrite lookup_insert_ne by congruence. intros H. discriminate.
Qed.

Lemma Indexed_afterSettles w params n : Indexed w (afterSettles w params n).
Proof.
  induction n as [|n IH]; [apply Indexed_first|].
  rewrite afterSettles_S. now apply keepsIndex_resume.
Qed.

Lemma ids_afterSettles w params n :
  map id (heap (afterSettles w params n)) = [uuid w 0].
Proof.
  induction n as [|n IH].
  - rewrite afterSettles_0.
    destruct (createTask_task_cases w params initialState Inv_initial) as (tn & Hh & Hcase).
    rewrite Hh. destruct Hcase as [(_ & -> & _)|(_ & _ & _ & -> & _)]; reflexivity.
  - now rewrite afterSettles_S, ids_resume.
Qed.

Lemma submissions_settles n : submissions (replicate n Settle) = [].
Proof. induction n as [|n IH]; [reflexivity | exact IH]. Qed.

Lemma paths_afterSettles w params n :
  map sourcePath (heap (afterSettles w params n)) = [params_sourcePath params].
Proof.
  rewrite paths_performAll.
  change (submissions (Submit params :: replicate n Settle))
    with (params :: submissions (replicate n Settle)).
  now rewrite submissions_settles.
Qed.

Lemma afterSettles_task w params n :
  exists t,
    heap (afterSettles w params n) = [t]
    /\ id t = uuid w 0 /\ sourcePath t = params_sourcePath params
    /\ getTask (uuid w 0) (afterSettles w params n) = Some t.
Proof.
  pose proof (Indexed_afterSettles w params n) as HI.
  pose proof (ids_afterSettles w params n) as Hids.
  pose proof (paths_afterSettles w params n) as Hp.
  destruct (heap (afterSettles w params n)) as [|t [|t' l]] eqn:Hh; try discriminate.
  exists t. injection Hids as Hid. injection Hp as Hpath.
  split; [reflexivity|]. split; [exact Hid|]. split; [exact Hpath|].
  destruct HI as (_ & I2 & _). unfold getTask.
  assert (Ht : heap (afterSettles w params n) !! 0 = Some t) by now rewrite Hh.
  rewrite <- Hid, (I2 0 t Ht). cbv beta iota. exact Ht.
Qed.

Lemma main_eq w path rounds :
  IngestionTest.main w path rounds
  = IngestionTest.loop w (uuid w 0) rounds (afterSettles w (IngestionTest.testParams path) 0).
Proof.
  unfold IngestionTest.main.
  destruct (createTask_eq w (IngestionTest.testParams path) initialState) as (Hfst & _).
  destruct (afterSettles_task w (IngestionTest.testParams path) 0) as (t & Hh & Hid & _).
  rewrite afterSettles_0 in *.
  destruct (createTask w (IngestionTest.testParams path) initialState) as [[r|msg] s];
    cbn [fst snd] in *; [|discriminate].
  injection Hfst as ->. cbn [heap initialState length]. rewrite Hh. cbn. now rewrite Hid.
Qed.

Lemma afterSettles_fate w params n t :
  heap (afterSettles w params n) = [t] -> fateOk w t.
Proof.
  intros Hh.
  apply (Fate_performAll w (Submit params :: replicate n Settle) initialState
           Inv_initial (Fate_initial w) 0 t).
  rewrite Hh. reflexivity.
Qed.

Lemma Inv_afterSettles w params n : Inv (afterSettles w params n).
Proof. apply Inv_performAll, Inv_initial. Qed.

Lemma afterSettles_ends w params n t :
  4 <= n -> heap (afterSettles w params n) = [t] -> terminal (stage t).
Proof.
  intros Hn Hh.
  pose proof (Inv_afterSettles w params n) as HI.
  assert (Hidle : awaiting (afterSettles w params n) = None).
  { change (afterSettles w params n) with (afterSettles w params (0 + n)).
    rewrite <- afterSettles_add.
    apply settles_reach_idle; [apply Inv_afterSettles|].
    etransitivity; [apply work_bounded, Inv_afterSettles|].
    destruct (afterSettles_task w params 0) as (t0 & -> & _). cbn. lia. }
  apply (inv_done _ HI 0 t).
  - now rewrite Hh.
  - rewrite (inv_idle _ HI Hidle). intros Hin. inversion Hin.
  - rewrite Hidle. discriminate.
Qed.

Lemma idle_stays w n s :
  awaiting s = None -> snd (performAll w (replicate n Settle) s) = s.
Proof.
  intros Hidle. induction n as [|n IH]; [reflexivity|].
  cbn [replicate]. rewrite performAll_cons, perform_snd.
  rewrite resume_idle by exact Hidle. exact IH.
Qed.

Lemma afterSettles_first w params :
  exists t, heap (afterSettles w params 0) = [t]
    /\ stage t = extracting_text
    /\ sourcePath t = params_sourcePath params
    /\ awaiting (afterSettles w params 0) = Some (0, 0)
    /\ queue (afterSettles w params 0) = [].
Proof.
  rewrite afterSettles_0.
  destruct (createTask_task_cases w params initialState Inv_initial) as (tn & Hh & Hcase).
  exists tn. split; [exact Hh|].
  destruct Hcase as [(Hr & _)|(_ & _ & _ & -> & Hq & Haw)]; [discriminate|].
  split; [reflexivity|]. split; [reflexivity|]. split; [exact Haw | exact Hq].
Qed.

Lemma afterSettles_broken w params msg n :
  pdfForText w (params_sourcePath params) = Throw msg ->
  exists t, heap (afterSettles w params (S n)) = [t]
    /\ stage t = failed /\ error t = Some msg.
Proof.
  intros Hbroken.
  assert (H1 : exists t, heap (afterSettles w params 1) = [t]
             /\ stage t = failed /\ error t = Some msg
             /\ awaiting (afterSettles w params 1) = None).
  { rewrite afterSettles_S.
    destruct (afterSettles_first w params) as (t0 & Hh & Hst & Hpath & Haw & Hq).
    generalize dependent (afterSettles w params 0). intros s0 Hh Haw Hq.
    destruct (resume_cases w s0 0 0 extracting_text extractText Haw eq_refl)
      as (f & F & returned & Hf & HS & Hcase).
    assert (Ht0 : heap s0 !! 0 = Some t0) by now rewrite Hh.
    assert (Hraise : extractText w 0 s0 = (Throw msg, s0)).
    { apply (extractText_raises w 0 s0 t0 msg Ht0). now rewrite Hpath. }
    inversion HS as [s1 st' h' E|s1 E|s1 msg' E]; subst; rewrite Hraise in E;
      try discriminate.
    injection E as <- <-.
    destruct Hcase as [(_ & Hheap & _ & _ & Hidle)|(r' & q & c & Hq' & _)];
      [|rewrite Hq in Hq'; discriminate].
    exists (caught msg (clock s0) (f t0)). rewrite Hheap, Hh. auto. }
  destruct H1 as (t & Hh & Hst & Herr & Hidle). exists t.
  change (S n) with (1 + n). rewrite <- afterSettles_add, idle_stays by exact Hidle.
  auto.
Qed.

(** X15. The smoke test on a file for which nothing can fail: whatever
    the rounds, the test never prints task_not_found, ingestion_failed or
    an unexpected error; and when at least four handlers settle during the
    first sleep, which starts before the timeout, the second round prints
    ingestion_completed and the test exits with code 0. *)
Theorem smoke_test_on_a_healthy_file (w : World) (path : string) :
  Healthy w path ->
  (forall rounds,
     match IngestionTest.main w path rounds with
     | None | Some IngestionTest.ingestion_completed
     | Some (IngestionTest.ingestion_timeout _) => True
     | _ => False
     end)
  /\ (forall elapsed settles round rest,
        (elapsed <= IngestionTest.timeoutMs)%Z -> 4 <= settles ->
        IngestionTest.main w path ((elapsed, settles) :: round :: rest)
        = Some IngestionTest.ingestion_completed
        /\ IngestionTest.exitCode IngestionTest.ingestion_completed = 0).
Proof.
  intros Hhealthy. set (params := IngestionTest.testParams path).
  assert (Hpoll : forall n elapsed,
            match IngestionTest.poll (uuid w 0) elapsed (afterSettles w params n) with
            | None | Some IngestionTest.ingestion_completed
            | Some (IngestionTest.ingestion_timeout _) => True
            | _ => False
            end
            /\ (4 <= n -> IngestionTest.poll (uuid w 0) elapsed (afterSettles w params n)
                          = Some IngestionTest.ingestion_completed)
            /\ (n = 0 -> (elapsed <= IngestionTest.timeoutMs)%Z ->
                IngestionTest.poll (uuid w 0) elapsed (afterSettles w params n) = None)).
  { intros n elapsed.
    destruct (afterSettles_task w params n) as (t & Hh & Hid & Hpath & Hget).
    destruct (afterSettles_fate w params n t Hh) as [Hfate _].
    rewrite Hpath in Hfate. specialize (Hfate Hhealthy).
    unfold IngestionTest.poll. rewrite Hget. split; [|split].
    - destruct (stage t); try contradiction; try exact I;
        destruct (IngestionTest.timeoutMs <? elapsed)%Z; exact I.
    - intros Hn. destruct (afterSettles_ends w params n t Hn Hh) as [->|E];
        [reflexivity | contradiction].
    - intros -> He.
      assert (Hst : stage t = extracting_text).
      { rewrite afterSettles_0 in Hh.
        destruct (createTask_task_cases w params initialState Inv_initial) as (tn & Hh' & Hcase).
        rewrite Hh' in Hh. injection Hh as <-.
        destruct Hcase as [(Hr & _)|(_ & _ & _ & -> & _)]; [discriminate | reflexivity]. }
      rewrite Hst. destruct (IngestionTest.timeoutMs <? elapsed)%Z eqn:E; [lia | reflexivity]. }
  assert (Hloop : forall rounds n,
            match IngestionTest.loop w (uuid w 0) rounds (afterSettles w params n) with
            | None | Some IngestionTest.ingestion_completed
            | Some (IngestionTest.ingestion_timeout _) => True
            | _ => False
            end).
  { induction rounds as [|[elapsed settles] rest IH]; intros n; cbn [IngestionTest.loop];
      [exact I|].
    destruct (Hpoll n elapsed) as (H1 & _).
    destruct (IngestionTest.poll (uuid w 0) elapsed (afterSettles w params n)) as [r|];
      [exact H1|].
    rewrite afterSettles_add. apply IH. }
  split.
  - intros rounds. rewrite main_eq. apply Hloop.
  - intros elapsed settles [e2 n2] rest He Hs. split; [|reflexivity].
    rewrite main_eq. cbn [IngestionTest.loop]. fold params.
    destruct (Hpoll 0 elapsed) as (_ & _ & H0). rewrite (H0 eq_refl He).
    rewrite afterSettles_add. cbn [Nat.add].
    destruct (Hpoll settles e2) as (_ & H4 & _). now rewrite (H4 Hs).
Qed.

Lemma smoke_test_on_a_healthy_file_witness :
  IngestionTest.main (sampleWorld 1) "a.pdf" [(0%Z, 4); (1000%Z, 0)]
  = Some IngestionTest.ingestion_completed.
Proof.
  apply (proj2 (smoke_test_on_a_healthy_file (sampleWorld 1) "a.pdf"
                  (healthy_sample 1 "a.pdf" eq_refl)) 0%Z 4 (1000%Z, 0) []).
  - unfold IngestionTest.timeoutMs. lia.
  - lia.
Defined.

(** X16. The smoke test on a file whose text cannot be extracted never
    prints ingestion_completed; once a handler has settled during the
    first sleep, the second round prints ingestion_failed with the message
    of the parser, and the test exits with code 1. *)
Theorem smoke_test_on_a_broken_file (w : World) (path msg : string) :
  pdfForText w path = Throw msg ->
  (forall rounds, IngestionTest.main w path rounds <> Some IngestionTest.ingestion_completed)
  /\ (forall elapsed settles round rest,
        (elapsed <= IngestionTest.timeoutMs)%Z -> 1 <= settles ->
        IngestionTest.main w path ((elapsed, settles) :: round :: rest)
        = Some (IngestionTest.ingestion_failed (Some msg))
        /\ IngestionTest.exitCode (IngestionTest.ingestion_failed (Some msg)) = 1).
Proof.
  intros Hbroken. set (params := IngestionTest.testParams path).
  assert (Hfirst : forall elapsed,
            IngestionTest.poll (uuid w 0) elapsed (afterSettles w params 0)
            = if (IngestionTest.timeoutMs <? elapsed)%Z
              then Some (IngestionTest.ingestion_timeout extracting_text) else None).
  { intros elapsed.
    destruct (afterSettles_task w params 0) as (t & Hh & _ & _ & Hget).
    destruct (afterSettles_first w params) as (t' & Hh' & Hst & _).
    rewrite Hh in Hh'. injection Hh' as <-.
    unfold IngestionTest.poll. now rewrite Hget, Hst. }
  assert (Hlater : forall n elapsed,
            IngestionTest.poll (uuid w 0) elapsed (afterSettles w params (S n))
            = Some (IngestionTest.ingestion_failed (Some msg))).
  { intros n elapsed.
    destruct (afterSettles_task w params (S n)) as (t & Hh & _ & _ & Hget).
    destruct (afterSettles_broken w params msg n Hbroken) as (t' & Hh' & Hst & Herr).
    rewrite Hh in Hh'. injection Hh' as <-.
    unfold IngestionTest.poll. now rewrite Hget, Hst, Herr. }
  assert (Hloop : forall rounds n,
            IngestionTest.loop w (uuid w 0) rounds (afterSettles w params n)
            <> Some IngestionTest.ingestion_completed).
  { induction rounds as [|[elapsed settles] rest IH]; intros n; cbn [IngestionTest.loop];
      [discriminate|].
    destruct n as [|n].
    - rewrite Hfirst. destruct (IngestionTest.timeoutMs <? elapsed)%Z; [discriminate|].
      rewrite afterSettles_add. apply IH.
    - rewrite Hlater. discriminate. }
  split.
  - intros rounds. rewrite main_eq. apply Hloop.
  - intros elapsed settles [e2 n2] rest He Hs. split; [|reflexivity].
    rewrite main_eq. cbn [IngestionTest.loop]. fold params.
    rewrite Hfirst. destruct (IngestionTest.timeoutMs <? elapsed)%Z eqn:E; [lia|].
    rewrite afterSettles_add. cbn [Nat.add].
    destruct settles as [|k]; [lia|]. now rewrite Hlater.
Qed.

Lemma smoke_test_on_a_broken_file_witness :
  IngestionTest.main (sampleWorld 1) "b.pdf" [(0%Z, 1); (1000%Z, 0)]
  = Some (IngestionTest.ingestion_failed (Some "bad pdf")).
Proof.
  apply (proj2 (smoke_test_on_a_broken_file (sampleWorld 1) "b.pdf" "bad pdf" eq_refl)
           0%Z 1 (1000%Z, 0) []).
  - unfold IngestionTest.timeoutMs. lia.
  - lia.
Defined.

(** * The search routes (index.ts) *)

(** ** Grouping rows by page *)

Lemma group_lookup {A B} (key : A -> nat) (val : A -> B) (rows : list A)
    (m0 : gmap nat (list B)) (pn : nat) :
  default [] (fold_left (fun m r => <[key r := default [] (m !! key r) ++ [val r]]> m)
                        rows m0 !! pn)
  = default [] (m0 !! pn) ++ map val (onPage key pn rows).
Proof.
  revert m0. induction rows as [|r rows IH]; intros m0; cbn [fold_left].
  - unfold onPage. cbn. now rewrite app_nil_r.
  - rewrite IH. unfold onPage. rewrite filter_cons.
    destruct (decide (key r = pn)) as [->|Hne].
    + rewrite lookup_insert_eq. cbn. now rewrite <- app_assoc.
    + rewrite lookup_insert_ne by exact Hne. reflexivity.
Qed.

Lemma groupRegions_lookup (regions : list Search.RegionRow) (pn : nat) :
  default [] (Search.groupRegions regions !! pn)
  = map Search.vr_id (onPage Search.vr_pageNumber pn regions).
Proof.
  unfold Search.groupRegions.
  rewrite (group_lookup Search.vr_pageNumber Search.vr_id regions ∅ pn).
  now rewrite lookup_empty.
Qed.

Lemma groupRows_lookup (regions : list Routes.VisualRegionRow) (pn : nat) :
  default [] (Routes.groupRows regions !! pn) = onPage Routes.reg_pageNumber pn regions.
Proof.
  unfold Routes.groupRows.
  rewrite (group_lookup Routes.reg_pageNumber (fun r => r) regions ∅ pn).
  rewrite lookup_empty. cbn. now rewrite map_id.
Qed.

(** ** What a result cites *)

Ltac zbool :=
  repeat match goal with
  | H : (_ <? _)%Z = true |- _ => apply Z.ltb_lt in H
  | H : (_ <? _)%Z = false |- _ => apply Z.ltb_ge in H
  | H : (_ <=? _)%Z = true |- _ => apply Z.leb_le in H
  | H : (_ <=? _)%Z = false |- _ => apply Z.leb_gt in H
  | H : (_ =? _)%Z = true |- _ => apply Z.eqb_eq in H
  | H : (_ =? _)%Z = false |- _ => apply Z.eqb_neq in H
  end.

Lemma at_elem {A} (l : list A) (k : Z) (a : A) : Search.at_ l k = Some a -> a ∈ l.
Proof.
  unfold Search.at_. destruct (k <? 0)%Z; [discriminate|].
  apply list_elem_of_lookup_2.
Qed.

Lemma slice_elem {A} (l : list A) (a b : Z) (x : A) : x ∈ Search.slice l a b -> x ∈ l.
Proof.
  unfold Search.slice. cbv zeta. intros H.
  apply elem_of_take in H as (i & H & _). rewrite lookup_drop in H.
  now apply list_elem_of_lookup_2 in H.
Qed.

Lemma slice_length {A} (l : list A) (a b : Z) :
  (0 <= a)%Z -> (0 <= b)%Z ->
  (Z.of_nat (length (Search.slice l a b)) <= Z.max 0 (b - a))%Z.
Proof.
  intros Ha Hb. unfold Search.slice, Search.relativeIndex. cbv zeta.
  rewrite length_take.
  destruct (a <? 0)%Z eqn:E1; [lia|]. destruct (b <? 0)%Z eqn:E2; lia.
Qed.

Lemma picked_from_the_page toLowerCase pn text query (m : gmap nat (list string)) rid :
  Some rid ∈ Search.pickRegionIdsForText toLowerCase pn text query m ->
  rid ∈ default [] (m !! pn).
Proof.
  unfold Search.pickRegionIdsForText. cbv zeta.
  set (ids := default [] (m !! pn)).
  assert (Hone : forall k, Some rid ∈ [Search.at_ ids k] -> rid ∈ ids).
  { intros k H. apply list_elem_of_singleton in H. symmetry in H. now apply at_elem in H. }
  destruct (length ids =? 0); [intros H; inversion H|].
  destruct (_ =? -1)%Z; [apply Hone|].
  destruct (_ <? 0)%Z; [apply Hone|].
  match goal with |- context [Search.slice ids ?a ?b] => set (sel := Search.slice ids a b) end.
  destruct (0 <? length sel); [|apply Hone].
  intros H. apply list_elem_of_fmap in H as (x & [= ->] & Hx).
  now apply slice_elem in Hx.
Qed.

Lemma window_size {A} (ids : list A) (L : Z) :
  (0 <= L)%Z ->
  let startIndex := (L - 1)%Z in
  let endIndex := (L + 1)%Z in
  let startIndex := if (startIndex <? 0)%Z then 0%Z else startIndex in
  let endIndex :=
    if (Z.of_nat (length ids) <=? endIndex)%Z
    then (Z.of_nat (length ids) - 1)%Z else endIndex in
  let endIndex := if (endIndex <? startIndex)%Z then startIndex else endIndex in
  length (Search.slice ids startIndex (endIndex + 1)) <= 3.
Proof.
  intros HL. cbv zeta.
  match goal with |- length (Search.slice ids ?a ?b) <= 3 =>
    assert (H : (0 <= a)%Z /\ (0 <= b)%Z /\ (b - a <= 3)%Z);
      [|pose proof (slice_length ids a b (proj1 H) (proj1 (proj2 H))); lia]
  end.
  repeat match goal with |- context [if ?c then _ else _] => destruct c eqn:? end;
    zbool; lia.
Qed.

(** X17. The regions a page match cites: none when the page has no
    region, otherwise between one and three entries. *)
Theorem pick_between_one_and_three (toLowerCase : jsstring -> jsstring) (pn : nat)
    (text query : jsstring) (m : gmap nat (list string)) :
  let picked := Search.pickRegionIdsForText toLowerCase pn text query m in
  (default [] (m !! pn) = [] -> picked = [])
  /\ (default [] (m !! pn) <> [] -> 1 <= length picked <= 3).
Proof.
  cbv zeta. unfold Search.pickRegionIdsForText. cbv zeta.
  set (ids := default [] (m !! pn)).
  split.
  - intros ->. reflexivity.
  - intros Hne. destruct ids as [|i0 ids'] eqn:Hids; [contradiction|].
    rewrite <- Hids. replace (length ids =? 0) with false by (now rewrite Hids).
    destruct (_ =? -1)%Z; [cbn; lia|].
    destruct (_ <? 0)%Z eqn:Hneg; [cbn; lia|]. zbool.
    match goal with
    | |- context [Search.slice ids ?a ?b] =>
        pose proof (window_size ids _ Hneg) as Hw; cbv zeta in Hw;
        generalize dependent (Search.slice ids a b)
    end.
    intros sel Hw. destruct (0 <? length sel) eqn:Hsel; [|cbn; lia].
    rewrite length_map. apply Nat.ltb_lt in Hsel. lia.
Qed.

Lemma unique_elem (seen l : list nat) (n : nat) :
  n ∈ l -> n ∈ seen \/ n ∈ Search.unique seen l.
Proof.
  revert seen. induction l as [|a l IH]; intros seen Hn; [inversion Hn|].
  cbn [Search.unique]. apply elem_of_cons in Hn as [->|Hn].
  - destruct (bool_decide (a ∈ seen)) eqn:E.
    + left. now apply bool_decide_eq_true in E.
    + right. left.
  - destruct (bool_decide (a ∈ seen)) eqn:E.
    + now apply IH.
    + destruct (IH (a :: seen) Hn) as [H|H].
      * apply elem_of_cons in H as [->|H]; [right; left | now left].
      * right. now right.
Qed.

Lemma buildResult_cites toLowerCase docId query (regions : list Search.RegionRow) pn text rid :
  Some rid ∈ Search.regionIds
               (Search.buildResult toLowerCase docId query (Search.groupRegions regions) pn text) ->
  exists row, row ∈ regions /\ Search.vr_id row = rid /\ Search.vr_pageNumber row = pn.
Proof.
  cbn [Search.buildResult Search.regionIds]. intros H.
  apply picked_from_the_page in H. rewrite groupRegions_lookup in H.
  apply list_elem_of_fmap in H as (row & -> & Hrow).
  unfold onPage in Hrow. apply list_elem_of_filter in Hrow as [Hpn Hrow].
  now exists row.
Qed.

Lemma buildResults_cite toLowerCase prisma docId query matches results r rid :
  Search.buildResultsFromTextPages toLowerCase prisma docId query matches = Ok results ->
  r ∈ results -> Some rid ∈ Search.regionIds r ->
  exists pns rows row,
    Search.visualRegion_findMany prisma docId pns = Ok rows
    /\ Search.pageNumber r ∈ pns
    /\ row ∈ rows /\ Search.vr_id row = rid
    /\ Search.vr_pageNumber row = Search.pageNumber r.
Proof.
  unfold Search.buildResultsFromTextPages. intros Hres Hr Hrid.
  destruct matches as [|m0 ms]; [injection Hres as <-; inversion Hr|].
  remember (m0 :: ms) as matches eqn:Hmatches. clear Hmatches.
  destruct (Search.visualRegion_findMany prisma docId
              (Search.unique [] (map Search.tp_pageNumber matches))) as [rows|msg] eqn:Hrows;
    cbn [Search.bindO] in Hres; [|discriminate].
  injection Hres as <-. apply list_elem_of_fmap in Hr as (m & -> & Hm).
  destruct (buildResult_cites _ _ _ _ _ _ _ Hrid) as (row & H1 & H2 & H3).
  exists (Search.unique [] (map Search.tp_pageNumber matches)), rows, row.
  split; [exact Hrows|]. split; [|auto].
  cbn [Search.buildResult Search.pageNumber].
  destruct (unique_elem [] (map Search.tp_pageNumber matches) (Search.tp_pageNumber m))
    as [H|H]; [now apply list_elem_of_fmap_2 | inversion H | exact H].
Qed.

(** X18. A result of the semantic search only cites regions of its own
    page: every region identity in its list is the identity of a row of
    that page among the regions the store returned for the pages of the
    results. *)
Theorem results_cite_regions_of_their_page
    (toLowerCase : jsstring -> jsstring) (prisma : Search.Persistence)
    (openai : Search.Generation) (docId : string) (q : jsstring) (limit : option Z)
    (results : list Search.SemanticSearchResultItem)
    (r : Search.SemanticSearchResultItem) (rid : string) :
  Search.semanticSearch toLowerCase prisma openai docId q limit = Ok results ->
  r ∈ results ->
  Some rid ∈ Search.regionIds r ->
  exists pns rows row,
    Search.visualRegion_findMany prisma docId pns = Ok rows
    /\ Search.pageNumber r ∈ pns
    /\ row ∈ rows /\ Search.vr_id row = rid
    /\ Search.vr_pageNumber row = Search.pageNumber r.
Proof.
  unfold Search.semanticSearch. cbv zeta. intros Hres Hr Hrid.
  destruct (Search.textPage_findMany prisma 0 docId q (default 10%Z limit))
    as [keywordMatches|msg]; cbn [Search.bindO] in Hres; [|discriminate].
  destruct (0 <? length keywordMatches);
    [exact (buildResults_cite _ _ _ _ _ _ _ _ Hres Hr Hrid)|].
  destruct (negb (Search.OPENAI_API_KEY openai)); [discriminate|].
  destruct (Search.embeddings_create openai q) as [embedding|msg];
    cbn [Search.bindO] in Hres; [|discriminate].
  assert (Hagain :
    Search.bindO (Search.textPage_findMany prisma 1 docId q (default 10%Z limit))
      (Search.buildResultsFromTextPages toLowerCase prisma docId q) = Ok results ->
    exists pns rows row,
      Search.visualRegion_findMany prisma docId pns = Ok rows
      /\ Search.pageNumber r ∈ pns
      /\ row ∈ rows /\ Search.vr_id row = rid
      /\ Search.vr_pageNumber row = Search.pageNumber r).
  { destruct (Search.textPage_findMany prisma 1 docId q (default 10%Z limit)) as [again|msg];
      cbn [Search.bindO]; [|discriminate].
    intros H. exact (buildResults_cite _ _ _ _ _ _ _ _ H Hr Hrid). }
  destruct embedding as [[|e0 es]|]; [exact (Hagain Hres)| |exact (Hagain Hres)].
  destruct (Search.queryRaw_similarity prisma docId (e0 :: es) (default 10%Z limit))
    as [rows|msg]; cbn [Search.bindO] in Hres; [|discriminate].
  destruct rows as [|row0 rows']; [exact (Hagain Hres)|].
  remember (row0 :: rows') as rows eqn:Hrows0. clear Hrows0.
  destruct (Search.visualRegion_findMany prisma docId
              (Search.unique [] (map Search.row_pageNumber rows))) as [regions|msg] eqn:Hregions;
    cbn [Search.bindO] in Hres; [|discriminate].
  injection Hres as <-. apply list_elem_of_fmap in Hr as (row & -> & Hrow).
  destruct (buildResult_cites _ _ _ _ _ _ _ Hrid) as (reg & H1 & H2 & H3).
  exists (Search.unique [] (map Search.row_pageNumber rows)), regions, reg.
  split; [exact Hregions|]. split; [|auto].
  cbn [Search.buildResult Search.pageNumber].
  destruct (unique_elem [] (map Search.row_pageNumber rows) (Search.row_pageNumber row))
    as [H|H]; [now apply list_elem_of_fmap_2 | inversion H | exact H].
Qed.

Lemma results_cite_witness :
  exists pns rows row,
    Search.visualRegion_findMany sampleStore "doc" pns = Ok rows
    /\ 1 ∈ pns
    /\ row ∈ rows /\ Search.vr_id row = "r1" /\ Search.vr_pageNumber row = 1.
Proof.
  apply (results_cite_regions_of_their_page (fun s => s) sampleStore failingGeneration
           "doc" (of_string "cd") None
           [ {| Search.documentId := "doc"; Search.pageNumber := 1;
                Search.snippet := threeLines;
                Search.regionIds := [Some "r0"; Some "r1"; Some "r2"] |} ]
           {| Search.documentId := "doc"; Search.pageNumber := 1;
              Search.snippet := threeLines;
              Search.regionIds := [Some "r0"; Some "r1"; Some "r2"] |}
           "r1").
  - vm_compute. reflexivity.
  - left.
  - right. left.
Defined.

(** ** Snippets *)

(** X19. A snippet is at most 120 code units of the page text, the
    query's length, and one ellipsis on each side: at most
    [length query + 122] code units; without a match it is at most the
    first 120 code units of the text. *)
Theorem snippet_is_short (toLowerCase : jsstring -> jsstring) (text query : jsstring) :
  length (Search.makeSnippet toLowerCase text query) <= length query + 122
  /\ (Search.indexOf (toLowerCase text) (toLowerCase query) = (-1)%Z ->
      Search.makeSnippet toLowerCase text query = take 120 text).
Proof.
  unfold Search.makeSnippet. cbv zeta.
  pose proof (indexOf_range (toLowerCase text) (toLowerCase query)) as Hrange.
  destruct (Search.indexOf (toLowerCase text) (toLowerCase query) =? -1)%Z eqn:E; zbool.
  - rewrite slice_prefix by lia. split; [|reflexivity].
    rewrite length_take. lia.
  - specialize (Hrange E). split; [|contradiction].
    rewrite !length_app.
    match goal with |- context [Search.slice text ?a ?b] =>
      pose proof (slice_length text a b ltac:(lia) ltac:(lia)) as Hlen
    end.
    assert (Hell : forall b : bool, length (if b then Search.ellipsis else []) <= 1)
      by (intros []; cbn; lia).
    match goal with |- length (if ?b1 then _ else _) + (_ + length (if ?b2 then _ else _)) <= _ =>
      pose proof (Hell b1); pose proof (Hell b2)
    end.
    lia.
Qed.

(** ** The plain search route *)

(** X20. The plain search route and the semantic search agree on literal
    matches: when the literal query for 20 rows finds a page, the plain
    route sends what the semantic search returns for the limit 20, and
    raises when it raises. When the literal query finds nothing the
    plain route sends an empty list; when it is rejected the plain route
    raises, where the semantic route sends an empty list. *)
Theorem plain_search_agrees_with_semantic_search
    (toLowerCase : jsstring -> jsstring) (prisma : Search.Persistence)
    (openai : Search.Generation) (docId : string) (q : jsstring) :
  let literal := Search.textPage_findMany prisma 0 docId q 20 in
  (forall matches, literal = Ok matches -> matches <> [] ->
     Routes.searchRoute toLowerCase prisma docId q
     = Search.bindO (Search.semanticSearch toLowerCase prisma openai docId q (Some 20%Z))
         (fun results => Ok (Search.Results docId q results)))
  /\ (literal = Ok [] ->
      Routes.searchRoute toLowerCase prisma docId q = Ok (Search.Results docId q []))
  /\ (forall msg, literal = Throw msg ->
        Routes.searchRoute toLowerCase prisma docId q = Throw msg
        /\ Search.searchSemanticRoute toLowerCase prisma openai docId q (Some 20%Z)
           = Search.Results docId q []).
Proof.
  cbv zeta. unfold Routes.searchRoute, Search.searchSemanticRoute, Search.semanticSearch.
  cbv zeta. change (default 10%Z (Some 20%Z)) with 20%Z.
  split; [|split].
  - intros matches -> Hne. cbn [Search.bindO].
    destruct matches as [|m0 ms]; [contradiction|].
    change (length (m0 :: ms) =? 0) with false. change (0 <? length (m0 :: ms)) with true.
    cbv iota. unfold Search.buildResultsFromTextPages. cbv iota.
    destruct (Search.visualRegion_findMany prisma docId
                (Search.unique [] (map Search.tp_pageNumber (m0 :: ms)))) as [regions|msg];
      reflexivity.
  - intros ->. reflexivity.
  - intros msg ->. split; reflexivity.
Qed.

(** ** The regions route *)

(** X21. The regions route lists, under every stored page, exactly the
    stored regions with the number of this page, in the order of the
    store; a region of a page that is not stored is left out. The reply
    has the pages of the store, in their order. *)
Theorem regions_route_groups_by_page (store : Routes.Store) (docId : string)
    (pages : list Routes.PageRow) (regions : list Routes.VisualRegionRow) :
  Routes.page_findMany store docId = Ok pages ->
  Routes.region_findMany store docId = Ok regions ->
  exists reply,
    Routes.regionsRoute store docId = Ok reply
    /\ Routes.regions_documentId reply = docId
    /\ map Routes.page_pageNumber (Routes.regions_pages reply) = map Routes.pg_pageNumber pages
    /\ Forall (fun p =>
                 Routes.page_regions p
                 = map Routes.regionReply
                       (onPage Routes.reg_pageNumber (Routes.page_pageNumber p) regions))
              (Routes.regions_pages reply)
    /\ (forall p r, p ∈ Routes.regions_pages reply -> r ∈ Routes.page_regions p ->
          Routes.region_pageNumber r = Routes.page_pageNumber p).
Proof.
  intros Hpages Hregions. unfold Routes.regionsRoute. rewrite Hpages, Hregions.
  cbn [Search.bindO]. eexists. split; [reflexivity|].
  cbn [Routes.regions_documentId Routes.regions_pages].
  assert (Hall : Forall (fun p =>
                 Routes.page_regions p
                 = map Routes.regionReply
                       (onPage Routes.reg_pageNumber (Routes.page_pageNumber p) regions))
            (map (fun p =>
               {| Routes.page_pageNumber := Routes.pg_pageNumber p;
                  Routes.page_width := Routes.pg_width p;
                  Routes.page_height := Routes.pg_height p;
                  Routes.page_regions :=
                    map Routes.regionReply
                      (default [] (Routes.groupRows regions !! Routes.pg_pageNumber p)) |})
               pages)).
  { apply Forall_fmap, Forall_forall. intros p _. cbn. now rewrite groupRows_lookup. }
  split; [reflexivity|]. split; [|split; [exact Hall|]].
  - rewrite <- list_fmap_compose. reflexivity.
  - intros p r Hp Hr. rewrite Forall_forall in Hall. rewrite (Hall p Hp) in Hr.
    apply list_elem_of_fmap in Hr as (row & -> & Hrow).
    unfold onPage in Hrow. apply list_elem_of_filter in Hrow as [Hpn _]. exact Hpn.
Qed.

Lemma regions_route_witness :
  exists reply,
    Routes.regionsRoute twoPageStore "doc" = Ok reply
    /\ map (fun p => (Routes.page_pageNumber p, map Routes.region_id (Routes.page_regions p)))
           (Routes.regions_pages reply)
       = [(1, ["a"; "b"]); (2, ["c"])].
Proof.
  destruct (regions_route_groups_by_page twoPageStore "doc" _ _ eq_refl eq_refl)
    as (reply & Hreply & _ & Hpages & Hregions & _).
  exists reply. split; [exact Hreply|].
  destruct (Routes.regions_pages reply) as [|p1 [|p2 [|p3 rest]]]; try discriminate Hpages.
  cbn [map] in Hpages. injection Hpages as H1 H2.
  apply Forall_cons in Hregions as [R1 Hregions].
  apply Forall_cons in Hregions as [R2 _].
  cbn [map]. rewrite R1, R2, H1, H2. reflexivity.
Defined.

(** * Allowed origins (index.ts) *)

Lemma includes_true allowed v : Cors.includes allowed v = true <-> v ∈ allowed.
Proof. unfold Cors.includes. apply bool_decide_eq_true. Qed.

Lemma includes_false allowed v : Cors.includes allowed v = false <-> v ∉ allowed.
Proof. unfold Cors.includes. apply bool_decide_eq_false. Qed.

Lemma allowed_configured (value o : jsstring) :
  value <> [] -> o <> [] ->
  o ∈ Cors.getAllowedOrigins (Some value) <-> o ∈ configuredOrigins value.
Proof.
  intros Hv Ho. unfold Cors.getAllowedOrigins, configuredOrigins.
  destruct value as [|c value]; [contradiction|]. cbn [isEmpty].
  rewrite list_elem_of_In, filter_In, <- list_elem_of_In.
  split; [now intros [H _]|]. intros H. split; [exact H|].
  destruct o; [contradiction | reflexivity].
Qed.

(** X22. Who may call the server. Without FRONTEND_ORIGIN (unset or
    empty) the list of allowed origins is the wildcard: every origin
    passes, the chat stream echoes it, and credentials are off. With a
    FRONTEND_ORIGIN that has no entry [*], credentials are on and an
    origin passes exactly when it is one of the entries, compared as a
    whole once the white space around the entry is removed; a request
    without Origin header passes the origin check of the server, and
    the chat stream refuses it. *)
Theorem only_configured_origins_pass (value origin : jsstring) :
  origin <> [] ->
  (forall env, env = None \/ env = Some [] ->
     Cors.originAllowed env (Some origin) = Ok true
     /\ Cors.chatStreamHead env (Some origin) = Cors.EventStream origin
     /\ Cors.chatStreamHead env None = Cors.EventStream Cors.star
     /\ Cors.credentials env = false)
  /\ (value <> [] -> Cors.star ∉ configuredOrigins value ->
      Cors.credentials (Some value) = true
      /\ (origin ∈ configuredOrigins value ->
          Cors.originAllowed (Some value) (Some origin) = Ok true
          /\ Cors.chatStreamHead (Some value) (Some origin) = Cors.EventStream origin)
      /\ (origin ∉ configuredOrigins value ->
          Cors.originAllowed (Some value) (Some origin) = Throw "Origin not allowed"
          /\ Cors.chatStreamHead (Some value) (Some origin) = Cors.Forbidden)
      /\ Cors.originAllowed (Some value) None = Ok true
      /\ Cors.chatStreamHead (Some value) None = Cors.Forbidden).
Proof.
  intros Ho.
  assert (He : isEmpty origin = false) by (destruct origin; [contradiction | reflexivity]).
  split.
  - intros env [->| ->]; unfold Cors.originAllowed, Cors.chatStreamHead, Cors.credentials,
      Cors.resolveAllowedOrigin; cbn [Cors.getAllowedOrigins isEmpty Cors.missing];
      (replace (Cors.includes [Cors.star] Cors.star) with true
         by (symmetry; apply includes_true; left));
      rewrite ?He; cbn [Cors.missing]; rewrite ?He; repeat split; reflexivity.
  - intros Hv Hstar.
    assert (Hno : Cors.includes (Cors.getAllowedOrigins (Some value)) Cors.star = false).
    { apply includes_false. rewrite allowed_configured; [exact Hstar | exact Hv | discriminate]. }
    unfold Cors.originAllowed, Cors.chatStreamHead, Cors.credentials,
      Cors.resolveAllowedOrigin. cbv zeta. rewrite Hno. cbn [negb Cors.missing].
    split; [reflexivity|].
    rewrite He.
    split; [|split; [|split; reflexivity]].
    + intros Hin. apply (allowed_configured value origin Hv Ho) in Hin.
      apply includes_true in Hin. rewrite Hin. cbn [Cors.missing].
      rewrite He. split; reflexivity.
    + intros Hout. rewrite <- (allowed_configured value origin Hv Ho) in Hout.
      apply includes_false in Hout. rewrite Hout. split; reflexivity.
Qed.

Lemma only_configured_origins_pass_witness :
  let value := of_string "http://localhost:3000, https://rag.example" in
  Cors.originAllowed (Some value) (Some (of_string "https://rag.example")) = Ok true
  /\ Cors.originAllowed (Some value) (Some (of_string "https://rag.example/"))
     = Throw "Origin not allowed".
Proof.
  cbv zeta.
  assert (Hstar : Cors.star
                  ∉ configuredOrigins (of_string "http://localhost:3000, https://rag.example")).
  { vm_compute. intros H. repeat (apply elem_of_cons in H as [H|H]; [discriminate|]).
    inversion H. }
  split.
  - destruct (only_configured_origins_pass
                (of_string "http://localhost:3000, https://rag.example")
                (of_string "https://rag.example") ltac:(discriminate)) as [_ H].
    destruct (H ltac:(discriminate) Hstar) as (_ & Hin & _).
    apply Hin. vm_compute. right. left.
  - destruct (only_configured_origins_pass
                (of_string "http://localhost:3000, https://rag.example")
                (of_string "https://rag.example/") ltac:(discriminate)) as [_ H].
    destruct (H ltac:(discriminate) Hstar) as (_ & _ & Hout & _).
    apply Hout. vm_compute. intros H'.
    repeat (apply elem_of_cons in H' as [H'|H']; [discriminate|]). inversion H'.
Defined.

(** * Text pages and layout pages of a file *)

(** ** Lines of the page text *)

Lemma split_single (s : jsstring) : newline ∉ s -> Search.split newline s = [s].
Proof.
  induction s as [|c s IH]; intros Hn; [reflexivity|].
  cbn [Search.split]. apply not_elem_of_cons in Hn as [Hc Hs].
  destruct (c =? newline)%N eqn:E; [apply N.eqb_eq in E; congruence|].
  now rewrite (IH Hs).
Qed.

Lemma split_line (s r : jsstring) :
  newline ∉ s -> Search.split newline (s ++ newline :: r) = s :: Search.split newline r.
Proof.
  induction s as [|c s IH]; intros Hn.
  - cbn [app Search.split]. now rewrite N.eqb_refl.
  - cbn [app Search.split]. apply not_elem_of_cons in Hn as [Hc Hs].
    destruct (c =? newline)%N eqn:E; [apply N.eqb_eq in E; congruence|].
    now rewrite (IH Hs).
Qed.

Lemma split_join (segs : list jsstring) :
  Forall (fun s => newline ∉ s) segs -> segs <> [] ->
  Search.split newline (join [newline] segs) = segs.
Proof.
  induction segs as [|s segs IH]; intros Hall Hne; [contradiction|].
  apply Forall_cons in Hall as [Hs Hall]. destruct segs as [|s' segs].
  - cbn [join]. now apply split_single.
  - change (join [newline] (s :: s' :: segs)) with (s ++ newline :: join [newline] (s' :: segs)).
    rewrite (split_line _ _ Hs). f_equal. now apply IH.
Qed.


Lemma segmentOf_nonempty (line : list TextExtractor.Item) (t : jsstring) :
  TextExtractor.segmentOf line = Some t -> t <> [] /\ t = TextExtractor.lineText line.
Proof.
  unfold TextExtractor.segmentOf. destruct line as [|it line]; [discriminate|].
  destruct (isEmpty (TextExtractor.lineText (it :: line))) eqn:E; [discriminate|].
  intros [= <-]. split; [|reflexivity]. intros H. now rewrite H in E.
Qed.

Lemma segments_nonempty (ls : list (list TextExtractor.Item)) :
  Forall (fun s => s <> []) (TextExtractor.segments ls).
Proof.
  unfold TextExtractor.segments. apply Forall_forall. intros t Ht.
  apply list_elem_of_omap in Ht as (line & _ & Hline).
  now apply segmentOf_nonempty in Hline.
Qed.

Lemma elem_of_concat {A} (x : A) (ls : list (list A)) :
  x ∈ concat ls <-> exists l, x ∈ l /\ l ∈ ls.
Proof.
  rewrite list_elem_of_In, in_concat. split; intros (l & H1 & H2); exists l;
    rewrite ?list_elem_of_In in *; auto.
Qed.

Lemma segments_single_line (ls : list (list TextExtractor.Item)) :
  Forall (fun it => newline ∉ TextExtractor.item_text it) (concat ls) ->
  Forall (fun s => newline ∉ s) (TextExtractor.segments ls).
Proof.
  intros Hall. unfold TextExtractor.segments. apply Forall_forall. intros t Ht.
  apply list_elem_of_omap in Ht as (line & Hin & Hline).
  apply segmentOf_nonempty in Hline as [_ ->]. unfold TextExtractor.lineText.
  intros Hnl. apply (fun H => elem_of_sublist _ _ _ H (trim_sublist _)) in Hnl.
  apply elem_of_concat in Hnl as (s & Hnl & Hs).
  apply list_elem_of_fmap in Hs as (it & -> & Hit).
  rewrite Forall_forall in Hall. apply (Hall it); [|exact Hnl].
  apply elem_of_concat. now exists line.
Qed.

Lemma pageSegments_single_line (p : Pdf.RawPage) :
  singleLineTokens p -> Forall (fun s => newline ∉ s) (TextExtractor.pageSegments p).
Proof.
  intros Hp. apply segments_single_line.
  unfold TextExtractor.pageLines. cbv zeta. rewrite clusterLines_concat.
  unfold TextExtractor.sortedItems.
  eapply Permutation_Forall; [|exact Hp]. symmetry. apply sort_Permutation.
Qed.

Lemma segments_boxes_length (W H : Q) (ls : list (list LayoutAnalyzer.Item)) :
  length (omap TextExtractor.segmentOf (map (map forget) ls))
  = length (omap (LayoutAnalyzer.lineBBox W H) ls).
Proof.
  induction ls as [|l r IH]; [reflexivity|].
  change (map (map forget) (l :: r)) with (map forget l :: map (map forget) r).
  rewrite !omap_cons_eq.
  pose proof (lineBBox_segmentOf W H l) as [H1 H2].
  destruct (LayoutAnalyzer.lineBBox _ _ l) as [b|],
    (TextExtractor.segmentOf (map forget l)) as [t|]; simpl.
  - now rewrite IH.
  - destruct H1; [eauto | discriminate].
  - destruct H2; [eauto | discriminate].
  - exact IH.
Qed.

Lemma segments_regions_count uuid n docId i (p : Pdf.RawPage) :
  length (LayoutAnalyzer.pageRegions uuid n docId i p)
  = length (TextExtractor.pageSegments p).
Proof.
  unfold TextExtractor.pageSegments, LayoutAnalyzer.pageRegions, TextExtractor.segments.
  cbv zeta. rewrite buildRegions_length, pageLines_forget. symmetry.
  apply segments_boxes_length.
Qed.

(** On rational numbers, the lines of a page text are the regions of
    the page, one for one. On a page where no token has a newline in its
    text and the extractor finds at least one line, splitting the page text at the
    newlines gives back the lines the extractor joined, none of them
    empty, and there are as many of them as the layout analyzer makes
    regions for the page. *)
Theorem text_lines_match_regions (uuid : nat -> string) (n : nat) (docId : string)
    (i : nat) (p : Pdf.RawPage) :
  singleLineTokens p ->
  TextExtractor.pageSegments p <> [] ->
  let lines := Search.split newline (TextExtractor.text (TextExtractor.extractPage i p)) in
  lines = TextExtractor.pageSegments p
  /\ Forall (fun l => l <> []) lines
  /\ length lines = length (LayoutAnalyzer.pageRegions uuid n docId i p).
Proof.
  intros Hp Hne. cbv zeta. cbn [TextExtractor.extractPage TextExtractor.text].
  rewrite (split_join _ (pageSegments_single_line p Hp) Hne).
  split; [reflexivity|]. split; [apply segments_nonempty|].
  symmetry. apply segments_regions_count.
Qed.

Lemma text_lines_match_regions_witness :
  Search.split newline (TextExtractor.text (TextExtractor.extractPage 1 samplePage))
  = [of_string "Hello world"; of_string "bye"]
  /\ length (LayoutAnalyzer.pageRegions sampleUuid 0 "doc" 1 samplePage) = 2.
Proof.
  assert (Hp : singleLineTokens samplePage).
  { unfold singleLineTokens. vm_compute.
    repeat constructor; intros H;
      repeat (apply elem_of_cons in H as [H|H]; [discriminate|]); inversion H. }
  destruct (text_lines_match_regions sampleUuid 0 "doc" 1 samplePage Hp) as (H1 & _ & H3).
  { rewrite sample_segments. discriminate. }
  rewrite sample_segments in H1. split; [exact H1|].
  rewrite <- H3, H1. reflexivity.
Defined.

(** ** Page by page *)





(** ** Down the page *)









(** * The two extractors on numbers that need not be finite *)

(** ** The same lines *)

Lemma collectItems_forgetSize (raws : list AnyNumber.Pdf.RawItem) :
  AnyNumber.TextExtractor.collectItems raws
  = map forgetSize (AnyNumber.LayoutAnalyzer.collectItems raws).
Proof.
  unfold AnyNumber.TextExtractor.collectItems, AnyNumber.LayoutAnalyzer.collectItems.
  induction raws as [|raw r IH]; [reflexivity|].
  rewrite !omap_cons_eq, IH.
  unfold AnyNumber.TextExtractor.collectItem, AnyNumber.LayoutAnalyzer.collectItem.
  destruct (AnyNumber.Pdf.str raw) as [value|]; [|reflexivity].
  destruct (AnyNumber.Pdf.transform raw) as [[x y]|]; [|reflexivity].
  destruct (isEmpty value); reflexivity.
Qed.

Lemma lines_forgetSizes (c : AnyNumber.LayoutAnalyzer.Cluster) :
  AnyNumber.TextExtractor.lines (forgetSizes c)
  = map (map forgetSize) (AnyNumber.LayoutAnalyzer.lines c).
Proof.
  unfold AnyNumber.TextExtractor.lines, AnyNumber.LayoutAnalyzer.lines. simpl.
  rewrite map_app. destruct (AnyNumber.LayoutAnalyzer.currentLine c); reflexivity.
Qed.

Lemma step_forgetSizes thr (c : AnyNumber.LayoutAnalyzer.Cluster)
    (it : AnyNumber.LayoutAnalyzer.Item) :
  AnyNumber.TextExtractor.step thr (forgetSizes c) (forgetSize it)
  = forgetSizes (AnyNumber.LayoutAnalyzer.step thr c it).
Proof.
  unfold AnyNumber.TextExtractor.step, AnyNumber.LayoutAnalyzer.step.
  rewrite lines_forgetSizes.
  destruct c as [cl [cur|] cy]; simpl; [|reflexivity].
  destruct (Number.le _ thr); [|reflexivity].
  unfold forgetSizes; simpl.
  rewrite map_app, !length_app, length_map. reflexivity.
Qed.

Lemma fold_forgetSizes thr (items : list AnyNumber.LayoutAnalyzer.Item)
    (c : AnyNumber.LayoutAnalyzer.Cluster) :
  fold_left (AnyNumber.TextExtractor.step thr) (map forgetSize items) (forgetSizes c)
  = forgetSizes (fold_left (AnyNumber.LayoutAnalyzer.step thr) items c).
Proof.
  revert c. induction items as [|it r IH]; intros c; simpl; [reflexivity|].
  now rewrite step_forgetSizes, IH.
Qed.

Lemma pageLines_forgetSize (p : AnyNumber.Pdf.RawPage) :
  AnyNumber.TextExtractor.pageLines p
  = map (map forgetSize) (AnyNumber.LayoutAnalyzer.pageLines p).
Proof.
  unfold AnyNumber.TextExtractor.pageLines, AnyNumber.LayoutAnalyzer.pageLines,
    AnyNumber.TextExtractor.clusterLines, AnyNumber.LayoutAnalyzer.clusterLines,
    AnyNumber.TextExtractor.sortedItems, AnyNumber.LayoutAnalyzer.sortedItems.
  rewrite collectItems_forgetSize.
  rewrite (sort_map forgetSize
             (fun a b => Number.order (AnyNumber.LayoutAnalyzer.compareItems a b))
             (fun a b => Number.order (AnyNumber.TextExtractor.compareItems a b)))
    by reflexivity.
  change AnyNumber.TextExtractor.initial with (forgetSizes AnyNumber.LayoutAnalyzer.initial).
  now rewrite fold_forgetSizes, lines_forgetSizes.
Qed.

Lemma lineText_forgetSize (line : list AnyNumber.LayoutAnalyzer.Item) :
  AnyNumber.TextExtractor.lineText (map forgetSize line)
  = AnyNumber.LayoutAnalyzer.lineText line.
Proof.
  unfold AnyNumber.TextExtractor.lineText, AnyNumber.LayoutAnalyzer.lineText.
  now rewrite map_map.
Qed.

(** ** When a line has a box *)

Lemma grow_reached (e : AnyNumber.LayoutAnalyzer.Extent) (it : AnyNumber.LayoutAnalyzer.Item) :
  finiteToken it ->
  e = AnyNumber.LayoutAnalyzer.initialExtent \/ reached e ->
  reached (AnyNumber.LayoutAnalyzer.grow e it).
Proof.
  intros (Hx & Hx1 & Hy & Hy1) He.
  unfold reached, AnyNumber.LayoutAnalyzer.allFinite, AnyNumber.LayoutAnalyzer.grow in *.
  cbn [AnyNumber.LayoutAnalyzer.minX AnyNumber.LayoutAnalyzer.maxX
       AnyNumber.LayoutAnalyzer.minY AnyNumber.LayoutAnalyzer.maxY].
  destruct (AnyNumber.LayoutAnalyzer.item_x it) as [| |x|]; try discriminate Hx.
  destruct (AnyNumber.LayoutAnalyzer.item_y it) as [| |y|]; try discriminate Hy.
  destruct (Number.add (Number.Finite x) _) as [| |x1|]; try discriminate Hx1.
  destruct (Number.add (Number.Finite y) _) as [| |y1|]; try discriminate Hy1.
  destruct He as [->|He].
  - reflexivity.
  - destruct e as [[| |a|] [| |b|] [| |c|] [| |d|]]; try discriminate He.
    cbn [AnyNumber.LayoutAnalyzer.minX AnyNumber.LayoutAnalyzer.maxX
         AnyNumber.LayoutAnalyzer.minY AnyNumber.LayoutAnalyzer.maxY].
    repeat match goal with |- context [if ?b then _ else _] => destruct b end;
      reflexivity.
Qed.

Lemma extent_reached (line : list AnyNumber.LayoutAnalyzer.Item) :
  line <> [] -> Forall finiteToken line -> reached (AnyNumber.LayoutAnalyzer.extent line).
Proof.
  unfold AnyNumber.LayoutAnalyzer.extent.
  assert (H : forall l e, Forall finiteToken l -> reached e ->
            reached (fold_left AnyNumber.LayoutAnalyzer.grow l e)).
  { induction l as [|it r IH]; intros e Hl He; simpl; [exact He|].
    apply Forall_cons in Hl as [Hit Hr]. apply IH; [exact Hr|].
    apply grow_reached; [exact Hit | now right]. }
  destruct line as [|it r]; [congruence|]. intros _ Hl. simpl.
  apply Forall_cons in Hl as [Hit Hr].
  apply H; [exact Hr|]. apply grow_reached; [exact Hit | now left].
Qed.

Lemma lineBBox_segment (width height : Number.number)
    (line : list AnyNumber.LayoutAnalyzer.Item) :
  Forall finiteToken line ->
  (is_Some (AnyNumber.LayoutAnalyzer.lineBBox width height line)
   <-> is_Some (AnyNumber.TextExtractor.segmentOf (map forgetSize line))).
Proof.
  intros Hl.
  unfold AnyNumber.LayoutAnalyzer.lineBBox, AnyNumber.TextExtractor.segmentOf.
  destruct line as [|it r]; [simpl; split; intros [? ?]; discriminate|].
  change (map forgetSize (it :: r)) with (forgetSize it :: map forgetSize r).
  cbv zeta. change (forgetSize it :: map forgetSize r) with (map forgetSize (it :: r)).
  rewrite lineText_forgetSize.
  destruct (isEmpty (AnyNumber.LayoutAnalyzer.lineText (it :: r))).
  - split; intros [? ?]; discriminate.
  - pose proof (extent_reached (it :: r) ltac:(discriminate) Hl) as He.
    unfold reached in He. rewrite He.
    split; intros _; eexists; reflexivity.
Qed.

Lemma buildRegions_boxes uuid n docId i width height ls :
  length (AnyNumber.LayoutAnalyzer.buildRegions uuid n docId i width height ls)
  = length (omap (AnyNumber.LayoutAnalyzer.lineBBox width height) ls).
Proof.
  revert n. induction ls as [|l r IH]; intros n; csimpl; [reflexivity|].
  destruct (AnyNumber.LayoutAnalyzer.lineBBox width height l); csimpl; now rewrite IH.
Qed.

Lemma step_keeps (P : AnyNumber.LayoutAnalyzer.Item -> Prop) thr c it :
  P it -> Forall (Forall P) (AnyNumber.LayoutAnalyzer.lines c) ->
  Forall (Forall P) (AnyNumber.LayoutAnalyzer.lines (AnyNumber.LayoutAnalyzer.step thr c it)).
Proof.
  intros Hit. unfold AnyNumber.LayoutAnalyzer.step, AnyNumber.LayoutAnalyzer.lines.
  destruct (AnyNumber.LayoutAnalyzer.currentLine c) as [cur|]; simpl.
  - rewrite Forall_app, Forall_singleton. intros [Hc Hcur].
    destruct (Number.le _ thr); simpl; rewrite !Forall_app, !Forall_singleton.
    + split; [exact Hc|]. apply Forall_app. split; [exact Hcur | now constructor].
    + repeat split; auto.
  - rewrite app_nil_r. intros Hc. rewrite Forall_app, Forall_singleton.
    split; [exact Hc | now constructor].
Qed.

Lemma clusterLines_keeps (P : AnyNumber.LayoutAnalyzer.Item -> Prop) thr items :
  Forall P items -> Forall (Forall P) (AnyNumber.LayoutAnalyzer.clusterLines thr items).
Proof.
  unfold AnyNumber.LayoutAnalyzer.clusterLines.
  assert (H : forall l c, Forall P l -> Forall (Forall P) (AnyNumber.LayoutAnalyzer.lines c) ->
            Forall (Forall P)
                   (AnyNumber.LayoutAnalyzer.lines
                      (fold_left (AnyNumber.LayoutAnalyzer.step thr) l c))).
  { induction l as [|it r IH]; intros c Hl Hc; simpl; [exact Hc|].
    apply Forall_cons in Hl as [Hit Hr]. apply IH; [exact Hr|]. now apply step_keeps. }
  intros Hitems. apply H; [exact Hitems | constructor].
Qed.

Lemma pageLines_finite (p : AnyNumber.Pdf.RawPage) :
  finiteTokens p -> Forall (Forall finiteToken) (AnyNumber.LayoutAnalyzer.pageLines p).
Proof.
  intros Hp. unfold AnyNumber.LayoutAnalyzer.pageLines. cbv zeta.
  apply clusterLines_keeps. unfold AnyNumber.LayoutAnalyzer.sortedItems.
  eapply Permutation_Forall; [|exact Hp]. symmetry. apply sort_Permutation.
Qed.

Lemma boxes_and_segments (width height : Number.number)
    (ls : list (list AnyNumber.LayoutAnalyzer.Item)) :
  Forall (Forall finiteToken) ls ->
  length (omap (AnyNumber.TextExtractor.segmentOf) (map (map forgetSize) ls))
  = length (omap (AnyNumber.LayoutAnalyzer.lineBBox width height) ls).
Proof.
  induction ls as [|l r IH]; intros Hls; [reflexivity|].
  apply Forall_cons in Hls as [Hl Hr].
  change (map (map forgetSize) (l :: r)) with (map forgetSize l :: map (map forgetSize) r).
  rewrite !omap_cons_eq.
  pose proof (lineBBox_segment width height l Hl) as [H1 H2].
  destruct (AnyNumber.LayoutAnalyzer.lineBBox _ _ l) as [b|],
           (AnyNumber.TextExtractor.segmentOf (map forgetSize l)) as [t|]; simpl.
  - now rewrite IH.
  - destruct H1; [eauto | discriminate].
  - destruct H2; [eauto | discriminate].
  - now apply IH.
Qed.

(** C8, amended. For one page (the same entries of the text content and
    the same viewport) whose tokens have finite numbers (x, x + width, y
    and y + height of every token are finite), the number of non-empty
    lines of the text extractor is the number of regions of the layout
    analyzer. The viewport may be any number. *)
Theorem line_count_equals_region_count_for_finite_tokens
    (uuid : nat -> string) (n : nat) (docId : string) (i : nat) (p : AnyNumber.Pdf.RawPage) :
  finiteTokens p ->
  length (AnyNumber.TextExtractor.pageSegments p)
  = length (AnyNumber.LayoutAnalyzer.pageRegions uuid n docId i p).
Proof.
  intros Hp.
  unfold AnyNumber.TextExtractor.pageSegments, AnyNumber.LayoutAnalyzer.pageRegions,
    AnyNumber.TextExtractor.segments.
  cbv zeta. rewrite buildRegions_boxes, pageLines_forgetSize.
  apply boxes_and_segments, pageLines_finite, Hp.
Qed.

Lemma line_count_equals_region_count_witness :
  length (AnyNumber.TextExtractor.pageSegments unsizedPage) = 2
  /\ length (AnyNumber.LayoutAnalyzer.pageRegions sampleUuid 0 "doc" 1 unsizedPage) = 2.
Proof.
  assert (H : finiteTokens unsizedPage).
  { unfold finiteTokens. vm_compute. repeat constructor. }
  pose proof (line_count_equals_region_count_for_finite_tokens sampleUuid 0 "doc" 1 unsizedPage H)
    as Hc.
  split; [reflexivity|]. rewrite <- Hc. reflexivity.
Defined.

(** C8 as it is stated fails: a token whose width is NaN makes a line of
    text and no region. *)
Lemma nan_width_gives_a_line_and_no_region :
  ~ (forall (uuid : nat -> string) (n : nat) (docId : string) (i : nat)
            (p : AnyNumber.Pdf.RawPage),
        length (AnyNumber.TextExtractor.pageSegments p)
        = length (AnyNumber.LayoutAnalyzer.pageRegions uuid n docId i p)).
Proof.
  intros H. specialize (H sampleUuid 0 "doc" 1 nanPage).
  vm_compute in H. discriminate H.
Qed.

(** ** On finite numbers the two models agree *)






(** *** The text extractor *)











(** *** The layout analyzer *)














(** *** Pages of finite numbers *)





(** ** Lines of text and regions, on finite numbers *)









(** * Uploads in chunks (index.ts, page.tsx) *)

(** ** How many chunks *)

Lemma ceil_div (n c : Z) :
  (1 <= c)%Z -> Upload.ceil (inject_Z n / inject_Z c) = ((n + c - 1) / c)%Z.
Proof.
  intros Hc. destruct c as [|p|p]; try lia.
  unfold Upload.ceil, Qdiv, Qinv, Qmult, inject_Z. cbn [Qnum Qden].
  rewrite Z.mul_1_r, Pos.mul_1_l.
  apply (Z.div_unique _ _ _ ((n + Z.pos p - 1) - Z.pos p * - (- n / Z.pos p))).
  - left. pose proof (Z.div_mod (- n) (Z.pos p) ltac:(lia)) as Hdm.
    pose proof (Z.mod_pos_bound (- n) (Z.pos p) ltac:(lia)) as Hm. lia.
  - lia.
Qed.

Lemma ceil_bounds (n c : Z) :
  (1 <= c)%Z -> (1 <= n)%Z ->
  let total := Upload.ceil (inject_Z n / inject_Z c) in
  (1 <= total /\ (total - 1) * c < n <= total * c)%Z.
Proof.
  intros Hc Hn. cbv zeta. rewrite (ceil_div n c Hc).
  pose proof (Z.div_mod (n + c - 1) c ltac:(lia)) as Hdm.
  pose proof (Z.mod_pos_bound (n + c - 1) c ltac:(lia)) as Hm.
  assert (1 <= (n + c - 1) / c)%Z by (apply Z.div_le_lower_bound; lia).
  nia.
Qed.

(** ** The chunks of the client *)

Lemma chunkOf_take (file : Upload.File) (c i : Z) :
  (1 <= c)%Z -> (0 <= i)%Z -> (i * c <= Upload.file_size file)%Z ->
  Upload.chunkOf file c i
  = take (Z.to_nat c) (drop (Z.to_nat (i * c)) (Upload.file_content file)).
Proof.
  intros Hc Hi Hle. unfold Upload.chunkOf, Upload.file_size in *. cbv zeta.
  set (l := Upload.file_content file) in *.
  replace (i * c)%Z with (Z.of_nat (Z.to_nat (i * c))) at 1 by lia.
  replace (Z.min (Z.of_nat (length l)) (i * c + c))
    with (Z.of_nat (Z.to_nat (Z.min (Z.of_nat (length l)) (i * c + c)))) by lia.
  rewrite slice_inside by lia.
  destruct (Z.le_gt_cases (i * c + c) (Z.of_nat (length l))) as [H|H].
  - f_equal. lia.
  - rewrite !take_ge; [reflexivity | rewrite length_drop; lia | rewrite length_drop; lia].
Qed.

Lemma take_chunks {A} (l : list A) (c n : nat) :
  concat (map (fun i => take c (drop (i * c) l)) (seq 0 n)) = take (n * c) l.
Proof.
  induction n as [|n IH]; [reflexivity|].
  rewrite seq_S, map_app, concat_app, IH. cbn [map concat Nat.add]. rewrite app_nil_r.
  rewrite <- (take_drop (n * c) (take (S n * c) l)).
  rewrite take_take, skipn_firstn_comm. f_equal; f_equal; lia.
Qed.

Lemma chunkOf_nat (file : Upload.File) (chunkSize : Z) (i : nat) :
  (1 <= chunkSize)%Z -> (1 <= Upload.file_size file)%Z ->
  (Z.of_nat i
   < Upload.ceil (inject_Z (Upload.file_size file) / inject_Z chunkSize))%Z ->
  Upload.chunkOf file chunkSize (Z.of_nat i)
  = take (Z.to_nat chunkSize) (drop (i * Z.to_nat chunkSize) (Upload.file_content file)).
Proof.
  intros Hc Hn Hi. destruct (ceil_bounds _ _ Hc Hn) as (H1 & Hlo & Hhi).
  rewrite chunkOf_take by nia. do 2 f_equal. nia.
Qed.

Lemma chunks_concat (file : Upload.File) (chunkSize : Z) :
  (1 <= chunkSize)%Z -> (1 <= Upload.file_size file)%Z ->
  concat (map (Upload.chunkOf file chunkSize)
              (Upload.upTo (Upload.ceil (inject_Z (Upload.file_size file)
                                         / inject_Z chunkSize))))
  = Upload.file_content file.
Proof.
  intros Hc Hn. destruct (ceil_bounds _ _ Hc Hn) as (H1 & Hlo & Hhi).
  unfold Upload.upTo. rewrite map_map.
  rewrite (map_ext_in _ (fun i => take (Z.to_nat chunkSize)
                                    (drop (i * Z.to_nat chunkSize) (Upload.file_content file)))).
  - rewrite take_chunks. apply take_ge. unfold Upload.file_size in *. nia.
  - intros i Hi. apply in_seq in Hi. apply chunkOf_nat; [exact Hc | exact Hn | lia].
Qed.

(** X26. The chunks the client cuts for the chunk count of the server
    tile the file: for a file of at least one byte and a chunk size of
    at least one, the server counts [ceil(fileSize / chunkSize)] chunks,
    the least count whose chunks cover the file; the chunks the client
    cuts for these indices are not empty, none is longer than the chunk
    size, and joined in the order of their indices they are the file. *)
Theorem chunks_tile_the_file (file : Upload.File) (chunkSize : Z) :
  (1 <= chunkSize)%Z ->
  (1 <= Upload.file_size file)%Z ->
  let totalChunks := Upload.ceil (inject_Z (Upload.file_size file) / inject_Z chunkSize) in
  concat (map (Upload.chunkOf file chunkSize) (Upload.upTo totalChunks))
  = Upload.file_content file
  /\ Forall (fun index =>
               Upload.chunkOf file chunkSize index <> []
               /\ (Z.of_nat (length (Upload.chunkOf file chunkSize index)) <= chunkSize)%Z)
            (Upload.upTo totalChunks)
  /\ ((totalChunks - 1) * chunkSize < Upload.file_size file <= totalChunks * chunkSize)%Z.
Proof.
  intros Hc Hn. cbv zeta.
  split; [now apply chunks_concat|].
  pose proof (chunkOf_nat file chunkSize) as Hchunk.
  destruct (ceil_bounds _ _ Hc Hn) as (H1 & Hlo & Hhi).
  set (total := Upload.ceil _) in *.
  split; [|lia].
  unfold Upload.upTo. apply Forall_fmap, Forall_forall. intros i Hi.
  apply elem_of_seq in Hi. cbn [compose]. rewrite Hchunk by lia.
  unfold Upload.file_size in *. split.
  - intros E. apply (f_equal length) in E. rewrite length_take, length_drop in E.
    cbn [length] in E. nia.
  - rewrite length_take. lia.
Qed.

Lemma chunks_tile_the_file_witness :
  map (Upload.chunkOf sampleFile 2) (Upload.upTo 2) = [[Byte.x25; Byte.x50]; [Byte.x44]]
  /\ concat (map (Upload.chunkOf sampleFile 2) (Upload.upTo 2))
     = Upload.file_content sampleFile.
Proof.
  split; [vm_compute; reflexivity|].
  apply (chunks_tile_the_file sampleFile 2); vm_compute; discriminate.
Defined.

(** ** The received chunks *)

Lemma byIndex_before (a b : Z) : before Upload.byIndex a b <-> (a <= b)%Z.
Proof.
  unfold before, Upload.byIndex. rewrite Qle_bool_iff.
  unfold Qle, Qminus, Qplus, Qopp, inject_Z. cbn. lia.
Qed.

Lemma sorted_lt_NoDup (l : list Z) : StronglySorted Z.lt l -> NoDup l.
Proof.
  induction 1 as [|x l Hs IH Hx]; constructor; [|exact IH].
  intros Hin. rewrite Forall_forall in Hx. specialize (Hx x Hin). lia.
Qed.

Lemma sorted_le_NoDup_lt (l : list Z) :
  StronglySorted Z.le l -> NoDup l -> StronglySorted Z.lt l.
Proof.
  induction 1 as [|x l Hs IH Hx]; intros Hnd; [constructor|].
  apply NoDup_cons in Hnd as [Hnin Hnd]. constructor; [now apply IH|].
  rewrite Forall_forall in *. intros y Hy. specialize (Hx y Hy).
  assert (x <> y) by (intros ->; contradiction). lia.
Qed.

Lemma sorted_impl {A} (R R' : A -> A -> Prop) (l : list A) :
  (forall a b, R a b -> R' a b) -> StronglySorted R l -> StronglySorted R' l.
Proof.
  intros HR. induction 1 as [|x l Hs IH Hx]; constructor; [exact IH|].
  eapply Forall_impl; [exact Hx|]. intros y. apply HR.
Qed.

Lemma received_after_push (l : list Z) (index total : Z) :
  StronglySorted Z.lt l -> Forall (fun i => (0 <= i < total)%Z) l ->
  index ∉ l -> (0 <= index < total)%Z ->
  StronglySorted Z.lt (sort Upload.byIndex (l ++ [index]))
  /\ Forall (fun i => (0 <= i < total)%Z) (sort Upload.byIndex (l ++ [index])).
Proof.
  intros Hs Hall Hnin Hi.
  pose proof (sort_Permutation Upload.byIndex (l ++ [index])) as Hp.
  split.
  - apply sorted_le_NoDup_lt.
    + apply (sorted_impl (before Upload.byIndex)); [intros a b; apply byIndex_before|].
      apply sort_sorted.
      * intros a b. rewrite !byIndex_before. lia.
      * intros a b c. rewrite !byIndex_before. lia.
    + rewrite Hp. apply NoDup_app. split; [now apply sorted_lt_NoDup|]. split.
      * intros x Hx Hx'. apply list_elem_of_singleton in Hx'. now subst.
      * apply NoDup_singleton.
  - rewrite Hp. apply Forall_app. split; [exact Hall|]. now constructor.
Qed.

Lemma sorted_range_length (l : list Z) (lo hi : Z) :
  StronglySorted Z.lt l -> Forall (fun i => (lo <= i < hi)%Z) l ->
  (Z.of_nat (length l) <= Z.max 0 (hi - lo))%Z.
Proof.
  intros Hs. revert lo. induction Hs as [|x l Hs IH Hx]; intros lo Hall; [cbn; lia|].
  apply Forall_cons in Hall as [Hlo Hall].
  assert (Hall' : Forall (fun i => (x + 1 <= i < hi)%Z) l).
  { rewrite Forall_forall in *. intros y Hy. specialize (Hx y Hy). specialize (Hall y Hy). lia. }
  specialize (IH _ Hall'). cbn [length]. lia.
Qed.

(** Distinct indices below [n], sorted, and [n] of them: all of them. *)
Lemma sorted_full_range (l : list Z) (lo : Z) (n : nat) :
  StronglySorted Z.lt l -> Forall (fun i => (lo <= i < lo + Z.of_nat n)%Z) l ->
  length l = n -> l = map (fun k => (lo + Z.of_nat k)%Z) (seq 0 n).
Proof.
  intros Hs. revert lo n. induction Hs as [|x l Hs IH Hx]; intros lo n Hall Hlen.
  - cbn in Hlen. subst n. reflexivity.
  - destruct n as [|n]; [discriminate|]. injection Hlen as Hlen.
    apply Forall_cons in Hall as [Hlo Hall].
    assert (Hall' : Forall (fun i => (x + 1 <= i < lo + Z.of_nat (S n))%Z) l).
    { rewrite Forall_forall in *. intros y Hy. specialize (Hx y Hy). specialize (Hall y Hy). lia. }
    pose proof (sorted_range_length l _ _ Hs Hall') as Hbound.
    assert (x = lo) by lia. subst x.
    cbn [seq map]. rewrite Z.add_0_r. f_equal.
    rewrite <- seq_shift, map_map.
    rewrite (IH (lo + 1)%Z n); [|eapply Forall_impl; [exact Hall'|]; cbn; intros; lia | exact Hlen].
    apply map_ext. intros k. lia.
Qed.

Lemma received_all (m : Upload.UploadMetadata) (uid : string) :
  MetaOk uid m ->
  Z.of_nat (length (Upload.um_receivedChunks m)) = Upload.um_totalChunks m ->
  Upload.um_receivedChunks m = Upload.upTo (Upload.um_totalChunks m).
Proof.
  intros (_ & _ & _ & _ & Hs & Hall) Hlen. unfold Upload.upTo.
  rewrite (sorted_full_range _ 0 (Z.to_nat (Upload.um_totalChunks m)) Hs).
  - apply map_ext. intros k. lia.
  - eapply Forall_impl; [exact Hall|]. cbn. intros. lia.
  - lia.
Qed.

(** ** What the server keeps about the uploads in progress *)

Section Server.

Variable w : World.
Variable sha256 : Upload.bytes -> Upload.bytes.

Lemma appendChunks_metadata tempDir finalPath indices fed d :
  Upload.metadataFiles (snd (Upload.appendChunks tempDir finalPath indices fed d))
  = Upload.metadataFiles d.
Proof.
  revert fed d. induction indices as [|i rest IH]; intros fed d; [reflexivity|].
  cbn [Upload.appendChunks]. destruct (Upload.chunkFiles d !! (tempDir, i)); [|reflexivity].
  now rewrite IH.
Qed.

Lemma DiskOk_init now userId body sv :
  DiskOk (Upload.disk sv) -> DiskOk (Upload.disk (snd (Upload.uploadInit w now userId body sv))).
Proof.
  intros Hok. unfold Upload.uploadInit.
  destruct (negb (Upload.initSchema body)) eqn:Hschema; [exact Hok|].
  cbv zeta.
  destruct (match Upload.uploadIndex (Upload.disk sv) !! Upload.init_hash body with
            | Some sourcePath => if String.eqb sourcePath "" then None else Some sourcePath
            | None => None
            end) as [sourcePath|].
  { destruct (Upload.createTaskId w _ (Upload.pipeline sv)) as [[tid|msg] s']; exact Hok. }
  destruct (match Upload.init_existingUploadId body with
            | Some uploadId =>
                if String.eqb uploadId "" then None
                else Upload.metadataFiles (Upload.disk sv) !! uploadId
            | None => None
            end) as [meta|]; [exact Hok|].
  unfold randomUUID. cbn [snd Upload.disk].
  intros uid m. unfold Upload.saveUploadMetadata. cbn [Upload.metadataFiles Upload.set_metadataFiles Upload.um_id].
  destruct (decide (uid = uuid w (uuids (set_uuids (S (uuids (Upload.pipeline sv))) (Upload.pipeline sv)))))
    as [->|Hne].
  - rewrite lookup_insert_eq. intros [= <-].
    apply negb_false_iff in Hschema. unfold Upload.initSchema in Hschema.
    rewrite !andb_true_iff in Hschema. destruct Hschema as [[[_ H1] _] H2].
    apply Z.leb_le in H1, H2.
    repeat split; cbn; try assumption; constructor.
  - rewrite lookup_insert_ne by congruence. apply Hok.
Qed.

Lemma DiskOk_chunk uploadId index payload sv :
  DiskOk (Upload.disk sv) ->
  DiskOk (Upload.disk (snd (Upload.uploadChunk uploadId index payload sv))).
Proof.
  intros Hok. unfold Upload.uploadChunk.
  destruct (index <? 0)%Z eqn:Hneg; [exact Hok|]. apply Z.ltb_ge in Hneg.
  destruct (Upload.metadataFiles (Upload.disk sv) !! uploadId) as [metadata|] eqn:Hm;
    [|exact Hok].
  destruct (Upload.um_totalChunks metadata <=? index)%Z eqn:Hidx; [exact Hok|].
  apply Z.leb_gt in Hidx. cbv zeta.
  destruct (Upload.broken payload) as [err|]; [exact Hok|].
  destruct (bool_decide (index ∈ Upload.um_receivedChunks metadata)) eqn:Hin; [exact Hok|].
  apply bool_decide_eq_false in Hin.
  destruct (Hok _ _ Hm) as (H1 & H2 & H3 & H4 & H5 & H6).
  destruct (received_after_push _ index _ H5 H6 Hin ltac:(lia)) as [Hs Hall].
  intros uid m. cbn [snd Upload.disk]. unfold Upload.saveUploadMetadata.
  cbn [Upload.metadataFiles Upload.set_metadataFiles Upload.set_chunkFiles
       Upload.um_id Upload.set_received].
  destruct (decide (uid = Upload.um_id metadata)) as [->|Hne].
  - rewrite lookup_insert_eq. intros [= <-]. repeat split; cbn; assumption.
  - rewrite lookup_insert_ne by congruence. apply Hok.
Qed.

Lemma DiskOk_complete now userId uploadId sv :
  DiskOk (Upload.disk sv) ->
  DiskOk (Upload.disk (snd (Upload.uploadComplete w sha256 now userId uploadId sv))).
Proof.
  intros Hok. unfold Upload.uploadComplete.
  destruct (Upload.metadataFiles (Upload.disk sv) !! uploadId) as [metadata|]; [|exact Hok].
  destruct (negb _); [exact Hok|]. cbv zeta.
  pose proof (appendChunks_metadata (Upload.um_tempDir metadata)
                (Upload.filePath now (Upload.um_fileName metadata))
                (Upload.upTo (Upload.um_totalChunks metadata)) [] (Upload.disk sv)) as Hmeta.
  destruct (Upload.appendChunks _ _ _ _ _) as [[fed|err] d]; cbn [snd] in Hmeta.
  2:{ intros uid m. cbn [snd Upload.disk]. rewrite Hmeta. apply Hok. }
  destruct (negb _).
  { intros uid m. cbn [snd Upload.disk Upload.metadataFiles Upload.set_uploadedFiles].
    rewrite Hmeta. apply Hok. }
  destruct (Upload.createTaskId w _ (Upload.pipeline sv)) as [[tid|msg] s'];
    intros uid m; cbn [snd Upload.disk]; unfold Upload.unlinkMetadata, Upload.rmDir;
    cbn [Upload.metadataFiles Upload.set_metadataFiles Upload.set_chunkFiles
         Upload.set_uploadIndex]; rewrite Hmeta.
  - intros H. apply lookup_delete_Some in H as [_ H]. now apply Hok.
  - apply Hok.
Qed.

Lemma DiskOk_whole now userId file sv :
  DiskOk (Upload.disk sv) -> DiskOk (Upload.disk (snd (Upload.uploadWhole w now userId file sv))).
Proof.
  intros Hok. unfold Upload.uploadWhole. destruct file as [[filename payload]|]; [|exact Hok].
  cbv zeta. destruct (Upload.broken payload); [exact Hok|].
  destruct (Upload.createTaskId w _ (Upload.pipeline sv)) as [[tid|msg] s']; exact Hok.
Qed.

Lemma DiskOk_serveAll rs sv :
  DiskOk (Upload.disk sv) -> DiskOk (Upload.disk (Upload.serveAll w sha256 rs sv)).
Proof.
  revert sv. induction rs as [|r rs IH]; intros sv Hok; [exact Hok|].
  cbn [Upload.serveAll fold_left]. apply IH.
  destruct r; cbn [Upload.serve].
  - now apply DiskOk_init.
  - now apply DiskOk_chunk.
  - now apply DiskOk_complete.
  - now apply DiskOk_whole.
  - exact Hok.
Qed.

End Server.

(** X27. Whatever requests reach the server, what it keeps about an
    upload in progress stays sound: the received indices are distinct,
    in increasing order and below the chunk count, which is the one of
    the sizes given at the start. So /upload/complete refuses with
    chunks_incomplete unless every index from 0 to the count was
    received. *)
Theorem complete_needs_every_chunk (w : World) (sha256 : Upload.bytes -> Upload.bytes)
    (rs : list Upload.Request) (uid : string) (m : Upload.UploadMetadata) :
  let sv := Upload.serveAll w sha256 rs Upload.initialServer in
  Upload.metadataFiles (Upload.disk sv) !! uid = Some m ->
  MetaOk uid m
  /\ (forall now userId,
        fst (Upload.uploadComplete w sha256 now userId uid sv)
        = Upload.Refused 400 "chunks_incomplete"
        \/ Upload.um_receivedChunks m = Upload.upTo (Upload.um_totalChunks m)).
Proof.
  intros sv Hm.
  assert (Hok : MetaOk uid m).
  { apply (DiskOk_serveAll w sha256 rs Upload.initialServer); [|exact Hm].
    intros uid' m' H. cbn in H. rewrite lookup_empty in H. discriminate. }
  split; [exact Hok|]. intros now userId.
  unfold Upload.uploadComplete. rewrite Hm.
  destruct (Z.of_nat (length (Upload.um_receivedChunks m)) =? Upload.um_totalChunks m)%Z eqn:E;
    cbn [negb]; [|now left].
  right. apply Z.eqb_eq in E. now apply (received_all m uid).
Qed.

Lemma complete_needs_every_chunk_witness :
  let body := {| Upload.init_fileName := "a.pdf"; Upload.init_fileSize := 3;
                 Upload.init_hash := "255044"; Upload.init_chunkSize := 2;
                 Upload.init_existingUploadId := None |} in
  let sv := Upload.serveAll (sampleWorld 1) plainDigest
              [Upload.Init 0 None body;
               Upload.Chunk "b" 1 {| Upload.received := [Byte.x44]; Upload.broken := None |}]
              Upload.initialServer in
  exists m,
    Upload.metadataFiles (Upload.disk sv) !! "b" = Some m
    /\ Upload.um_receivedChunks m = [1%Z] /\ Upload.um_totalChunks m = 2%Z
    /\ MetaOk "b" m
    /\ fst (Upload.uploadComplete (sampleWorld 1) plainDigest 1 None "b" sv)
       = Upload.Refused 400 "chunks_incomplete".
Proof.
  cbv zeta.
  match goal with |- exists m, ?l = Some m /\ _ => destruct l as [m|] eqn:Hm end;
    [|vm_compute in Hm; discriminate].
  exists m. split; [reflexivity|].
  destruct (complete_needs_every_chunk (sampleWorld 1) plainDigest _ "b" m Hm) as [Hok Hgate].
  vm_compute in Hm. injection Hm as <-.
  split; [reflexivity|]. split; [reflexivity|]. split; [exact Hok|].
  destruct (Hgate 1%Z None) as [H|H]; [exact H | discriminate].
Defined.

(** ** From the file of the client to the file of the server *)

Lemma sort_sorted_id {A} (cmp : A -> A -> Q) (l : list A) :
  StronglySorted (before cmp) l -> sort cmp l = l.
Proof.
  induction 1 as [|a l Hs IH Ha]; [reflexivity|].
  cbn [sort]. rewrite IH. destruct l as [|b r]; [reflexivity|].
  cbn [insert]. apply Forall_cons in Ha as [Hab _]. unfold before in Hab. now rewrite Hab.
Qed.

Lemma upTo_S (k : nat) :
  Upload.upTo (Z.of_nat (S k)) = Upload.upTo (Z.of_nat k) ++ [Z.of_nat k].
Proof. unfold Upload.upTo. rewrite !Nat2Z.id, seq_S, map_app. reflexivity. Qed.

Lemma upTo_elem (n i : Z) : i ∈ Upload.upTo n <-> (0 <= i < n)%Z.
Proof.
  unfold Upload.upTo. rewrite list_elem_of_fmap. split.
  - intros (k & -> & Hk). apply elem_of_seq in Hk. lia.
  - intros Hi. exists (Z.to_nat i). split; [lia|]. apply elem_of_seq. lia.
Qed.

Lemma upTo_sorted (k : nat) : StronglySorted (before Upload.byIndex) (Upload.upTo (Z.of_nat k)).
Proof.
  induction k as [|k IH]; [constructor|].
  rewrite upTo_S. remember (Upload.upTo (Z.of_nat k)) as l eqn:Hl.
  assert (Hall : Forall (fun i => (i < Z.of_nat k)%Z) l).
  { subst l. apply Forall_forall. intros i Hi. apply upTo_elem in Hi. lia. }
  clear Hl. induction IH as [|a l Hs IHl Ha]; cbn [app].
  - repeat constructor.
  - apply Forall_cons in Hall as [Hak Hall]. constructor; [now apply IHl|].
    apply Forall_app. split; [exact Ha|]. constructor; [|constructor].
    apply byIndex_before. lia.
Qed.

Lemma push_next (k : nat) :
  sort Upload.byIndex (Upload.upTo (Z.of_nat k) ++ [Z.of_nat k]) = Upload.upTo (Z.of_nat (S k)).
Proof. rewrite <- upTo_S. apply sort_sorted_id, upTo_sorted. Qed.

Section RoundTrip.

Variable w : World.
Variable sha256 : Upload.bytes -> Upload.bytes.

Lemma putChunks_run (uploadId : string) (cs : Z) (file : Upload.File)
    (meta0 : Upload.UploadMetadata) (n k : nat) (sv : Upload.Server) :
  Upload.um_id meta0 = uploadId ->
  Upload.um_totalChunks meta0 = Z.of_nat (k + n) ->
  Upload.metadataFiles (Upload.disk sv) !! uploadId
  = Some (Upload.set_received (Upload.upTo (Z.of_nat k)) meta0) ->
  exists sv',
    Upload.putChunks uploadId [] cs file (map Z.of_nat (seq k n)) sv = (Ok tt, sv')
    /\ Upload.metadataFiles (Upload.disk sv') !! uploadId
       = Some (Upload.set_received (Upload.upTo (Z.of_nat (k + n))) meta0)
    /\ (forall i, k <= i < k + n ->
          Upload.chunkFiles (Upload.disk sv') !! (Upload.um_tempDir meta0, Z.of_nat i)
          = Some (Upload.chunkOf file cs (Z.of_nat i)))
    /\ (forall i, i < k ->
          Upload.chunkFiles (Upload.disk sv') !! (Upload.um_tempDir meta0, Z.of_nat i)
          = Upload.chunkFiles (Upload.disk sv) !! (Upload.um_tempDir meta0, Z.of_nat i))
    /\ Upload.uploadedFiles (Upload.disk sv') = Upload.uploadedFiles (Upload.disk sv)
    /\ Upload.uploadIndex (Upload.disk sv') = Upload.uploadIndex (Upload.disk sv)
    /\ Upload.pipeline sv' = Upload.pipeline sv.
Proof.
  intros Hid. revert k sv. induction n as [|n IH]; intros k sv Htotal Hmeta.
  - exists sv. rewrite Nat.add_0_r. cbn [seq map Upload.putChunks].
    repeat split; auto. intros i Hi. lia.
  - cbn [seq map Upload.putChunks].
    replace (bool_decide (Z.of_nat k ∈ [])) with false
      by (symmetry; apply bool_decide_eq_false; intros H; inversion H).
    unfold Upload.uploadChunk.
    replace (Z.of_nat k <? 0)%Z with false by (symmetry; apply Z.ltb_ge; lia).
    rewrite Hmeta. cbn [Upload.um_totalChunks Upload.set_received Upload.um_tempDir
                        Upload.um_receivedChunks Upload.broken Upload.received].
    replace (Upload.um_totalChunks meta0 <=? Z.of_nat k)%Z with false
      by (symmetry; apply Z.leb_gt; lia).
    cbv zeta.
    replace (bool_decide (Z.of_nat k ∈ Upload.upTo (Z.of_nat k))) with false
      by (symmetry; apply bool_decide_eq_false; rewrite upTo_elem; lia).
    rewrite push_next. cbn [Upload.ok negb].
    match goal with |- context [Upload.putChunks _ _ _ _ _ ?s] => set (sv1 := s) end.
    assert (Hchunks1 : Upload.chunkFiles (Upload.disk sv1)
              = <[(Upload.um_tempDir meta0, Z.of_nat k) := Upload.chunkOf file cs (Z.of_nat k)]>
                  (Upload.chunkFiles (Upload.disk sv))) by reflexivity.
    destruct (IH (S k) sv1) as (sv' & Hrun & Hm' & Hc' & Hold' & Hu' & Hi' & Hp').
    { lia. }
    { unfold sv1, Upload.saveUploadMetadata.
      cbn [Upload.disk Upload.metadataFiles Upload.set_metadataFiles Upload.um_id
           Upload.set_received].
      rewrite Hid, lookup_insert_eq. reflexivity. }
    exists sv'. split; [exact Hrun|].
    replace (k + S n) with (S k + n) by lia. split; [exact Hm'|].
    split; [|split; [|split; [|split]]].
    + intros i Hi. destruct (decide (i = k)) as [->|Hne]; [|apply Hc'; lia].
      rewrite Hold' by lia. rewrite Hchunks1, lookup_insert_eq. reflexivity.
    + intros i Hi. rewrite Hold' by lia. rewrite Hchunks1, lookup_insert_ne; [reflexivity|].
      intros [= E]. lia.
    + rewrite Hu'. reflexivity.
    + rewrite Hi'. reflexivity.
    + rewrite Hp'. reflexivity.
Qed.

Lemma appendFile_chunks path data d :
  Upload.chunkFiles (Upload.appendFile path data d) = Upload.chunkFiles d.
Proof. reflexivity. Qed.

Lemma appendChunks_run (dir final : string) (c : nat -> Upload.bytes) (n k : nat)
    (fed : Upload.bytes) (d : Upload.Disk) :
  (forall i, k <= i < k + n -> Upload.chunkFiles d !! (dir, Z.of_nat i) = Some (c i)) ->
  Upload.appendChunks dir final (map Z.of_nat (seq k n)) fed d
  = (Ok (fed ++ concat (map c (seq k n))),
     fold_left (fun d i => Upload.appendFile final (c i) d) (seq k n) d).
Proof.
  revert k fed d. induction n as [|n IH]; intros k fed d Hc.
  - cbn. now rewrite app_nil_r.
  - cbn [seq map Upload.appendChunks concat fold_left]. rewrite (Hc k) by lia.
    rewrite IH; [now rewrite <- app_assoc|].
    intros i Hi. rewrite appendFile_chunks. apply Hc. lia.
Qed.

Lemma fold_appendFile (final : string) (c : nat -> Upload.bytes) (ks : list nat)
    (d : Upload.Disk) :
  ks <> [] ->
  fold_left (fun d i => Upload.appendFile final (c i) d) ks d
  = Upload.set_uploadedFiles
      (<[final := default [] (Upload.uploadedFiles d !! final) ++ concat (map c ks)]>
         (Upload.uploadedFiles d)) d.
Proof.
  revert d. induction ks as [|i ks IH]; intros d Hne; [contradiction|].
  cbn [fold_left map concat]. destruct ks as [|j ks].
  - cbn [fold_left map concat]. rewrite app_nil_r. reflexivity.
  - rewrite IH by discriminate. unfold Upload.appendFile, Upload.set_uploadedFiles.
    cbn [Upload.uploadedFiles Upload.metadataFiles Upload.chunkFiles Upload.uploadIndex].
    rewrite lookup_insert_eq, insert_insert_eq. cbn [default from_option].
    unfold Datatypes.id. now rewrite <- app_assoc.
Qed.

Lemma Inv_set_uuids (n : nat) (s : State) : Inv s -> Inv (set_uuids n s).
Proof. intros []. constructor; assumption. Qed.

Lemma createTaskId_snd (params : CreateTaskParams) (s : State) :
  snd (Upload.createTaskId w params s) = snd (createTask w params s).
Proof.
  unfold Upload.createTaskId. destruct (createTask w params s) as [[r|msg] s']; reflexivity.
Qed.

Lemma Inv_serve (r : Upload.Request) (sv : Upload.Server) :
  Inv (Upload.pipeline sv) -> Inv (Upload.pipeline (Upload.serve w sha256 r sv)).
Proof.
  intros HI.
  assert (Hcreate : forall params (k : Outcome string * State -> Upload.Reply * Upload.Server),
            (forall o s', Upload.pipeline (snd (k (o, s'))) = s') ->
            Inv (Upload.pipeline (snd (k (Upload.createTaskId w params (Upload.pipeline sv)))))).
  { intros params k Hk.
    destruct (Upload.createTaskId w params (Upload.pipeline sv)) as [o s'] eqn:E.
    rewrite Hk. replace s' with (snd (Upload.createTaskId w params (Upload.pipeline sv)))
      by (now rewrite E).
    rewrite createTaskId_snd. now apply Inv_createTask. }
  destruct r as [now userId body|uploadId index payload|now userId uploadId|now userId file|];
    cbn [Upload.serve].
  - unfold Upload.uploadInit. destruct (negb (Upload.initSchema body)); [exact HI|]. cbv zeta.
    destruct (match Upload.uploadIndex (Upload.disk sv) !! Upload.init_hash body with
              | Some sourcePath => if String.eqb sourcePath "" then None else Some sourcePath
              | None => None
              end) as [sourcePath|].
    { apply (Hcreate _ (fun x => match x with
                                 | (Ok tid, s') => (Upload.InitFast tid, _)
                                 | (Throw msg, s') => (Upload.Failed msg, _)
                                 end)).
      intros [tid|msg] s'; reflexivity. }
    destruct (match Upload.init_existingUploadId body with
              | Some uploadId =>
                  if String.eqb uploadId "" then None
                  else Upload.metadataFiles (Upload.disk sv) !! uploadId
              | None => None
              end) as [meta|]; [exact HI|].
    unfold randomUUID. cbn [snd Upload.pipeline]. now apply Inv_set_uuids, Inv_set_uuids.
  - unfold Upload.uploadChunk. destruct (index <? 0)%Z; [exact HI|].
    destruct (Upload.metadataFiles (Upload.disk sv) !! uploadId) as [metadata|]; [|exact HI].
    destruct (_ <=? _)%Z; [exact HI|]. cbv zeta.
    destruct (Upload.broken payload); [exact HI|].
    destruct (bool_decide _); exact HI.
  - unfold Upload.uploadComplete.
    destruct (Upload.metadataFiles (Upload.disk sv) !! uploadId) as [metadata|]; [|exact HI].
    destruct (negb _); [exact HI|]. cbv zeta.
    destruct (Upload.appendChunks _ _ _ _ _) as [[fed|err] d]; [|exact HI].
    destruct (negb _); [exact HI|].
    apply (Hcreate _ (fun x => match x with
                               | (Throw msg, s') => (Upload.Failed msg, _)
                               | (Ok tid, s') => (Upload.TaskCreated tid, _)
                               end)).
    intros [tid|msg] s'; reflexivity.
  - unfold Upload.uploadWhole. destruct file as [[filename payload]|]; [|exact HI]. cbv zeta.
    destruct (Upload.broken payload); [exact HI|].
    apply (Hcreate _ (fun x => match x with
                               | (Throw _, s') => (Upload.Refused 500 "upload_failed", _)
                               | (Ok tid, s') => (Upload.TaskCreated tid, _)
                               end)).
    intros [tid|msg] s'; reflexivity.
  - cbn [Upload.pipeline]. now apply Inv_resume.
Qed.

Lemma Inv_serveAll (rs : list Upload.Request) (sv : Upload.Server) :
  Inv (Upload.pipeline sv) -> Inv (Upload.pipeline (Upload.serveAll w sha256 rs sv)).
Proof.
  revert sv. induction rs as [|r rs IH]; intros sv HI; [exact HI|].
  cbn [Upload.serveAll fold_left]. apply IH. now apply Inv_serve.
Qed.

(** The task a route creates. *)
Lemma createTaskId_run (params : CreateTaskParams) (s : State) :
  Inv s ->
  exists tid s' task,
    Upload.createTaskId w params s = (Ok tid, s')
    /\ s' = snd (createTask w params s)
    /\ task ∈ heap s' /\ id task = tid
    /\ sourcePath task = params_sourcePath params
    /\ fileName task = params_fileName params
    /\ userId task = params_userId params.
Proof.
  intros HI. unfold Upload.createTaskId.
  destruct (createTask_eq w params s) as [Hfst _].
  destruct (createTask_task_cases w params s HI) as (tn & Hheap & Hcase).
  destruct (createTask w params s) as [[r|msg] s'] eqn:E; cbn [fst snd] in *; [|discriminate].
  injection Hfst as ->. rewrite Hheap.
  rewrite lookup_app_r, Nat.sub_diag by lia. cbn [lookup list_lookup].
  exists (id tn), s', tn. split; [reflexivity|]. split; [reflexivity|].
  split; [rewrite Hheap; apply elem_of_app; right; left|]. split; [reflexivity|].
  destruct Hcase as [(_ & -> & _)|(_ & _ & _ & -> & _)]; repeat split.
Qed.

End RoundTrip.

Lemma filePath_not_empty (now : Z) (fileName : string) :
  String.eqb (Upload.filePath now fileName) "" = false.
Proof. reflexivity. Qed.

(** X28. The chunked upload brings the file of the client to the
    server. In any state the server reaches, when the client uploads a
    file (with a name, at least one byte, a non-empty digest) whose
    digest the upload index does not hold, for which the browser holds
    no upload to resume, and the path of the assembled file is not taken
    yet, then the upload ends with a task: the assembled file is, byte
    for byte, the file of the client; the index maps the digest to its
    path; the task is on this path under the name of the file; nothing
    is left for the browser to resume. And the next upload of the same
    bytes, whatever its name, sends no chunk and changes nothing on the
    disk: it ends with a new task on the same path. *)
Theorem chunked_upload_round_trip (w : World) (sha256 : Upload.bytes -> Upload.bytes)
    (rs : list Upload.Request) (file : Upload.File) (ls : Upload.Storage) (tInit tDone : Z) :
  let sv := Upload.serveAll w sha256 rs Upload.initialServer in
  let hash := Upload.hex (sha256 (Upload.file_content file)) in
  let finalPath := Upload.filePath tDone (Upload.file_name file) in
  Upload.file_name file <> "" ->
  Upload.file_content file <> [] ->
  hash <> "" ->
  Upload.uploadIndex (Upload.disk sv) !! hash = None ->
  ls !! Upload.storageKey hash = None ->
  Upload.uploadedFiles (Upload.disk sv) !! finalPath = None ->
  exists taskId ls' sv',
    Upload.uploadFileWithResume w sha256 true tInit tDone file ls sv = (Ok taskId, (ls', sv'))
    /\ Upload.uploadedFiles (Upload.disk sv')
       = <[finalPath := Upload.file_content file]> (Upload.uploadedFiles (Upload.disk sv))
    /\ Upload.uploadIndex (Upload.disk sv')
       = <[hash := finalPath]> (Upload.uploadIndex (Upload.disk sv))
    /\ ls' !! Upload.storageKey hash = None
    /\ (exists task, task ∈ heap (Upload.pipeline sv')
          /\ id task = taskId /\ sourcePath task = finalPath
          /\ fileName task = Upload.file_name file)
    /\ (forall (file2 : Upload.File) (ls2 : Upload.Storage) (t1 t2 : Z),
          Upload.file_content file2 = Upload.file_content file ->
          Upload.file_name file2 <> "" ->
          exists taskId2 sv2,
            Upload.uploadFileWithResume w sha256 true t1 t2 file2 ls2 sv'
            = (Ok taskId2, (ls2, sv2))
            /\ Upload.disk sv2 = Upload.disk sv'
            /\ exists task2, task2 ∈ heap (Upload.pipeline sv2)
                 /\ id task2 = taskId2 /\ sourcePath task2 = finalPath
                 /\ fileName task2 = Upload.file_name file2).
Proof.
  intros sv hash finalPath Hname Hcontent Hhash Hindex Hls Hfresh.
  assert (HI : Inv (Upload.pipeline sv)) by (apply Inv_serveAll, Inv_initial).
  clearbody sv.
  assert (Hsize : (1 <= Upload.file_size file)%Z).
  { unfold Upload.file_size. destruct (Upload.file_content file); [contradiction | cbn; lia]. }
  assert (Hschema : forall name existing, name <> "" ->
            Upload.initSchema
              {| Upload.init_fileName := name; Upload.init_fileSize := Upload.file_size file;
                 Upload.init_hash := hash; Upload.init_chunkSize := Upload.defaultChunkSize;
                 Upload.init_existingUploadId := existing |} = true).
  { intros name existing Hn. unfold Upload.initSchema.
    cbn [Upload.init_fileName Upload.init_fileSize Upload.init_hash Upload.init_chunkSize].
    apply String.eqb_neq in Hn, Hhash. rewrite Hn, Hhash. cbn [negb andb].
    rewrite !andb_true_r. apply Z.leb_le, Hsize. }
  (* the first request *)
  unfold Upload.uploadFileWithResume, Upload.computeFileHash. fold hash. rewrite Hls.
  unfold Upload.uploadInit at 1. rewrite (Hschema _ None Hname). cbn [negb]. cbv zeta.
  cbn [Upload.init_hash Upload.init_existingUploadId Upload.init_fileName
       Upload.init_fileSize Upload.init_chunkSize].
  rewrite Hindex. unfold randomUUID.
  cbn [Upload.um_id Upload.um_receivedChunks Upload.um_chunkSize Upload.um_totalChunks].
  change (Upload.defaultChunkSize =? 0)%Z with false. cbv iota.
  set (total := Upload.ceil (inject_Z (Upload.file_size file) / inject_Z Upload.defaultChunkSize)).
  set (s2 := set_uuids _ (set_uuids _ (Upload.pipeline sv))).
  set (uploadId := uuid w (uuids (set_uuids _ (Upload.pipeline sv)))).
  set (meta0 := {| Upload.um_id := uploadId; Upload.um_fileName := Upload.file_name file;
                   Upload.um_fileSize := Upload.file_size file; Upload.um_hash := hash;
                   Upload.um_chunkSize := Upload.defaultChunkSize;
                   Upload.um_totalChunks := total; Upload.um_receivedChunks := [];
                   Upload.um_tempDir := Upload.tempDirOf (uuid w (uuids (Upload.pipeline sv)));
                   Upload.um_createdAt := tInit |}).
  destruct (ceil_bounds (Upload.file_size file) Upload.defaultChunkSize ltac:(easy) Hsize)
    as (Htotal & _). fold total in Htotal.
  set (sv1 := {| Upload.disk := Upload.saveUploadMetadata meta0 (Upload.disk sv);
                 Upload.pipeline := s2 |}).
  (* the chunks *)
  destruct (putChunks_run uploadId Upload.defaultChunkSize file meta0
              (Z.to_nat total) 0 sv1) as (sv2 & Hrun & Hmeta2 & Hchunks2 & _ & Hfiles2 & Hindex2 & Hpipe2).
  { reflexivity. }
  { cbn [Upload.um_totalChunks meta0]. lia. }
  { unfold sv1, Upload.saveUploadMetadata.
    cbn [Upload.disk Upload.metadataFiles Upload.set_metadataFiles Upload.um_id meta0].
    rewrite lookup_insert_eq. reflexivity. }
  unfold Upload.upTo at 1. rewrite Hrun.
  (* the last request *)
  unfold Upload.uploadComplete at 1. rewrite Hmeta2.
  cbn [Upload.um_receivedChunks Upload.set_received Upload.um_totalChunks Upload.um_tempDir
       Upload.um_fileName Upload.um_hash Upload.um_id meta0].
  replace (Z.of_nat (length (Upload.upTo (Z.of_nat (0 + Z.to_nat total)))) =? total)%Z with true
    by (symmetry; apply Z.eqb_eq; unfold Upload.upTo; rewrite length_map, length_seq; lia).
  cbn [negb]. cbv zeta. fold finalPath.
  unfold Upload.upTo at 1.
  rewrite (appendChunks_run _ _
             (fun i => Upload.chunkOf file Upload.defaultChunkSize (Z.of_nat i))
             (Z.to_nat total) 0)
    by (intros i Hi; apply Hchunks2; lia).
  rewrite fold_appendFile by (destruct (Z.to_nat total) eqn:E; [lia | discriminate]).
  assert (Hwhole : concat (map (fun i => Upload.chunkOf file Upload.defaultChunkSize (Z.of_nat i))
                               (seq 0 (Z.to_nat total)))
                   = Upload.file_content file).
  { rewrite <- (chunks_concat file Upload.defaultChunkSize ltac:(easy) Hsize).
    fold total. unfold Upload.upTo. now rewrite map_map. }
  rewrite Hwhole. cbn [app]. rewrite Hfiles2. cbn [sv1 Upload.disk Upload.uploadedFiles
    Upload.saveUploadMetadata Upload.set_metadataFiles]. rewrite Hfresh.
  cbn [default from_option app]. fold hash. rewrite String.eqb_refl. cbn [negb].
  rewrite Hpipe2. cbn [Upload.pipeline sv1].
  assert (HI2 : Inv s2) by (unfold s2; now apply Inv_set_uuids, Inv_set_uuids).
  destruct (createTaskId_run w {| params_userId := Upload.userOf None;
                                  params_fileName := Upload.file_name file;
                                  params_fileType := pdf;
                                  params_sourcePath := finalPath |} s2 HI2)
    as (tid & s3 & task & Hcreate & Hs3 & Htask & Hid & Hpath & Hfile & _).
  rewrite Hcreate.
  eexists tid, _, _. split; [reflexivity|].
  cbn [Upload.disk Upload.uploadedFiles Upload.uploadIndex Upload.unlinkMetadata Upload.rmDir
       Upload.set_metadataFiles Upload.set_chunkFiles Upload.set_uploadIndex
       Upload.set_uploadedFiles Upload.pipeline].
  rewrite Hindex2.
  split; [reflexivity|]. split; [reflexivity|].
  split; [now rewrite lookup_delete_eq|].
  split; [now exists task|].
  (* the same bytes again *)
  intros file2 ls2 t1 t2 Hsame Hname2.
  unfold Upload.uploadFileWithResume, Upload.computeFileHash. rewrite Hsame. fold hash.
  unfold Upload.uploadInit.
  replace (Upload.file_size file2) with (Upload.file_size file)
    by (unfold Upload.file_size; now rewrite Hsame).
  rewrite (Hschema _ _ Hname2). cbn [negb]. cbv zeta.
  cbn [Upload.init_hash Upload.disk Upload.uploadIndex Upload.unlinkMetadata Upload.rmDir
       Upload.set_metadataFiles Upload.set_chunkFiles Upload.set_uploadIndex Upload.pipeline
       Upload.init_fileName].
  rewrite lookup_insert_eq.
  rewrite (filePath_not_empty tDone (Upload.file_name file) : (finalPath =? "")%string = false).
  assert (HI3 : Inv s3) by (rewrite Hs3; now apply Inv_createTask).
  destruct (createTaskId_run w {| params_userId := Upload.userOf None;
                                  params_fileName := Upload.file_name file2;
                                  params_fileType := pdf;
                                  params_sourcePath := finalPath |} s3 HI3)
    as (tid2 & s4 & task2 & Hcreate2 & _ & Htask2 & Hid2 & Hpath2 & Hfile2 & _).
  rewrite Hcreate2. eexists tid2, _. split; [reflexivity|].
  split; [reflexivity|]. now exists task2.
Qed.

Lemma chunked_upload_round_trip_witness :
  exists taskId ls' sv',
    Upload.uploadFileWithResume (sampleWorld 1) plainDigest true 5 7 sampleFile ∅
      Upload.initialServer = (Ok taskId, (ls', sv'))
    /\ Upload.uploadedFiles (Upload.disk sv') !! "uploads/7-a.pdf"
       = Some [Byte.x25; Byte.x50; Byte.x44]
    /\ Upload.uploadIndex (Upload.disk sv') !! "255044" = Some "uploads/7-a.pdf".
Proof.
  destruct (chunked_upload_round_trip (sampleWorld 1) plainDigest [] sampleFile ∅ 5 7)
    as (taskId & ls' & sv' & Hrun & Hfiles & Hindex & _);
    try reflexivity; try discriminate.
  exists taskId, ls', sv'. split; [exact Hrun|].
  rewrite Hfiles, Hindex. split; apply lookup_insert_eq.
Defined.

(** * The viewer (PdfViewer.tsx, HighlightOverlay.tsx) *)

Lemma toCanvasBBox_onCanvas (b : Viewer.NormalizedBBox) (c : Viewer.CanvasSize) :
  (0 <= Viewer.width c)%Q -> (0 <= Viewer.height c)%Q -> inUnitSquare b ->
  onCanvas (Viewer.width c) (Viewer.height c) (Viewer.toCanvasBBox b c).
Proof.
  intros HW HH (H1 & H2 & H3 & H4 & H5 & H6). unfold onCanvas, Viewer.toCanvasBBox.
  cbn [Viewer.left Viewer.top Viewer.box_width Viewer.box_height].
  set (W := Viewer.width c) in *. set (H := Viewer.height c) in *.
  repeat split; nra.
Qed.

(** X29. What the viewer highlights. On a page, an overlay is drawn only
    when the active reference names this document and this page, and
    only for a region of the page that the reference cites; every cited
    region of the page is drawn. A reference whose identities are all
    undefined highlights nothing. On a page whose sizes are not
    negative, the overlay of a region whose box lies in the unit square
    lies on the canvas of the page. *)
Theorem viewer_highlights_the_cited_regions (documentId : string)
    (pages : list Viewer.PdfPageMetadata) (regionsByPage : gmap nat (list Viewer.VisualRegion))
    (s : Viewer.PdfViewerState) (k : nat) (page : Viewer.PdfPageMetadata) :
  pages !! k = Some page ->
  let regions := default [] (regionsByPage !! Viewer.page_pageNumber page) in
  let cited ref region :=
    Viewer.activeReference s = Some ref
    /\ Viewer.documentId ref = documentId
    /\ Viewer.pageNumber ref = Viewer.page_pageNumber page
    /\ region ∈ regions
    /\ Some (Viewer.id region) ∈ Viewer.regionIds ref in
  exists overlays,
    Viewer.PdfViewer documentId pages regionsByPage s !! k
    = Some (Viewer.page_pageNumber page, overlays)
    /\ (forall o, o ∈ overlays ->
          exists ref region,
            cited ref region /\ Viewer.key o = Viewer.id region
            /\ ((0 <= Viewer.page_width page)%Q -> (0 <= Viewer.page_height page)%Q ->
                inUnitSquare (Viewer.bbox region) ->
                onCanvas (Viewer.page_width page) (Viewer.page_height page) (Viewer.style o)))
    /\ (forall ref region, cited ref region ->
          exists o, o ∈ overlays /\ Viewer.key o = Viewer.id region)
    /\ ((forall ref, Viewer.activeReference s = Some ref ->
           Forall (fun rid => rid = None) (Viewer.regionIds ref)) ->
        overlays = []).
Proof.
  intros Hk regions cited. unfold Viewer.PdfViewer.
  rewrite list_lookup_fmap, Hk. cbn [fmap option_fmap option_map]. cbv zeta. fold regions.
  set (active := match Viewer.activeReference s with
                 | Some ref =>
                     if String.eqb (Viewer.documentId ref) documentId
                        && (Viewer.pageNumber ref =? Viewer.page_pageNumber page)%nat
                     then Viewer.regionIds ref
                     else []
                 | None => []
                 end).
  eexists. split; [reflexivity|].
  assert (Hactive : forall rid, rid ∈ active <->
            exists ref, Viewer.activeReference s = Some ref
              /\ Viewer.documentId ref = documentId
              /\ Viewer.pageNumber ref = Viewer.page_pageNumber page
              /\ rid ∈ Viewer.regionIds ref).
  { intros rid. unfold active. destruct (Viewer.activeReference s) as [ref|].
    - destruct (String.eqb_spec (Viewer.documentId ref) documentId) as [Hd|Hd];
        destruct (Nat.eqb_spec (Viewer.pageNumber ref) (Viewer.page_pageNumber page)) as [Hn|Hn];
        cbn [andb]; split.
      all: try (intros H; inversion H; fail).
      all: try (intros (ref' & [= <-] & H1 & H2 & _); congruence).
      + intros H. now exists ref.
      + now intros (ref' & [= <-] & _ & _ & H).
    - split; [intros H; inversion H | intros (ref & H & _); discriminate]. }
  assert (Hvisible : forall region,
            region ∈ (if (0 <? length active)%nat
                      then List.filter (fun region => bool_decide (Some (Viewer.id region) ∈ active))
                                       regions
                      else [])
            <-> region ∈ regions /\ Some (Viewer.id region) ∈ active).
  { intros region. destruct active as [|a0 active'] eqn:Ha.
    - cbn. split; [intros H; inversion H | intros [_ H]; inversion H].
    - rewrite <- Ha. replace (0 <? length active)%nat with true by (now rewrite Ha).
      rewrite list_elem_of_In, filter_In, <- list_elem_of_In, bool_decide_eq_true.
      reflexivity. }
  unfold Viewer.HighlightOverlay. cbv zeta.
  split; [|split].
  - intros o Ho. apply list_elem_of_fmap in Ho as (region & -> & Hregion).
    apply Hvisible in Hregion as [Hr Hcited].
    apply Hactive in Hcited as (ref & Href & Hd & Hn & Hcited).
    exists ref, region. split; [repeat split; assumption|]. split; [reflexivity|].
    intros HW HH Hb. cbn [Viewer.style].
    apply (toCanvasBBox_onCanvas (Viewer.bbox region)
             {| Viewer.width := Viewer.page_width page;
                Viewer.height := Viewer.page_height page |}); assumption.
  - intros ref region (Href & Hd & Hn & Hr & Hcited). eexists. split.
    + apply list_elem_of_fmap_2. apply Hvisible. split; [exact Hr|].
      apply Hactive. now exists ref.
    + reflexivity.
  - intros Hnone.
    match goal with |- map _ ?v = [] => rewrite (elem_of_nil_inv v); [reflexivity|] end.
    intros region Hregion. apply Hvisible in Hregion as [_ Hcited].
    apply Hactive in Hcited as (ref & Href & _ & _ & Hcited).
    specialize (Hnone ref Href). rewrite Forall_forall in Hnone.
    specialize (Hnone _ Hcited). discriminate.
Qed.

Lemma viewer_highlights_witness :
  let region := {| Viewer.id := "r1";
                   Viewer.bbox := {| Viewer.x0 := 1 # 10; Viewer.y0 := 1 # 2;
                                     Viewer.x1 := 1 # 2; Viewer.y1 := 3 # 5 |};
                   Viewer.type := Some "other" |} in
  let page := {| Viewer.page_pageNumber := 1; Viewer.page_width := 600;
                 Viewer.page_height := 800 |} in
  let s := Viewer.setActiveReference
             (Some {| Viewer.documentId := "doc"; Viewer.pageNumber := 1;
                      Viewer.regionIds := [Some "r1"; None] |})
             Viewer.initialViewerState in
  exists overlays o,
    Viewer.PdfViewer "doc" [page] {[ 1 := [region] ]} s !! 0 = Some (1, overlays)
    /\ o ∈ overlays /\ Viewer.key o = "r1".
Proof.
  cbv zeta.
  destruct (viewer_highlights_the_cited_regions "doc"
              [{| Viewer.page_pageNumber := 1; Viewer.page_width := 600;
                  Viewer.page_height := 800 |}]
              {[ 1 := [{| Viewer.id := "r1";
                          Viewer.bbox := {| Viewer.x0 := 1 # 10; Viewer.y0 := 1 # 2;
                                            Viewer.x1 := 1 # 2; Viewer.y1 := 3 # 5 |};
                          Viewer.type := Some "other" |}] ]}
              (Viewer.setActiveReference
                 (Some {| Viewer.documentId := "doc"; Viewer.pageNumber := 1;
                          Viewer.regionIds := [Some "r1"; None] |})
                 Viewer.initialViewerState)
              0 _ eq_refl) as (overlays & Hrun & _ & Hall & _).
  destruct (Hall {| Viewer.documentId := "doc"; Viewer.pageNumber := 1;
                    Viewer.regionIds := [Some "r1"; None] |}
                 {| Viewer.id := "r1";
                    Viewer.bbox := {| Viewer.x0 := 1 # 10; Viewer.y0 := 1 # 2;
                                      Viewer.x1 := 1 # 2; Viewer.y1 := 3 # 5 |};
                    Viewer.type := Some "other" |}) as (o & Ho & Hkey).
  { repeat split; try reflexivity; [|left].
    cbn [Viewer.page_pageNumber]. rewrite lookup_singleton_eq. left. }
  exists overlays, o. auto.
Defined.

(** * The chat stream (index.ts, page.tsx) *)

Lemma string_length_app (s1 s2 : string) :
  String.length (s1 +:+ s2) = (String.length s1 + String.length s2)%nat.
Proof. induction s1 as [|c s1 IH]; [reflexivity|]. cbn. now rewrite <- IH. Qed.

Lemma stamps_differ (s1 s2 : string) : s1 +:+ "-user" <> s2 +:+ "-assistant".
Proof.
  intros H.
  assert (Hl := f_equal String.length H).
  rewrite !string_length_app in Hl. cbn in Hl.
  assert (H1 := String.append_correct2 s1 "-user" 4).
  assert (H2 := String.append_correct2 s2 "-assistant" 9).
  change (s1 ++ "-user")%string with (s1 +:+ "-user") in H1.
  change (s2 ++ "-assistant")%string with (s2 +:+ "-assistant") in H2.
  rewrite H in H1.
  replace (4 + String.length s1)%nat with (9 + String.length s2)%nat in H1 by lia.
  rewrite <- H2 in H1. discriminate H1.
Qed.

Lemma updateAssistant_at (a : string) (f : Chat.ChatMessage -> Chat.ChatMessage)
    (pre : list Chat.ChatMessage) (m : Chat.ChatMessage) (post : list Chat.ChatMessage) :
  Forall (fun x => Chat.msg_id x <> a) pre -> Chat.msg_id m = a ->
  Chat.updateAssistant a f (pre ++ m :: post) = pre ++ f m :: post.
Proof.
  intros Hpre Hm. unfold Chat.updateAssistant.
  assert (Hfind : list_find (fun x => Chat.msg_id x = a) (pre ++ m :: post)
                  = Some (length pre, m)).
  { apply list_find_Some. split; [|split].
    - now rewrite list_lookup_middle.
    - exact Hm.
    - intros j y Hj Hlt. rewrite lookup_app_l in Hj by exact Hlt.
      rewrite Forall_forall in Hpre. apply Hpre.
      now apply list_elem_of_lookup_2 with j. }
  rewrite Hfind.
  replace (length pre) with (length pre + 0)%nat by lia.
  now rewrite insert_app_r.
Qed.

Lemma set_chatMessages_same (p : Chat.Page) : Chat.set_chatMessages (Chat.chatMessages p) p = p.
Proof. now destruct p. Qed.

Lemma with_content_same (m : Chat.ChatMessage) : Chat.with_content (Chat.content m) m = m.
Proof. now destruct m. Qed.

Lemma streamTokens_open (i : nat) (chunks : list Chat.Content) :
  Chat.streamTokens None i chunks
  = (flat_map (fun c => if isEmpty (Chat.tokenOf c) then []
                        else [Chat.token_event (Chat.tokenOf c)]) chunks,
     false).
Proof.
  revert i. induction chunks as [|c chunks IH]; intros i; [reflexivity|].
  cbn [Chat.streamTokens Chat.isClosed flat_map]. now rewrite IH.
Qed.

Lemma deliverAll_app (l1 l2 : list Chat.EsEvent) (p : Chat.Page) :
  Chat.deliverAll (l1 ++ l2) p = Chat.deliverAll l2 (Chat.deliverAll l1 p).
Proof. unfold Chat.deliverAll. apply fold_left_app. Qed.

(** The tokens of the stream are appended to the assistant message. *)
Lemma deliver_tokens (a d : string) (chunks : list Chat.Content) :
  forall (p : Chat.Page) (pre : list Chat.ChatMessage) (m : Chat.ChatMessage)
         (post : list Chat.ChatMessage),
    Chat.eventSource p = Some (a, d) ->
    Chat.chatMessages p = pre ++ m :: post ->
    Forall (fun x => Chat.msg_id x <> a) pre -> Chat.msg_id m = a ->
    Chat.deliverAll
      (received (flat_map (fun c => if isEmpty (Chat.tokenOf c) then []
                                    else [Chat.token_event (Chat.tokenOf c)]) chunks)) p
    = Chat.set_chatMessages
        (pre ++ Chat.with_content (Chat.content m ++ textOf chunks) m :: post) p.
Proof.
  induction chunks as [|c chunks IH]; intros p pre m post Hes Hmsgs Hpre Hm.
  - cbn. unfold textOf. cbn. rewrite app_nil_r, with_content_same, <- Hmsgs.
    symmetry. apply set_chatMessages_same.
  - cbn [flat_map]. unfold received. rewrite map_app. fold (received
      (flat_map (fun c => if isEmpty (Chat.tokenOf c) then []
                          else [Chat.token_event (Chat.tokenOf c)]) chunks)).
    rewrite deliverAll_app.
    unfold textOf. cbn [map concat]. fold (textOf chunks).
    destruct (Chat.tokenOf c) as [|t0 ts] eqn:Et.
    + cbn [isEmpty map Chat.deliverAll fold_left app].
      fold (Chat.deliverAll
              (received (flat_map (fun c => if isEmpty (Chat.tokenOf c) then []
                                            else [Chat.token_event (Chat.tokenOf c)]) chunks)) p).
      now apply IH.
    + cbn [isEmpty map]. unfold Chat.deliverAll at 2. cbn [fold_left].
      unfold Chat.deliver at 1. rewrite Hes. cbn [Chat.handle isEmpty].
      rewrite Hmsgs, updateAssistant_at by assumption.
      rewrite (IH _ pre (Chat.with_content (Chat.content m ++ t0 :: ts) m) post);
        [| exact Hes | reflexivity | exact Hpre | exact Hm].
      cbn [Chat.with_content Chat.content Chat.msg_id Chat.role Chat.citations].
      unfold Chat.set_chatMessages. cbn. now rewrite <- app_assoc.
Qed.

(** The last frame of an answer: the citations are attached and the
    first one becomes the reference of the viewer. *)
Lemma deliver_done (a d : string) (cites : list Chat.Citation) (p : Chat.Page)
    (pre : list Chat.ChatMessage) (m : Chat.ChatMessage) (post : list Chat.ChatMessage) :
  Chat.eventSource p = Some (a, d) ->
  Chat.chatMessages p = pre ++ m :: post ->
  Forall (fun x => Chat.msg_id x <> a) pre -> Chat.msg_id m = a ->
  let p2 := Chat.deliver (Chat.es_message (Some (Chat.done_event cites))) p in
  Chat.chatStreaming p2 = false /\ Chat.eventSource p2 = None
  /\ Chat.chatError p2 = Chat.chatError p
  /\ Chat.chatMessages p2
     = pre ++ match cites with [] => m | _ => Chat.with_citations cites m end :: post
  /\ Chat.viewer p2
     = match cites with
       | [] => Chat.viewer p
       | first :: _ =>
           Viewer.setActiveReference
             (Some {| Viewer.documentId := d;
                      Viewer.pageNumber := Chat.cite_pageNumber first;
                      Viewer.regionIds := Chat.cite_regionIds first |}) (Chat.viewer p)
       end.
Proof.
  intros Hes Hmsgs Hpre Hm. unfold Chat.deliver. rewrite Hes.
  destruct cites as [|first cites]; cbn.
  - now rewrite Hmsgs.
  - rewrite Hmsgs, updateAssistant_at by assumption. repeat split; reflexivity.
Qed.

(** The frame of a failure: its message is shown unless text was shown
    before. *)
Lemma deliver_error (a d : string) (message : string) (p : Chat.Page)
    (pre : list Chat.ChatMessage) (m : Chat.ChatMessage) (post : list Chat.ChatMessage) :
  Chat.eventSource p = Some (a, d) ->
  Chat.chatMessages p = pre ++ m :: post ->
  Forall (fun x => Chat.msg_id x <> a) pre -> Chat.msg_id m = a ->
  let p2 := Chat.deliver (Chat.es_message (Some (Chat.error_event message))) p in
  Chat.chatStreaming p2 = false /\ Chat.eventSource p2 = None
  /\ Chat.chatError p2
     = (if Chat.blank (of_string message) then Chat.chatError p else Some message)
  /\ Chat.chatMessages p2
     = pre ++ Chat.orIfBlank (if Chat.blank (of_string message) then Chat.failedText
                              else Chat.failedWith ++ of_string message) m :: post
  /\ Chat.viewer p2 = Chat.viewer p.
Proof.
  intros Hes Hmsgs Hpre Hm. unfold Chat.deliver. rewrite Hes.
  cbn [Chat.handle]. rewrite Hmsgs, updateAssistant_at by assumption.
  destruct (Chat.blank (of_string message)); repeat split; reflexivity.
Qed.

(** X30. A question of the chat and its answer. When the page has a
    document in the viewer, a question typed, no answer under way and no
    message yet with the identity of the new assistant message, and the
    origin of the page is allowed, then the question is sent trimmed, the
    response is ended, and when all its frames are delivered the
    conversation has two more messages, the question and the assistant's,
    and the page is no longer streaming and its event source is closed.
    When the search and the model succeed, the assistant message is the
    text of the chunks of the model, put together, with one citation for
    each result of the search, the viewer refers to the regions of the
    first result, and no error is shown. When the search, the model or
    its stream fail before any text, the message of the failure is shown
    as the chat's error and, after the words for a failed answer, as the
    assistant message. When the stream fails after some text, the text
    stays. *)
Theorem chat_answer_reaches_the_page
    (toLowerCase : jsstring -> jsstring) (prisma : Search.Persistence)
    (openai : Search.Generation) (chatLlm : Chat.Llm) (env origin : option jsstring)
    (o : jsstring) (documentId : string) (limit : option Z) (now1 now2 : Z) (p : Chat.Page) :
  Chat.viewerDocumentId p = Some documentId -> documentId <> "" ->
  Chat.chatStreaming p = false ->
  trim (Chat.chatInput p) <> [] ->
  Forall (fun m => Chat.msg_id m <> Chat.stamp now2 "-assistant") (Chat.chatMessages p) ->
  Cors.chatStreamHead env origin = Cors.EventStream o ->
  let q := trim (Chat.chatInput p) in
  let search := Search.semanticSearch toLowerCase prisma openai documentId q limit in
  exists p1 frames,
    Chat.handleChatSubmit now1 now2 p = (p1, Some q)
    /\ Chat.chatStream toLowerCase prisma openai chatLlm env origin documentId q limit None
       = Chat.Stream o frames true
    /\ let p2 := Chat.deliverAll (received frames) p1 in
       Chat.chatStreaming p2 = false /\ Chat.eventSource p2 = None
       /\ exists text cites,
           Chat.chatMessages p2
           = Chat.chatMessages p
               ++ [questionOf now1 p;
                   {| Chat.msg_id := Chat.stamp now2 "-assistant"; Chat.role := Chat.assistant;
                      Chat.content := text; Chat.citations := cites |}]
           /\ (forall results chunks,
                  search = Ok results ->
                  chatLlm (Chat.promptOf q results) = Ok (chunks, None) ->
                  text = textOf chunks
                  /\ cites = match results with
                             | [] => None
                             | _ => Some (map Chat.citationOf results)
                             end
                  /\ Chat.chatError p2 = None
                  /\ Chat.viewer p2 = firstReference documentId results (Chat.viewer p))
           /\ (forall err,
                  search = Throw err
                  \/ (exists results,
                         search = Ok results
                         /\ (chatLlm (Chat.promptOf q results) = Throw err
                             \/ exists chunks,
                                 chatLlm (Chat.promptOf q results) = Ok (chunks, Some err)
                                 /\ Chat.blank (textOf chunks) = true)) ->
                  Chat.blank (of_string (Chat.messageOf err)) = false ->
                  text = Chat.failedWith ++ of_string (Chat.messageOf err)
                  /\ cites = None
                  /\ Chat.chatError p2 = Some (Chat.messageOf err)
                  /\ Chat.viewer p2 = Chat.viewer p)
           /\ (forall results chunks err,
                  search = Ok results ->
                  chatLlm (Chat.promptOf q results) = Ok (chunks, Some err) ->
                  Chat.blank (textOf chunks) = false ->
                  text = textOf chunks /\ cites = None /\ Chat.viewer p2 = Chat.viewer p).
Proof.
  intros Hdoc Hne Hstreaming Hq Hids Hhead q search.
  assert (Hsubmit : Chat.handleChatSubmit now1 now2 p
                    = ({| Chat.chatMessages :=
                            Chat.chatMessages p
                              ++ [questionOf now1 p;
                                  {| Chat.msg_id := Chat.stamp now2 "-assistant";
                                     Chat.role := Chat.assistant; Chat.content := [];
                                     Chat.citations := None |}];
                          Chat.chatInput := [];
                          Chat.chatStreaming := true;
                          Chat.chatError := None;
                          Chat.viewerDocumentId := Chat.viewerDocumentId p;
                          Chat.viewer := Chat.viewer p;
                          Chat.eventSource := Some (Chat.stamp now2 "-assistant", documentId) |},
                       Some q)).
  { unfold Chat.handleChatSubmit. rewrite Hdoc.
    apply String.eqb_neq in Hne. rewrite Hne.
    cbn [Chat.set_chatError Chat.chatInput Chat.chatStreaming Chat.chatMessages
         Chat.viewerDocumentId Chat.viewer].
    fold q. destruct q as [|c q'] eqn:Eq; [now contradiction Hq|].
    cbn [isEmpty]. rewrite Hstreaming. unfold questionOf. fold q. now rewrite Eq. }
  set (a := Chat.stamp now2 "-assistant") in *.
  set (m0 := {| Chat.msg_id := a; Chat.role := Chat.assistant; Chat.content := [];
                Chat.citations := None |}) in *.
  set (pre := Chat.chatMessages p ++ [questionOf now1 p]).
  set (p1 := {| Chat.chatMessages := Chat.chatMessages p ++ [questionOf now1 p; m0];
                Chat.chatInput := []; Chat.chatStreaming := true; Chat.chatError := None;
                Chat.viewerDocumentId := Chat.viewerDocumentId p;
                Chat.viewer := Chat.viewer p;
                Chat.eventSource := Some (a, documentId) |}) in *.
  assert (Hes : Chat.eventSource p1 = Some (a, documentId)) by reflexivity.
  assert (Hmsgs : Chat.chatMessages p1 = pre ++ m0 :: []).
  { unfold pre. cbn. now rewrite <- app_assoc. }
  assert (Hpre : Forall (fun x => Chat.msg_id x <> a) pre).
  { unfold pre. apply Forall_app. split; [exact Hids|].
    constructor; [|constructor]. apply stamps_differ. }
  assert (Hm0 : Chat.msg_id m0 = a) by reflexivity.
  assert (Hshape : forall l x, Chat.chatMessages p ++ [questionOf now1 p; x] = l ->
                               pre ++ [x] = l).
  { intros l x <-. unfold pre. now rewrite <- app_assoc. }
  (* a failure before the stream *)
  assert (Hearly : forall err,
             let p2 := Chat.deliverAll (received [Chat.error_event (Chat.messageOf err)]) p1 in
             Chat.chatStreaming p2 = false /\ Chat.eventSource p2 = None
             /\ exists text cites,
                 Chat.chatMessages p2
                 = Chat.chatMessages p
                     ++ [questionOf now1 p;
                         {| Chat.msg_id := a; Chat.role := Chat.assistant;
                            Chat.content := text; Chat.citations := cites |}]
                 /\ (Chat.blank (of_string (Chat.messageOf err)) = false ->
                     text = Chat.failedWith ++ of_string (Chat.messageOf err)
                     /\ cites = None
                     /\ Chat.chatError p2 = Some (Chat.messageOf err)
                     /\ Chat.viewer p2 = Chat.viewer p)).
  { intros err.
    destruct (deliver_error a documentId (Chat.messageOf err) p1 pre m0 []
                Hes Hmsgs Hpre Hm0) as (Hs & He & Herr & Hmsg & Hv).
    split; [exact Hs|]. split; [exact He|].
    eexists _, _. split.
    - etransitivity; [exact Hmsg|]. unfold pre. rewrite <- app_assoc. cbn [app].
      unfold Chat.orIfBlank. change (Chat.blank (Chat.content m0)) with true.
      cbv beta iota. unfold Chat.with_content, m0.
      cbn [Chat.msg_id Chat.role Chat.citations]. reflexivity.
    - intros Hb. rewrite Hb in Herr |- *. repeat split; [exact Herr | exact Hv]. }
  (* the tokens of a stream *)
  assert (Htokens : forall chunks final,
             Chat.deliverAll
               (received (fst (Chat.streamTokens None 0 chunks) ++ [final])) p1
             = Chat.deliver (Chat.es_message (Some final))
                 (Chat.set_chatMessages
                    (pre ++ [Chat.with_content (textOf chunks) m0]) p1)).
  { intros chunks final. rewrite streamTokens_open. cbn [fst].
    unfold received. rewrite map_app, deliverAll_app.
    fold (received (flat_map (fun c => if isEmpty (Chat.tokenOf c) then []
                                       else [Chat.token_event (Chat.tokenOf c)]) chunks)).
    now rewrite (deliver_tokens a documentId chunks p1 pre m0 [] Hes Hmsgs Hpre Hm0). }
  exists p1.
  unfold Chat.chatStream. rewrite Hhead. fold search.
  destruct search as [results|err] eqn:Esearch.
  2:{ (* the search fails *)
    eexists. split; [exact Hsubmit|]. split; [reflexivity|].
    destruct (Hearly err) as (Hs & He & text & cites & Hmsg & Hshown).
    split; [exact Hs|]. split; [exact He|].
    exists text, cites. split; [exact Hmsg|]. split; [|split].
    - intros results chunks Hr. discriminate Hr.
    - intros err' [Hr | (results & Hr & _)] Hb; [|discriminate Hr].
      injection Hr as <-. now apply Hshown.
    - intros results chunks err' Hr. discriminate Hr. }
  destruct (chatLlm (Chat.promptOf q results)) as [[chunks failure]|err] eqn:Ellm.
  2:{ (* the model rejects the prompt *)
    eexists. split; [exact Hsubmit|]. split; [reflexivity|].
    destruct (Hearly err) as (Hs & He & text & cites & Hmsg & Hshown).
    split; [exact Hs|]. split; [exact He|].
    exists text, cites. split; [exact Hmsg|]. split; [|split].
    - intros results' chunks Hr. injection Hr as <-. rewrite Ellm. discriminate.
    - intros err' [Hr | (results' & Hr & [Hl | (chunks & Hl & _)])] Hb;
        [discriminate Hr | | ]; injection Hr as <-; rewrite Ellm in Hl;
        [|discriminate Hl].
      injection Hl as <-. now apply Hshown.
    - intros results' chunks err' Hr. injection Hr as <-. rewrite Ellm. discriminate. }
  assert (Hopen : Chat.streamTokens None 0 chunks
                  = (fst (Chat.streamTokens None 0 chunks), false)).
  { now rewrite streamTokens_open. }
  rewrite Hopen. cbv beta iota.
  set (m1 := Chat.with_content (textOf chunks) m0).
  set (p1' := Chat.set_chatMessages (pre ++ [m1]) p1).
  assert (Hes' : Chat.eventSource p1' = Some (a, documentId)) by reflexivity.
  assert (Hmsgs' : Chat.chatMessages p1' = pre ++ m1 :: []) by reflexivity.
  assert (Hm1 : Chat.msg_id m1 = a) by reflexivity.
  destruct failure as [err|].
  - (* the stream fails *)
    eexists. split; [exact Hsubmit|]. split; [reflexivity|].
    cbv zeta. rewrite Htokens. fold m1 p1'.
    destruct (deliver_error a documentId (Chat.messageOf err) p1' pre m1 []
                Hes' Hmsgs' Hpre Hm1) as (Hs & He & Herr & Hmsg & Hv).
    split; [exact Hs|]. split; [exact He|].
    exists (if Chat.blank (textOf chunks)
            then (if Chat.blank (of_string (Chat.messageOf err)) then Chat.failedText
                  else Chat.failedWith ++ of_string (Chat.messageOf err))
            else textOf chunks), None.
    split.
    { etransitivity; [exact Hmsg|]. unfold pre. rewrite <- app_assoc. cbn [app].
      unfold Chat.orIfBlank, m1, m0, Chat.with_content.
      cbn [Chat.msg_id Chat.role Chat.citations Chat.content].
      destruct (Chat.blank (textOf chunks)); reflexivity. }
    split; [|split].
    + intros results' chunks' Hr. injection Hr as <-. rewrite Ellm. discriminate.
    + intros err' [Hr | (results' & Hr & [Hl | (chunks' & Hl & Hbl)])] Hb;
        [discriminate Hr | | ]; injection Hr as <-; rewrite Ellm in Hl;
        [discriminate Hl|].
      injection Hl as <- <-. rewrite Hbl, Hb in *.
      repeat split; [exact Herr | exact Hv].
    + intros results' chunks' err' Hr. injection Hr as <-. rewrite Ellm.
      intros Hl Hbl. injection Hl as <- <-. rewrite Hbl.
      repeat split. exact Hv.
  - (* the stream ends *)
    cbn [Chat.isClosed].
    eexists. split; [exact Hsubmit|]. split; [reflexivity|].
    cbv zeta. rewrite Htokens. fold m1 p1'.
    destruct (deliver_done a documentId (map Chat.citationOf results) p1' pre m1 []
                Hes' Hmsgs' Hpre Hm1) as (Hs & He & Herr & Hmsg & Hv).
    split; [exact Hs|]. split; [exact He|].
    exists (textOf chunks),
           (match results with [] => None | _ => Some (map Chat.citationOf results) end).
    split.
    { etransitivity; [exact Hmsg|]. unfold pre. rewrite <- app_assoc. cbn [app].
      unfold m1, m0, Chat.with_content, Chat.with_citations.
      cbn [Chat.msg_id Chat.role Chat.citations Chat.content].
      destruct results; cbn [map]; reflexivity. }
    split; [|split].
    + intros results' chunks' Hr. injection Hr as <-. rewrite Ellm.
      intros Hl. injection Hl as <-.
      split; [now destruct results|]. split; [now destruct results|].
      split; [exact Herr|]. rewrite Hv. now destruct results.
    + intros err' [Hr | (results' & Hr & [Hl | (chunks' & Hl & _)])] Hb;
        [discriminate Hr | | ]; injection Hr as <-; rewrite Ellm in Hl; discriminate Hl.
    + intros results' chunks' err' Hr. injection Hr as <-. rewrite Ellm. discriminate.
Qed.

Lemma chat_answer_witness :
  exists p1 frames,
    Chat.handleChatSubmit 1700000000000 1700000000001 samplePageState
    = (p1, Some (of_string "cd"))
    /\ Chat.chatStream (fun s => s) sampleStore failingGeneration sampleLlm None
         (Some (of_string "http://localhost:3000")) "doc" (of_string "cd") None None
       = Chat.Stream (of_string "http://localhost:3000") frames true
    /\ Chat.chatMessages (Chat.deliverAll (received frames) p1)
       = [ {| Chat.msg_id := "1700000000000-user"; Chat.role := Chat.user;
              Chat.content := of_string "cd"; Chat.citations := None |};
           {| Chat.msg_id := "1700000000001-assistant"; Chat.role := Chat.assistant;
              Chat.content := of_string "It works.";
              Chat.citations :=
                Some [ {| Chat.cite_pageNumber := 1;
                          Chat.cite_regionIds := [Some "r0"; Some "r1"; Some "r2"] |} ] |} ]
    /\ Viewer.activeReference (Chat.viewer (Chat.deliverAll (received frames) p1))
       = Some {| Viewer.documentId := "doc"; Viewer.pageNumber := 1;
                 Viewer.regionIds := [Some "r0"; Some "r1"; Some "r2"] |}.
Proof.
  destruct (chat_answer_reaches_the_page (fun s => s) sampleStore failingGeneration sampleLlm
              None (Some (of_string "http://localhost:3000"))
              (of_string "http://localhost:3000") "doc" None
              1700000000000 1700000000001 samplePageState)
    as (p1 & frames & Hsubmit & Hstream & _ & _ & text & cites & Hmsgs & Hanswered & _).
  - reflexivity.
  - discriminate.
  - reflexivity.
  - discriminate.
  - constructor.
  - reflexivity.
  - exists p1, frames. split; [exact Hsubmit|]. split; [exact Hstream|].
    destruct (Hanswered
                [ {| Search.documentId := "doc"; Search.pageNumber := 1;
                     Search.snippet := threeLines;
                     Search.regionIds := [Some "r0"; Some "r1"; Some "r2"] |} ]
                [Chat.text_content (of_string "It "); Chat.parts_content [Some (of_string "works.")];
                 Chat.other_content])
      as (Htext & Hcites & _ & Hviewer).
    + vm_compute. reflexivity.
    + reflexivity.
    + split.
      * rewrite Hmsgs, Htext, Hcites. reflexivity.
      * rewrite Hviewer. reflexivity.
Defined.
